(** * Client-side directory operations of the Ceph kernel client

    A shallow embedding of [src/kernel/dir.c]: path construction from the
    dentry tree, the readdir cursor, fragmented directory enumeration,
    lookup completion, the mutating directory operations and dentry
    revalidation.  Pointers are indices into a store of dentries and
    inodes, C integers are [Z] with their wrap-around written out, and the
    kernel services the file calls but does not define (the MDS client,
    the dcache primitives, the allocator) are explicit parts of the state
    or of an environment record. *)

From Stdlib Require Import ZArith Lia Bool List String Ascii.
From stdpp Require Import base list strings.

Local Open Scope Z_scope.

(** * Part I: the embedding *)

(** ** Machine integers *)

Module Int.

(** [unsigned]: 32 bits, arithmetic modulo [2^32]. *)
Definition u32 (z : Z) : Z := z mod 2 ^ 32.

(** [int]: 32 bits, two's complement. *)
Definition s32 (z : Z) : Z := (z + 2 ^ 31) mod 2 ^ 32 - 2 ^ 31.

(** [loff_t] is [long long]: 64 bits, two's complement. *)
Definition s64 (z : Z) : Z := (z + 2 ^ 63) mod 2 ^ 64 - 2 ^ 63.

End Int.

(** ** Constants of the kernel headers *)

Definition EINVAL : Z := 22.
Definition ENOMEM : Z := 12.
Definition ENOENT : Z := 2.
Definition ESTALE : Z := 116.
Definition ENAMETOOLONG : Z := 36.
Definition NAME_MAX : Z := 255.
Definition S_IFMT : Z := 61440.   (* 0170000 *)
Definition S_IFDIR : Z := 16384.  (* 0040000 *)
Definition S_IFBLK : Z := 24576.  (* 0060000 *)
Definition S_IFREG : Z := 32768.  (* 0100000 *)

(** Modelled from the spec: the lease kinds [CEPH_LOCK_DN],
    [CEPH_LOCK_ICONTENT] and [CEPH_LOCK_ILINK] are named in dir.c but the
    header that gives their values is not in the sources; they are taken
    as three distinct single bits that callers combine with [|]. *)
Definition CEPH_LOCK_DN : Z := 1.
Definition CEPH_LOCK_ICONTENT : Z := 4.
Definition CEPH_LOCK_ILINK : Z := 16.

(** The operation codes and replica policies that dir.c passes to
    [ceph_mdsc_create_request]. *)
Inductive mds_op : Type :=
| CEPH_MDS_OP_LSTAT
| CEPH_MDS_OP_READDIR
| CEPH_MDS_OP_MKNOD
| CEPH_MDS_OP_SYMLINK
| CEPH_MDS_OP_MKDIR
| CEPH_MDS_OP_LINK
| CEPH_MDS_OP_UNLINK
| CEPH_MDS_OP_RMDIR
| CEPH_MDS_OP_RENAME.

Inductive mds_mode : Type := USE_AUTH_MDS | USE_ANY_MDS | USE_CAP_MDS.

(** ** The dentry and inode store *)

(** [struct dentry], the fields dir.c reads or writes.  A pointer is an
    index into the store; [None] is [NULL].  The root is its own parent
    ([IS_ROOT]). *)
Record dentry : Type := mk_dentry {
  d_name : string;
  d_parent : option nat;
  d_inode : option nat;
  d_time : Z;
  d_lease : bool;
  d_hashed : bool;
  d_count : Z
}.

(** [struct inode] with the [ceph_inode_info] around it. *)
Record inode : Type := mk_inode {
  i_ino : Z;
  ceph_ino : Z;
  i_mode : Z;
  i_nlink : Z;
  i_count : Z;
  i_version : Z;
  i_lease_mask : Z;
  i_fragtree : list Z
}.

Record world : Type := mk_world {
  dentries : list dentry;
  inodes : list inode
}.

(** [dentry->d_name.len]. *)
Definition d_name_len (d : dentry) : Z := Z.of_nat (String.length (d_name d)).

(** Modelled from the spec: [ceph_dentry_lease_valid] is declared outside
    dir.c; it answers whether the dentry's own lease has not expired, which
    the store records in [d_lease]. *)
Definition ceph_dentry_lease_valid (d : dentry) : bool := d_lease d.

(** Modelled from the spec: [ceph_inode_lease_valid] is declared outside
    dir.c; it answers whether the inode holds an unexpired lease of the
    given kind, which the store records as the bits of [i_lease_mask]. *)
Definition ceph_inode_lease_valid (i : inode) (mask : Z) : bool :=
  negb (Z.land (i_lease_mask i) mask =? 0).

(** ** Requests, replies and the environment *)

(** One entry of a readdir reply: [dir_dname], and the [ino] and [mode]
    of [dir_in]. *)
Record mds_dirent : Type := mk_mds_dirent {
  dn_name : string;
  dn_ino : Z;
  dn_mode : Z
}.

(** [struct ceph_mds_request]: the arguments of
    [ceph_mdsc_create_request], the fields of the request head that dir.c
    fills in, and [r_reply_info]. *)
Record request : Type := mk_request {
  r_op : mds_op;
  r_ino1 : Z;
  r_path1 : option string;
  r_ino2 : Z;
  r_path2 : option string;
  r_ref_dentry : nat;
  r_mode : mds_mode;
  r_args : list Z;
  r_direct_hash : option Z;
  r_last_dentry : option nat;
  r_old_dentry : option nat;
  trace_numd : Z;
  dir_entries : list mds_dirent
}.

(** What the metadata server sends back and what applying the trace does
    to the cache.  [rp_spliced] is the dentry [fill_trace] leaves in
    [r_last_dentry] when it differs from the one the caller put there. *)
Record reply : Type := mk_reply {
  rp_err : Z;
  rp_trace_numd : Z;
  rp_dir : list mds_dirent;
  rp_spliced : option nat;
  rp_fill : world -> world
}.

(** The parts of the system dir.c does not control: other tasks changing
    the dentry tree while a path is being built, the allocator, request
    creation, and the metadata server.  Each is asked at a numbered
    scheduling point. *)
Record env : Type := mk_env {
  race : nat -> world -> world;
  kmalloc_fails : nat -> bool;
  create_request_fails : nat -> option Z;
  mds : nat -> request -> world -> reply
}.

Inductive event : Type :=
| EvDerr (msg : string)
| EvInitDentry (dn : nat)
| EvLeaseRelease (ino : option nat) (dn : option nat) (mask : Z)
| EvCreateRequest (op : mds_op) (ref : nat) (mode : mds_mode)
| EvDispatch (r : request) (before : world)
| EvPutRequest (op : mds_op).

Record sys : Type := mk_sys {
  cache : world;
  trace : list event;
  tick : nat
}.

(** ** The monad of kernel code

    A computation either returns a value and a new state, or faults on a
    bad pointer ([Oops], with the state reached), or runs out of fuel
    ([Hang]). *)

Inductive res (A : Type) : Type :=
| Done (a : A) (s : sys)
| Oops (s : sys)
| Hang.

Arguments Done {A} a s.
Arguments Oops {A} s.
Arguments Hang {A}.

Definition K (A : Type) : Type := sys -> res A.

Definition ret {A : Type} (a : A) : K A := fun s => Done a s.

Definition bind {A B : Type} (m : K A) (f : A -> K B) : K B := fun s =>
  match m s with
  | Done a s' => f a s'
  | Oops s' => Oops s'
  | Hang => Hang
  end.

Declare Scope K_scope.
Delimit Scope K_scope with K.
Bind Scope K_scope with K.

Notation "x ← y ; z" := (bind y (fun x => z))
  (at level 20, y at level 100, z at level 200, only parsing) : K_scope.
Notation "' x ← y ; z" := (bind y (fun x => z))
  (at level 20, x pattern, y at level 100, z at level 200, only parsing)
  : K_scope.
Notation "y ;; z" := (bind y (fun _ => z))
  (at level 100, z at level 200, only parsing, right associativity)
  : K_scope.

Local Open Scope K_scope.

Definition oops {A : Type} : K A := fun s => Oops s.
Definition hang {A : Type} : K A := fun _ => Hang.

Definition get_cache : K world := fun s => Done (cache s) s.

Definition put_cache (w : world) : K unit := fun s =>
  Done tt (mk_sys w (trace s) (tick s)).

Definition emit (ev : event) : K unit := fun s =>
  Done tt (mk_sys (cache s) (trace s ++ [ev]) (tick s)).

(** Take the number of the current scheduling point and move to the next. *)
Definition next_tick : K nat := fun s =>
  Done (tick s) (mk_sys (cache s) (trace s) (S (tick s))).

(** A point where other tasks may run. *)
Definition sched (e : env) : K unit :=
  n ← next_tick; w ← get_cache; put_cache (race e n w).

(** Dereferencing: [NULL] and pointers outside the store fault. *)
Definition get_dentry (p : nat) : K dentry :=
  w ← get_cache;
  match dentries w !! p with Some d => ret d | None => oops end.

Definition get_inode (p : nat) : K inode :=
  w ← get_cache;
  match inodes w !! p with Some i => ret i | None => oops end.

Definition deref {A : Type} (get : nat -> K A) (p : option nat) : K A :=
  match p with Some q => get q | None => oops end.

Definition set_dentry (p : nat) (f : dentry -> dentry) : K unit :=
  d ← get_dentry p;
  w ← get_cache;
  put_cache (mk_world (<[p := f d]> (dentries w)) (inodes w)).

Definition set_inode (p : nat) (f : inode -> inode) : K unit :=
  i ← get_inode p;
  w ← get_cache;
  put_cache (mk_world (dentries w) (<[p := f i]> (inodes w))).

Definition with_hashed (b : bool) (d : dentry) : dentry :=
  mk_dentry (d_name d) (d_parent d) (d_inode d) (d_time d) (d_lease d) b
    (d_count d).

Definition with_inode (i : option nat) (d : dentry) : dentry :=
  mk_dentry (d_name d) (d_parent d) i (d_time d) (d_lease d) (d_hashed d)
    (d_count d).

Definition with_lease (b : bool) (d : dentry) : dentry :=
  mk_dentry (d_name d) (d_parent d) (d_inode d) (d_time d) b (d_hashed d)
    (d_count d).

Definition with_count (c : Z) (d : dentry) : dentry :=
  mk_dentry (d_name d) (d_parent d) (d_inode d) (d_time d) (d_lease d)
    (d_hashed d) c.

Definition with_place (n : string) (p : option nat) (d : dentry) : dentry :=
  mk_dentry n p (d_inode d) (d_time d) (d_lease d) (d_hashed d) (d_count d).

Definition with_nlink (n : Z) (i : inode) : inode :=
  mk_inode (i_ino i) (ceph_ino i) (i_mode i) n (i_count i) (i_version i)
    (i_lease_mask i) (i_fragtree i).

Definition with_icount (n : Z) (i : inode) : inode :=
  mk_inode (i_ino i) (ceph_ino i) (i_mode i) (i_nlink i) n (i_version i)
    (i_lease_mask i) (i_fragtree i).

Definition with_lease_mask (m : Z) (i : inode) : inode :=
  mk_inode (i_ino i) (ceph_ino i) (i_mode i) (i_nlink i) (i_count i)
    (i_version i) m (i_fragtree i).

(** ** The dcache and inode primitives of the kernel *)

Definition d_drop (p : option nat) : K unit :=
  d ← deref get_dentry p;
  match p with Some q => set_dentry q (with_hashed false) | None => oops end.

Definition d_rehash (p : option nat) : K unit :=
  d ← deref get_dentry p;
  match p with Some q => set_dentry q (with_hashed true) | None => oops end.

Definition d_instantiate (p : nat) (i : option nat) : K unit :=
  set_dentry p (with_inode i).

Definition d_add (p : nat) (i : option nat) : K unit :=
  d_instantiate p i;; d_rehash (Some p).

(** [d_alloc]: a fresh, unhashed, negative dentry under [parent], or
    [NULL] when the allocator has nothing to give.  The reference it
    takes on the parent is not tracked. *)
Definition d_alloc (e : env) (parent : option nat) (name : string)
  : K (option nat) :=
  n ← next_tick;
  if kmalloc_fails e n then ret None else
  w ← get_cache;
  put_cache (mk_world
               (dentries w ++ [mk_dentry name parent None 0 false false 1])
               (inodes w));;
  ret (Some (length (dentries w))).

Definition dget (p : option nat) : K unit :=
  match p with
  | Some q => d ← get_dentry q; set_dentry q (with_count (d_count d + 1))
  | None => ret tt
  end.

Definition dput (p : option nat) : K unit :=
  match p with
  | Some q => d ← get_dentry q; set_dentry q (with_count (d_count d - 1))
  | None => ret tt
  end.

(** [d_move]: the moved dentry takes the target's name and parent, the
    target takes the old ones and is unhashed. *)
Definition d_move (old new : nat) : K unit :=
  o ← get_dentry old;
  n ← get_dentry new;
  set_dentry new (fun d => with_hashed false
                    (with_place (d_name o)
                       (if decide (d_parent o = Some old) then Some new
                        else d_parent o) d));;
  set_dentry old (fun d => with_hashed true
                    (with_place (d_name n) (d_parent n) d)).

(** [inc_nlink] and [drop_nlink]: [i_nlink] is an [unsigned int], so the
    count wraps around at [2^32] and below 0. *)
Definition inc_nlink (i : nat) : K unit :=
  x ← get_inode i; set_inode i (with_nlink (Int.u32 (x.(i_nlink) + 1))).

Definition drop_nlink (i : nat) : K unit :=
  x ← get_inode i; set_inode i (with_nlink (Int.u32 (x.(i_nlink) - 1))).

Definition atomic_inc_i_count (i : nat) : K unit :=
  x ← get_inode i; set_inode i (with_icount (x.(i_count) + 1)).

(** [IS_ROOT(x)] is [x == x->d_parent]. *)
Definition IS_ROOT (p : nat) : K bool :=
  d ← get_dentry p;
  ret (bool_decide (d_parent d = Some p)).

(** ** [ceph_dentry_revalidate] (dir.c, lines 630-656) *)

Definition ceph_dentry_revalidate (dentry : nat) : K Z :=
  d ← get_dentry dentry;
  parent ← deref get_dentry (d_parent d);
  dir ← deref get_inode (d_inode parent);
  if (i_version dir =? d_time d)
     && ceph_inode_lease_valid dir CEPH_LOCK_ICONTENT
  then ret 1
  else if ceph_dentry_lease_valid d
  then ret 1
  else d_drop (Some dentry);; ret 0.

(** ** [ceph_build_dentry_path] (dir.c, lines 15-95) *)

(** The heap block behind [path]: a cell is [None] until it is written. *)
Abbreviation buffer := (list (option ascii)).

Definition NUL : ascii := Ascii.zero.

(** [kmalloc(size, GFP_NOFS)]: a negative [int] size is a huge [size_t]
    and cannot be served. *)
Definition kmalloc (e : env) (size : Z) : K (option buffer) :=
  n ← next_tick;
  if (size <? 0) || kmalloc_fails e n then ret None
  else ret (Some (replicate (Z.to_nat size) None)).

(** [path[i] = c]; a store outside the block faults. *)
Definition poke (path : buffer) (i : Z) (c : ascii) : K buffer :=
  if (0 <=? i) && (i <? Z.of_nat (length path))
  then ret (<[Z.to_nat i := Some c]> path)
  else oops.

Fixpoint write_bytes (path : buffer) (pos : Z) (l : list ascii) : K buffer :=
  match l with
  | [] => ret path
  | c :: l' => path' ← poke path pos c; write_bytes path' (pos + 1) l'
  end.

(** The characters of a C string: those before the first [NUL]. *)
Fixpoint c_chars (l : list ascii) : list ascii :=
  match l with
  | [] => []
  | c :: l' => if Ascii.eqb c NUL then [] else c :: c_chars l'
  end.

(** [strncpy(path + pos, src, n)]: [n] bytes are written, the characters
    of [src] and then [NUL] padding. *)
Definition strncpy (path : buffer) (pos : Z) (src : string) (n : Z) : K buffer :=
  let chars := c_chars (list_ascii_of_string src) in
  write_bytes path pos
    (take (Z.to_nat n) (chars ++ replicate (Z.to_nat n) NUL)).

Inductive path_result : Type :=
| PathErr (errno : Z)
| PathOk (path : buffer) (plen : Z) (base : Z).

(** The first loop: from [temp] towards the root, adding up the length.
    Other tasks run between its iterations.  The loop leaves nothing but a
    number, and what is proved below of a tree that changes meanwhile holds
    for whatever number it leaves. *)
Fixpoint build_path_len_loop (e : env) (fuel : nat) (temp : nat) (len : Z)
  : K (Z + Z) :=
  match fuel with
  | O => hang
  | S fuel' =>
    sched e;;
    root ← IS_ROOT temp;
    if root then ret (inr len) else
    t ← get_dentry temp;
    stop ← match d_inode t with
           | Some _ => ok ← ceph_dentry_revalidate temp; ret (ok =? 0)
           | None => ret false
           end;
    if stop then ret (inr len) else
    t ← get_dentry temp;
    let len := Int.s32 (len + Int.u32 (1 + d_name_len t)) in
    match d_parent t with
    | None => emit (EvDerr "corrupt dentry");; ret (inl (- EINVAL))
    | Some parent => build_path_len_loop e fuel' parent len
    end
  end.

(** The second loop: from [temp] towards the root, writing each name and
    the separator in front of it, from the end of [path] backwards.  The
    code holds no lock: [temp->d_name.len] is read for [pos], then
    [temp->d_name.name] and [temp->d_name.len] are read again for
    [strncpy], then [temp->d_parent], and other tasks may run before each
    of these reads.  The two arguments of [strncpy] are read in the order
    in which they are written (C leaves that order open), and the bytes of
    the name are taken as they are when the pointer [d_name.name] is
    read. *)
Fixpoint build_path_fill_loop (e : env) (fuel : nat) (temp : nat) (pos : Z)
    (path : buffer) : K (Z + nat * Z * buffer) :=
  match fuel with
  | O => hang
  | S fuel' =>
    sched e;;
    root ← IS_ROOT temp;
    if root || (pos =? 0) then ret (inr (temp, pos, path)) else
    sched e;;
    t ← get_dentry temp;
    let pos := Int.s32 (pos - d_name_len t) in
    if pos <? 0 then ret (inr (temp, pos, path)) else
    sched e;;
    src ← get_dentry temp;
    sched e;;
    n ← get_dentry temp;
    path ← strncpy path pos (d_name src) (d_name_len n);
    '(pos, path) ← (if pos =? 0 then ret (pos, path)
                    else path ← poke path (Int.s32 (pos - 1)) "/"%char;
                         ret (Int.s32 (pos - 1), path));
    sched e;;
    t ← get_dentry temp;
    match d_parent t with
    | None => emit (EvDerr "corrupt dentry");; ret (inl (- EINVAL))
    | Some parent => build_path_fill_loop e fuel' parent pos path
    end
  end.

(** One round per [goto retry]. *)
Fixpoint build_path_retry (e : env) (fuel : nat) (retries : nat)
    (dentry : nat) : K path_result :=
  match retries with
  | O => hang
  | S retries' =>
    r ← build_path_len_loop e fuel dentry 0;
    match r with
    | inl err => ret (PathErr err)
    | inr len =>
      let len := if len =? 0 then len else Int.s32 (len - 1) in
      mem ← kmalloc e (Int.s32 (len + 1));
      match mem with
      | None => ret (PathErr (- ENOMEM))
      | Some path =>
        let pos := len in
        path ← poke path pos NUL;
        r ← build_path_fill_loop e fuel dentry pos path;
        match r with
        | inl err => ret (PathErr err)
        | inr (temp, pos, path) =>
          if negb (pos =? 0) then
            emit (EvDerr "did not end path lookup where expected");;
            build_path_retry e fuel retries' dentry
          else
            t ← get_dentry temp;
            i ← deref get_inode (d_inode t);
            ret (PathOk path len (ceph_ino i))
        end
      end
    end
  end.

Definition ceph_build_dentry_path (e : env) (fuel : nat) (dentry : option nat)
  : K path_result :=
  match dentry with
  | None => ret (PathErr (- EINVAL))
  | Some d => build_path_retry e fuel fuel d
  end.

(** The C string held by a block: the characters before the first [NUL];
    [None] when an unwritten cell or the end of the block comes first. *)
Fixpoint c_string (path : buffer) : option string :=
  match path with
  | [] => None
  | None :: _ => None
  | Some c :: rest =>
    if Ascii.eqb c NUL then Some EmptyString
    else match c_string rest with
         | Some s => Some (String c s)
         | None => None
         end
  end.

(** ** The MDS client interface used by dir.c *)

(** Modelled from the spec: [CEPH_STAT_MASK_INODE_ALL] is defined in a
    header that is not in the sources; dir.c only stores it in the request
    head. *)
Definition CEPH_STAT_MASK_INODE_ALL : Z := 127.

(** Modelled from the spec: [ceph_mdsc_create_request] is defined outside
    dir.c.  It builds the operation descriptor from the opcode, the two
    path-or-identity operands, the reference dentry and the replica policy,
    or fails with an error pointer. *)
Definition ceph_mdsc_create_request (e : env) (op : mds_op) (ino1 : Z)
    (path1 : option string) (ino2 : Z) (path2 : option string) (ref : nat)
    (mode : mds_mode) : K (Z + request) :=
  n ← next_tick;
  match create_request_fails e n with
  | Some err => ret (inl err)
  | None =>
    emit (EvCreateRequest op ref mode);;
    ret (inr (mk_request op ino1 path1 ino2 path2 ref mode [] None None None
                0 []))
  end.

Definition with_args (a : list Z) (r : request) : request :=
  mk_request (r_op r) (r_ino1 r) (r_path1 r) (r_ino2 r) (r_path2 r)
    (r_ref_dentry r) (r_mode r) a (r_direct_hash r) (r_last_dentry r)
    (r_old_dentry r) (trace_numd r) (dir_entries r).

Definition with_direct_hash (h : Z) (r : request) : request :=
  mk_request (r_op r) (r_ino1 r) (r_path1 r) (r_ino2 r) (r_path2 r)
    (r_ref_dentry r) (r_mode r) (r_args r) (Some h) (r_last_dentry r)
    (r_old_dentry r) (trace_numd r) (dir_entries r).

Definition with_last_dentry (d : option nat) (r : request) : request :=
  mk_request (r_op r) (r_ino1 r) (r_path1 r) (r_ino2 r) (r_path2 r)
    (r_ref_dentry r) (r_mode r) (r_args r) (r_direct_hash r) d
    (r_old_dentry r) (trace_numd r) (dir_entries r).

Definition with_old_dentry (d : option nat) (r : request) : request :=
  mk_request (r_op r) (r_ino1 r) (r_path1 r) (r_ino2 r) (r_path2 r)
    (r_ref_dentry r) (r_mode r) (r_args r) (r_direct_hash r)
    (r_last_dentry r) d (trace_numd r) (dir_entries r).

Definition with_reply (rp : reply) (r : request) : request :=
  mk_request (r_op r) (r_ino1 r) (r_path1 r) (r_ino2 r) (r_path2 r)
    (r_ref_dentry r) (r_mode r) (r_args r) (r_direct_hash r)
    (match rp_spliced rp with
     | Some d => Some d
     | None => r_last_dentry r
     end)
    (r_old_dentry r) (rp_trace_numd rp) (rp_dir rp).

(** Modelled from the spec: [ceph_mdsc_do_request] is defined outside
    dir.c.  It sends the request, blocks until the reply arrives, applies
    the trace of the reply to the cache and returns the status; the event
    keeps the state of the cache at the moment of sending. *)
Definition ceph_mdsc_do_request (e : env) (req : request) : K (Z * request) :=
  n ← next_tick;
  w ← get_cache;
  emit (EvDispatch req w);;
  let rp := mds e n req w in
  put_cache (rp_fill rp w);;
  ret (rp_err rp, with_reply rp req).

(** Modelled from the spec: [ceph_mdsc_put_request] is defined outside
    dir.c; by the comments at its call sites it drops the references the
    request holds on [r_last_dentry] and [r_old_dentry]. *)
Definition ceph_mdsc_put_request (req : request) : K unit :=
  emit (EvPutRequest (r_op req));;
  dput (r_last_dentry req);;
  dput (r_old_dentry req).

(** Modelled from the spec: [ceph_mdsc_lease_release] is defined outside
    dir.c.  It is the client-initiated revocation: the leases of the given
    kinds on the inode stop being valid, and so does the dentry's own lease
    when a dentry is given and [CEPH_LOCK_DN] is among the kinds. *)
Definition ceph_mdsc_lease_release (ino : option nat) (dn : option nat)
    (mask : Z) : K unit :=
  emit (EvLeaseRelease ino dn mask);;
  i ← deref get_inode ino;
  match ino with
  | Some q => set_inode q (with_lease_mask (Z.ldiff (i_lease_mask i) mask))
  | None => oops
  end;;
  match dn with
  | Some d =>
    if Z.land mask CEPH_LOCK_DN =? 0 then ret tt
    else set_dentry d (with_lease false)
  | None => ret tt
  end.

(** Modelled from the spec: [ceph_init_dentry] is defined outside dir.c;
    it prepares the Ceph-private part of a dentry and leaves its name,
    parent, inode and hash state alone. *)
Definition ceph_init_dentry (dn : nat) : K unit :=
  emit (EvInitDentry dn).

(** ** Lookup (dir.c, lines 248-326) *)

(** A [struct dentry *] result: [ERR_PTR], or a pointer that may be
    [NULL]. *)
Inductive dentry_ptr : Type :=
| ErrPtr (errno : Z)
| Ptr (p : option nat).

(** [IS_ERR]: the pointer lies among the last [MAX_ERRNO] addresses, that
    is, it is [ERR_PTR] of a value from [-MAX_ERRNO] to [-1]. *)
Definition MAX_ERRNO : Z := 4095.

Definition IS_ERR (d : dentry_ptr) : bool :=
  match d with
  | ErrPtr err => (- MAX_ERRNO <=? err) && (err <? 0)
  | Ptr _ => false
  end.

Definition ceph_finish_lookup (e : env) (req : request) (dentry : nat)
    (err : Z) : K (dentry_ptr * request) :=
  '(req, err) ←
    (if err =? - ENOENT then
       req ← (if trace_numd req =? 0 then
                ceph_init_dentry dentry;;
                d ← get_dentry dentry;
                match d_inode d with
                | Some _ =>
                  d_drop (Some dentry);;
                  n ← d_alloc e (d_parent d) (d_name d);
                  d_rehash n;;
                  ret (with_last_dentry n req)
                | None => d_add dentry None;; ret req
                end
              else ret req);
       ret (req, 0)
     else ret (req, err));
  if negb (err =? 0) then ret (ErrPtr err, req)
  else if negb (bool_decide (r_last_dentry req = Some dentry)) then
    dget (r_last_dentry req);;
    ret (Ptr (r_last_dentry req), req)
  else ret (Ptr None, req).

Definition ceph_do_lookup (e : env) (fuel : nat) (dentry : nat) (mask : Z)
    (on_inode : bool) : K dentry_ptr :=
  d ← get_dentry dentry;
  if d_name_len d >? NAME_MAX then ret (ErrPtr (- ENAMETOOLONG)) else
  r ← (if on_inode then
         i ← deref get_inode (d_inode d);
         r ← ceph_mdsc_create_request e CEPH_MDS_OP_LSTAT (ceph_ino i) None
               0 None dentry USE_CAP_MDS;
         ret (inr r)
       else
         p ← ceph_build_dentry_path e fuel (Some dentry);
         match p with
         | PathErr err => ret (inl err)
         | PathOk path pathlen pathbase =>
           r ← ceph_mdsc_create_request e CEPH_MDS_OP_LSTAT pathbase
                 (c_string path) 0 None dentry USE_ANY_MDS;
           ret (inr r)
         end);
  match r with
  | inl err => ret (ErrPtr err)
  | inr (inl err) => ret (ErrPtr err)
  | inr (inr req) =>
    let req := with_args [Int.u32 mask] req in
    dget (Some dentry);;
    let req := with_last_dentry (Some dentry) req in
    '(err, req) ← ceph_mdsc_do_request e req;
    '(result, req) ← ceph_finish_lookup e req dentry err;
    ceph_mdsc_put_request req;;
    ret result
  end.

(** ** The mutating operations (dir.c, lines 346-626) *)

Definition ceph_mknod (e : env) (fuel : nat) (dir dentry : nat) (mode rdev : Z)
  : K Z :=
  p ← ceph_build_dentry_path e fuel (Some dentry);
  match p with
  | PathErr err => ret err
  | PathOk path pathlen pathbase =>
    r ← ceph_mdsc_create_request e CEPH_MDS_OP_MKNOD pathbase (c_string path)
          0 None dentry USE_AUTH_MDS;
    match r with
    | inl err => d_drop (Some dentry);; ret err
    | inr req =>
      ceph_mdsc_lease_release (Some dir) None CEPH_LOCK_ICONTENT;;
      let req := with_args [Int.u32 mode; Int.u32 rdev] req in
      '(err, req) ← ceph_mdsc_do_request e req;
      '(err, dentry') ←
        (if (err =? 0) && (trace_numd req =? 0) then
           d ← ceph_do_lookup e fuel dentry CEPH_STAT_MASK_INODE_ALL false;
           match d with
           | Ptr None => ret (err, Some dentry)
           | Ptr (Some q) => dput (Some q);; ret (- ESTALE, None)
           | ErrPtr _ => oops
           end
         else ret (err, Some dentry));
      ceph_mdsc_put_request req;;
      (if negb (err =? 0) then d_drop dentry' else ret tt);;
      ret err
    end
  end.

Definition ceph_symlink (e : env) (fuel : nat) (dir dentry : nat)
    (dest : string) : K Z :=
  p ← ceph_build_dentry_path e fuel (Some dentry);
  match p with
  | PathErr err => ret err
  | PathOk path pathlen pathbase =>
    r ← ceph_mdsc_create_request e CEPH_MDS_OP_SYMLINK pathbase
          (c_string path) 0 (Some dest) dentry USE_AUTH_MDS;
    match r with
    | inl err => d_drop (Some dentry);; ret err
    | inr req =>
      ceph_mdsc_lease_release (Some dir) None CEPH_LOCK_ICONTENT;;
      '(err, req) ← ceph_mdsc_do_request e req;
      ceph_mdsc_put_request req;;
      (if negb (err =? 0) then d_drop (Some dentry) else ret tt);;
      ret err
    end
  end.

Definition ceph_mkdir (e : env) (fuel : nat) (dir dentry : nat) (mode : Z)
  : K Z :=
  p ← ceph_build_dentry_path e fuel (Some dentry);
  match p with
  | PathErr err => ret err
  | PathOk path pathlen pathbase =>
    r ← ceph_mdsc_create_request e CEPH_MDS_OP_MKDIR pathbase (c_string path)
          0 None dentry USE_AUTH_MDS;
    match r with
    | inl err => d_drop (Some dentry);; ret err
    | inr req =>
      ceph_mdsc_lease_release (Some dir) None CEPH_LOCK_ICONTENT;;
      let req := with_args [Int.u32 mode] req in
      '(err, req) ← ceph_mdsc_do_request e req;
      ceph_mdsc_put_request req;;
      (if err <? 0 then d_drop (Some dentry) else ret tt);;
      ret err
    end
  end.

Definition ceph_link (e : env) (fuel : nat) (old_dentry dir dentry : nat)
  : K Z :=
  p ← ceph_build_dentry_path e fuel (Some old_dentry);
  match p with
  | PathErr err => ret err
  | PathOk oldpath oldpathlen oldpathbase =>
    p ← ceph_build_dentry_path e fuel (Some dentry);
    match p with
    | PathErr err => ret err
    | PathOk path pathlen pathbase =>
      r ← ceph_mdsc_create_request e CEPH_MDS_OP_LINK pathbase (c_string path)
            oldpathbase (c_string oldpath) dentry USE_AUTH_MDS;
      match r with
      | inl err => d_drop (Some dentry);; ret err
      | inr req =>
        dget (Some dentry);;
        let req := with_last_dentry (Some dentry) req in
        ceph_mdsc_lease_release (Some dir) None CEPH_LOCK_ICONTENT;;
        '(err, req) ← ceph_mdsc_do_request e req;
        ceph_mdsc_put_request req;;
        (if negb (err =? 0) then d_drop (Some dentry)
         else if trace_numd req =? 0 then
           od ← get_dentry old_dentry;
           let inode := d_inode od in
           deref inc_nlink inode;;
           deref atomic_inc_i_count inode;;
           dget (Some dentry);;
           d_instantiate dentry inode
         else ret tt);;
        ret err
      end
    end
  end.

Definition ceph_unlink (e : env) (fuel : nat) (dir dentry : nat) : K Z :=
  d ← get_dentry dentry;
  let inode := d_inode d in
  i ← deref get_inode inode;
  let op := if Z.land (i_mode i) S_IFMT =? S_IFDIR
            then CEPH_MDS_OP_RMDIR else CEPH_MDS_OP_UNLINK in
  p ← ceph_build_dentry_path e fuel (Some dentry);
  match p with
  | PathErr err => ret err
  | PathOk path pathlen pathbase =>
    r ← ceph_mdsc_create_request e op pathbase (c_string path) 0 None dentry
          USE_AUTH_MDS;
    match r with
    | inl err => ret err
    | inr req =>
      ceph_mdsc_lease_release (Some dir) (Some dentry)
        (Z.lor CEPH_LOCK_DN CEPH_LOCK_ICONTENT);;
      ceph_mdsc_lease_release inode None CEPH_LOCK_ILINK;;
      '(err, req) ← ceph_mdsc_do_request e req;
      ceph_mdsc_put_request req;;
      (if err =? - ENOENT then ret tt
       else if trace_numd req =? 0 then
         d ← get_dentry dentry;
         deref drop_nlink (d_inode d);;
         dput (Some dentry)
       else ret tt);;
      ret err
    end
  end.

Definition ceph_rename (e : env) (fuel : nat) (old_dir old_dentry new_dir
    new_dentry : nat) : K Z :=
  p ← ceph_build_dentry_path e fuel (Some old_dentry);
  match p with
  | PathErr err => ret err
  | PathOk oldpath oldpathlen oldpathbase =>
    p ← ceph_build_dentry_path e fuel (Some new_dentry);
    match p with
    | PathErr err => ret err
    | PathOk newpath newpathlen newpathbase =>
      r ← ceph_mdsc_create_request e CEPH_MDS_OP_RENAME oldpathbase
            (c_string oldpath) newpathbase (c_string newpath) new_dentry
            USE_AUTH_MDS;
      match r with
      | inl err => ret err
      | inr req =>
        dget (Some old_dentry);;
        let req := with_old_dentry (Some old_dentry) req in
        dget (Some new_dentry);;
        let req := with_last_dentry (Some new_dentry) req in
        ceph_mdsc_lease_release (Some old_dir) (Some old_dentry)
          (Z.lor CEPH_LOCK_DN CEPH_LOCK_ICONTENT);;
        nd ← get_dentry new_dentry;
        match d_inode nd with
        | Some _ => ceph_mdsc_lease_release (d_inode nd) None CEPH_LOCK_ILINK
        | None => ret tt
        end;;
        '(err, req) ← ceph_mdsc_do_request e req;
        (if (err =? 0) && (trace_numd req =? 0) then
           nd ← get_dentry new_dentry;
           match d_inode nd with
           | Some _ => dput (Some new_dentry)
           | None => ret tt
           end;;
           d_move old_dentry new_dentry
         else ret tt);;
        ceph_mdsc_put_request req;;
        ret err
      end
    end
  end.

(** The slots of [ceph_dir_iops] that dir.c fills with the functions
    above; [lookup], [create] and the attribute operations point outside
    this part of the file. *)
Record inode_operations : Type := mk_inode_operations {
  iop_mknod : env -> nat -> nat -> nat -> Z -> Z -> K Z;
  iop_symlink : env -> nat -> nat -> nat -> string -> K Z;
  iop_mkdir : env -> nat -> nat -> nat -> Z -> K Z;
  iop_link : env -> nat -> nat -> nat -> nat -> K Z;
  iop_unlink : env -> nat -> nat -> nat -> K Z;
  iop_rmdir : env -> nat -> nat -> nat -> K Z;
  iop_rename : env -> nat -> nat -> nat -> nat -> nat -> K Z
}.

Definition ceph_dir_iops : inode_operations :=
  mk_inode_operations ceph_mknod ceph_symlink ceph_mkdir ceph_link
    ceph_unlink ceph_unlink ceph_rename.

(** ** Directory fragments *)

(** Modelled from the spec: the fragment helpers are declared in a header
    that is not in the sources.  A fragment id is a 32-bit word;
    the number of significant bits sits in the top byte and the value in the
    low 24 bits, left-aligned, so that [value & mask == value], the
    leftmost fragment is the one holding hash 0 and the last fragment is the
    one whose value equals its mask. *)
Definition frag_bits (f : Z) : Z := Z.shiftr f 24.

Definition frag_value (f : Z) : Z := Z.land f 16777215.

Definition frag_mask (f : Z) : Z :=
  Z.land (Int.u32 (Z.shiftl 16777215 (24 - frag_bits f))) 16777215.

Definition frag_make (b v : Z) : Z :=
  Int.u32 (Z.lor (Int.u32 (Z.shiftl b 24))
             (Z.land (Z.land v (Int.u32 (Z.shiftl 16777215 (24 - b))))
                16777215)).

Definition frag_next (f : Z) : Z :=
  frag_make (frag_bits f)
    (Int.u32 (frag_value f + Z.shiftr 16777216 (frag_bits f))).

Definition frag_is_leftmost (f : Z) : bool := frag_value f =? 0.

Definition frag_contains_value (f v : Z) : bool :=
  Z.land v (frag_mask f) =? frag_value f.

(** Modelled from the spec: [ceph_choose_frag] is defined outside dir.c;
    it gives the fragment of the directory's fragment tree that contains
    the value of the fragment asked for, and the fragment asked for when
    the tree has none. *)
Definition ceph_choose_frag (i : inode) (f : Z) : Z :=
  match List.find (fun leaf => frag_contains_value leaf (frag_value f))
          (i_fragtree i) with
  | Some leaf => leaf
  | None => f
  end.

(** ** The readdir cursor (dir.c, lines 98-112) *)

(** [make_fpos]: the fragment id goes to the high word of the file
    position and the offset inside the fragment to the low word. *)
Definition make_fpos (frag off : Z) : Z :=
  Int.s64 (Z.lor (Z.shiftl frag 32) off).

(** [fpos_frag]: arithmetic shift of the signed position, truncated to
    [unsigned] by the return type. *)
Definition fpos_frag (p : Z) : Z := Int.u32 (Z.shiftr p 32).

(** [fpos_off]. *)
Definition fpos_off (p : Z) : Z := Int.u32 (Z.land p 4294967295).

(** ** [ceph_readdir] (dir.c, lines 114-215) *)

(** [struct file] with its [ceph_file_info]. *)
Record file : Type := mk_file {
  f_pos : Z;
  f_dentry : nat;
  fi_frag : Z;
  fi_last_readdir : option request
}.

Definition with_pos (p : Z) (f : file) : file :=
  mk_file p (f_dentry f) (fi_frag f) (fi_last_readdir f).

Definition with_last_readdir (r : option request) (f : file) : file :=
  mk_file (f_pos f) (f_dentry f) (fi_frag f) r.

(** [filldir_t]: name, name length, position, inode number and type go
    into the caller's buffer [D]; a negative result means the buffer took
    nothing more. *)
Definition filldir_t (D : Type) : Type :=
  D -> string -> Z -> Z -> Z -> Z -> Z * D.

(** The first part of the [nextfrag] block: fetch the fragment unless
    the cached reply is the one for it. *)
Definition readdir_fetch (e : env) (inode : nat) (filp : file) (frag : Z)
  : K (Z + Z * file) :=
  if negb (fi_frag filp =? frag) || negb (bool_decide (is_Some (fi_last_readdir filp)))
  then
    i ← get_inode inode;
    let frag := ceph_choose_frag i frag in
    r ← ceph_mdsc_create_request e CEPH_MDS_OP_READDIR (ceph_ino i)
          (Some EmptyString) 0 None (f_dentry filp) USE_AUTH_MDS;
    match r with
    | inl err => ret (inl err)
    | inr req =>
      let req := with_direct_hash (frag_value frag) req in
      let req := with_args [frag] req in
      '(err, req) ← ceph_mdsc_do_request e req;
      if err <? 0 then ceph_mdsc_put_request req;; ret (inl err)
      else
        match fi_last_readdir filp with
        | Some old => ceph_mdsc_put_request old
        | None => ret tt
        end;;
        ret (inr (frag, with_last_readdir (Some req) filp))
    end
  else ret (inr (frag, filp)).

(** The [switch (off)] of the leftmost fragment; [inl] is [return 0]. *)
Definition readdir_dots {D : Type} (filldir : filldir_t D) (inode : nat)
    (filp : file) (off : Z) (dirent : D) : K (file * D + Z * file * D) :=
  i ← get_inode inode;
  r ← (if off =? 0 then
         let '(rc, dirent) :=
           filldir dirent "." 1 (make_fpos 0 0) (i_ino i)
             (Z.shiftr (i_mode i) 12) in
         if rc <? 0 then ret (inl (filp, dirent))
         else ret (inr (Int.u32 (off + 1),
                        with_pos (Int.s64 (f_pos filp + 1)) filp, dirent))
       else ret (inr (off, filp, dirent)));
  match r with
  | inl stop => ret (inl stop)
  | inr (off, filp, dirent) =>
    (* [case 1], also reached by falling through from [case 0] *)
    if off =? 1 then
      fd ← get_dentry (f_dentry filp);
      match d_parent fd with
      | Some parent =>
        pd ← get_dentry parent;
        pi ← deref get_inode (d_inode pd);
        let '(rc, dirent) :=
          filldir dirent ".." 2 (make_fpos 0 1) (i_ino pi)
            (Z.shiftr (i_mode i) 12) in
        if rc <? 0 then ret (inl (filp, dirent))
        else ret (inr (Int.u32 (off + 1),
                       with_pos (Int.s64 (f_pos filp + 1)) filp, dirent))
      | None =>
        ret (inr (Int.u32 (off + 1),
                  with_pos (Int.s64 (f_pos filp + 1)) filp, dirent))
      end
    else ret (inr (off, filp, dirent))
  end.

(** The [while (off+skew < rinfo->dir_nr)] loop; [inl] is [return 0]. *)
Fixpoint readdir_entries {D : Type} (fuel : nat) (filldir : filldir_t D)
    (rinfo : list mds_dirent) (frag skew : Z) (filp : file) (off : Z)
    (dirent : D) : K (file * D + Z * file * D) :=
  match fuel with
  | O => hang
  | S fuel' =>
    if Int.u32 (off + skew) <? Z.of_nat (length rinfo) then
      match rinfo !! Z.to_nat (Int.u32 (off + skew)) with
      | None => oops
      | Some entry =>
        let ftype := Int.u32 (Z.shiftr (dn_mode entry) 12) in
        let '(rc, dirent) :=
          filldir dirent (dn_name entry)
            (Z.of_nat (String.length (dn_name entry)))
            (make_fpos frag off) (dn_ino entry) ftype in
        if rc <? 0 then ret (inl (filp, dirent))
        else readdir_entries fuel' filldir rinfo frag skew
               (with_pos (Int.s64 (f_pos filp + 1)) filp)
               (Int.u32 (off + 1)) dirent
      end
    else ret (inr (off, filp, dirent))
  end.

(** The body of the [nextfrag] block: [inl] is [return], [inr] is
    [goto nextfrag] with the next fragment. *)
Definition readdir_round {D : Type} (e : env) (fuel : nat)
    (filldir : filldir_t D) (inode : nat) (filp : file) (frag off : Z)
    (dirent : D) : K (Z * file * D + Z * file * D) :=
  r ← readdir_fetch e inode filp frag;
  match r with
  | inl err => ret (inl (err, filp, dirent))
  | inr (frag, filp) =>
    r ← (if frag_is_leftmost frag then
           r ← readdir_dots filldir inode filp off dirent;
           match r with
           | inl stop => ret (inl stop)
           | inr (off, filp, dirent) =>
             ret (inr (off, filp, dirent, Int.u32 (-2)))
           end
         else ret (inr (off, filp, dirent, 0)));
    match r with
    | inl (filp, dirent) => ret (inl (0, filp, dirent))
    | inr (off, filp, dirent, skew) =>
      match fi_last_readdir filp with
      | None => oops
      | Some last =>
        r ← readdir_entries fuel filldir (dir_entries last) frag skew filp
              off dirent;
        match r with
        | inl (filp, dirent) => ret (inl (0, filp, dirent))
        | inr (off, filp, dirent) =>
          if negb (frag_value frag =? frag_mask frag) then
            let frag := frag_next frag in
            let off := 0 in
            let filp := with_pos (make_fpos frag off) filp in
            ret (inr (frag, filp, dirent))
          else ret (inl (0, filp, dirent))
        end
      end
    end
  end.

(** One round per [goto nextfrag]. *)
Fixpoint readdir_frags {D : Type} (e : env) (fuel : nat) (frags : nat)
    (filldir : filldir_t D) (inode : nat) (filp : file) (frag off : Z)
    (dirent : D) : K (Z * file * D) :=
  match frags with
  | O => hang
  | S frags' =>
    r ← readdir_round e fuel filldir inode filp frag off dirent;
    match r with
    | inl result => ret result
    | inr (frag, filp, dirent) =>
      readdir_frags e fuel frags' filldir inode filp frag 0 dirent
    end
  end.

Definition ceph_readdir {D : Type} (e : env) (fuel : nat) (filp : file)
    (dirent : D) (filldir : filldir_t D) : K (Z * file * D) :=
  fd ← get_dentry (f_dentry filp);
  inode ← deref (fun p => ret p) (d_inode fd);
  let frag := fpos_frag (f_pos filp) in
  let off := fpos_off (f_pos filp) in
  readdir_frags e fuel fuel filldir inode filp frag off dirent.

(** A caller's buffer with room for a fixed number of entries, as
    [getdents] provides: each accepted entry is appended. *)
Record dirbuf : Type := mk_dirbuf {
  room : nat;
  taken : list (string * Z * Z * Z)
}.

Definition filldir (buf : dirbuf) (name : string) (namelen pos ino type : Z)
  : Z * dirbuf :=
  match room buf with
  | O => (- EINVAL, buf)
  | S n => (0, mk_dirbuf n (taken buf ++ [(name, pos, ino, type)]))
  end.

(** ** Fixtures

    A quiet environment: nobody else runs, every allocation and request
    creation succeeds, and the server answers success with a trace. *)
Definition ok_reply : reply := mk_reply 0 1 [] None (fun w => w).

Definition quiet : env :=
  mk_env (fun _ w => w) (fun _ => false) (fun _ => None)
    (fun _ _ _ => ok_reply).

Definition dir_inode (ino version lease : Z) : inode :=
  mk_inode ino ino S_IFDIR 2 1 version lease [].

Definition file_inode (ino : Z) : inode :=
  mk_inode ino ino S_IFREG 1 1 0 0 [].

(** [/usr/lib/x]: every directory holds its content lease and every
    dentry records its parent's version. *)
Definition tree1 : world :=
  mk_world
    [ mk_dentry "/" (Some 0%nat) (Some 0%nat) 0 false true 1;
      mk_dentry "usr" (Some 0%nat) (Some 1%nat) 7 false true 1;
      mk_dentry "lib" (Some 1%nat) (Some 2%nat) 3 false true 1;
      mk_dentry "x" (Some 2%nat) (Some 3%nat) 5 false true 1 ]
    [ dir_inode 1 7 CEPH_LOCK_ICONTENT;
      dir_inode 100 3 CEPH_LOCK_ICONTENT;
      dir_inode 200 5 CEPH_LOCK_ICONTENT;
      file_inode 300 ].

Definition boot (w : world) : sys := mk_sys w [] 0.

Definition result_of {A : Type} (r : res A) : option A :=
  match r with Done a _ => Some a | _ => None end.

Definition path_string (r : path_result) : option string :=
  match r with PathOk p _ _ => c_string p | PathErr _ => None end.

(** A directory [/D] of three entries in two fragments: the lower half of
    the hash space holds [alpha] and [beta], the upper half [gamma]. *)
Definition frag_lo : Z := 16777216.   (* one bit, value 0x000000 *)
Definition frag_hi : Z := 25165824.   (* one bit, value 0x800000 *)

Definition tree_d : world :=
  mk_world
    [ mk_dentry "/" (Some 0%nat) (Some 0%nat) 0 false true 1;
      mk_dentry "D" (Some 0%nat) (Some 1%nat) 7 false true 1 ]
    [ dir_inode 1 7 CEPH_LOCK_ICONTENT;
      mk_inode 40 40 S_IFDIR 2 1 0 0 [frag_lo; frag_hi] ].

Definition listing (frag : Z) : list mds_dirent :=
  if frag =? frag_lo then
    [ mk_mds_dirent "alpha" 41 S_IFREG; mk_mds_dirent "beta" 42 S_IFREG ]
  else if frag =? frag_hi then [ mk_mds_dirent "gamma" 43 S_IFDIR ]
  else [].

Definition mds_d : env :=
  mk_env (fun _ w => w) (fun _ => false) (fun _ => None)
    (fun _ r _ =>
       match r_op r, r_args r with
       | CEPH_MDS_OP_READDIR, [frag] =>
         mk_reply 0 1 (listing frag) None (fun w => w)
       | _, _ => ok_reply
       end).

Definition open_d : file := mk_file 0 1 0 None.

(** What one call of [ceph_readdir] hands to a buffer of [n] entries:
    the return value, the new position and the entries taken. *)
Definition readdir_run (e : env) (w : sys) (filp : file) (n : nat)
  : option (Z * Z * list (string * Z * Z * Z)) :=
  match ceph_readdir e 8 filp (mk_dirbuf n []) filldir w with
  | Done (rc, filp', buf) _ => Some (rc, f_pos filp', taken buf)
  | _ => None
  end.

(** ** Pure readings of the cache *)

(** What [ceph_dentry_revalidate] answers in a given cache, without its
    side effect; [None] when one of its dereferences faults. *)
Definition revalidate_verdict (w : world) (dentry : nat) : option bool :=
  match dentries w !! dentry with
  | None => None
  | Some d =>
    match d_parent d with
    | None => None
    | Some p =>
      match dentries w !! p with
      | None => None
      | Some parent =>
        match d_inode parent with
        | None => None
        | Some di =>
          match inodes w !! di with
          | None => None
          | Some dir =>
            Some ((i_version dir =? d_time d)
                  && ceph_inode_lease_valid dir CEPH_LOCK_ICONTENT
                  || ceph_dentry_lease_valid d)
          end
        end
      end
    end
  end.

(** The trustworthiness check in the words of the specification: the
    recorded parent version equals the parent's version, or the node's own
    lease has not expired. *)
Definition spec_is_trustworthy (w : world) (dentry : nat) : option bool :=
  match dentries w !! dentry with
  | None => None
  | Some d =>
    match d_parent d with
    | None => None
    | Some p =>
      match dentries w !! p with
      | None => None
      | Some parent =>
        match d_inode parent with
        | None => None
        | Some di =>
          match inodes w !! di with
          | None => None
          | Some dir => Some ((i_version dir =? d_time d) || d_lease d)
          end
        end
      end
    end
  end.

(** [/etc] whose parent version matches while the root has lost its
    content lease and [etc] has no lease of its own. *)
Definition tree_no_dir_lease : world :=
  mk_world
    [ mk_dentry "/" (Some 0%nat) (Some 0%nat) 0 false true 1;
      mk_dentry "etc" (Some 0%nat) (Some 1%nat) 7 false true 1 ]
    [ dir_inode 1 7 0; dir_inode 50 2 0 ].


(** ** Pure readings of the dentry tree *)

(** The outcome of walking towards the root in a cache that nobody else
    touches: the names passed, leaf first, and the dentry where the walk
    stopped; or a missing parent; or a bad pointer; or no fuel left. *)
Inductive climb_result : Type :=
| Climbed (names : list string) (stop : nat)
| ClimbCorrupt
| ClimbFault
| ClimbFuel.

(** The walk of the first loop of [ceph_build_dentry_path]: it stops at
    the root and at a dentry that has an inode and fails revalidation; a
    dentry without an inode is passed unchecked. *)
Fixpoint climb (w : world) (fuel : nat) (temp : nat) : climb_result :=
  match fuel with
  | O => ClimbFuel
  | S fuel' =>
    match dentries w !! temp with
    | None => ClimbFault
    | Some t =>
      if bool_decide (d_parent t = Some temp) then Climbed [] temp else
      match (match d_inode t with
             | Some _ => revalidate_verdict w temp
             | None => Some true
             end) with
      | None => ClimbFault
      | Some false => Climbed [] temp
      | Some true =>
        match d_parent t with
        | None => ClimbCorrupt
        | Some parent =>
          match climb w fuel' parent with
          | Climbed names stop => Climbed (d_name t :: names) stop
          | r => r
          end
        end
      end
    end
  end.

(** The walk in the words of the specification, with the target among
    the nodes that are checked: it stops at the root and at the first node
    that is not trustworthy. *)
Fixpoint spec_climb (w : world) (fuel : nat) (temp : nat) : climb_result :=
  match fuel with
  | O => ClimbFuel
  | S fuel' =>
    match dentries w !! temp with
    | None => ClimbFault
    | Some t =>
      if bool_decide (d_parent t = Some temp) then Climbed [] temp else
      match revalidate_verdict w temp with
      | None => ClimbFault
      | Some false => Climbed [] temp
      | Some true =>
        match d_parent t with
        | None => ClimbCorrupt
        | Some parent =>
          match spec_climb w fuel' parent with
          | Climbed names stop => Climbed (d_name t :: names) stop
          | r => r
          end
        end
      end
    end
  end.

(** The same walk with the check applied to proper ancestors only: the
    name of the target is always taken. *)
Definition spec_climb_above (w : world) (fuel : nat) (temp : nat)
  : climb_result :=
  match dentries w !! temp with
  | None => ClimbFault
  | Some t =>
    if bool_decide (d_parent t = Some temp) then Climbed [] temp else
    match d_parent t with
    | None => ClimbCorrupt
    | Some parent =>
      match spec_climb w fuel parent with
      | Climbed names stop => Climbed (d_name t :: names) stop
      | r => r
      end
    end
  end.

(** Names accumulated leaf first, written root to leaf with ['/'] between
    them and none in front. *)
Fixpoint path_chars (names : list string) : list ascii :=
  match names with
  | [] => []
  | n :: rest =>
    match rest with
    | [] => list_ascii_of_string n
    | _ :: _ => path_chars rest ++ "/"%char :: list_ascii_of_string n
    end
  end.

Definition path_of (names : list string) : string :=
  string_of_list_ascii (path_chars names).

(** The sum the first loop adds up: one separator and the name, for every
    name passed. *)
Fixpoint names_total (names : list string) : Z :=
  match names with
  | [] => 0
  | n :: rest => 1 + Z.of_nat (String.length n) + names_total rest
  end.

(** The block that holds a C string and nothing else. *)
Definition c_block (str : string) : buffer :=
  map Some (list_ascii_of_string str ++ [NUL]).

(** What a walk resolves to: the relative path and the inode number of the
    dentry where it stopped. *)
Definition resolution (w : world) (r : climb_result) : option (string * Z) :=
  match r with
  | Climbed names stop =>
    match dentries w !! stop with
    | None => None
    | Some sd =>
      match d_inode sd with
      | None => None
      | Some i =>
        match inodes w !! i with
        | None => None
        | Some si => Some (path_of names, ceph_ino si)
        end
      end
    end
  | _ => None
  end.

(** What a run of [ceph_build_dentry_path] returned: path, length, base. *)
Definition built (r : res path_result) : option (string * Z * Z) :=
  match r with
  | Done (PathOk path plen base) _ =>
    match c_string path with
    | Some str => Some (str, plen, base)
    | None => None
    end
  | _ => None
  end.

(** A name as the VFS hands it over: not empty and without [NUL]. *)
Definition nul_free (n : string) : bool :=
  forallb (fun c => negb (Ascii.eqb c NUL)) (list_ascii_of_string n).

Definition name_ok (n : string) : bool :=
  negb (String.eqb n EmptyString) && nul_free n.

(** Nobody else runs and the allocator never fails. *)
Definition env_static (e : env) : Prop :=
  (forall n w, race e n w = w) /\ (forall n, kmalloc_fails e n = false).



(** A chain of parent links: the names from [t] up to, not including,
    [stop], none of the dentries passed being a root. *)
Inductive ascent (w : world) : nat -> list string -> nat -> Prop :=
| ascent_stop t : ascent w t [] t
| ascent_step t d p names stop :
    dentries w !! t = Some d ->
    d_parent d = Some p ->
    p <> t ->
    ascent w p names stop ->
    ascent w t (d_name d :: names) stop.

(** The part of the cache that the second loop reads. *)
Definition skeleton (w : world) : list (string * option nat * option nat) * list inode :=
  (map (fun d => (d_name d, d_parent d, d_inode d)) (dentries w), inodes w).

(** [/new]: a name that is being created, with no inode, no lease and a
    stale parent version. *)
Definition tree_new_name : world :=
  mk_world
    [ mk_dentry "/" (Some 0%nat) (Some 0%nat) 0 false true 1;
      mk_dentry "new" (Some 0%nat) None 0 false false 1 ]
    [ dir_inode 1 7 CEPH_LOCK_ICONTENT ].

(** [/f]: a file whose lease has run out under a directory whose version
    has moved on. *)
Definition tree_stale_file : world :=
  mk_world
    [ mk_dentry "/" (Some 0%nat) (Some 0%nat) 0 false true 1;
      mk_dentry "f" (Some 0%nat) (Some 1%nat) 6 false true 1 ]
    [ dir_inode 1 7 CEPH_LOCK_ICONTENT; file_inode 300 ].

(** [a] is a name without an inode that has lost its parent pointer. *)
Definition tree_corrupt : world :=
  mk_world
    [ mk_dentry "/" (Some 0%nat) (Some 0%nat) 0 false true 1;
      mk_dentry "a" None None 7 true true 1 ]
    [ dir_inode 1 7 CEPH_LOCK_ICONTENT ].

(** [a] has lost its parent pointer and has an inode. *)
Definition tree_orphan : world :=
  mk_world
    [ mk_dentry "/" (Some 0%nat) (Some 0%nat) 0 false true 1;
      mk_dentry "a" None (Some 1%nat) 7 true true 1 ]
    [ dir_inode 1 7 CEPH_LOCK_ICONTENT; file_inode 300 ].









(** [/gone] is cached with an inode, [/none] without one. *)
Definition tree_lookup : world :=
  mk_world
    [ mk_dentry "/" (Some 0%nat) (Some 0%nat) 0 false true 1;
      mk_dentry "gone" (Some 0%nat) (Some 1%nat) 7 false true 1;
      mk_dentry "none" (Some 0%nat) None 0 false false 1 ]
    [ dir_inode 1 7 CEPH_LOCK_ICONTENT; file_inode 300 ].

(** The server answers every request with [-ENOENT] and no trace. *)
Definition mds_enoent : env :=
  mk_env (fun _ w => w) (fun _ => false) (fun _ => None)
    (fun _ _ _ => mk_reply (- ENOENT) 0 [] None (fun w => w)).

(** A request as [ceph_do_lookup] holds it when such a reply has come. *)
Definition lstat_request (dn : nat) : request :=
  mk_request CEPH_MDS_OP_LSTAT 1 (Some "x"%string) 0 None dn USE_ANY_MDS
    [Int.u32 CEPH_STAT_MASK_INODE_ALL] None (Some dn) None 0 [].

(** ** Reading the trace *)

(** [m] appends to the trace only events that satisfy [ok], whether it
    returns or faults, and what it returns satisfies [post]. *)
Definition logs {A : Type} (ok : event -> Prop) (m : K A) (post : A -> Prop)
  : Prop :=
  forall s,
    match m s with
    | Done a s' =>
      post a /\ exists evs, trace s' = trace s ++ evs /\ Forall ok evs
    | Oops s' => exists evs, trace s' = trace s ++ evs /\ Forall ok evs
    | Hang => True
    end.

(** A state property that holds again when [m] returns or faults. *)
Definition keeps {A : Type} (inv : sys -> Prop) (m : K A) : Prop :=
  forall s, inv s ->
    match m s with
    | Done _ s' => inv s'
    | Oops s' => inv s'
    | Hang => True
    end.

(** The operations that change the namespace. *)
Definition is_mutating (op : mds_op) : bool :=
  match op with
  | CEPH_MDS_OP_LSTAT | CEPH_MDS_OP_READDIR => false
  | _ => true
  end.

(** The directory [dir] holds no valid content lease in [w]. *)
Definition content_lease_off (w : world) (dir : nat) : Prop :=
  forall i, inodes w !! dir = Some i ->
    ceph_inode_lease_valid i CEPH_LOCK_ICONTENT = false.

(** A release of leases on [dir] that covers its content lease. *)
Definition releases_content (dir : nat) (ev : event) : Prop :=
  exists dn mask,
    ev = EvLeaseRelease (Some dir) dn mask /\
    Z.land mask CEPH_LOCK_ICONTENT <> 0.

(** Every mutating request in the trace was sent after a release of the
    content lease of [dir], at a moment when [dir] held no valid content
    lease. *)
Definition dispatch_after_release (dir : nat) (tr : list event) : Prop :=
  forall k r w,
    tr !! k = Some (EvDispatch r w) -> is_mutating (r_op r) = true ->
    content_lease_off w dir /\
    exists j ev, (j < k)%nat /\ tr !! j = Some ev /\ releases_content dir ev.

(** Events that cannot break [dispatch_after_release]. *)
Definition harmless (ev : event) : Prop :=
  match ev with
  | EvDispatch r _ => is_mutating (r_op r) = false
  | _ => True
  end.

(** No request other than one of opcode [op] is created or sent. *)
Definition only_op (op : mds_op) (ev : event) : Prop :=
  match ev with
  | EvDispatch r _ => r_op r = op
  | EvCreateRequest op' _ _ => op' = op
  | _ => True
  end.

(** [S_ISDIR]. *)
Definition S_ISDIR (mode : Z) : bool := Z.land mode S_IFMT =? S_IFDIR.

(** Predicates on events that let pass everything but requests. *)
Definition quiet_ok (ok : event -> Prop) : Prop :=
  (forall msg, ok (EvDerr msg)) /\
  (forall d, ok (EvInitDentry d)) /\
  (forall op, ok (EvPutRequest op)) /\
  (forall i d m, ok (EvLeaseRelease i d m)).

(** Predicates on events that let pass the requests of opcode [op]. *)
Definition accepts (ok : event -> Prop) (op : mds_op) : Prop :=
  (forall ref mode, ok (EvCreateRequest op ref mode)) /\
  (forall r w, r_op r = op -> ok (EvDispatch r w)).

(** The state in which a run ended, by return or by fault. *)
Definition final {A : Type} (r : res A) : option sys :=
  match r with
  | Done _ s' => Some s'
  | Oops s' => Some s'
  | Hang => None
  end.

(** The opcodes of the requests sent, in order. *)
Definition dispatched (tr : list event) : list mds_op :=
  omap (fun ev => match ev with
                  | EvDispatch r _ => Some (r_op r)
                  | _ => None
                  end) tr.

(** [/sub] is a directory, [/disk] a block device, [/file] a regular
    file, [/hard] a name under creation. *)
Definition tree_ops : world :=
  mk_world
    [ mk_dentry "/" (Some 0%nat) (Some 0%nat) 0 false true 1;
      mk_dentry "sub" (Some 0%nat) (Some 1%nat) 7 false true 1;
      mk_dentry "disk" (Some 0%nat) (Some 2%nat) 7 false true 1;
      mk_dentry "file" (Some 0%nat) (Some 3%nat) 7 false true 1;
      mk_dentry "hard" (Some 0%nat) None 0 false false 1 ]
    [ dir_inode 1 7 CEPH_LOCK_ICONTENT;
      mk_inode 10 10 (S_IFDIR + 493) 2 1 3 CEPH_LOCK_ICONTENT [];
      mk_inode 20 20 (S_IFBLK + 384) 1 1 0 0 [];
      mk_inode 30 30 (S_IFREG + 420) 1 1 0 0 [] ].

(** [/a/f] is a file and [/b/g] a name under creation; [a] and [b] both
    hold their content lease. *)
Definition tree_two_dirs : world :=
  mk_world
    [ mk_dentry "/" (Some 0%nat) (Some 0%nat) 0 false true 1;
      mk_dentry "a" (Some 0%nat) (Some 1%nat) 7 false true 1;
      mk_dentry "b" (Some 0%nat) (Some 2%nat) 7 false true 1;
      mk_dentry "f" (Some 1%nat) (Some 3%nat) 3 false true 1;
      mk_dentry "g" (Some 2%nat) None 0 false false 1 ]
    [ dir_inode 1 7 CEPH_LOCK_ICONTENT;
      dir_inode 10 3 CEPH_LOCK_ICONTENT;
      dir_inode 20 5 CEPH_LOCK_ICONTENT;
      file_inode 30 ].

(** For every request sent: its opcode and, for each of the directories
    [dirs], whether it held a valid content lease in the cache the request
    was sent from. *)
Definition leases_at_dispatch (dirs : list nat) (tr : list event)
  : list (mds_op * list (option bool)) :=
  omap (fun ev =>
          match ev with
          | EvDispatch r w =>
            Some (r_op r,
                  map (fun dir =>
                         option_map
                           (fun i => ceph_inode_lease_valid i CEPH_LOCK_ICONTENT)
                           (inodes w !! dir)) dirs)
          | _ => None
          end) tr.

(** The server answers every request with success and no trace. *)
Definition mds_no_trace : env :=
  mk_env (fun _ w => w) (fun _ => false) (fun _ => None)
    (fun _ _ _ => mk_reply 0 0 [] None (fun w => w)).

Definition trace_of {A : Type} (r : res A) : list event :=
  match final r with Some s' => trace s' | None => [] end.

(** Hoare triples over the monad: from a state satisfying [pre], a return
    satisfies [post] and a fault satisfies [fault]. *)
Definition triple {A : Type} (pre : sys -> Prop) (m : K A)
    (post : A -> sys -> Prop) (fault : sys -> Prop) : Prop :=
  forall s, pre s ->
    match m s with
    | Done a s' => post a s'
    | Oops s' => fault s'
    | Hang => True
    end.

(** The trace so far respects the order of release and dispatch. *)
Definition ordered (dir : nat) (s : sys) : Prop :=
  dispatch_after_release dir (trace s).

(** Moreover the content lease of [dir] has been released and is off. *)
Definition released (dir : nat) (s : sys) : Prop :=
  ordered dir s /\ content_lease_off (cache s) dir /\
  exists j ev, trace s !! j = Some ev /\ releases_content dir ev.

(** No lookup request is created or sent. *)
Definition no_lookup (ev : event) : Prop :=
  match ev with
  | EvDispatch r _ => r_op r <> CEPH_MDS_OP_LSTAT
  | EvCreateRequest op _ _ => op <> CEPH_MDS_OP_LSTAT
  | _ => True
  end.

(** What [ceph_mknod] does with the answer of its second lookup. *)
Definition mknod_after_lookup (req : request) (dn : nat) (d : dentry_ptr)
  : K Z :=
  '(err, dentry') ←
    match d with
    | Ptr None => ret (0, Some dn)
    | Ptr (Some q) => dput (Some q);; ret (- ESTALE, None)
    | ErrPtr _ => oops
    end;
  ceph_mdsc_put_request req;;
  (if negb (err =? 0) then d_drop dentry' else ret tt);;
  ret err.

(** The dentries of a cache, reference counts apart. *)
Definition uncounted (w : world) : list dentry :=
  map (with_count 0) (dentries w).

Definition nlink_of (w : world) (i : nat) : option Z :=
  option_map i_nlink (inodes w !! i).

(** ** What a listing hands to the buffer *)

(** The entries of a reply as [filldir] receives them, the first one at
    offset [off] of fragment [frag]. *)
Fixpoint serve (frag off : Z) (l : list mds_dirent)
  : list (string * Z * Z * Z) :=
  match l with
  | [] => []
  | entry :: rest =>
    (dn_name entry, make_fpos frag off, dn_ino entry,
     Int.u32 (Z.shiftr (dn_mode entry) 12))
    :: serve frag (off + 1) rest
  end.

(** [f_pos++], [n] times. *)
Fixpoint advance (n : nat) (pos : Z) : Z :=
  match n with
  | O => pos
  | S n' => advance n' (Int.s64 (pos + 1))
  end.

(** Successive calls of [ceph_readdir] on one open file, each with a
    buffer of the given room: the return value and the entries taken by
    each call. *)
Fixpoint readdir_session (e : env) (s : sys) (filp : file) (rooms : list nat)
  : list (option (Z * list (string * Z * Z * Z))) :=
  match rooms with
  | [] => []
  | n :: rest =>
    match ceph_readdir e 8 filp (mk_dirbuf n []) filldir s with
    | Done (rc, filp', buf) s' =>
      Some (rc, taken buf) :: readdir_session e s' filp' rest
    | _ => [None]
    end
  end.

(** The entries a round handed over, whether it returned or went on. *)
Definition round_taken (r : Z * file * dirbuf + Z * file * dirbuf)
  : list (string * Z * Z * Z) :=
  match r with
  | inl (_, _, buf) => taken buf
  | inr (_, _, buf) => taken buf
  end.

(** ** Seeking in an open directory: [ceph_dir_llseek] (dir.c, lines 217-246) *)

Definition SEEK_CUR : Z := 1.
Definition SEEK_END : Z := 2.

(** [file->f_version] is passed beside the [file] record, [inode->i_size]
    and [inode->i_sb->s_maxbytes] are arguments; [i_mutex] is not modelled.
    The additions are those of [loff_t].  Any origin other than [SEEK_END]
    and [SEEK_CUR] leaves the offset as given. *)
Definition ceph_dir_llseek (i_size s_maxbytes : Z) (filp : file)
    (f_version : Z) (offset origin : Z) : K (Z * file * Z) :=
  let offset :=
    if origin =? SEEK_END then Int.s64 (offset + i_size)
    else if origin =? SEEK_CUR then Int.s64 (offset + f_pos filp)
    else offset in
  if (0 <=? offset) && (offset <=? s_maxbytes) then
    let '(filp, f_version) :=
      if negb (offset =? f_pos filp) then (with_pos offset filp, 0)
      else (filp, f_version) in
    let retval := offset in
    filp ← (if offset =? 0 then
              match fi_last_readdir filp with
              | Some last =>
                ceph_mdsc_put_request last;;
                ret (with_last_readdir None filp)
              | None => ret filp
              end
            else ret filp);
    ret (retval, filp, f_version)
  else ret (- EINVAL, filp, f_version).

(** ** Lookup and create entry points (dir.c, lines 328-344 and 397-413) *)

Definition LOOKUP_CONTINUE : Z := 4.
Definition LOOKUP_OPEN : Z := 256.    (* 0x0100 *)
Definition O_CREAT : Z := 64.         (* 00000100 *)

(** [struct nameidata], the fields dir.c reads. *)
Record nameidata : Type := mk_nameidata {
  nd_flags : Z;
  intent_open_flags : Z;
  intent_open_create_mode : Z
}.

(** Modelled from the spec: [ceph_lookup_open] is defined outside dir.c.
    Nothing is known of it here, so the two entry points take it as an
    argument: directory, dentry, nameidata and mode in, a dentry pointer
    out. *)
Definition lookup_open_t : Type := nat -> nat -> nameidata -> Z -> K dentry_ptr.

(** [umask] is [current->fs->umask]. *)
Definition ceph_lookup (e : env) (fuel : nat) (ceph_lookup_open : lookup_open_t)
    (umask : Z) (dir dentry : nat) (nd : option nameidata) : K dentry_ptr :=
  match nd with
  | Some n =>
    if negb (Z.land (nd_flags n) LOOKUP_OPEN =? 0)
       && (Z.land (nd_flags n) LOOKUP_CONTINUE =? 0)
       && (Z.land (intent_open_flags n) O_CREAT =? 0)
    then
      let mode := Z.land (intent_open_create_mode n) (Z.lnot umask) in
      ceph_lookup_open dir dentry n mode
    else ceph_do_lookup e fuel dentry CEPH_STAT_MASK_INODE_ALL false
  | None => ceph_do_lookup e fuel dentry CEPH_STAT_MASK_INODE_ALL false
  end.

(** [BUG_ON] stops the task. *)
Definition BUG_ON (cond : bool) : K unit := if cond then oops else ret tt.

Definition ceph_create (e : env) (fuel : nat) (ceph_lookup_open : lookup_open_t)
    (dir dentry : nat) (mode : Z) (nd : option nameidata) : K Z :=
  match nd with
  | Some n =>
    BUG_ON (Z.land (nd_flags n) LOOKUP_OPEN =? 0);;
    d ← ceph_lookup_open dir dentry n mode;
    match d with
    | ErrPtr err => if IS_ERR d then ret err else ret 0
    | Ptr _ => ret 0
    end
  | None =>
    ceph_mknod e fuel dir dentry
      (Z.lor (Z.land mode (Z.lnot S_IFMT)) S_IFREG) 0
  end.

(** ** Reading a directory as a file: [ceph_read_dir] (dir.c, lines 663-710) *)

Definition EISDIR : Z := 21.
Definition EFAULT : Z := 14.

(** The recursive statistics of [struct ceph_inode_info] that the text
    shows; [i_rctime] is a [struct timespec]. *)
Record ceph_inode_info : Type := mk_ceph_inode_info {
  i_files : Z;
  i_subdirs : Z;
  i_rfiles : Z;
  i_rsubdirs : Z;
  i_rbytes : Z;
  i_rctime_sec : Z;
  i_rctime_nsec : Z
}.

(** [cf->dir_info] and [cf->dir_info_len] of [struct ceph_file_info]. *)
Record dir_info_file : Type := mk_dir_info_file {
  dir_info : option buffer;
  dir_info_len : Z
}.

Definition LF : ascii := "010"%char.

Definition digit_char (d : Z) : ascii := ascii_of_nat (48 + Z.to_nat d).

(** The digit loop of the kernel's [number()]: least significant digit
    first, nothing for 0. *)
Fixpoint digits_rev (fuel : nat) (num : Z) : list ascii :=
  match fuel with
  | O => []
  | S fuel' =>
    if num =? 0 then []
    else digit_char (num mod 10) :: digits_rev fuel' (num / 10)
  end.

(** The digits of a number below [2^64], most significant first. *)
Definition number_digits (num : Z) : list ascii :=
  if num =? 0 then ["0"%char] else rev (digits_rev 20 num).

(** The kernel's [number()] for a signed decimal conversion with a field
    width: right-justified; padded with blanks in front of the sign, or,
    with the [0] flag, with zeros behind it. *)
Definition number (num : Z) (size : nat) (zeropad : bool) : list ascii :=
  let sign := if num <? 0 then ["-"%char] else [] in
  let tmp := number_digits (Z.abs num) in
  let pad := (size - length sign - length tmp)%nat in
  if zeropad then sign ++ replicate pad "0"%char ++ tmp
  else replicate pad " "%char ++ sign ++ tmp.

(** One [label %20lld \n] line of the format. *)
Definition stat_line (label : string) (v : Z) : list ascii :=
  list_ascii_of_string label ++ number (Int.s64 v) 20 false ++ [LF].

(** What the [sprintf] call writes, without the terminator; [long] is
    taken as 64 bits. *)
Definition dir_info_text (ci : ceph_inode_info) : list ascii :=
  stat_line "entries:   " (i_files ci + i_subdirs ci)
  ++ stat_line " files:    " (i_files ci)
  ++ stat_line " subdirs:  " (i_subdirs ci)
  ++ stat_line "rentries:  " (i_rfiles ci + i_rsubdirs ci)
  ++ stat_line " rfiles:   " (i_rfiles ci)
  ++ stat_line " rsubdirs: " (i_rsubdirs ci)
  ++ stat_line "rbytes:    " (i_rbytes ci)
  ++ list_ascii_of_string "rctime:    "
  ++ number (Int.s64 (i_rctime_sec ci)) 10 false ++ ["."%char]
  ++ number (Int.s64 (i_rctime_nsec ci)) 9 true ++ [LF].

(** Reading [n] bytes of a heap block from [pos]: outside the block, and
    on a cell that was never written, the read faults. *)
Fixpoint peek_bytes (path : buffer) (pos : Z) (n : nat) : K (list ascii) :=
  match n with
  | O => ret []
  | S n' =>
    if (0 <=? pos) && (pos <? Z.of_nat (length path)) then
      match path !! Z.to_nat pos with
      | Some (Some c) => rest ← peek_bytes path (pos + 1) n'; ret (c :: rest)
      | _ => oops
      end
    else oops
  end.

(** [copy_to_user]: the user buffer takes its first [mapped] bytes and
    faults behind them; the result is the number of bytes not copied, with
    the bytes that were. *)
Definition copy_to_user (mapped : Z) (src : list ascii) (n : Z)
  : Z * list ascii :=
  let k := Z.max 0 (Z.min n mapped) in
  (n - k, take (Z.to_nat k) src).

(** [dirstat] is [mount_args.flags & CEPH_MOUNT_DIRSTAT]; the result is
    the return value, the file info, the new [*ppos] and the bytes that
    reached the user buffer. *)
Definition ceph_read_dir (e : env) (dirstat : bool) (ci : ceph_inode_info)
    (cf : dir_info_file) (mapped size ppos : Z)
  : K (Z * dir_info_file * Z * list ascii) :=
  if negb dirstat then ret (- EISDIR, cf, ppos, []) else
  r ← match dir_info cf with
      | Some _ => ret (inr cf)
      | None =>
        mem ← kmalloc e 1024;
        match mem with
        | None => ret (inl (- ENOMEM))
        | Some blk =>
          let text := dir_info_text ci in
          blk ← write_bytes blk 0 (text ++ [NUL]);
          ret (inr (mk_dir_info_file (Some blk)
                      (Int.s32 (Z.of_nat (length text)))))
        end
      end;
  match r with
  | inl err => ret (err, cf, ppos, [])
  | inr cf =>
    if ppos >=? dir_info_len cf then ret (0, cf, ppos, []) else
    let size := Z.min (Int.u32 size) (Int.u32 (dir_info_len cf - ppos)) in
    blk ← match dir_info cf with Some blk => ret blk | None => oops end;
    src ← peek_bytes blk ppos (Z.to_nat size);
    let '(uncopied, out) := copy_to_user mapped src size in
    if uncopied =? size then ret (- EFAULT, cf, ppos, out)
    else ret (size - uncopied, cf, Int.s64 (ppos + (size - uncopied)), out)
  end.

(** ** Fixtures for the entry points above *)

(** A [ceph_lookup_open] that is never reached. *)
Definition no_lookup_open : lookup_open_t := fun _ _ _ _ => oops.

(** The statistics of a directory of three files and one subdirectory. *)
Definition stats1 : ceph_inode_info :=
  mk_ceph_inode_info 3 1 10 2 4096 1224000000 500.

Definition closed_info : dir_info_file := mk_dir_info_file None 0.

(** Reading the whole text in chunks of [chunk] bytes, as [cat] does:
    the pieces received, until a read returns 0 or fails. *)
Fixpoint read_all (e : env) (fuel : nat) (ci : ceph_inode_info)
    (cf : dir_info_file) (chunk ppos : Z) : K (Z * list ascii) :=
  match fuel with
  | O => hang
  | S fuel' =>
    r ← ceph_read_dir e true ci cf chunk chunk ppos;
    let '(rc, cf, ppos, out) := r in
    if rc <=? 0 then ret (rc, out)
    else
      r ← read_all e fuel' ci cf chunk ppos;
      let '(rc', rest) := r in
      ret (rc', out ++ rest)
  end.

(** ** Counting requests *)

(** Requests created and not yet put, over a trace. *)
Fixpoint held (tr : list event) : Z :=
  match tr with
  | [] => 0
  | EvCreateRequest _ _ _ :: rest => 1 + held rest
  | EvPutRequest _ :: rest => held rest - 1
  | _ :: rest => held rest
  end.

(** Events that neither create nor put a request. *)
Definition neutral (ev : event) : Prop :=
  match ev with
  | EvCreateRequest _ _ _ | EvPutRequest _ => False
  | _ => True
  end.

(** The dentry [dn] is in the cache and not in the hash. *)
Definition unhashed (w : world) (dn : nat) : Prop :=
  exists d, dentries w !! dn = Some d /\ d_hashed d = false.

(** The dentry [dn] is in the cache together with its parent and the
    inode of its parent. *)
Definition has_directory (w : world) (dn : nat) : Prop :=
  exists d p parent di dir,
    dentries w !! dn = Some d /\ d_parent d = Some p /\
    dentries w !! p = Some parent /\ d_inode parent = Some di /\
    inodes w !! di = Some dir.

(** The server never sends a trace and its replies leave the cache as it
    is. *)
Definition mds_silent (e : env) : Prop :=
  forall n r w,
    rp_trace_numd (mds e n r w) = 0 /\ rp_fill (mds e n r w) w = w.

(** The server refuses every request with [-EPERM] and no trace. *)
Definition EPERM : Z := 1.

Definition mds_eperm : env :=
  mk_env (fun _ w => w) (fun _ => false) (fun _ => None)
    (fun _ _ _ => mk_reply (- EPERM) 0 [] None (fun w => w)).

(** [/file] is a regular file and [/new] a name that was looked up and
    found absent: a hashed dentry without inode, as the VFS hands it to
    the creating operations. *)
Definition tree_named : world :=
  mk_world
    [ mk_dentry "/" (Some 0%nat) (Some 0%nat) 0 false true 1;
      mk_dentry "file" (Some 0%nat) (Some 1%nat) 7 false true 1;
      mk_dentry "new" (Some 0%nat) None 7 false true 1 ]
    [ dir_inode 1 7 CEPH_LOCK_ICONTENT; file_inode 300 ].

(** Request creation fails with [-ENOMEM]. *)
Definition env_no_request : env :=
  mk_env (fun _ w => w) (fun _ => false) (fun _ => Some (- ENOMEM))
    (fun _ _ _ => ok_reply).

(** The allocator is empty. *)
Definition env_no_memory : env :=
  mk_env (fun _ w => w) (fun _ => true) (fun _ => None)
    (fun _ _ _ => ok_reply).

(** ** Comparing caches *)

(** From [w] to [w'] nothing has changed but the hash state of some
    dentries, which have been unhashed. *)
Definition unhash_only (w w' : world) : Prop :=
  inodes w' = inodes w /\
  Forall2 (fun d d' => d' = d \/ d' = with_hashed false d)
    (dentries w) (dentries w').

(** The trace grew by error messages only. *)
Definition only_derr (ev : event) : Prop := exists msg, ev = EvDerr msg.

(** A name of 256 characters under the root. *)
Definition long_name : string :=
  string_of_list_ascii (replicate 256 "a"%char).

Definition tree_long : world :=
  mk_world
    [ mk_dentry "/" (Some 0%nat) (Some 0%nat) 0 false true 1;
      mk_dentry long_name (Some 0%nat) None 0 false false 1 ]
    [ dir_inode 1 7 CEPH_LOCK_ICONTENT ].

(** The lookup carries no intent to open an existing file as its last
    component. *)
Definition plain_lookup (nd : option nameidata) : Prop :=
  match nd with
  | Some n =>
    Z.land (nd_flags n) LOOKUP_OPEN = 0 \/
    Z.land (nd_flags n) LOOKUP_CONTINUE <> 0 \/
    Z.land (intent_open_flags n) O_CREAT <> 0
  | None => True
  end.

(** ** What requests carry *)

(** What a lookup of [dn] may add to the trace: [LSTAT] requests for
    [dn], on any replica for a path and on the replica that issued the
    capability for an inode number, with the mask as only argument and
    [dn] as the dentry to fill; error messages; the initialisation of
    [dn]; and the put of an [LSTAT] request.  No other request and no
    release of a lease. *)
Definition lookup_event (dn : nat) (mask : Z) (on_inode : bool) (ev : event)
  : Prop :=
  match ev with
  | EvCreateRequest op ref mode =>
    op = CEPH_MDS_OP_LSTAT /\ ref = dn /\
    mode = (if on_inode then USE_CAP_MDS else USE_ANY_MDS)
  | EvDispatch r _ =>
    r_op r = CEPH_MDS_OP_LSTAT /\ r_ref_dentry r = dn /\
    r_mode r = (if on_inode then USE_CAP_MDS else USE_ANY_MDS) /\
    r_args r = [Int.u32 mask] /\ r_last_dentry r = Some dn /\
    r_old_dentry r = None /\ r_path2 r = None /\
    (on_inode = true -> r_path1 r = None)
  | EvDerr _ => True
  | EvInitDentry d => d = dn
  | EvPutRequest op => op = CEPH_MDS_OP_LSTAT
  | EvLeaseRelease _ _ _ => False
  end.

(** Every [MKNOD] request sent carries these two arguments. *)
Definition mknod_event (mode rdev : Z) (ev : event) : Prop :=
  match ev with
  | EvDispatch r _ =>
    r_op r = CEPH_MDS_OP_MKNOD -> r_args r = [Int.u32 mode; Int.u32 rdev]
  | _ => True
  end.

(** Every [MKNOD] request sent asks for a regular file with the
    permission bits of [mode] and no device number. *)
Definition regular_file_event (mode : Z) (ev : event) : Prop :=
  match ev with
  | EvDispatch r _ =>
    r_op r = CEPH_MDS_OP_MKNOD ->
    exists m, r_args r = [m; 0] /\
      Z.land m S_IFMT = S_IFREG /\
      Z.land m (Z.lnot S_IFMT) = Z.land (Int.u32 mode) (Z.lnot S_IFMT)
  | _ => True
  end.

(** The server answers every request with success and no trace, and the
    reply to a lookup leaves dentry 3 in place of the one looked up. *)
Definition mds_splices : env :=
  mk_env (fun _ w => w) (fun _ => false) (fun _ => None)
    (fun _ r _ =>
       mk_reply 0 0 []
         (match r_op r with CEPH_MDS_OP_LSTAT => Some 3%nat | _ => None end)
         (fun w => w)).

Definition faulted {A : Type} (r : res A) : bool :=
  match r with Oops _ => true | _ => false end.

(** In [w] the inode [i] has link count [n] and the dentry [dn] points
    at it. *)
Definition links_to (i dn : nat) (n : Z) (w : world) : Prop :=
  nlink_of w i = Some n /\
  exists d, dentries w !! dn = Some d /\ d_inode d = Some i.

(** [h] requests are held in the state [s]. *)
Definition holds (h : Z) (s : sys) : Prop := held (trace s) = h.

(** From [s], a run of [m] that returns has put every request it
    created. *)
Definition balanced {A : Type} (m : K A) (s : sys) : Prop :=
  match m s with
  | Done _ s' => held (trace s') = held (trace s)
  | _ => True
  end.

(** What a listing of the directory behind dentry [dn] may add to the
    trace: [READDIR] requests for [dn] to the authoritative server, with
    the empty path, one fragment as argument and the hash value of that
    fragment as routing hint; and puts of requests. *)
Definition readdir_event (dn : nat) (ev : event) : Prop :=
  match ev with
  | EvCreateRequest op ref mode =>
    op = CEPH_MDS_OP_READDIR /\ ref = dn /\ mode = USE_AUTH_MDS
  | EvDispatch r _ =>
    r_op r = CEPH_MDS_OP_READDIR /\ r_ref_dentry r = dn /\
    r_mode r = USE_AUTH_MDS /\ r_path1 r = Some EmptyString /\
    r_path2 r = None /\ r_last_dentry r = None /\ r_old_dentry r = None /\
    exists frag, r_args r = [frag] /\ r_direct_hash r = Some (frag_value frag)
  | EvPutRequest _ => True
  | _ => False
  end.

(** The number of requests an open directory keeps for later calls. *)
Definition cached (f : file) : Z :=
  match fi_last_readdir f with Some _ => 1 | None => 0 end.

(** The [struct file] in the result of a round or of a call. *)
Definition round_file {D : Type} (r : Z * file * D + Z * file * D) : file :=
  match r with
  | inl (_, f, _) => f
  | inr (_, f, _) => f
  end.

(** [rc] is an error that request creation reports at some moment, or a
    negative status that the server sends for some request. *)
Definition fetch_error (e : env) (rc : Z) : Prop :=
  (exists n, create_request_fails e n = Some rc) \/
  (rc < 0 /\ exists n r w, rp_err (mds e n r w) = rc).

(** A buffer that is full from the start. *)
Definition full_buf : dirbuf := mk_dirbuf 0 [].

(** ** Resuming a listing *)

(** The whole listing of a directory of one fragment as [filldir]
    receives it: ["."], [".."] and the entries of the reply, one offset
    apart from offset 0 of fragment 0. *)
Definition dir_stream (ino pino : inode) (entries : list mds_dirent)
  : list (string * Z * Z * Z) :=
  (".", make_fpos 0 0, i_ino ino, Z.shiftr (i_mode ino) 12)
  :: ("..", make_fpos 0 1, i_ino pino, Z.shiftr (i_mode ino) 12)
  :: serve 0 2 entries.

(** A call that finds the position at entry [k] of the listing hands
    over what follows, as much as the buffer has room for, and leaves the
    position behind the last entry taken. *)
Definition hand_over (stream : list (string * Z * Z * Z)) (k : nat)
    (filp : file) (buf : dirbuf) : Z * file * dirbuf :=
  let m := Nat.min (room buf) (length stream - k) in
  (0, with_pos (Z.of_nat (k + m)) filp,
   mk_dirbuf (room buf - m) (taken buf ++ take m (drop k stream))).

(** [/D] with the whole listing in one fragment, and the file after a
    first call that fetched it. *)
Definition listing1 : list mds_dirent :=
  [ mk_mds_dirent "alpha" 41 S_IFREG; mk_mds_dirent "beta" 42 S_IFREG;
    mk_mds_dirent "gamma" 43 S_IFDIR ].

Definition tree_d1 : world :=
  mk_world
    [ mk_dentry "/" (Some 0%nat) (Some 0%nat) 0 false true 1;
      mk_dentry "D" (Some 0%nat) (Some 1%nat) 7 false true 1 ]
    [ dir_inode 1 7 CEPH_LOCK_ICONTENT; dir_inode 40 0 0 ].

Definition reply1 : request :=
  mk_request CEPH_MDS_OP_READDIR 40 (Some EmptyString) 0 None 1 USE_AUTH_MDS
    [0] (Some 0) None None 1 listing1.

Definition open_d1 (pos : Z) : file := mk_file pos 1 0 (Some reply1).

(** What a round does once the loop over the entries has ended. *)
Definition round_end {D : Type} (frag : Z) (r : file * D + Z * file * D)
  : K (Z * file * D + Z * file * D) :=
  match r with
  | inl (filp, dirent) => ret (inl (0, filp, dirent))
  | inr (off, filp, dirent) =>
    if negb (frag_value frag =? frag_mask frag) then
      let frag := frag_next frag in
      let off := 0 in
      let filp := with_pos (make_fpos frag off) filp in
      ret (inr (frag, filp, dirent))
    else ret (inl (0, filp, dirent))
  end.

(** At least [n] requests have been sent. *)
Definition asked (n : nat) (s : sys) : Prop :=
  (n <= length (dispatched (trace s)))%nat.

(** The offset that [ceph_dir_llseek] aims at. *)
Definition seek_target (i_size : Z) (filp : file) (offset origin : Z) : Z :=
  if origin =? SEEK_END then Int.s64 (offset + i_size)
  else if origin =? SEEK_CUR then Int.s64 (offset + f_pos filp)
  else offset.

(** ** The text behind a directory read *)

(** The block of 1024 bytes after the [sprintf]: the text, its
    terminator, and cells never written. *)
Definition dir_info_block (ci : ceph_inode_info) : buffer :=
  map Some (dir_info_text ci ++ [NUL])
  ++ replicate (1024 - S (length (dir_info_text ci))) None.

(** The file info once the text has been made. *)
Definition opened_info (ci : ceph_inode_info) : dir_info_file :=
  mk_dir_info_file (Some (dir_info_block ci))
    (Z.of_nat (length (dir_info_text ci))).

(** What a read of [size] bytes at [ppos] gives when the user buffer
    takes [mapped] bytes: the return value, the new position and the bytes
    copied. *)
Definition read_result (text : list ascii) (mapped size ppos : Z)
  : Z * Z * list ascii :=
  let len := Z.of_nat (length text) in
  if ppos >=? len then (0, ppos, [])
  else
    let n := Z.min (Int.u32 size) (len - ppos) in
    let k := Z.max 0 (Z.min n mapped) in
    if k =? 0 then (- EFAULT, ppos, [])
    else (k, ppos + k, take (Z.to_nat k) (drop (Z.to_nat ppos) text)).

(** ** The link-count lease at the moment of sending *)




(** * Part II: properties *)

(** ** Machine integers *)

Lemma u32_range z : 0 <= Int.u32 z < 2 ^ 32.
Proof. unfold Int.u32. apply Z.mod_pos_bound. lia. Qed.

Lemma u32_small z : 0 <= z < 2 ^ 32 -> Int.u32 z = z.
Proof. intros H. unfold Int.u32. apply Z.mod_small. exact H. Qed.

Lemma s32_small z : - 2 ^ 31 <= z < 2 ^ 31 -> Int.s32 z = z.
Proof. intros H. unfold Int.s32. rewrite Z.mod_small; lia. Qed.


Lemma s64_small z : - 2 ^ 63 <= z < 2 ^ 63 -> Int.s64 z = z.
Proof. intros H. unfold Int.s64. rewrite Z.mod_small; lia. Qed.

Lemma s64_mod32 z : Int.s64 z mod 2 ^ 32 = z mod 2 ^ 32.
Proof.
  unfold Int.s64.
  rewrite (Z.mod_eq (z + 2 ^ 63) (2 ^ 64)) by lia.
  replace (z + 2 ^ 63 - 2 ^ 64 * ((z + 2 ^ 63) / 2 ^ 64) - 2 ^ 63)
    with (z + (- (2 ^ 32 * ((z + 2 ^ 63) / 2 ^ 64))) * 2 ^ 32) by lia.
  apply Z.mod_add. lia.
Qed.

(** ** The readdir cursor *)

Lemma fpos_lor_add frag off :
  0 <= off < 2 ^ 32 -> Z.lor (Z.shiftl frag 32) off = frag * 2 ^ 32 + off.
Proof.
  intros Hoff.
  assert (Hdisj : Z.land (frag * 2 ^ 32) off = 0).
  { apply Z.bits_inj'. intros n Hn.
    rewrite Z.land_spec, Z.bits_0.
    destruct (Z.ltb_spec n 32).
    - rewrite Z.mul_pow2_bits_low by lia. reflexivity.
    - rewrite (Z.bits_above_log2 off n); [apply andb_false_r | lia |].
      destruct (Z.eq_dec off 0) as [-> | Hz]; [simpl; lia |].
      apply Z.lt_le_trans with 32; [| lia].
      apply Z.log2_lt_pow2; lia. }
  rewrite Z.shiftl_mul_pow2 by lia.
  rewrite <- Z.lxor_lor by exact Hdisj.
  symmetry. apply Z.add_nocarry_lxor. exact Hdisj.
Qed.

Lemma fpos_frag_make frag off :
  0 <= frag < 2 ^ 32 -> 0 <= off < 2 ^ 32 ->
  fpos_frag (make_fpos frag off) = frag.
Proof.
  intros Hf Ho. unfold fpos_frag, make_fpos, Int.u32.
  rewrite fpos_lor_add by exact Ho.
  rewrite Z.shiftr_div_pow2 by lia.
  set (x := frag * 2 ^ 32 + off).
  assert (Hx : 0 <= x < 2 ^ 64) by (unfold x; nia).
  unfold Int.s64.
  destruct (Z.ltb_spec x (2 ^ 63)) as [Hlo | Hhi].
  - rewrite (Z.mod_small (x + 2 ^ 63)) by lia.
    replace (x + 2 ^ 63 - 2 ^ 63) with x by lia.
    unfold x. rewrite Z.div_add_l by lia.
    rewrite Z.div_small by lia.
    rewrite Z.mod_small; lia.
  - replace ((x + 2 ^ 63) mod 2 ^ 64) with (x - 2 ^ 63).
    2:{ apply Z.mod_unique with 1; lia. }
    replace (x - 2 ^ 63 - 2 ^ 63) with ((frag - 2 ^ 32) * 2 ^ 32 + off)
      by (unfold x; lia).
    rewrite Z.div_add_l by lia.
    rewrite Z.div_small by lia.
    replace (frag - 2 ^ 32 + 0) with (frag + (-1) * 2 ^ 32) by lia.
    rewrite Z.mod_add by lia.
    rewrite Z.mod_small; lia.
Qed.

Lemma fpos_off_make frag off :
  0 <= frag < 2 ^ 32 -> 0 <= off < 2 ^ 32 ->
  fpos_off (make_fpos frag off) = off.
Proof.
  intros Hf Ho. unfold fpos_off, make_fpos.
  rewrite fpos_lor_add by exact Ho.
  change 4294967295 with (Z.ones 32).
  rewrite Z.land_ones by lia.
  unfold Int.u32. rewrite Z.mod_mod by lia.
  rewrite s64_mod32.
  rewrite Z.add_comm, Z.mod_add by lia.
  apply Z.mod_small. exact Ho.
Qed.

(** C2. For every fragment and offset that fit in 32 bits, decoding the
    cursor built by [make_fpos] gives back the same fragment and the same
    offset. *)
Theorem fpos_roundtrip (frag off : Z) :
  0 <= frag < 2 ^ 32 -> 0 <= off < 2 ^ 32 ->
  fpos_frag (make_fpos frag off) = frag /\
  fpos_off (make_fpos frag off) = off.
Proof.
  intros Hf Ho. split.
  - apply fpos_frag_make; assumption.
  - apply fpos_off_make; assumption.
Qed.

(** A fragment with its top bit set makes a negative [loff_t]; decoding
    still returns both halves. *)
Lemma fpos_roundtrip_witness :
  (0 <= 4278190080 < 2 ^ 32 /\ 0 <= 7 < 2 ^ 32) /\
  make_fpos 4278190080 7 < 0 /\
  fpos_frag (make_fpos 4278190080 7) = 4278190080 /\
  fpos_off (make_fpos 4278190080 7) = 7.
Proof.
  split; [lia |].
  split; [vm_compute; reflexivity |].
  apply (fpos_roundtrip 4278190080 7); lia.
Defined.

(** ** Running monadic code *)

Lemma bind_done {A B} (m : K A) (f : A -> K B) s a s' :
  m s = Done a s' -> bind m f s = f a s'.
Proof. intros H. unfold bind. rewrite H. reflexivity. Qed.

Lemma bind_oops {A B} (m : K A) (f : A -> K B) s s' :
  m s = Oops s' -> bind m f s = Oops s'.
Proof. intros H. unfold bind. rewrite H. reflexivity. Qed.

Lemma bind_hang {A B} (m : K A) (f : A -> K B) s :
  m s = Hang -> bind m f s = Hang.
Proof. intros H. unfold bind. rewrite H. reflexivity. Qed.

Lemma bind_ret {A B} (a : A) (f : A -> K B) s : bind (ret a) f s = f a s.
Proof. reflexivity. Qed.

Lemma bind_assoc {A B C} (m : K A) (f : A -> K B) (g : B -> K C) s :
  bind (bind m f) g s = bind m (fun a => bind (f a) g) s.
Proof. unfold bind. destruct (m s); reflexivity. Qed.

Ltac kstep H :=
  repeat rewrite bind_assoc; rewrite (bind_done _ _ _ _ _ H); cbv beta iota.
Ltac kret := repeat rewrite bind_assoc; rewrite bind_ret; cbv beta iota.

Lemma bind_inv {A B} (m : K A) (f : A -> K B) s b s2 :
  bind m f s = Done b s2 ->
  exists a s1, m s = Done a s1 /\ f a s1 = Done b s2.
Proof.
  unfold bind. destruct (m s) as [a s1 | s1 |]; try discriminate.
  intros H. exists a, s1. split; [reflexivity | exact H].
Qed.

Lemma get_dentry_eq p s d :
  dentries (cache s) !! p = Some d -> get_dentry p s = Done d s.
Proof.
  intros H. unfold get_dentry, bind, get_cache. rewrite H. reflexivity.
Qed.

Lemma get_dentry_none p s :
  dentries (cache s) !! p = None -> get_dentry p s = Oops s.
Proof.
  intros H. unfold get_dentry, bind, get_cache. rewrite H. reflexivity.
Qed.

Lemma get_inode_eq p s i :
  inodes (cache s) !! p = Some i -> get_inode p s = Done i s.
Proof.
  intros H. unfold get_inode, bind, get_cache. rewrite H. reflexivity.
Qed.

Lemma get_inode_none p s :
  inodes (cache s) !! p = None -> get_inode p s = Oops s.
Proof.
  intros H. unfold get_inode, bind, get_cache. rewrite H. reflexivity.
Qed.

Lemma set_dentry_eq p f s d :
  dentries (cache s) !! p = Some d ->
  set_dentry p f s =
  Done tt (mk_sys (mk_world (<[p := f d]> (dentries (cache s)))
                     (inodes (cache s)))
             (trace s) (tick s)).
Proof.
  intros H. unfold set_dentry.
  rewrite (bind_done _ _ _ _ _ (get_dentry_eq _ _ _ H)).
  reflexivity.
Qed.

Lemma d_drop_eq p s d :
  dentries (cache s) !! p = Some d ->
  d_drop (Some p) s =
  Done tt (mk_sys (mk_world (<[p := with_hashed false d]>
                               (dentries (cache s)))
                     (inodes (cache s)))
             (trace s) (tick s)).
Proof.
  intros H. unfold d_drop. simpl.
  rewrite (bind_done _ _ _ _ _ (get_dentry_eq _ _ _ H)).
  apply set_dentry_eq. exact H.
Qed.

(** ** Dentry revalidation *)

(** The verdict with its side effect: a dentry found untrustworthy is
    unhashed, and nothing else changes. *)
Lemma ceph_dentry_revalidate_eq s dentry d b :
  dentries (cache s) !! dentry = Some d ->
  revalidate_verdict (cache s) dentry = Some b ->
  ceph_dentry_revalidate dentry s =
  if b then Done 1 s
  else Done 0 (mk_sys (mk_world (<[dentry := with_hashed false d]>
                                   (dentries (cache s)))
                         (inodes (cache s)))
                 (trace s) (tick s)).
Proof.
  intros Hd Hv. unfold revalidate_verdict in Hv. rewrite Hd in Hv.
  unfold ceph_dentry_revalidate.
  rewrite (bind_done _ _ _ _ _ (get_dentry_eq _ _ _ Hd)).
  destruct (d_parent d) as [p |]; [| discriminate]. simpl.
  destruct (dentries (cache s) !! p) as [parent |] eqn:Hp; [| discriminate].
  rewrite (bind_done _ _ _ _ _ (get_dentry_eq _ _ _ Hp)).
  destruct (d_inode parent) as [di |]; [| discriminate]. simpl.
  destruct (inodes (cache s) !! di) as [dir |] eqn:Hi; [| discriminate].
  rewrite (bind_done _ _ _ _ _ (get_inode_eq _ _ _ Hi)).
  injection Hv as <-.
  destruct ((i_version dir =? d_time d)
            && ceph_inode_lease_valid dir CEPH_LOCK_ICONTENT); simpl.
  - reflexivity.
  - destruct (ceph_dentry_lease_valid d); simpl; [reflexivity |].
    rewrite (bind_done _ _ _ _ _ (d_drop_eq _ _ _ Hd)). reflexivity.
Qed.

(** C1, as the code has it.  For every cached dentry whose parent is a
    directory in the cache, the check answers true exactly when the
    recorded parent version equals the directory's version and the
    directory's content lease is valid, or the dentry's own lease is
    valid. *)
Theorem revalidate_trustworthy (s : sys) (dn p di : nat) (d parent : dentry)
    (dir : inode) :
  dentries (cache s) !! dn = Some d ->
  d_parent d = Some p ->
  dentries (cache s) !! p = Some parent ->
  d_inode parent = Some di ->
  inodes (cache s) !! di = Some dir ->
  exists rc s',
    ceph_dentry_revalidate dn s = Done rc s' /\
    (rc <> 0 <->
     (i_version dir = d_time d /\
      ceph_inode_lease_valid dir CEPH_LOCK_ICONTENT = true) \/
     ceph_dentry_lease_valid d = true).
Proof.
  intros Hd Hp Hpd Hdi Hdir.
  assert (Hv : revalidate_verdict (cache s) dn =
               Some ((i_version dir =? d_time d)
                     && ceph_inode_lease_valid dir CEPH_LOCK_ICONTENT
                     || ceph_dentry_lease_valid d)).
  { unfold revalidate_verdict. rewrite Hd, Hp, Hpd, Hdi, Hdir. reflexivity. }
  rewrite (ceph_dentry_revalidate_eq _ _ _ _ Hd Hv).
  destruct (Z.eqb_spec (i_version dir) (d_time d)) as [Ev | Ev];
    destruct (ceph_inode_lease_valid dir CEPH_LOCK_ICONTENT);
    destruct (ceph_dentry_lease_valid d); simpl;
    eexists _, _; (split; [reflexivity |]);
    split; intros H; try lia; try (left; split; congruence);
    try (right; reflexivity);
    destruct H as [[? ?] | ?]; congruence.
Qed.

Lemma revalidate_trustworthy_witness :
  exists rc s',
    ceph_dentry_revalidate 3 (boot tree1) = Done rc s' /\
    (rc <> 0 <->
     (5 = 5 /\
      ceph_inode_lease_valid (dir_inode 200 5 CEPH_LOCK_ICONTENT)
        CEPH_LOCK_ICONTENT = true) \/
     false = true).
Proof.
  apply (revalidate_trustworthy (boot tree1) 3 2 2
           (mk_dentry "x" (Some 2%nat) (Some 3%nat) 5 false true 1)
           (mk_dentry "lib" (Some 1%nat) (Some 2%nat) 3 false true 1)
           (dir_inode 200 5 CEPH_LOCK_ICONTENT));
    reflexivity.
Defined.

(** C1, as stated, fails: in [tree_no_dir_lease] the recorded parent
    version of [etc] equals the root's version, so the check of the
    specification answers true, but the root holds no content lease and
    [ceph_dentry_revalidate] answers 0. *)
Lemma revalidate_version_match_insufficient :
  spec_is_trustworthy tree_no_dir_lease 1 = Some true /\
  result_of (ceph_dentry_revalidate 1 (boot tree_no_dir_lease)) = Some 0.
Proof. split; reflexivity. Qed.

(** ** Path construction: the first loop *)

Lemma sched_static e s :
  env_static e ->
  sched e s = Done tt (mk_sys (cache s) (trace s) (S (tick s))).
Proof.
  intros [Hr _]. unfold sched, bind, next_tick, get_cache, put_cache. simpl.
  rewrite Hr. reflexivity.
Qed.

Lemma IS_ROOT_eq p s d :
  dentries (cache s) !! p = Some d ->
  IS_ROOT p s = Done (bool_decide (d_parent d = Some p)) s.
Proof.
  intros H. unfold IS_ROOT.
  rewrite (bind_done _ _ _ _ _ (get_dentry_eq _ _ _ H)). reflexivity.
Qed.

(** A read of a dentry after a point where nobody else ran. *)
Lemma sched_get_static {B} e p s d (f : dentry -> K B) :
  env_static e ->
  dentries (cache s) !! p = Some d ->
  bind (sched e) (fun _ => bind (get_dentry p) f) s
  = f d (mk_sys (cache s) (trace s) (S (tick s))).
Proof.
  intros He Hd.
  rewrite (bind_done _ _ _ _ _ (sched_static e s He)).
  apply bind_done. apply get_dentry_eq. exact Hd.
Qed.

Ltac static_read He Hd :=
  match goal with
  | |- context [bind (sched ?e) _ ?st] =>
    rewrite (sched_get_static e _ st _ _ He
               (Hd : dentries (cache st) !! _ = Some _))
  end.

Lemma names_total_nonneg names : 0 <= names_total names.
Proof. induction names; simpl; lia. Qed.

Lemma skeleton_drop w p d :
  dentries w !! p = Some d ->
  skeleton (mk_world (<[p := with_hashed false d]> (dentries w)) (inodes w))
  = skeleton w.
Proof.
  intros H. unfold skeleton. simpl. f_equal.
  rewrite list_fmap_insert. simpl.
  apply list_insert_id. rewrite list_lookup_fmap, H. reflexivity.
Qed.

Lemma len_loop_climb e :
  env_static e ->
  forall fuel t len s names stop,
    climb (cache s) fuel t = Climbed names stop ->
    0 <= len -> len + names_total names < 2 ^ 31 ->
    exists s',
      build_path_len_loop e fuel t len s
      = Done (inr (len + names_total names)) s' /\
      skeleton (cache s') = skeleton (cache s) /\
      trace s' = trace s.
Proof.
  intros He. induction fuel as [| fuel IH]; intros t len s names stop Hc Hl Hb.
  - discriminate.
  - simpl in Hc. simpl build_path_len_loop.
    rewrite (bind_done _ _ _ _ _ (sched_static e s He)).
    set (s1 := mk_sys (cache s) (trace s) (S (tick s))).
    change (cache s) with (cache s1) in Hc.
    destruct (dentries (cache s1) !! t) as [d |] eqn:Hd; [| discriminate].
    rewrite (bind_done _ _ _ _ _ (IS_ROOT_eq _ _ _ Hd)).
    destruct (bool_decide (d_parent d = Some t)) eqn:Hroot.
    { injection Hc as <- <-. simpl. exists s1.
      rewrite Z.add_0_r. repeat split; reflexivity. }
    rewrite (bind_done _ _ _ _ _ (get_dentry_eq _ _ _ Hd)).
    destruct (d_inode d) as [i |] eqn:Hi.
    + destruct (revalidate_verdict (cache s1) t) as [b |] eqn:Hv;
        [| discriminate].
      unfold bind at 1. unfold bind at 1.
      rewrite (ceph_dentry_revalidate_eq _ _ _ _ Hd Hv).
      destruct b.
      * simpl.
        rewrite (bind_done _ _ _ _ _ (get_dentry_eq _ _ _ Hd)).
        destruct (d_parent d) as [p |] eqn:Hp; [| discriminate].
        destruct (climb (cache s1) fuel p) as [ns st | | |] eqn:Hcl;
          try discriminate.
        injection Hc as <- <-. simpl in Hb.
        pose proof (names_total_nonneg ns) as Hnn.
        assert (Hlen : 0 <= Z.of_nat (String.length (d_name d))) by lia.
        unfold d_name_len.
        rewrite (u32_small (1 + _)) by lia.
        rewrite s32_small by lia.
        destruct (IH p (len + (1 + Z.of_nat (String.length (d_name d))))
                    s1 ns st Hcl) as (s' & E & Hsk & Htr); [lia | lia |].
        exists s'. rewrite E. split; [f_equal; f_equal; simpl; lia |].
        split; assumption.
      * injection Hc as <- <-. simpl.
        eexists. split; [rewrite Z.add_0_r; reflexivity |].
        split; [| reflexivity].
        simpl. apply (skeleton_drop (cache s) t d). exact Hd.
    + kret.
      kstep (get_dentry_eq _ _ _ Hd).
      destruct (d_parent d) as [p |] eqn:Hp; [| discriminate].
      destruct (climb (cache s1) fuel p) as [ns st | | |] eqn:Hcl;
        try discriminate.
      injection Hc as <- <-. simpl in Hb.
      pose proof (names_total_nonneg ns) as Hnn.
      assert (Hlen : 0 <= Z.of_nat (String.length (d_name d))) by lia.
      unfold d_name_len.
      rewrite (u32_small (1 + _)) by lia.
      rewrite s32_small by lia.
      destruct (IH p (len + (1 + Z.of_nat (String.length (d_name d))))
                  s1 ns st Hcl) as (s' & E & Hsk & Htr); [lia | lia |].
      exists s'. rewrite E. split; [f_equal; f_equal; simpl; lia |].
      split; assumption.
Qed.

(** ** Path construction: writing into the block *)

Lemma poke_at (pre post : buffer) x c s :
  poke (pre ++ x :: post) (Z.of_nat (length pre)) c s
  = Done (pre ++ Some c :: post) s.
Proof.
  unfold poke.
  assert (E : (0 <=? Z.of_nat (length pre))
              && (Z.of_nat (length pre)
                  <? Z.of_nat (length (pre ++ x :: post))) = true).
  { rewrite length_app. simpl length.
    apply andb_true_iff. split; [apply Z.leb_le | apply Z.ltb_lt]; lia. }
  rewrite E, Nat2Z.id.
  unfold ret. f_equal.
  rewrite insert_app_r_alt by lia.
  rewrite Nat.sub_diag. reflexivity.
Qed.

Lemma write_bytes_at l : forall (pre mid post : buffer) s,
  length mid = length l ->
  write_bytes (pre ++ mid ++ post) (Z.of_nat (length pre)) l s
  = Done (pre ++ map Some l ++ post) s.
Proof.
  induction l as [| c l IH]; intros pre mid post s Hlen.
  - destruct mid; [| discriminate]. reflexivity.
  - destruct mid as [| x mid]; [discriminate |].
    simpl in Hlen. injection Hlen as Hlen.
    simpl write_bytes. simpl app.
    kstep (poke_at pre (mid ++ post) x c s).
    replace (Z.of_nat (length pre) + 1)
      with (Z.of_nat (length (pre ++ [Some c])))
      by (rewrite length_app; simpl; lia).
    replace (pre ++ Some c :: mid ++ post)
      with ((pre ++ [Some c]) ++ mid ++ post)
      by (rewrite <- app_assoc; reflexivity).
    rewrite (IH (pre ++ [Some c]) mid post s Hlen).
    rewrite <- app_assoc. reflexivity.
Qed.

Lemma c_chars_nul_free l :
  forallb (fun c => negb (Ascii.eqb c NUL)) l = true -> c_chars l = l.
Proof.
  induction l as [| c l IH]; simpl; [reflexivity |].
  intros H. apply andb_true_iff in H as [Hc Hl].
  destruct (Ascii.eqb c NUL); [discriminate |].
  rewrite IH by exact Hl. reflexivity.
Qed.

Lemma length_chars (n : string) :
  length (list_ascii_of_string n) = String.length n.
Proof. induction n as [| c n IH]; simpl; [reflexivity | rewrite IH; reflexivity]. Qed.

(** [strncpy] of a well-formed name with its own length copies exactly
    the name. *)
Lemma strncpy_name (k : nat) (post : buffer) (n : string) s :
  nul_free n = true ->
  strncpy (replicate k None ++ replicate (String.length n) None ++ post)
    (Z.of_nat k) n (Z.of_nat (String.length n)) s
  = Done (replicate k None ++ map Some (list_ascii_of_string n) ++ post) s.
Proof.
  intros Hn. unfold strncpy.
  rewrite (c_chars_nul_free _ Hn).
  rewrite Nat2Z.id.
  rewrite take_app_length' by (symmetry; apply length_chars).
  pose proof (write_bytes_at (list_ascii_of_string n) (replicate k None)
                (replicate (String.length n) None) post s) as W.
  rewrite !length_replicate in W.
  apply W. symmetry. apply length_chars.
Qed.

Lemma name_ok_inv n :
  name_ok n = true -> nul_free n = true /\ (0 < String.length n)%nat.
Proof.
  unfold name_ok. intros H. apply andb_true_iff in H as [Hne Hnf].
  split; [exact Hnf |].
  destruct n; [discriminate | simpl; lia].
Qed.

Lemma path_chars_cons n m rest :
  path_chars (n :: m :: rest)
  = path_chars (m :: rest) ++ "/"%char :: list_ascii_of_string n.
Proof. reflexivity. Qed.

Lemma path_chars_pos names :
  names <> [] ->
  Forall (fun n => name_ok n = true) names ->
  (0 < length (path_chars names))%nat.
Proof.
  intros Hne Hok. destruct names as [| n rest]; [congruence |].
  inversion Hok as [| ? ? Hn Hrest]; subst.
  apply name_ok_inv in Hn as [_ Hn].
  destruct rest as [| m rest].
  - simpl. rewrite length_chars. exact Hn.
  - rewrite path_chars_cons, length_app. simpl. lia.
Qed.

(** The length of the path is the sum of the first loop less the leading
    separator. *)
Lemma path_chars_total names :
  names <> [] ->
  Z.of_nat (length (path_chars names)) = names_total names - 1.
Proof.
  induction names as [| n rest IH]; [congruence |]. intros _.
  destruct rest as [| m rest].
  - simpl. rewrite length_chars. lia.
  - rewrite path_chars_cons, length_app.
    change (length ("/"%char :: list_ascii_of_string n))
      with (S (length (list_ascii_of_string n))).
    rewrite length_chars.
    assert (Hne : m :: rest <> []) by discriminate.
    specialize (IH Hne).
    change (names_total (n :: m :: rest))
      with (1 + Z.of_nat (String.length n) + names_total (m :: rest)).
    lia.
Qed.

(** ** Path construction: the second loop *)

Lemma fill_loop_ascent e :
  env_static e ->
  forall names t stop,
  forall s (tail : list ascii) fuel,
    ascent (cache s) t names stop ->
    is_Some (dentries (cache s) !! stop) ->
    Forall (fun n => name_ok n = true) names ->
    Z.of_nat (length (path_chars names)) < 2 ^ 31 ->
    (length names < fuel)%nat ->
    exists s',
      build_path_fill_loop e fuel t (Z.of_nat (length (path_chars names)))
        (replicate (length (path_chars names)) None ++ map Some tail) s
      = Done (inr (stop, 0, map Some (path_chars names ++ tail))) s' /\
      cache s' = cache s /\ trace s' = trace s.
Proof.
  intros He. induction names as [| n rest IH];
    intros t stop s tail fuel Hasc Hstop Hok Hb Hfuel.
  - inversion Hasc; subst.
    destruct fuel as [| fuel]; [simpl in Hfuel; lia |].
    destruct Hstop as [sd Hsd].
    cbn [build_path_fill_loop].
    kstep (sched_static e s He).
    set (s1 := mk_sys (cache s) (trace s) (S (tick s))).
    assert (Hsd1 : dentries (cache s1) !! stop = Some sd) by exact Hsd.
    kstep (IS_ROOT_eq _ _ _ Hsd1).
    rewrite orb_true_r.
    exists s1. repeat split; reflexivity.
  - inversion Hasc as [| ? d p ? ? Hd Hp Hne Hrest]; subst.
    inversion Hok as [| ? ? Hn Hokrest]; subst.
    destruct (name_ok_inv _ Hn) as [Hnf Hnlen].
    destruct fuel as [| fuel]; [simpl in Hfuel; lia |].
    simpl in Hfuel.
    cbn [build_path_fill_loop].
    kstep (sched_static e s He).
    set (s1 := mk_sys (cache s) (trace s) (S (tick s))).
    assert (Hd1 : dentries (cache s1) !! t = Some d) by exact Hd.
    kstep (IS_ROOT_eq _ _ _ Hd1).
    assert (Hnr : bool_decide (d_parent d = Some t) = false).
    { apply bool_decide_eq_false. rewrite Hp. congruence. }
    rewrite Hnr.
    pose proof (path_chars_pos (d_name d :: rest) ltac:(discriminate) Hok)
      as Hpos.
    assert (Hnz : (Z.of_nat (length (path_chars (d_name d :: rest))) =? 0)
                  = false) by (apply Z.eqb_neq; lia).
    rewrite Hnz. cbn [orb]. cbv iota.
    static_read He Hd1.
    unfold d_name_len.
    destruct rest as [| m rest].
    + (* the last name: the block is full once it is written *)
      change (path_chars [d_name d]) with (list_ascii_of_string (d_name d)).
      change (path_chars [d_name d]) with (list_ascii_of_string (d_name d))
        in Hb.
      rewrite length_chars in *.
      rewrite Z.sub_diag.
      change (Int.s32 0) with 0. change (0 <? 0) with false. cbv iota.
      static_read He Hd1.
      static_read He Hd1.
      match goal with
      | |- context [bind (strncpy _ _ _ _) _ ?st] =>
        pose proof (strncpy_name 0 (map Some tail) (d_name d) st Hnf) as W
      end.
      simpl replicate in W. simpl app in W at 1.
      rewrite app_nil_l in W.
      kstep W.
      change (0 =? 0) with true. cbv iota.
      kret.
      static_read He Hd1.
      rewrite Hp.
      match goal with
      | |- context [build_path_fill_loop e fuel p _ _ ?st] => set (s5 := st)
      end.
      destruct (IH p stop s5 (list_ascii_of_string (d_name d) ++ tail) fuel)
        as (s' & E & Hc & Ht).
      * exact Hrest.
      * exact Hstop.
      * constructor.
      * simpl. lia.
      * simpl. lia.
      * simpl in E. rewrite map_app in E.
        change (Z.of_nat 0) with 0 in E.
        exists s'. rewrite E, map_app. repeat split; assumption.
    + (* more names above: a separator goes in front *)
      rewrite path_chars_cons in *.
      set (up := path_chars (m :: rest)) in *.
      rewrite length_app in *.
      change (length ("/"%char :: list_ascii_of_string (d_name d)))
        with (S (length (list_ascii_of_string (d_name d)))) in *.
      rewrite length_chars in *.
      assert (Hup : (0 < length up)%nat).
      { apply path_chars_pos; [discriminate | exact Hokrest]. }
      replace (Z.of_nat (length up + S (String.length (d_name d)))
               - Z.of_nat (String.length (d_name d)))
        with (Z.of_nat (S (length up))) by lia.
      rewrite s32_small by lia.
      assert (Hge : (Z.of_nat (S (length up)) <? 0) = false)
        by (apply Z.ltb_ge; lia).
      rewrite Hge. cbv iota.
      static_read He Hd1.
      static_read He Hd1.
      replace (length up + S (String.length (d_name d)))%nat
        with (S (length up) + String.length (d_name d))%nat by lia.
      rewrite replicate_add, <- app_assoc.
      match goal with
      | |- context [bind (strncpy _ _ _ _) _ ?st] =>
        kstep (strncpy_name (S (length up)) (map Some tail) (d_name d) st Hnf)
      end.
      assert (Hnz2 : (Z.of_nat (S (length up)) =? 0) = false)
        by (apply Z.eqb_neq; lia).
      rewrite Hnz2. cbv iota.
      replace (Z.of_nat (S (length up)) - 1) with (Z.of_nat (length up))
        by lia.
      rewrite s32_small by lia.
      rewrite replicate_S_end, <- app_assoc. simpl app at 2.
      match goal with
      | |- context [bind (bind (poke _ _ _) _) _ ?st] =>
        pose proof (poke_at (replicate (length up) None)
                      (map Some (list_ascii_of_string (d_name d))
                       ++ map Some tail) None "/"%char st) as P
      end.
      rewrite length_replicate in P.
      unfold bind at 1. unfold bind at 1. rewrite P. cbv beta iota.
      unfold ret at 1. cbv beta iota.
      static_read He Hd1.
      rewrite Hp.
      match goal with
      | |- context [build_path_fill_loop e fuel p _ _ ?st] => set (s5 := st)
      end.
      destruct (IH p stop s5
                  ("/"%char :: list_ascii_of_string (d_name d) ++ tail) fuel)
        as (s' & E & Hc & Ht).
      * exact Hrest.
      * exact Hstop.
      * exact Hokrest.
      * fold up. lia.
      * lia.
      * fold up in E.
        simpl map in E. rewrite map_app in E.
        exists s'. rewrite E.
        split; [| split; assumption].
        f_equal. f_equal. f_equal.
        rewrite <- app_assoc. simpl. rewrite map_app. reflexivity.
Qed.

(** ** Path construction: the whole function *)

Lemma climb_ascent w : forall fuel t names stop,
  climb w fuel t = Climbed names stop ->
  ascent w t names stop /\ is_Some (dentries w !! stop)
  /\ (length names < fuel)%nat.
Proof.
  induction fuel as [| fuel IH]; intros t names stop Hc; [discriminate |].
  simpl in Hc.
  destruct (dentries w !! t) as [d |] eqn:Hd; [| discriminate].
  destruct (bool_decide (d_parent d = Some t)) eqn:Hroot.
  { injection Hc as <- <-. split; [constructor |].
    split; [rewrite Hd; eauto | simpl; lia]. }
  apply bool_decide_eq_false in Hroot.
  destruct (match d_inode d with
            | Some _ => revalidate_verdict w t
            | None => Some true
            end) as [[|] |]; try discriminate.
  - destruct (d_parent d) as [p |] eqn:Hp; [| discriminate].
    destruct (climb w fuel p) as [ns st | | |] eqn:Hcl; try discriminate.
    injection Hc as <- <-.
    destruct (IH p ns st Hcl) as (Ha & Hs & Hl).
    split; [| split; [exact Hs | simpl; lia]].
    apply ascent_step with p; try assumption. congruence.
  - injection Hc as <- <-. split; [constructor |].
    split; [rewrite Hd; eauto | simpl; lia].
Qed.

Lemma skeleton_lookup w w' p d :
  skeleton w = skeleton w' ->
  dentries w !! p = Some d ->
  exists d', dentries w' !! p = Some d' /\ d_name d' = d_name d
             /\ d_parent d' = d_parent d /\ d_inode d' = d_inode d.
Proof.
  unfold skeleton. intros Hs Hd. injection Hs as Hs _.
  apply (f_equal (fun l => l !! p)) in Hs.
  rewrite !list_lookup_fmap, Hd in Hs. simpl in Hs.
  destruct (dentries w' !! p) as [d' |]; [| discriminate].
  simpl in Hs. injection Hs as H1 H2 H3.
  exists d'. repeat split; congruence.
Qed.

Lemma ascent_skeleton w w' t names stop :
  skeleton w = skeleton w' ->
  ascent w t names stop -> ascent w' t names stop.
Proof.
  intros Hs Ha. induction Ha as [| t d p names stop Hd Hp Hne _ IH].
  - constructor.
  - destruct (skeleton_lookup _ _ _ _ Hs Hd) as (d' & Hd' & Hn & Hpar & _).
    rewrite <- Hn. apply ascent_step with p; try assumption. congruence.
Qed.

Lemma names_total_pos names : names <> [] -> 1 <= names_total names.
Proof.
  destruct names as [| n rest]; [congruence |]. intros _.
  pose proof (names_total_nonneg rest). simpl. lia.
Qed.

Lemma path_len_of_total names :
  names_total names < 2 ^ 31 ->
  (if names_total names =? 0 then names_total names
   else Int.s32 (names_total names - 1))
  = Z.of_nat (length (path_chars names)).
Proof.
  intros Hb. destruct names as [| n rest]; [reflexivity |].
  pose proof (names_total_pos (n :: rest) ltac:(discriminate)) as Hp.
  destruct (Z.eqb_spec (names_total (n :: rest)) 0); [lia |].
  rewrite s32_small by lia.
  rewrite path_chars_total by discriminate. reflexivity.
Qed.

Lemma kmalloc_static e size s :
  env_static e -> 0 <= size ->
  kmalloc e size s
  = Done (Some (replicate (Z.to_nat size) None))
      (mk_sys (cache s) (trace s) (S (tick s))).
Proof.
  intros [_ Hk] Hs. unfold kmalloc, bind, next_tick. simpl.
  rewrite Hk. destruct (Z.ltb_spec size 0); [lia |]. reflexivity.
Qed.

Lemma length_path_of names :
  String.length (path_of names) = length (path_chars names).
Proof.
  unfold path_of. rewrite <- length_chars.
  rewrite list_ascii_of_string_of_list_ascii. reflexivity.
Qed.

Lemma build_path_retry_static e :
  env_static e ->
  forall fuel retries s d names stop sd i si,
    climb (cache s) fuel d = Climbed names stop ->
    Forall (fun n => name_ok n = true) names ->
    names_total names < 2 ^ 31 ->
    dentries (cache s) !! stop = Some sd ->
    d_inode sd = Some i ->
    inodes (cache s) !! i = Some si ->
    exists s',
      build_path_retry e fuel (S retries) d s
      = Done (PathOk (c_block (path_of names))
                (Z.of_nat (String.length (path_of names))) (ceph_ino si)) s'
      /\ skeleton (cache s') = skeleton (cache s) /\ trace s' = trace s.
Proof.
  intros He fuel retries s d names stop sd i si Hc Hok Hb Hsd Hi Hsi.
  pose proof (names_total_nonneg names) as Hnn.
  destruct (len_loop_climb e He fuel d 0 s names stop Hc) as (s1 & E1 & Hsk1 & Htr1);
    [lia | lia |].
  rewrite Z.add_0_l in E1.
  cbn [build_path_retry]. kstep E1.
  rewrite (path_len_of_total names Hb).
  set (L := length (path_chars names)).
  assert (HL : Z.of_nat L < 2 ^ 31 - 1).
  { unfold L. destruct names as [| n rest]; [simpl; lia |].
    rewrite path_chars_total by discriminate. lia. }
  rewrite s32_small by lia.
  kstep (kmalloc_static e (Z.of_nat L + 1) s1 He ltac:(lia)).
  set (s2 := mk_sys (cache s1) (trace s1) (S (tick s1))).
  replace (Z.to_nat (Z.of_nat L + 1)) with (L + 1)%nat by lia.
  rewrite replicate_add. simpl replicate at 2.
  pose proof (poke_at (replicate L None) [] None NUL s2) as P.
  rewrite length_replicate in P.
  kstep P.
  destruct (climb_ascent _ _ _ _ _ Hc) as (Ha & Hst & Hlen).
  assert (Ha2 : ascent (cache s2) d names stop).
  { apply (ascent_skeleton (cache s)); [symmetry; exact Hsk1 | exact Ha]. }
  destruct (skeleton_lookup _ (cache s2) _ _ (eq_sym Hsk1) Hsd)
    as (sd' & Hsd' & _ & _ & Hi').
  destruct (fill_loop_ascent e He names d stop s2 [NUL] fuel Ha2)
    as (s3 & E3 & Hc3 & Htr3).
  { rewrite Hsd'. eauto. }
  { exact Hok. }
  { fold L. lia. }
  { exact Hlen. }
  fold L in E3. change (map Some [NUL]) with [Some NUL] in E3.
  kstep E3.
  change (negb (0 =? 0)) with false. cbv iota.
  assert (Hsd3 : dentries (cache s3) !! stop = Some sd')
    by (rewrite Hc3; exact Hsd').
  kstep (get_dentry_eq _ _ _ Hsd3).
  rewrite Hi', Hi. simpl deref.
  assert (Hsi3 : inodes (cache s3) !! i = Some si).
  { rewrite Hc3. change (inodes (cache s1) !! i = Some si).
    unfold skeleton in Hsk1. injection Hsk1 as _ Hin. rewrite Hin.
    exact Hsi. }
  kstep (get_inode_eq _ _ _ Hsi3).
  exists s3. split.
  - unfold ret. f_equal. f_equal.
    + unfold c_block, path_of.
      rewrite list_ascii_of_string_of_list_ascii. reflexivity.
    + rewrite length_path_of. reflexivity.
  - split.
    + rewrite Hc3. exact Hsk1.
    + rewrite Htr3. exact Htr1.
Qed.

Lemma climb_stop w : forall fuel t names stop,
  climb w fuel t = Climbed names stop ->
  exists sd, dentries w !! stop = Some sd /\
    (d_parent sd = Some stop \/
     (is_Some (d_inode sd) /\ revalidate_verdict w stop = Some false)).
Proof.
  induction fuel as [| fuel IH]; intros t names stop Hc; [discriminate |].
  simpl in Hc.
  destruct (dentries w !! t) as [d |] eqn:Hd; [| discriminate].
  destruct (bool_decide (d_parent d = Some t)) eqn:Hroot.
  { injection Hc as <- <-. apply bool_decide_eq_true in Hroot.
    exists d. split; [exact Hd | left; exact Hroot]. }
  destruct (d_inode d) as [i |] eqn:Hi.
  - destruct (revalidate_verdict w t) as [[|] |] eqn:Hv; try discriminate.
    + destruct (d_parent d) as [p |]; [| discriminate].
      destruct (climb w fuel p) as [ns st | | |] eqn:Hcl; try discriminate.
      injection Hc as <- <-. apply (IH p ns st Hcl).
    + injection Hc as <- <-. exists d. split; [exact Hd |].
      right. split; [rewrite Hi; eauto | exact Hv].
  - destruct (d_parent d) as [p |]; [| discriminate].
    destruct (climb w fuel p) as [ns st | | |] eqn:Hcl; try discriminate.
    injection Hc as <- <-. apply (IH p ns st Hcl).
Qed.

(** C3, as the code has it.  In a cache that nobody else changes, for
    every starting dentry whose walk towards the root ends within the fuel,
    path construction returns the names passed, written root to leaf with
    ['/'] between them and none in front, the length of that string, and
    the inode number of the dentry where the walk stopped.  The walk stops
    at the root or at the first dentry, the starting one included, that has
    an inode and fails revalidation; a dentry without an inode is passed
    without being checked. *)
Theorem build_dentry_path_resolves (e : env) (fuel : nat) (s : sys)
    (d stop i : nat) (names : list string) (sd : dentry) (si : inode) :
  env_static e ->
  climb (cache s) fuel d = Climbed names stop ->
  Forall (fun n => name_ok n = true) names ->
  names_total names < 2 ^ 31 ->
  dentries (cache s) !! stop = Some sd ->
  d_inode sd = Some i ->
  inodes (cache s) !! i = Some si ->
  (exists s',
     ceph_build_dentry_path e fuel (Some d) s
     = Done (PathOk (c_block (path_of names))
               (Z.of_nat (String.length (path_of names))) (ceph_ino si)) s')
  /\ (d_parent sd = Some stop \/
      revalidate_verdict (cache s) stop = Some false).
Proof.
  intros He Hc Hok Hb Hsd Hi Hsi. split.
  - destruct fuel as [| fuel]; [discriminate |].
    destruct (build_path_retry_static e He (S fuel) fuel s d names stop sd i si
                Hc Hok Hb Hsd Hi Hsi) as (s' & E & _).
    exists s'. exact E.
  - destruct (climb_stop _ _ _ _ _ Hc) as (sd' & Hsd' & Hstop).
    rewrite Hsd in Hsd'. injection Hsd' as <-.
    destruct Hstop as [Hr | [_ Hv]]; [left | right]; assumption.
Qed.

Lemma build_dentry_path_resolves_witness :
  exists s',
    ceph_build_dentry_path quiet 8 (Some 3%nat) (boot tree1)
    = Done (PathOk (c_block "usr/lib/x") 9 1) s'.
Proof.
  refine (proj1 (build_dentry_path_resolves quiet 8 (boot tree1) 3 0 0
                   ["x"; "lib"; "usr"]%string
                   (mk_dentry "/" (Some 0%nat) (Some 0%nat) 0 false true 1)
                   (dir_inode 1 7 CEPH_LOCK_ICONTENT) _ _ _ _ _ _ _)).
  - split; reflexivity.
  - reflexivity.
  - repeat constructor.
  - vm_compute. reflexivity.
  - reflexivity.
  - reflexivity.
  - reflexivity.
Defined.

(** C3, as stated, fails under either reading of "first ancestor that is
    not trustworthy".  With the starting node among the nodes checked:
    [new] in [tree_new_name] has no inode and is not trustworthy, so the
    walk of the specification stops on it and has no identity to return,
    while the code passes it and returns ["new"] relative to the root.
    With only proper ancestors checked: [f] in [tree_stale_file] is not
    trustworthy, the walk of the specification takes its name and returns
    ["f"] relative to the root, while the code stops on [f] and returns
    the empty path relative to [f] itself. *)
Lemma build_dentry_path_not_spec_walk :
  (built (ceph_build_dentry_path quiet 8 (Some 1%nat) (boot tree_new_name))
   = Some ("new"%string, 3, 1) /\
   resolution tree_new_name (spec_climb tree_new_name 8 1) = None) /\
  (built (ceph_build_dentry_path quiet 8 (Some 1%nat) (boot tree_stale_file))
   = Some (EmptyString, 0, 300) /\
   resolution tree_stale_file (spec_climb_above tree_stale_file 8 1)
   = Some ("f"%string, 1)).
Proof. repeat split; vm_compute; reflexivity. Qed.

(** ** Path construction: the errors *)

Tactic Notation "kinv" hyp(H) "as" ident(a) ident(s) ident(E) :=
  apply bind_inv in H as (a & s & E & H).

Lemma ret_inv {A} (a b : A) s s' : ret a s = Done b s' -> a = b /\ s = s'.
Proof. unfold ret. intros H. injection H as -> ->. split; reflexivity. Qed.

Lemma len_loop_err e : forall fuel t len s err s',
  build_path_len_loop e fuel t len s = Done (inl err) s' -> err = - EINVAL.
Proof.
  induction fuel as [| fuel IH]; intros t len s err s' H; [discriminate |].
  cbn [build_path_len_loop] in H.
  kinv H as u s1 E1. kinv H as root s2 E2.
  destruct root.
  { apply ret_inv in H as [H _]. discriminate. }
  kinv H as d s3 E3. kinv H as stop s4 E4.
  destruct stop.
  { apply ret_inv in H as [H _]. discriminate. }
  kinv H as d' s5 E5.
  destruct (d_parent d') as [p |].
  - apply (IH _ _ _ _ _ H).
  - kinv H as u' s6 E6. apply ret_inv in H as [H _]. congruence.
Qed.

Lemma fill_loop_err e : forall fuel t pos path s err s',
  build_path_fill_loop e fuel t pos path s = Done (inl err) s' ->
  err = - EINVAL.
Proof.
  induction fuel as [| fuel IH]; intros t pos path s err s' H;
    [discriminate |].
  cbn [build_path_fill_loop] in H.
  kinv H as u s1 E1. kinv H as root s2 E2.
  destruct (root || (pos =? 0)).
  { apply ret_inv in H as [H _]. discriminate. }
  kinv H as u1 s3 E3. kinv H as d s4 E4.
  destruct (Int.s32 (pos - d_name_len d) <? 0).
  { apply ret_inv in H as [H _]. discriminate. }
  kinv H as u2 s5 E5. kinv H as src s6 E6.
  kinv H as u3 s7 E7. kinv H as n s8 E8.
  kinv H as path1 s9 E9. kinv H as pp s10 E10. destruct pp as [pos' path'].
  kinv H as u4 s11 E11. kinv H as d' s12 E12.
  destruct (d_parent d') as [p |].
  - apply (IH _ _ _ _ _ _ H).
  - kinv H as u' s13 E13. apply ret_inv in H as [H _]. congruence.
Qed.


Lemma build_path_retry_err e fuel : forall retries d s err s',
  build_path_retry e fuel retries d s = Done (PathErr err) s' ->
  err = - EINVAL \/ err = - ENOMEM.
Proof.
  induction retries as [| retries IH]; intros d s err s' H; [discriminate |].
  cbn [build_path_retry] in H.
  kinv H as r1 s1 E1. destruct r1 as [e1 | len].
  { apply ret_inv in H as [H _]. injection H as <-.
    left. apply (len_loop_err _ _ _ _ _ _ _ E1). }
  kinv H as mem s2 E2. destruct mem as [blk |].
  2:{ apply ret_inv in H as [H _]. injection H as <-. right. reflexivity. }
  kinv H as blk' s3 E3. kinv H as r2 s4 E4.
  destruct r2 as [e2 | [[temp pos] path]].
  { apply ret_inv in H as [H _]. injection H as <-.
    left. apply (fill_loop_err _ _ _ _ _ _ _ _ E4). }
  destruct (negb (pos =? 0)).
  - kinv H as u s5 E5. apply (IH _ _ _ _ H).
  - kinv H as d' s5 E5. kinv H as i s6 E6.
    apply ret_inv in H as [H _]. discriminate.
Qed.

Lemma len_loop_corrupt e :
  env_static e ->
  forall fuel t len s,
    climb (cache s) fuel t = ClimbCorrupt ->
    exists s',
      build_path_len_loop e fuel t len s = Done (inl (- EINVAL)) s' /\
      trace s' = trace s ++ [EvDerr "corrupt dentry"].
Proof.
  intros He. induction fuel as [| fuel IH]; intros t len s Hc; [discriminate |].
  simpl in Hc. cbn [build_path_len_loop].
  kstep (sched_static e s He).
  set (s1 := mk_sys (cache s) (trace s) (S (tick s))).
  change (cache s) with (cache s1) in Hc.
  change (trace s) with (trace s1).
  destruct (dentries (cache s1) !! t) as [d |] eqn:Hd; [| discriminate].
  kstep (IS_ROOT_eq _ _ _ Hd).
  destruct (bool_decide (d_parent d = Some t)); [discriminate |].
  kstep (get_dentry_eq _ _ _ Hd).
  destruct (d_inode d) as [i |] eqn:Hi.
  - destruct (revalidate_verdict (cache s1) t) as [[|] |] eqn:Hv;
      try discriminate.
    unfold bind at 1. unfold bind at 1.
    rewrite (ceph_dentry_revalidate_eq _ _ _ _ Hd Hv). cbv beta iota.
    unfold ret at 1. cbv beta iota. change (1 =? 0) with false. cbv iota.
    kstep (get_dentry_eq _ _ _ Hd).
    destruct (d_parent d) as [p |].
    + destruct (climb (cache s1) fuel p) eqn:Hcl; try discriminate.
      apply (IH p _ s1 Hcl).
    + eexists. split; reflexivity.
  - kret.
    kstep (get_dentry_eq _ _ _ Hd).
    destruct (d_parent d) as [p |].
    + destruct (climb (cache s1) fuel p) eqn:Hcl; try discriminate.
      apply (IH p _ s1 Hcl).
    + eexists. split; reflexivity.
Qed.

(** C9, as the code has it.  Path construction fails with [-EINVAL] when
    the starting dentry is [NULL], and nothing is logged.  It fails with
    the same [-EINVAL], and logs ["corrupt dentry"], when the walk, in a
    cache that nobody else changes, comes to a dentry that has no inode
    and no parent pointer, which is what [ClimbCorrupt] stands for.  And it
    returns no other error than [-EINVAL] and [-ENOMEM]. *)
Theorem build_dentry_path_errors :
  (forall e fuel s,
     ceph_build_dentry_path e fuel None s = Done (PathErr (- EINVAL)) s) /\
  (forall e fuel s d,
     env_static e -> climb (cache s) fuel d = ClimbCorrupt ->
     exists s',
       ceph_build_dentry_path e fuel (Some d) s
       = Done (PathErr (- EINVAL)) s' /\
       trace s' = trace s ++ [EvDerr "corrupt dentry"]) /\
  (forall w fuel d t,
     dentries w !! d = Some t -> d_parent t = None -> d_inode t = None ->
     climb w (S fuel) d = ClimbCorrupt) /\
  (forall e fuel d s err s',
     ceph_build_dentry_path e fuel d s = Done (PathErr err) s' ->
     err = - EINVAL \/ err = - ENOMEM).
Proof.
  split; [| split; [| split]].
  - reflexivity.
  - intros e fuel s d He Hc.
    destruct fuel as [| fuel]; [discriminate |].
    destruct (len_loop_corrupt e He (S fuel) d 0 s Hc) as (s' & E & Ht).
    unfold ceph_build_dentry_path. cbn [build_path_retry].
    kstep E. eexists. split; [reflexivity | exact Ht].
  - intros w fuel d t Hd Hp Hi. simpl. rewrite Hd, Hp, Hi.
    rewrite bool_decide_eq_false_2 by discriminate. reflexivity.
  - intros e fuel [d |] s err s' H.
    + apply (build_path_retry_err _ _ _ _ _ _ _ H).
    + apply ret_inv in H as [H _]. injection H as <-. left. reflexivity.
Qed.

(** In [tree_corrupt] the name [a] has neither inode nor parent. *)
Lemma build_dentry_path_errors_witness :
  ceph_build_dentry_path quiet 8 None (boot tree_corrupt)
  = Done (PathErr (- EINVAL)) (boot tree_corrupt) /\
  climb tree_corrupt 8 1 = ClimbCorrupt /\
  exists s',
    ceph_build_dentry_path quiet 8 (Some 1%nat) (boot tree_corrupt)
    = Done (PathErr (- EINVAL)) s' /\
    trace s' = trace (boot tree_corrupt) ++ [EvDerr "corrupt dentry"].
Proof.
  split; [| split].
  - apply (proj1 build_dentry_path_errors).
  - apply (proj1 (proj2 (proj2 build_dentry_path_errors)) tree_corrupt 7%nat
             1%nat (mk_dentry "a" None None 7 true true 1));
      reflexivity.
  - apply (proj1 (proj2 build_dentry_path_errors) quiet 8%nat
             (boot tree_corrupt) 1%nat).
    + split; reflexivity.
    + reflexivity.
Defined.

(** C9, as stated, fails: a parent pointer missing during the walk gives
    the same [-EINVAL] as a [NULL] starting dentry, not a distinct error;
    only the logged message tells them apart. *)
Lemma build_dentry_path_corrupt_is_einval :
  result_of (ceph_build_dentry_path quiet 8 (Some 1%nat) (boot tree_corrupt))
  = result_of (ceph_build_dentry_path quiet 8 None (boot tree_corrupt)) /\
  result_of (ceph_build_dentry_path quiet 8 (Some 1%nat) (boot tree_corrupt))
  = Some (PathErr (- EINVAL)).
Proof. split; vm_compute; reflexivity. Qed.

(** A dentry that has an inode and no parent pointer is another matter:
    the first loop hands it to [ceph_dentry_revalidate], which
    dereferences the parent before the loop gets to its [NULL] test. *)
Lemma build_dentry_path_orphan_faults :
  climb tree_orphan 8 1 = ClimbFault /\
  ceph_build_dentry_path quiet 8 (Some 1%nat) (boot tree_orphan)
  = Oops (mk_sys tree_orphan [] 1).
Proof. split; vm_compute; reflexivity. Qed.

(** ** Path construction under concurrent renames *)

Lemma sched_eq e s :
  sched e s
  = Done tt (mk_sys (race e (tick s) (cache s)) (trace s) (S (tick s))).
Proof. reflexivity. Qed.

Lemma get_dentry_inv p s d s' :
  get_dentry p s = Done d s' ->
  s' = s /\ dentries (cache s) !! p = Some d.
Proof.
  unfold get_dentry, bind, get_cache.
  destruct (dentries (cache s) !! p) as [d0 |]; [| discriminate].
  intros H. apply ret_inv in H as [-> ->]. split; reflexivity.
Qed.

Lemma get_inode_inv p s i s' :
  get_inode p s = Done i s' ->
  s' = s /\ inodes (cache s) !! p = Some i.
Proof.
  unfold get_inode, bind, get_cache.
  destruct (inodes (cache s) !! p) as [i0 |]; [| discriminate].
  intros H. apply ret_inv in H as [-> ->]. split; reflexivity.
Qed.



















(** ** Lookup completion *)

Lemma d_rehash_eq p s d :
  dentries (cache s) !! p = Some d ->
  d_rehash (Some p) s =
  Done tt (mk_sys (mk_world (<[p := with_hashed true d]>
                               (dentries (cache s)))
                     (inodes (cache s)))
             (trace s) (tick s)).
Proof.
  intros H. unfold d_rehash. simpl.
  kstep (get_dentry_eq _ _ _ H).
  apply set_dentry_eq. exact H.
Qed.

Lemma d_alloc_eq e parent name s :
  kmalloc_fails e (tick s) = false ->
  d_alloc e parent name s =
  Done (Some (length (dentries (cache s))))
    (mk_sys (mk_world (dentries (cache s)
                       ++ [mk_dentry name parent None 0 false false 1])
               (inodes (cache s)))
       (trace s) (S (tick s))).
Proof.
  intros H. unfold d_alloc, bind, next_tick. simpl. rewrite H. reflexivity.
Qed.

Lemma dget_eq p s d :
  dentries (cache s) !! p = Some d ->
  dget (Some p) s =
  Done tt (mk_sys (mk_world (<[p := with_count (d_count d + 1) d]>
                               (dentries (cache s)))
                     (inodes (cache s)))
             (trace s) (tick s)).
Proof.
  intros H. unfold dget.
  kstep (get_dentry_eq _ _ _ H).
  apply set_dentry_eq. exact H.
Qed.

(** C7.  When a lookup ends with [-ENOENT] and the reply has no trace,
    [ceph_finish_lookup] does not return an error pointer, and the dentry
    that stands for the name afterwards is in the hash with no inode: the
    looked-up dentry itself when it had no inode, and otherwise a fresh
    dentry of the same name and parent that replaces it in the request
    while the old one is unhashed. *)
Theorem finish_lookup_known_negative (e : env) (req : request) (dn : nat)
    (s : sys) (d : dentry) :
  dentries (cache s) !! dn = Some d ->
  trace_numd req = 0 ->
  r_last_dentry req = Some dn ->
  (is_Some (d_inode d) -> kmalloc_fails e (tick s) = false) ->
  exists res req' s' neg nd,
    ceph_finish_lookup e req dn (- ENOENT) s = Done (res, req') s' /\
    (forall errno, res <> ErrPtr errno) /\
    dentries (cache s') !! neg = Some nd /\
    d_name nd = d_name d /\ d_parent nd = d_parent d /\
    d_inode nd = None /\ d_hashed nd = true /\
    (d_inode d = None -> neg = dn /\ res = Ptr None) /\
    (is_Some (d_inode d) ->
     neg <> dn /\ res = Ptr (Some neg) /\ r_last_dentry req' = Some neg /\
     exists od, dentries (cache s') !! dn = Some od /\ d_hashed od = false).
Proof.
  intros Hd Hnt Hlast Halloc.
  assert (Hlt : (dn < length (dentries (cache s)))%nat).
  { apply lookup_lt_is_Some. rewrite Hd. eauto. }
  unfold ceph_finish_lookup.
  rewrite Z.eqb_refl, Hnt. change (0 =? 0) with true. cbv iota.
  set (s1 := mk_sys (cache s) (trace s ++ [EvInitDentry dn]) (tick s)).
  assert (E0 : ceph_init_dentry dn s = Done tt s1) by reflexivity.
  kstep E0.
  assert (Hd1 : dentries (cache s1) !! dn = Some d) by exact Hd.
  kstep (get_dentry_eq _ _ _ Hd1).
  destruct (d_inode d) as [i |] eqn:Hi.
  - (* the dentry had an inode: drop it and hash a fresh negative one *)
    specialize (Halloc ltac:(eauto)).
    kstep (d_drop_eq _ _ _ Hd1).
    set (ds1 := <[dn := with_hashed false d]> (dentries (cache s))).
    set (s2 := mk_sys (mk_world ds1 (inodes (cache s1))) (trace s1) (tick s1)).
    kstep (d_alloc_eq e (d_parent d) (d_name d) s2 Halloc).
    set (fresh := mk_dentry (d_name d) (d_parent d) None 0 false false 1).
    set (n := length (dentries (cache s2))).
    assert (Hn : n = length (dentries (cache s))).
    { unfold n, s2, ds1. simpl. apply length_insert. }
    set (s3 := mk_sys (mk_world (dentries (cache s2) ++ [fresh])
                         (inodes (cache s2))) (trace s2) (S (tick s2))).
    assert (Hf3 : dentries (cache s3) !! n = Some fresh).
    { unfold s3. simpl. rewrite lookup_app_r by (unfold n; simpl; lia).
      unfold n. simpl. rewrite Nat.sub_diag. reflexivity. }
    kstep (d_rehash_eq _ _ _ Hf3).
    kret. kret.
    change (negb (0 =? 0)) with false. cbv iota.
    assert (Hne : Some n <> Some dn) by (intros [= Heq]; lia).
    cbn [r_last_dentry with_last_dentry].
    rewrite (bool_decide_eq_false_2 _ Hne).
    cbn [negb]. cbv iota.
    set (ds3 := <[n := with_hashed true fresh]> (dentries (cache s3))).
    set (s4 := mk_sys (mk_world ds3 (inodes (cache s3))) (trace s3) (tick s3)).
    assert (Hn3 : (n < length (dentries (cache s3)))%nat).
    { apply lookup_lt_is_Some. rewrite Hf3. eauto. }
    assert (Hf4 : dentries (cache s4) !! n = Some (with_hashed true fresh)).
    { unfold s4, ds3. simpl. apply list_lookup_insert_eq. exact Hn3. }
    kstep (dget_eq _ _ _ Hf4).
    eexists _, _, _, n, _. split; [reflexivity |].
    split; [discriminate |].
    split.
    { simpl. apply list_lookup_insert_eq. unfold ds3.
      rewrite length_insert. exact Hn3. }
    repeat (split; [reflexivity |]).
    split; [discriminate |].
    intros _. split; [lia |].
    split; [reflexivity |]. split; [reflexivity |].
    exists (with_hashed false d). split; [| reflexivity].
    simpl. rewrite list_lookup_insert_ne by lia.
    unfold ds3. rewrite list_lookup_insert_ne by lia.
    simpl. rewrite lookup_app_l by (unfold ds1; rewrite length_insert; lia).
    unfold ds1. apply list_lookup_insert_eq. exact Hlt.
  - (* the dentry had none: hash it as it is *)
    unfold d_add, d_instantiate.
    kstep (set_dentry_eq _ (with_inode None) _ _ Hd1).
    set (s2 := mk_sys (mk_world (<[dn := with_inode None d]>
                                   (dentries (cache s1)))
                         (inodes (cache s1))) (trace s1) (tick s1)).
    assert (Hd2 : dentries (cache s2) !! dn = Some (with_inode None d)).
    { unfold s2. simpl. apply list_lookup_insert_eq. exact Hlt. }
    kstep (d_rehash_eq _ _ _ Hd2).
    kret. kret.
    change (negb (0 =? 0)) with false. cbv iota.
    rewrite Hlast, bool_decide_eq_true_2 by reflexivity.
    cbn [negb]. cbv iota.
    eexists _, _, _, dn, _. split; [reflexivity |].
    split; [discriminate |].
    split.
    { simpl. apply list_lookup_insert_eq. rewrite length_insert. exact Hlt. }
    repeat (split; [reflexivity |]).
    split; [intros _; split; reflexivity |].
    intros [x Hx]. discriminate.
Qed.

Lemma finish_lookup_known_negative_witness :
  exists res req' s' neg nd,
    ceph_finish_lookup quiet (lstat_request 1) 1 (- ENOENT) (boot tree_lookup)
    = Done (res, req') s' /\
    (forall errno, res <> ErrPtr errno) /\
    dentries (cache s') !! neg = Some nd /\
    d_name nd = "gone"%string /\ d_parent nd = Some 0%nat /\
    d_inode nd = None /\ d_hashed nd = true /\
    (Some 1%nat = None -> neg = 1%nat /\ res = Ptr None) /\
    (is_Some (Some 1%nat) ->
     neg <> 1%nat /\ res = Ptr (Some neg) /\ r_last_dentry req' = Some neg /\
     exists od, dentries (cache s') !! 1%nat = Some od /\ d_hashed od = false).
Proof.
  apply (finish_lookup_known_negative quiet (lstat_request 1) 1
           (boot tree_lookup)
           (mk_dentry "gone" (Some 0%nat) (Some 1%nat) 7 false true 1)).
  - reflexivity.
  - reflexivity.
  - reflexivity.
  - intros _. reflexivity.
Defined.

(** The whole lookup of a name without an inode, answered with
    [-ENOENT] and no trace: the caller gets [NULL], not an error, and the
    dentry is hashed with no inode. *)
Lemma do_lookup_enoent_example :
  match ceph_do_lookup mds_enoent 8 2 CEPH_STAT_MASK_INODE_ALL false
          (boot tree_lookup) with
  | Done res s' =>
    res = Ptr None /\
    option_map (fun d => (d_inode d, d_hashed d)) (dentries (cache s') !! 2%nat)
    = Some (None, true)
  | _ => False
  end.
Proof. vm_compute. split; reflexivity. Qed.

(** ** What a computation adds to the trace *)

Lemma logs_weaken {A} (ok ok' : event -> Prop) (m : K A) (post post' : A -> Prop) :
  (forall ev, ok ev -> ok' ev) -> (forall a, post a -> post' a) ->
  logs ok m post -> logs ok' m post'.
Proof.
  intros Hok Hpost H s. specialize (H s).
  destruct (m s) as [a s' | s' |]; [| | exact I].
  - destruct H as (Hp & evs & Ht & Hf). split; [auto |].
    exists evs. split; [exact Ht |]. eapply Forall_impl; eauto.
  - destruct H as (evs & Ht & Hf).
    exists evs. split; [exact Ht |]. eapply Forall_impl; eauto.
Qed.

Lemma logs_ret {A} ok (a : A) (post : A -> Prop) :
  post a -> logs ok (ret a) post.
Proof.
  intros H s. simpl. split; [exact H |].
  exists []. rewrite app_nil_r. split; [reflexivity | constructor].
Qed.

Lemma logs_oops {A} ok (post : A -> Prop) : logs ok oops post.
Proof.
  intros s. simpl. exists []. rewrite app_nil_r.
  split; [reflexivity | constructor].
Qed.

Lemma logs_hang {A} ok (post : A -> Prop) : logs ok hang post.
Proof. intros s. exact I. Qed.

Lemma logs_bind {A B} ok (m : K A) (f : A -> K B) (mid : A -> Prop)
    (post : B -> Prop) :
  logs ok m mid -> (forall a, mid a -> logs ok (f a) post) ->
  logs ok (bind m f) post.
Proof.
  intros Hm Hf s. specialize (Hm s). unfold bind.
  destruct (m s) as [a s1 | s1 |]; [| exact Hm | exact I].
  destruct Hm as (Hmid & evs1 & Ht1 & Hf1).
  specialize (Hf a Hmid s1).
  destruct (f a s1) as [b s2 | s2 |]; [| | exact I].
  - destruct Hf as (Hp & evs2 & Ht2 & Hf2). split; [exact Hp |].
    exists (evs1 ++ evs2). rewrite Ht2, Ht1, app_assoc.
    split; [reflexivity | apply Forall_app; split; assumption].
  - destruct Hf as (evs2 & Ht2 & Hf2).
    exists (evs1 ++ evs2). rewrite Ht2, Ht1, app_assoc.
    split; [reflexivity | apply Forall_app; split; assumption].
Qed.

(** A step that leaves the trace alone. *)
Lemma logs_silent {A} ok (m : K A) :
  (forall s, match m s with
             | Done _ s' => trace s' = trace s
             | Oops s' => trace s' = trace s
             | Hang => True
             end) ->
  logs ok m (fun _ => True).
Proof.
  intros H s. specialize (H s).
  destruct (m s) as [a s' | s' |]; [| | exact I].
  - split; [exact I |]. exists []. rewrite app_nil_r.
    split; [exact H | constructor].
  - exists []. rewrite app_nil_r. split; [exact H | constructor].
Qed.

Lemma logs_emit ok ev : ok ev -> logs ok (emit ev) (fun _ => True).
Proof.
  intros H s. simpl. split; [exact I |].
  exists [ev]. split; [reflexivity | repeat constructor; exact H].
Qed.

Lemma logs_get_cache ok : logs ok get_cache (fun _ => True).
Proof. apply logs_silent. intros s. reflexivity. Qed.

Lemma logs_put_cache ok w : logs ok (put_cache w) (fun _ => True).
Proof. apply logs_silent. intros s. reflexivity. Qed.

Lemma logs_next_tick ok : logs ok next_tick (fun _ => True).
Proof. apply logs_silent. intros s. reflexivity. Qed.

Create HintDb logs.

#[export] Hint Resolve logs_get_cache logs_put_cache logs_next_tick
  logs_oops logs_hang : logs.

(** Decompose a computation built from binds, returns, matches and known
    steps. *)
Ltac logs_step :=
  match goal with
  | |- logs _ (bind _ _) _ =>
    eapply logs_bind; [solve [eauto with logs] | intros ? _]
  | |- logs _ (ret _) _ => apply logs_ret; exact I
  | |- logs _ (match ?x with _ => _ end) _ => destruct x
  | |- logs _ (let '(_, _) := ?x in _) _ => destruct x
  | |- logs _ _ _ => solve [eauto with logs]
  end.

Ltac logs_auto := repeat logs_step.

Lemma logs_get_dentry ok p : logs ok (get_dentry p) (fun _ => True).
Proof. unfold get_dentry. logs_auto. Qed.

Lemma logs_get_inode ok p : logs ok (get_inode p) (fun _ => True).
Proof. unfold get_inode. logs_auto. Qed.

#[export] Hint Resolve logs_get_dentry logs_get_inode : logs.

Lemma logs_deref {A} ok (get : nat -> K A) p :
  (forall q, logs ok (get q) (fun _ => True)) ->
  logs ok (deref get p) (fun _ => True).
Proof. intros H. unfold deref. destruct p; [apply H | apply logs_oops]. Qed.

Lemma logs_set_dentry ok p f : logs ok (set_dentry p f) (fun _ => True).
Proof. unfold set_dentry. logs_auto. Qed.

Lemma logs_set_inode ok p f : logs ok (set_inode p f) (fun _ => True).
Proof. unfold set_inode. logs_auto. Qed.

#[export] Hint Resolve logs_set_dentry logs_set_inode : logs.

Lemma logs_d_drop ok p : logs ok (d_drop p) (fun _ => True).
Proof.
  unfold d_drop. eapply logs_bind.
  - apply logs_deref. intros q. apply logs_get_dentry.
  - intros _ _. logs_auto.
Qed.

Lemma logs_d_rehash ok p : logs ok (d_rehash p) (fun _ => True).
Proof.
  unfold d_rehash. eapply logs_bind.
  - apply logs_deref. intros q. apply logs_get_dentry.
  - intros _ _. logs_auto.
Qed.

#[export] Hint Resolve logs_d_drop logs_d_rehash : logs.

Lemma logs_d_instantiate ok p i : logs ok (d_instantiate p i) (fun _ => True).
Proof. unfold d_instantiate. logs_auto. Qed.

#[export] Hint Resolve logs_d_instantiate : logs.

Lemma logs_d_add ok p i : logs ok (d_add p i) (fun _ => True).
Proof. unfold d_add. logs_auto. Qed.

Lemma logs_d_alloc ok e parent name :
  logs ok (d_alloc e parent name) (fun _ => True).
Proof. unfold d_alloc. logs_auto. Qed.

Lemma logs_dget ok p : logs ok (dget p) (fun _ => True).
Proof. unfold dget. logs_auto. Qed.

Lemma logs_dput ok p : logs ok (dput p) (fun _ => True).
Proof. unfold dput. logs_auto. Qed.

Lemma logs_d_move ok a b : logs ok (d_move a b) (fun _ => True).
Proof. unfold d_move. logs_auto. Qed.

Lemma logs_inc_nlink ok i : logs ok (inc_nlink i) (fun _ => True).
Proof. unfold inc_nlink. logs_auto. Qed.

Lemma logs_drop_nlink ok i : logs ok (drop_nlink i) (fun _ => True).
Proof. unfold drop_nlink. logs_auto. Qed.

Lemma logs_atomic_inc ok i : logs ok (atomic_inc_i_count i) (fun _ => True).
Proof. unfold atomic_inc_i_count. logs_auto. Qed.

Lemma logs_IS_ROOT ok p : logs ok (IS_ROOT p) (fun _ => True).
Proof. unfold IS_ROOT. logs_auto. Qed.

Lemma logs_sched ok e : logs ok (sched e) (fun _ => True).
Proof. unfold sched. logs_auto. Qed.

Lemma logs_kmalloc ok e n : logs ok (kmalloc e n) (fun _ => True).
Proof. unfold kmalloc. logs_auto. Qed.

Lemma logs_poke ok path i c : logs ok (poke path i c) (fun _ => True).
Proof. unfold poke. logs_auto. Qed.

#[export] Hint Resolve logs_d_add logs_d_alloc logs_dget logs_dput logs_d_move
  logs_inc_nlink logs_drop_nlink logs_atomic_inc logs_IS_ROOT logs_sched
  logs_kmalloc logs_poke : logs.

Lemma logs_write_bytes ok l : forall path pos,
  logs ok (write_bytes path pos l) (fun _ => True).
Proof. induction l as [| c l IH]; intros path pos; simpl; logs_auto. Qed.

#[export] Hint Resolve logs_write_bytes : logs.

Lemma logs_strncpy ok path pos src n :
  logs ok (strncpy path pos src n) (fun _ => True).
Proof. unfold strncpy. logs_auto. Qed.

Lemma logs_revalidate ok p : logs ok (ceph_dentry_revalidate p) (fun _ => True).
Proof.
  unfold ceph_dentry_revalidate.
  eapply logs_bind; [apply logs_get_dentry | intros d _].
  eapply logs_bind;
    [apply logs_deref; intros q; apply logs_get_dentry | intros parent _].
  eapply logs_bind;
    [apply logs_deref; intros q; apply logs_get_inode | intros dir _].
  logs_auto.
Qed.

#[export] Hint Resolve logs_strncpy logs_revalidate : logs.

(** ** The trace of path construction, requests and lookup *)

Lemma logs_len_loop ok e :
  (forall msg, ok (EvDerr msg)) ->
  forall fuel t len, logs ok (build_path_len_loop e fuel t len) (fun _ => True).
Proof.
  intros Hok. induction fuel as [| fuel IH]; intros t len;
    cbn [build_path_len_loop]; [apply logs_hang |].
  eapply logs_bind; [apply logs_sched | intros _ _].
  eapply logs_bind; [apply logs_IS_ROOT | intros root _].
  destruct root; [apply logs_ret; exact I |].
  eapply logs_bind; [apply logs_get_dentry | intros d _].
  eapply logs_bind.
  { instantiate (1 := fun _ => True). destruct (d_inode d); logs_auto. }
  intros stop _. destruct stop; [apply logs_ret; exact I |].
  eapply logs_bind; [apply logs_get_dentry | intros d' _].
  destruct (d_parent d') as [p |]; [apply IH |].
  eapply logs_bind; [apply logs_emit, Hok | intros _ _].
  apply logs_ret. exact I.
Qed.

Lemma logs_fill_loop ok e :
  (forall msg, ok (EvDerr msg)) ->
  forall fuel t pos path,
    logs ok (build_path_fill_loop e fuel t pos path) (fun _ => True).
Proof.
  intros Hok. induction fuel as [| fuel IH]; intros t pos path;
    cbn [build_path_fill_loop]; [apply logs_hang |].
  eapply logs_bind; [apply logs_sched | intros _ _].
  eapply logs_bind; [apply logs_IS_ROOT | intros root _].
  destruct (root || (pos =? 0)); [apply logs_ret; exact I |].
  eapply logs_bind; [apply logs_sched | intros _ _].
  eapply logs_bind; [apply logs_get_dentry | intros d _].
  destruct (Int.s32 (pos - d_name_len d) <? 0); [apply logs_ret; exact I |].
  eapply logs_bind; [apply logs_sched | intros _ _].
  eapply logs_bind; [apply logs_get_dentry | intros src _].
  eapply logs_bind; [apply logs_sched | intros _ _].
  eapply logs_bind; [apply logs_get_dentry | intros n _].
  eapply logs_bind; [apply logs_strncpy | intros path1 _].
  eapply logs_bind.
  { instantiate (1 := fun _ => True).
    destruct (Int.s32 (pos - d_name_len d) =? 0); logs_auto. }
  intros [pos' path'] _.
  eapply logs_bind; [apply logs_sched | intros _ _].
  eapply logs_bind; [apply logs_get_dentry | intros d' _].
  destruct (d_parent d') as [p |]; [apply IH |].
  eapply logs_bind; [apply logs_emit, Hok | intros _ _].
  apply logs_ret. exact I.
Qed.

Lemma logs_build_path_retry ok e fuel :
  (forall msg, ok (EvDerr msg)) ->
  forall retries d, logs ok (build_path_retry e fuel retries d) (fun _ => True).
Proof.
  intros Hok. induction retries as [| retries IH]; intros d;
    cbn [build_path_retry]; [apply logs_hang |].
  eapply logs_bind; [apply logs_len_loop, Hok | intros r _].
  destruct r as [err | len]; [apply logs_ret; exact I |].
  eapply logs_bind; [apply logs_kmalloc | intros mem _].
  destruct mem as [blk |]; [| apply logs_ret; exact I].
  eapply logs_bind; [apply logs_poke | intros blk' _].
  eapply logs_bind; [apply logs_fill_loop, Hok | intros r _].
  destruct r as [err | [[temp pos] path]]; [apply logs_ret; exact I |].
  destruct (negb (pos =? 0)).
  - eapply logs_bind; [apply logs_emit, Hok | intros _ _]. apply IH.
  - eapply logs_bind; [apply logs_get_dentry | intros sd _].
    eapply logs_bind;
      [apply logs_deref; intros q; apply logs_get_inode | intros si _].
    apply logs_ret. exact I.
Qed.

Lemma logs_build_path ok e fuel d :
  quiet_ok ok ->
  logs ok (ceph_build_dentry_path e fuel d) (fun _ => True).
Proof.
  intros (Hok & _). unfold ceph_build_dentry_path.
  destruct d; [apply logs_build_path_retry, Hok | apply logs_ret; exact I].
Qed.

Lemma logs_create_request ok e op ino1 path1 ino2 path2 ref mode :
  accepts ok op ->
  logs ok (ceph_mdsc_create_request e op ino1 path1 ino2 path2 ref mode)
    (fun r => match r with inr req => r_op req = op | inl _ => True end).
Proof.
  intros [Hc _]. unfold ceph_mdsc_create_request.
  eapply logs_bind; [apply logs_next_tick | intros n _].
  destruct (create_request_fails e n); [apply logs_ret; exact I |].
  eapply logs_bind; [apply logs_emit, Hc | intros _ _].
  apply logs_ret. reflexivity.
Qed.

Lemma logs_do_request ok e req :
  accepts ok (r_op req) ->
  logs ok (ceph_mdsc_do_request e req)
    (fun r => r_op (snd r) = r_op req).
Proof.
  intros [_ Hd]. unfold ceph_mdsc_do_request.
  eapply logs_bind; [apply logs_next_tick | intros n _].
  eapply logs_bind; [apply logs_get_cache | intros w _].
  eapply logs_bind; [apply logs_emit, Hd; reflexivity | intros _ _].
  eapply logs_bind; [apply logs_put_cache | intros _ _].
  apply logs_ret. reflexivity.
Qed.

Lemma logs_put_request ok req :
  quiet_ok ok -> logs ok (ceph_mdsc_put_request req) (fun _ => True).
Proof.
  intros (_ & _ & Hp & _). unfold ceph_mdsc_put_request.
  eapply logs_bind; [apply logs_emit, Hp | intros _ _]. logs_auto.
Qed.

Lemma logs_lease_release ok ino dn mask :
  quiet_ok ok ->
  logs ok (ceph_mdsc_lease_release ino dn mask) (fun _ => True).
Proof.
  intros (_ & _ & _ & Hl). unfold ceph_mdsc_lease_release.
  eapply logs_bind; [apply logs_emit, Hl | intros _ _].
  eapply logs_bind;
    [apply logs_deref; intros q; apply logs_get_inode | intros i _].
  eapply logs_bind.
  { instantiate (1 := fun _ => True). destruct ino; logs_auto. }
  intros _ _. destruct dn; [| logs_auto].
  destruct (Z.land mask CEPH_LOCK_DN =? 0); logs_auto.
Qed.

Lemma logs_finish_lookup ok e req dn err :
  quiet_ok ok ->
  logs ok (ceph_finish_lookup e req dn err) (fun _ => True).
Proof.
  intros (_ & Hi & _). unfold ceph_finish_lookup.
  eapply logs_bind.
  { instantiate (1 := fun _ => True).
    destruct (err =? - ENOENT); [| apply logs_ret; exact I].
    eapply logs_bind; [| intros ? _; apply logs_ret; exact I].
    instantiate (1 := fun _ => True).
    destruct (trace_numd req =? 0); [| apply logs_ret; exact I].
    eapply logs_bind; [apply logs_emit, Hi | intros _ _].
    eapply logs_bind; [apply logs_get_dentry | intros d _].
    destruct (d_inode d); logs_auto. }
  intros [req' err'] _.
  destruct (negb (err' =? 0)); [apply logs_ret; exact I |].
  destruct (negb (bool_decide (r_last_dentry req' = Some dn))); logs_auto.
Qed.

Lemma logs_do_lookup ok e fuel dn mask on_inode :
  quiet_ok ok -> accepts ok CEPH_MDS_OP_LSTAT ->
  logs ok (ceph_do_lookup e fuel dn mask on_inode) (fun _ => True).
Proof.
  intros Hq Ha. unfold ceph_do_lookup.
  eapply logs_bind; [apply logs_get_dentry | intros d _].
  destruct (d_name_len d >? NAME_MAX); [apply logs_ret; exact I |].
  eapply logs_bind.
  { instantiate (1 := fun r =>
       match r with
       | inr (inr req) => r_op req = CEPH_MDS_OP_LSTAT
       | _ => True
       end).
    destruct on_inode.
    - eapply logs_bind;
        [apply logs_deref; intros q; apply logs_get_inode | intros i _].
      eapply logs_bind; [apply logs_create_request, Ha | intros r Hr].
      apply logs_ret. exact Hr.
    - eapply logs_bind; [apply logs_build_path, Hq | intros p _].
      destruct p as [err | path plen base]; [apply logs_ret; exact I |].
      eapply logs_bind; [apply logs_create_request, Ha | intros r Hr].
      apply logs_ret. exact Hr. }
  intros [err | [err | req]] Hr; try (apply logs_ret; exact I).
  eapply logs_bind; [apply logs_dget | intros _ _].
  eapply logs_bind.
  { apply logs_do_request. simpl. rewrite Hr. exact Ha. }
  intros [err req'] _.
  eapply logs_bind; [apply logs_finish_lookup, Hq | intros [res req''] _].
  eapply logs_bind; [apply logs_put_request, Hq | intros _ _].
  apply logs_ret. exact I.
Qed.

(** ** The trace of the mutating operations *)

Lemma logs_mknod ok e fuel dir dn mode rdev :
  quiet_ok ok -> accepts ok CEPH_MDS_OP_MKNOD ->
  accepts ok CEPH_MDS_OP_LSTAT ->
  logs ok (ceph_mknod e fuel dir dn mode rdev) (fun _ => True).
Proof.
  intros Hq Ha Hl. unfold ceph_mknod.
  eapply logs_bind; [apply logs_build_path, Hq | intros p _].
  destruct p as [err | path plen base]; [apply logs_ret; exact I |].
  eapply logs_bind; [apply logs_create_request, Ha | intros r Hr].
  destruct r as [err | req]; [logs_auto |].
  eapply logs_bind; [apply logs_lease_release, Hq | intros _ _].
  eapply logs_bind.
  { apply logs_do_request. simpl. rewrite Hr. exact Ha. }
  intros [err req'] _.
  eapply logs_bind.
  { instantiate (1 := fun _ => True).
    destruct ((err =? 0) && (trace_numd req' =? 0));
      [| apply logs_ret; exact I].
    eapply logs_bind; [apply logs_do_lookup; assumption | intros d _].
    destruct d as [errno | [q |]]; logs_auto. }
  intros [err' dn'] _.
  eapply logs_bind; [apply logs_put_request, Hq | intros _ _].
  eapply logs_bind.
  { instantiate (1 := fun _ => True). destruct (negb (err' =? 0)); logs_auto. }
  intros _ _. apply logs_ret. exact I.
Qed.

Lemma logs_symlink ok e fuel dir dn dest :
  quiet_ok ok -> accepts ok CEPH_MDS_OP_SYMLINK ->
  logs ok (ceph_symlink e fuel dir dn dest) (fun _ => True).
Proof.
  intros Hq Ha. unfold ceph_symlink.
  eapply logs_bind; [apply logs_build_path, Hq | intros p _].
  destruct p as [err | path plen base]; [apply logs_ret; exact I |].
  eapply logs_bind; [apply logs_create_request, Ha | intros r Hr].
  destruct r as [err | req]; [logs_auto |].
  eapply logs_bind; [apply logs_lease_release, Hq | intros _ _].
  eapply logs_bind.
  { apply logs_do_request. rewrite Hr. exact Ha. }
  intros [err req'] _.
  eapply logs_bind; [apply logs_put_request, Hq | intros _ _].
  eapply logs_bind.
  { instantiate (1 := fun _ => True). destruct (negb (err =? 0)); logs_auto. }
  intros _ _. apply logs_ret. exact I.
Qed.

Lemma logs_mkdir ok e fuel dir dn mode :
  quiet_ok ok -> accepts ok CEPH_MDS_OP_MKDIR ->
  logs ok (ceph_mkdir e fuel dir dn mode) (fun _ => True).
Proof.
  intros Hq Ha. unfold ceph_mkdir.
  eapply logs_bind; [apply logs_build_path, Hq | intros p _].
  destruct p as [err | path plen base]; [apply logs_ret; exact I |].
  eapply logs_bind; [apply logs_create_request, Ha | intros r Hr].
  destruct r as [err | req]; [logs_auto |].
  eapply logs_bind; [apply logs_lease_release, Hq | intros _ _].
  eapply logs_bind.
  { apply logs_do_request. simpl. rewrite Hr. exact Ha. }
  intros [err req'] _.
  eapply logs_bind; [apply logs_put_request, Hq | intros _ _].
  eapply logs_bind.
  { instantiate (1 := fun _ => True). destruct (err <? 0); logs_auto. }
  intros _ _. apply logs_ret. exact I.
Qed.

Lemma logs_link_tail ok (err : Z) (req : request) (old_dentry dn : nat) :
  logs ok
    (if negb (err =? 0) then d_drop (Some dn)
     else if trace_numd req =? 0 then
       bind (get_dentry old_dentry) (fun od =>
         bind (deref inc_nlink (d_inode od)) (fun _ =>
           bind (deref atomic_inc_i_count (d_inode od)) (fun _ =>
             bind (dget (Some dn)) (fun _ =>
               d_instantiate dn (d_inode od)))))
     else ret tt)
    (fun _ => True).
Proof.
  destruct (negb (err =? 0)); [logs_auto |].
  destruct (trace_numd req =? 0); [| logs_auto].
  eapply logs_bind; [apply logs_get_dentry | intros od _].
  eapply logs_bind;
    [apply logs_deref; intros q; apply logs_inc_nlink | intros _ _].
  eapply logs_bind;
    [apply logs_deref; intros q; apply logs_atomic_inc | intros _ _].
  logs_auto.
Qed.

Lemma logs_link ok e fuel old_dentry dir dn :
  quiet_ok ok -> accepts ok CEPH_MDS_OP_LINK ->
  logs ok (ceph_link e fuel old_dentry dir dn) (fun _ => True).
Proof.
  intros Hq Ha. unfold ceph_link.
  eapply logs_bind; [apply logs_build_path, Hq | intros p _].
  destruct p as [err | oldpath oldplen oldbase]; [apply logs_ret; exact I |].
  eapply logs_bind; [apply logs_build_path, Hq | intros p _].
  destruct p as [err | path plen base]; [apply logs_ret; exact I |].
  eapply logs_bind; [apply logs_create_request, Ha | intros r Hr].
  destruct r as [err | req]; [logs_auto |].
  eapply logs_bind; [apply logs_dget | intros _ _].
  eapply logs_bind; [apply logs_lease_release, Hq | intros _ _].
  eapply logs_bind.
  { apply logs_do_request. simpl. rewrite Hr. exact Ha. }
  intros [err req'] _.
  eapply logs_bind; [apply logs_put_request, Hq | intros _ _].
  eapply logs_bind; [apply logs_link_tail | intros _ _].
  apply logs_ret. exact I.
Qed.

(** The part of [ceph_unlink] that follows the choice of the opcode. *)
Lemma logs_unlink_from ok e fuel dir dn inode op :
  quiet_ok ok -> accepts ok op ->
  logs ok
    (bind (ceph_build_dentry_path e fuel (Some dn)) (fun p =>
       match p with
       | PathErr err => ret err
       | PathOk path pathlen pathbase =>
         bind (ceph_mdsc_create_request e op pathbase (c_string path) 0 None
                 dn USE_AUTH_MDS) (fun r =>
           match r with
           | inl err => ret err
           | inr req =>
             bind (ceph_mdsc_lease_release (Some dir) (Some dn)
                     (Z.lor CEPH_LOCK_DN CEPH_LOCK_ICONTENT)) (fun _ =>
             bind (ceph_mdsc_lease_release inode None CEPH_LOCK_ILINK) (fun _ =>
             bind (ceph_mdsc_do_request e req) (fun '(err, req) =>
             bind (ceph_mdsc_put_request req) (fun _ =>
             bind (if err =? - ENOENT then ret tt
                   else if trace_numd req =? 0 then
                     bind (get_dentry dn) (fun d =>
                       bind (deref drop_nlink (d_inode d)) (fun _ =>
                         dput (Some dn)))
                   else ret tt) (fun _ =>
             ret err)))))
           end)
       end))
    (fun _ => True).
Proof.
  intros Hq Ha.
  eapply logs_bind; [apply logs_build_path, Hq | intros p _].
  destruct p as [err | path plen base]; [apply logs_ret; exact I |].
  eapply logs_bind; [apply logs_create_request, Ha | intros r Hr].
  destruct r as [err | req]; [logs_auto |].
  eapply logs_bind; [apply logs_lease_release, Hq | intros _ _].
  eapply logs_bind; [apply logs_lease_release, Hq | intros _ _].
  eapply logs_bind.
  { apply logs_do_request. rewrite Hr. exact Ha. }
  intros [err req'] _.
  eapply logs_bind; [apply logs_put_request, Hq | intros _ _].
  eapply logs_bind.
  { instantiate (1 := fun _ => True).
    destruct (err =? - ENOENT); [logs_auto |].
    destruct (trace_numd req' =? 0); [| logs_auto].
    eapply logs_bind; [apply logs_get_dentry | intros d _].
    eapply logs_bind;
      [apply logs_deref; intros q; apply logs_drop_nlink | intros _ _].
    logs_auto. }
  intros _ _. apply logs_ret. exact I.
Qed.

Lemma logs_rename ok e fuel old_dir old_dentry new_dir new_dentry :
  quiet_ok ok -> accepts ok CEPH_MDS_OP_RENAME ->
  logs ok (ceph_rename e fuel old_dir old_dentry new_dir new_dentry)
    (fun _ => True).
Proof.
  intros Hq Ha. unfold ceph_rename.
  eapply logs_bind; [apply logs_build_path, Hq | intros p _].
  destruct p as [err | oldpath oldplen oldbase]; [apply logs_ret; exact I |].
  eapply logs_bind; [apply logs_build_path, Hq | intros p _].
  destruct p as [err | path plen base]; [apply logs_ret; exact I |].
  eapply logs_bind; [apply logs_create_request, Ha | intros r Hr].
  destruct r as [err | req]; [logs_auto |].
  eapply logs_bind; [apply logs_dget | intros _ _].
  eapply logs_bind; [apply logs_dget | intros _ _].
  eapply logs_bind; [apply logs_lease_release, Hq | intros _ _].
  eapply logs_bind; [apply logs_get_dentry | intros nd _].
  eapply logs_bind.
  { instantiate (1 := fun _ => True).
    destruct (d_inode nd); [apply logs_lease_release, Hq | logs_auto]. }
  intros _ _.
  eapply logs_bind.
  { apply logs_do_request. simpl. rewrite Hr. exact Ha. }
  intros [err req'] _.
  eapply logs_bind.
  { instantiate (1 := fun _ => True).
    destruct ((err =? 0) && (trace_numd req' =? 0)); [| logs_auto].
    eapply logs_bind; [apply logs_get_dentry | intros nd' _].
    eapply logs_bind.
    { instantiate (1 := fun _ => True). destruct (d_inode nd'); logs_auto. }
    intros _ _. apply logs_d_move. }
  intros _ _.
  eapply logs_bind; [apply logs_put_request, Hq | intros _ _].
  apply logs_ret. exact I.
Qed.

Lemma logs_final {A} ok (m : K A) post s s' :
  logs ok m post -> final (m s) = Some s' ->
  exists evs, trace s' = trace s ++ evs /\ Forall ok evs.
Proof.
  intros H Hf. specialize (H s).
  destruct (m s) as [a s1 | s1 |]; simpl in Hf; [| | discriminate];
    injection Hf as <-.
  - destruct H as [_ H]. exact H.
  - exact H.
Qed.

Lemma quiet_ok_only_op op : quiet_ok (only_op op).
Proof. repeat split. Qed.

Lemma accepts_only_op op : accepts (only_op op) op.
Proof. split; [intros; reflexivity | intros r w H; exact H]. Qed.

(** ** Unlink and rmdir *)

(** C10.  [ceph_unlink] is registered both as the unlink and as the
    rmdir operation; every request it creates or sends carries
    [CEPH_MDS_OP_RMDIR] when the inode of the target is a directory
    ([S_ISDIR] of its mode) and [CEPH_MDS_OP_UNLINK] otherwise; on
    [tree_ops] it sends exactly one request, RMDIR for the directory,
    UNLINK for the block device and for the regular file. *)
Theorem unlink_serves_rmdir :
  iop_unlink ceph_dir_iops = ceph_unlink /\
  iop_rmdir ceph_dir_iops = ceph_unlink /\
  (forall e fuel dir dn s d i ino s',
     dentries (cache s) !! dn = Some d ->
     d_inode d = Some i ->
     inodes (cache s) !! i = Some ino ->
     final (ceph_unlink e fuel dir dn s) = Some s' ->
     exists evs,
       trace s' = trace s ++ evs /\
       Forall (only_op (if S_ISDIR (i_mode ino) then CEPH_MDS_OP_RMDIR
                        else CEPH_MDS_OP_UNLINK)) evs) /\
  dispatched (trace_of (iop_rmdir ceph_dir_iops quiet 8%nat 0%nat 1%nat
                          (boot tree_ops)))
  = [CEPH_MDS_OP_RMDIR] /\
  dispatched (trace_of (iop_unlink ceph_dir_iops quiet 8%nat 0%nat 2%nat
                          (boot tree_ops)))
  = [CEPH_MDS_OP_UNLINK] /\
  dispatched (trace_of (iop_unlink ceph_dir_iops quiet 8%nat 0%nat 3%nat
                          (boot tree_ops)))
  = [CEPH_MDS_OP_UNLINK].
Proof.
  split; [reflexivity |]. split; [reflexivity |].
  split; [| repeat split; vm_compute; reflexivity].
  intros e fuel dir dn s d i ino s' Hd Hi Hino Hf.
  unfold ceph_unlink in Hf.
  rewrite (bind_done _ _ _ _ _ (get_dentry_eq _ _ _ Hd)) in Hf.
  cbv beta in Hf. rewrite Hi in Hf. simpl deref in Hf.
  rewrite (bind_done _ _ _ _ _ (get_inode_eq _ _ _ Hino)) in Hf.
  cbv beta zeta in Hf.
  unfold S_ISDIR.
  eapply logs_final; [| exact Hf].
  apply logs_unlink_from; [apply quiet_ok_only_op | apply accepts_only_op].
Qed.

Lemma unlink_serves_rmdir_witness :
  exists evs,
    trace_of (ceph_unlink quiet 8 0 1 (boot tree_ops)) = [] ++ evs /\
    Forall (only_op CEPH_MDS_OP_RMDIR) evs.
Proof.
  destruct (final (ceph_unlink quiet 8 0 1 (boot tree_ops))) as [s' |] eqn:Hf;
    [| exfalso; vm_compute in Hf; discriminate].
  pose proof (proj1 (proj2 (proj2 unlink_serves_rmdir)) quiet 8%nat 0%nat 1%nat
                (boot tree_ops)
                (mk_dentry "sub" (Some 0%nat) (Some 1%nat) 7 false true 1)
                1%nat
                (mk_inode 10 10 (S_IFDIR + 493) 2 1 3 CEPH_LOCK_ICONTENT [])
                s' eq_refl eq_refl eq_refl Hf) as H.
  unfold trace_of. rewrite Hf. exact H.
Defined.

(** ** Release before dispatch *)

Lemma triple_bind {A B} (pre : sys -> Prop) (m : K A) (f : A -> K B)
    (mid : A -> sys -> Prop) (post : B -> sys -> Prop) (fault : sys -> Prop) :
  triple pre m mid fault ->
  (forall a, triple (mid a) (f a) post fault) ->
  triple pre (bind m f) post fault.
Proof.
  intros Hm Hf s Hs. specialize (Hm s Hs). unfold bind.
  destruct (m s) as [a s1 | s1 |]; [| exact Hm | exact I].
  apply (Hf a s1 Hm).
Qed.

Lemma triple_ret {A} (pre : sys -> Prop) (a : A) (post : A -> sys -> Prop)
    fault :
  (forall s, pre s -> post a s) -> triple pre (ret a) post fault.
Proof. intros H s Hs. simpl. apply H. exact Hs. Qed.

Lemma triple_pre {A} (pre pre' : sys -> Prop) (m : K A) post fault :
  (forall s, pre' s -> pre s) -> triple pre m post fault ->
  triple pre' m post fault.
Proof. intros H Ht s Hs. apply Ht. apply H. exact Hs. Qed.

Lemma ordered_app dir tr evs :
  dispatch_after_release dir tr -> Forall harmless evs ->
  dispatch_after_release dir (tr ++ evs).
Proof.
  intros HT Hh k r w Hk Hm.
  destruct (decide (k < length tr)%nat) as [Hlt | Hge].
  - rewrite lookup_app_l in Hk by exact Hlt.
    destruct (HT k r w Hk Hm) as (Hoff & j & ev & Hj & Hev & Hrel).
    split; [exact Hoff |]. exists j, ev. split; [exact Hj |].
    split; [| exact Hrel]. rewrite lookup_app_l by lia. exact Hev.
  - rewrite lookup_app_r in Hk by lia.
    rewrite Forall_lookup in Hh. specialize (Hh _ _ Hk).
    simpl in Hh. congruence.
Qed.

Lemma ordered_dispatch dir tr r w :
  dispatch_after_release dir tr -> content_lease_off w dir ->
  (exists j ev, tr !! j = Some ev /\ releases_content dir ev) ->
  dispatch_after_release dir (tr ++ [EvDispatch r w]).
Proof.
  intros HT Hoff (j & ev & Hj & Hrel) k r' w' Hk Hm.
  destruct (decide (k < length tr)%nat) as [Hlt | Hge].
  - rewrite lookup_app_l in Hk by exact Hlt.
    destruct (HT k r' w' Hk Hm) as (Hoff' & j' & ev' & Hj' & Hev' & Hrel').
    split; [exact Hoff' |]. exists j', ev'. split; [exact Hj' |].
    split; [| exact Hrel']. rewrite lookup_app_l by lia. exact Hev'.
  - rewrite lookup_app_r in Hk by lia.
    destruct (k - length tr)%nat as [| n] eqn:Hn; simpl in Hk;
      [| destruct n; discriminate].
    injection Hk as <- <-.
    split; [exact Hoff |]. exists j, ev.
    pose proof (lookup_lt_Some _ _ _ Hj) as Hjl.
    split; [lia |]. split; [| exact Hrel].
    rewrite lookup_app_l by exact Hjl. exact Hj.
Qed.

(** A computation that sends no mutating request keeps the order. *)
Lemma triple_logs {A} dir (m : K A) (post : A -> Prop) :
  logs harmless m post ->
  triple (ordered dir) m (fun a s => post a /\ ordered dir s) (ordered dir).
Proof.
  intros H s Hs. specialize (H s). unfold ordered in *.
  destruct (m s) as [a s' | s' |]; [| | exact I].
  - destruct H as (Hp & evs & Ht & Hf). split; [exact Hp |].
    rewrite Ht. apply ordered_app; assumption.
  - destruct H as (evs & Ht & Hf). rewrite Ht.
    apply ordered_app; assumption.
Qed.

Lemma quiet_ok_harmless : quiet_ok harmless.
Proof. repeat split. Qed.


(** Creating a request sends nothing. *)
Lemma logs_create_request_harmless e op ino1 path1 ino2 path2 ref mode :
  logs harmless
    (ceph_mdsc_create_request e op ino1 path1 ino2 path2 ref mode)
    (fun _ => True).
Proof.
  unfold ceph_mdsc_create_request.
  eapply logs_bind; [apply logs_next_tick | intros n _].
  destruct (create_request_fails e n); [apply logs_ret; exact I |].
  eapply logs_bind; [apply logs_emit; exact I | intros _ _].
  apply logs_ret. exact I.
Qed.

Lemma ldiff_clears_content m mask :
  Z.land mask CEPH_LOCK_ICONTENT <> 0 ->
  Z.land (Z.ldiff m mask) CEPH_LOCK_ICONTENT = 0.
Proof.
  intros H. apply Z.bits_inj'. intros n Hn.
  rewrite Z.land_spec, Z.ldiff_spec, Z.bits_0.
  change CEPH_LOCK_ICONTENT with (2 ^ 2).
  rewrite Z.pow2_bits_eqb by lia.
  destruct (Z.eqb_spec 2 n) as [<- | Hne]; [| apply andb_false_r].
  rewrite andb_true_r.
  assert (Hb : Z.testbit mask 2 = true).
  { destruct (Z.testbit mask 2) eqn:Hb; [reflexivity |].
    exfalso. apply H. apply Z.bits_inj'. intros k Hk.
    rewrite Z.land_spec, Z.bits_0.
    change CEPH_LOCK_ICONTENT with (2 ^ 2).
    rewrite Z.pow2_bits_eqb by lia.
    destruct (Z.eqb_spec 2 k) as [<- | Hne]; [| apply andb_false_r].
    rewrite Hb. reflexivity. }
  rewrite Hb. apply andb_false_r.
Qed.

Lemma ldiff_keeps_content_off m mask :
  Z.land m CEPH_LOCK_ICONTENT = 0 ->
  Z.land (Z.ldiff m mask) CEPH_LOCK_ICONTENT = 0.
Proof.
  intros H. apply Z.bits_inj'. intros n Hn.
  rewrite Z.land_spec, Z.ldiff_spec, Z.bits_0.
  apply (f_equal (fun z => Z.testbit z n)) in H.
  rewrite Z.land_spec, Z.bits_0 in H.
  destruct (Z.testbit m n); simpl in *; [| reflexivity].
  rewrite H. apply andb_false_r.
Qed.

Lemma lease_valid_off i :
  Z.land (i_lease_mask i) CEPH_LOCK_ICONTENT = 0 <->
  ceph_inode_lease_valid i CEPH_LOCK_ICONTENT = false.
Proof.
  unfold ceph_inode_lease_valid.
  destruct (Z.eqb_spec (Z.land (i_lease_mask i) CEPH_LOCK_ICONTENT) 0);
    simpl; split; intros; congruence.
Qed.

Lemma bind_inv_oops {A B} (m : K A) (f : A -> K B) s s' :
  bind m f s = Oops s' ->
  m s = Oops s' \/ exists a s1, m s = Done a s1 /\ f a s1 = Oops s'.
Proof.
  unfold bind. destruct (m s) as [a s1 | s1 |]; try discriminate.
  - intros H. right. exists a, s1. split; [reflexivity | exact H].
  - intros H. left. injection H as ->. reflexivity.
Qed.

Lemma set_inode_inv p f s u s' :
  set_inode p f s = Done u s' ->
  exists i, inodes (cache s) !! p = Some i /\
    s' = mk_sys (mk_world (dentries (cache s)) (<[p := f i]> (inodes (cache s))))
           (trace s) (tick s).
Proof.
  unfold set_inode. intros H. kinv H as i s1 E.
  apply get_inode_inv in E as [-> Hi].
  exists i. split; [exact Hi |].
  unfold bind, get_cache, put_cache in H. injection H as _ <-. reflexivity.
Qed.

Lemma set_inode_oops p f s s' : set_inode p f s = Oops s' -> s' = s.
Proof.
  unfold set_inode, get_inode, bind, get_cache, put_cache, ret, oops.
  destruct (inodes (cache s) !! p); intros H; [discriminate |].
  injection H as <-. reflexivity.
Qed.

Lemma set_dentry_inv p f s u s' :
  set_dentry p f s = Done u s' ->
  exists d, dentries (cache s) !! p = Some d /\
    s' = mk_sys (mk_world (<[p := f d]> (dentries (cache s))) (inodes (cache s)))
           (trace s) (tick s).
Proof.
  unfold set_dentry. intros H. kinv H as d s1 E.
  apply get_dentry_inv in E as [-> Hd].
  exists d. split; [exact Hd |].
  unfold bind, get_cache, put_cache in H. injection H as _ <-. reflexivity.
Qed.

Lemma set_dentry_oops p f s s' : set_dentry p f s = Oops s' -> s' = s.
Proof.
  unfold set_dentry, get_dentry, bind, get_cache, put_cache, ret, oops.
  destruct (dentries (cache s) !! p); intros H; [discriminate |].
  injection H as <-. reflexivity.
Qed.

(** What a lease release leaves behind when it returns: its event, and
    the masked bits cleared on the inode. *)
Lemma lease_release_done q dn mask s u s' :
  ceph_mdsc_lease_release (Some q) dn mask s = Done u s' ->
  trace s' = trace s ++ [EvLeaseRelease (Some q) dn mask] /\
  exists i, inodes (cache s) !! q = Some i /\
    inodes (cache s')
    = <[q := with_lease_mask (Z.ldiff (i_lease_mask i) mask) i]>
        (inodes (cache s)).
Proof.
  unfold ceph_mdsc_lease_release. intros H.
  kinv H as u0 s1 E1. unfold emit in E1. injection E1 as _ <-.
  kinv H as i s2 E2. simpl in E2. apply get_inode_inv in E2 as [-> Hi].
  kinv H as u1 s3 E3. apply set_inode_inv in E3 as (i' & Hi' & ->).
  simpl in Hi, Hi'. rewrite Hi in Hi'. injection Hi' as <-.
  assert (Hfin : trace s' = trace s ++ [EvLeaseRelease (Some q) dn mask] /\
                 inodes (cache s')
                 = <[q := with_lease_mask (Z.ldiff (i_lease_mask i) mask) i]>
                     (inodes (cache s))).
  { destruct dn as [d |].
    - destruct (Z.land mask CEPH_LOCK_DN =? 0).
      + apply ret_inv in H as [_ <-]. split; reflexivity.
      + apply set_dentry_inv in H as (dd & _ & ->). split; reflexivity.
    - apply ret_inv in H as [_ <-]. split; reflexivity. }
  destruct Hfin as [Ht Hin]. split; [exact Ht |].
  exists i. split; [exact Hi | exact Hin].
Qed.

(** When it faults, only its event has been added, and leases have only
    been taken away. *)
Lemma lease_release_oops ino dn mask s s' :
  ceph_mdsc_lease_release ino dn mask s = Oops s' ->
  trace s' = trace s ++ [EvLeaseRelease ino dn mask].
Proof.
  unfold ceph_mdsc_lease_release. intros H.
  apply bind_inv_oops in H as [H | (u0 & s1 & E1 & H)]; [discriminate |].
  unfold emit in E1. injection E1 as _ <-.
  apply bind_inv_oops in H as [H | (i & s2 & E2 & H)].
  { destruct ino as [q |]; simpl in H.
    - unfold get_inode, bind, get_cache in H. simpl in H.
      destruct (inodes (cache s) !! q); [discriminate |].
      injection H as <-. reflexivity.
    - injection H as <-. reflexivity. }
  destruct ino as [q |]; [| discriminate].
  simpl in E2. apply get_inode_inv in E2 as [-> Hi].
  apply bind_inv_oops in H as [H | (u1 & s3 & E3 & H)].
  { apply set_inode_oops in H as ->. reflexivity. }
  apply set_inode_inv in E3 as (i' & _ & ->).
  destruct dn as [d |]; [| discriminate].
  destruct (Z.land mask CEPH_LOCK_DN =? 0); [discriminate |].
  apply set_dentry_oops in H as ->. reflexivity.
Qed.

Lemma harmless_release ino dn mask : Forall harmless [EvLeaseRelease ino dn mask].
Proof. repeat constructor. Qed.

Lemma triple_release dir dn mask :
  Z.land mask CEPH_LOCK_ICONTENT <> 0 ->
  triple (ordered dir) (ceph_mdsc_lease_release (Some dir) dn mask)
    (fun _ => released dir) (ordered dir).
Proof.
  intros Hmask s Hs.
  destruct (ceph_mdsc_lease_release (Some dir) dn mask s) as [u s' | s' |]
    eqn:E; [| | exact I].
  - apply lease_release_done in E as (Ht & i & Hi & Hin).
    split; [| split].
    + unfold ordered. rewrite Ht.
      apply ordered_app; [exact Hs | apply harmless_release].
    + intros i' Hi'. rewrite Hin in Hi'.
      rewrite list_lookup_insert_eq in Hi'
        by (apply lookup_lt_is_Some; rewrite Hi; eauto).
      injection Hi' as <-. apply lease_valid_off. simpl.
      apply ldiff_clears_content. exact Hmask.
    + exists (length (trace s)), (EvLeaseRelease (Some dir) dn mask).
      split.
      * rewrite Ht, lookup_app_r by lia. rewrite Nat.sub_diag. reflexivity.
      * exists dn, mask. split; [reflexivity | exact Hmask].
  - apply lease_release_oops in E. unfold ordered. rewrite E.
    apply ordered_app; [exact Hs | apply harmless_release].
Qed.

Lemma triple_release_more dir ino dn mask :
  triple (released dir) (ceph_mdsc_lease_release ino dn mask)
    (fun _ => released dir) (ordered dir).
Proof.
  intros s (Hs & Hoff & j & ev & Hj & Hrel).
  destruct (ceph_mdsc_lease_release ino dn mask s) as [u s' | s' |]
    eqn:E; [| | exact I].
  - destruct ino as [q |].
    2:{ unfold ceph_mdsc_lease_release in E.
        kinv E as u0 s1 E1. kinv E as i s2 E2. discriminate. }
    apply lease_release_done in E as (Ht & i & Hi & Hin).
    split; [| split].
    + unfold ordered. rewrite Ht.
      apply ordered_app; [exact Hs | apply harmless_release].
    + intros i' Hi'. rewrite Hin in Hi'.
      destruct (decide (q = dir)) as [-> | Hne].
      * rewrite list_lookup_insert_eq in Hi'
          by (apply lookup_lt_is_Some; rewrite Hi; eauto).
        injection Hi' as <-. apply lease_valid_off. simpl.
        apply ldiff_keeps_content_off. apply lease_valid_off.
        apply Hoff. exact Hi.
      * rewrite list_lookup_insert_ne in Hi' by exact Hne.
        apply Hoff. exact Hi'.
    + exists j, ev. split; [| exact Hrel].
      rewrite Ht. apply lookup_app_l_Some. exact Hj.
  - apply lease_release_oops in E. unfold ordered. rewrite E.
    apply ordered_app; [exact Hs | apply harmless_release].
Qed.

Lemma triple_dispatch dir e req :
  triple (released dir) (ceph_mdsc_do_request e req)
    (fun _ => ordered dir) (ordered dir).
Proof.
  intros s (Hs & Hoff & Hrel). unfold ceph_mdsc_do_request.
  unfold bind, next_tick, get_cache, emit, put_cache, ret. simpl.
  unfold ordered. simpl.
  apply ordered_dispatch; assumption.
Qed.

(** Reading the cache changes nothing. *)
Lemma triple_get_dentry (pre fault : sys -> Prop) p :
  (forall s, pre s -> fault s) ->
  triple pre (get_dentry p) (fun _ => pre) fault.
Proof.
  intros Hw s Hs. unfold get_dentry, bind, get_cache.
  destruct (dentries (cache s) !! p); simpl; [exact Hs | apply Hw, Hs].
Qed.

Lemma triple_ordered {A} dir (m : K A) post :
  logs harmless m post ->
  triple (ordered dir) m (fun _ => ordered dir) (ordered dir).
Proof.
  intros H s Hs. pose proof (triple_logs dir m post H s Hs) as T.
  destruct (m s); [destruct T as [_ T] | |]; exact T.
Qed.


Lemma content_in_dn_mask :
  Z.land (Z.lor CEPH_LOCK_DN CEPH_LOCK_ICONTENT) CEPH_LOCK_ICONTENT <> 0.
Proof. vm_compute. discriminate. Qed.

Ltac frame_step lem :=
  eapply triple_bind; [eapply triple_ordered; lem | intros ?].






Lemma ordered_rename e fuel old_dir old_dentry new_dir new_dentry :
  triple (ordered old_dir)
    (ceph_rename e fuel old_dir old_dentry new_dir new_dentry)
    (fun _ => ordered old_dir) (ordered old_dir).
Proof.
  unfold ceph_rename.
  frame_step ltac:(apply logs_build_path, quiet_ok_harmless).
  destruct a as [err | oldpath oldplen oldbase]; [apply triple_ret; auto |].
  frame_step ltac:(apply logs_build_path, quiet_ok_harmless).
  destruct a as [err | path plen base]; [apply triple_ret; auto |].
  frame_step ltac:(apply logs_create_request_harmless).
  destruct a as [err | req]; [apply triple_ret; auto |].
  frame_step ltac:(apply logs_dget).
  frame_step ltac:(apply logs_dget).
  eapply triple_bind; [apply triple_release, content_in_dn_mask | intros ?].
  eapply triple_bind;
    [apply triple_get_dentry; intros s Hs; apply Hs | intros nd].
  eapply triple_bind.
  { instantiate (1 := fun _ => released old_dir).
    destruct (d_inode nd); [apply triple_release_more |].
    apply triple_ret. auto. }
  intros ?.
  eapply triple_bind; [apply triple_dispatch | intros [err req']].
  eapply triple_ordered. instantiate (1 := fun _ => True).
  eapply logs_bind.
  { instantiate (1 := fun _ => True).
    destruct ((err =? 0) && (trace_numd req' =? 0)); [| logs_auto].
    eapply logs_bind; [apply logs_get_dentry | intros nd' _].
    eapply logs_bind.
    { instantiate (1 := fun _ => True). destruct (d_inode nd'); logs_auto. }
    intros _ _. apply logs_d_move. }
  intros _ _.
  eapply logs_bind;
    [apply logs_put_request, quiet_ok_harmless | intros _ _].
  apply logs_ret. exact I.
Qed.

Lemma triple_final {A} (pre : sys -> Prop) (m : K A) (inv : sys -> Prop) s s' :
  triple pre m (fun _ => inv) inv -> pre s -> final (m s) = Some s' -> inv s'.
Proof.
  intros Ht Hs Hf. specialize (Ht s Hs).
  destruct (m s); simpl in Hf; [| | discriminate];
    injection Hf as <-; exact Ht.
Qed.



(** C8.  [ceph_rename] sends its request while the directory that
    receives the name still holds its content lease.  Renaming [/a/f] to
    [/b/g] releases the content lease of [a] and nothing of [b]: the one
    request of the run, [RENAME], leaves a cache in which [a] holds no
    valid content lease and [b] holds one, so release before dispatch
    fails for [b].  [ceph_link], which also puts a new name into a
    directory, releases the lease of that directory first: linking [/a/f]
    to [/b/g] sends [LINK] from a cache in which [b] holds none. *)
Theorem rename_keeps_new_dir_lease :
  leases_at_dispatch [1; 2]%nat
    (trace_of (ceph_rename quiet 8 1 3 2 4 (boot tree_two_dirs)))
  = [(CEPH_MDS_OP_RENAME, [Some false; Some true])] /\
  ~ dispatch_after_release 2
      (trace_of (ceph_rename quiet 8 1 3 2 4 (boot tree_two_dirs))) /\
  dispatch_after_release 1
    (trace_of (ceph_rename quiet 8 1 3 2 4 (boot tree_two_dirs))) /\
  leases_at_dispatch [1; 2]%nat
    (trace_of (ceph_link quiet 8 3 2 4 (boot tree_two_dirs)))
  = [(CEPH_MDS_OP_LINK, [Some true; Some false])].
Proof.
  split; [vm_compute; reflexivity |].
  split; [| split; [| vm_compute; reflexivity]].
  - intros H.
    assert (E : exists k r w,
               trace_of (ceph_rename quiet 8 1 3 2 4 (boot tree_two_dirs))
               !! k = Some (EvDispatch r w) /\
               is_mutating (r_op r) = true /\
               option_map
                 (fun i => ceph_inode_lease_valid i CEPH_LOCK_ICONTENT)
                 (inodes w !! 2%nat) = Some true).
    { exists 2%nat. eexists. eexists.
      split; [vm_compute; reflexivity |].
      split; vm_compute; reflexivity. }
    destruct E as (k & r & w & Hk & Hm & Hv).
    destruct (H k r w Hk Hm) as [Hoff _].
    destruct (inodes w !! 2%nat) as [i |] eqn:Hi; [| discriminate].
    specialize (Hoff i Hi). simpl in Hv. congruence.
  - destruct (final (ceph_rename quiet 8 1 3 2 4 (boot tree_two_dirs)))
      as [s' |] eqn:Hf; [| exfalso; vm_compute in Hf; discriminate].
    unfold trace_of. rewrite Hf.
    refine (triple_final (ordered 1) _ (ordered 1) (boot tree_two_dirs) s'
              (ordered_rename quiet 8 1 3 2 4) _ Hf).
    intros k r w Hk. simpl in Hk. discriminate.
Qed.

(** ** Replies without a trace *)

Lemma accepts_no_lookup op :
  op <> CEPH_MDS_OP_LSTAT -> accepts no_lookup op.
Proof.
  intros H. split; [intros; exact H | intros r w Hr; simpl; congruence].
Qed.

Lemma quiet_ok_no_lookup : quiet_ok no_lookup.
Proof. repeat split. Qed.

Lemma logs_unlink_no_lookup e fuel dir dn :
  logs no_lookup (ceph_unlink e fuel dir dn) (fun _ => True).
Proof.
  unfold ceph_unlink.
  eapply logs_bind; [apply logs_get_dentry | intros d _].
  eapply logs_bind;
    [apply logs_deref; intros q; apply logs_get_inode | intros i _].
  cbv zeta.
  apply logs_unlink_from; [apply quiet_ok_no_lookup |].
  apply accepts_no_lookup.
  destruct (Z.land (i_mode i) S_IFMT =? S_IFDIR); discriminate.
Qed.

Lemma inc_nlink_inv i s u s' :
  inc_nlink i s = Done u s' ->
  exists ino, inodes (cache s) !! i = Some ino /\
    s' = mk_sys (mk_world (dentries (cache s))
                   (<[i := with_nlink (Int.u32 (i_nlink ino + 1)) ino]>
                      (inodes (cache s))))
           (trace s) (tick s).
Proof.
  unfold inc_nlink. intros H. kinv H as ino s1 E.
  apply get_inode_inv in E as [-> Hi].
  apply set_inode_inv in H as (ino' & Hi' & ->).
  rewrite Hi in Hi'. injection Hi' as <-.
  exists ino. split; [exact Hi | reflexivity].
Qed.

Lemma atomic_inc_inv i s u s' :
  atomic_inc_i_count i s = Done u s' ->
  exists ino, inodes (cache s) !! i = Some ino /\
    s' = mk_sys (mk_world (dentries (cache s))
                   (<[i := with_icount (i_count ino + 1) ino]>
                      (inodes (cache s))))
           (trace s) (tick s).
Proof.
  unfold atomic_inc_i_count. intros H. kinv H as ino s1 E.
  apply get_inode_inv in E as [-> Hi].
  apply set_inode_inv in H as (ino' & Hi' & ->).
  rewrite Hi in Hi'. injection Hi' as <-.
  exists ino. split; [exact Hi | reflexivity].
Qed.

Lemma dget_inv p s u s' :
  dget (Some p) s = Done u s' ->
  inodes (cache s') = inodes (cache s) /\
  length (dentries (cache s')) = length (dentries (cache s)).
Proof.
  unfold dget. intros H. kinv H as d s1 E.
  apply get_dentry_inv in E as [-> Hd].
  apply set_dentry_inv in H as (d' & _ & ->). simpl.
  split; [reflexivity | apply length_insert].
Qed.

Lemma drop_nlink_inv i s u s' :
  drop_nlink i s = Done u s' ->
  exists ino, inodes (cache s) !! i = Some ino /\
    s' = mk_sys (mk_world (dentries (cache s))
                   (<[i := with_nlink (Int.u32 (i_nlink ino - 1)) ino]>
                      (inodes (cache s))))
           (trace s) (tick s).
Proof.
  unfold drop_nlink. intros H. kinv H as ino s1 E.
  apply get_inode_inv in E as [-> Hi].
  apply set_inode_inv in H as (ino' & Hi' & ->).
  rewrite Hi in Hi'. injection Hi' as <-.
  exists ino. split; [exact Hi | reflexivity].
Qed.

(** *** The cache, reference counts apart *)

Lemma uncounted_insert w p x ino :
  uncounted (mk_world (<[p := x]> (dentries w)) ino)
  = <[p := with_count 0 x]> (uncounted w).
Proof. unfold uncounted. simpl. apply list_fmap_insert. Qed.

Lemma uncounted_insert2 (l : list dentry) p x q y :
  map (with_count 0) (<[p := x]> (<[q := y]> l))
  = <[p := with_count 0 x]> (<[q := with_count 0 y]> (map (with_count 0) l)).
Proof.
  apply (eq_trans (list_fmap_insert _ _ _ _)). f_equal.
  apply list_fmap_insert.
Qed.

Lemma uncounted_recount w p d c ino :
  dentries w !! p = Some d ->
  uncounted (mk_world (<[p := with_count c d]> (dentries w)) ino)
  = uncounted w.
Proof.
  intros H. rewrite uncounted_insert. apply list_insert_id.
  unfold uncounted. rewrite list_lookup_fmap, H. reflexivity.
Qed.

Lemma uncounted_lookup w w' p d :
  uncounted w' = uncounted w -> dentries w' !! p = Some d ->
  exists d0, dentries w !! p = Some d0 /\ with_count 0 d = with_count 0 d0.
Proof.
  intros E H.
  assert (H0 : uncounted w' !! p = Some (with_count 0 d))
    by (unfold uncounted; rewrite list_lookup_fmap, H; reflexivity).
  rewrite E in H0. unfold uncounted in H0. rewrite list_lookup_fmap in H0.
  destruct (dentries w !! p) as [d0 |]; [| discriminate].
  simpl in H0. exists d0. split; [reflexivity | congruence].
Qed.

Lemma uncounted_fields d d0 :
  with_count 0 d = with_count 0 d0 ->
  d_name d = d_name d0 /\ d_parent d = d_parent d0 /\
  d_inode d = d_inode d0 /\ d_hashed d = d_hashed d0.
Proof.
  destruct d, d0. unfold with_count. simpl. intros H.
  injection H as -> -> -> _ _ ->. repeat split.
Qed.

Lemma dget_done p s u s' :
  dget p s = Done u s' ->
  uncounted (cache s') = uncounted (cache s) /\
  inodes (cache s') = inodes (cache s).
Proof.
  unfold dget. destruct p as [q |].
  - intros H. kinv H as d s1 E. apply get_dentry_inv in E as [-> Hd].
    apply set_dentry_inv in H as (d' & Hd' & ->).
    rewrite Hd in Hd'. injection Hd' as <-. simpl.
    split; [apply uncounted_recount; exact Hd | reflexivity].
  - intros H. apply ret_inv in H as [_ <-]. split; reflexivity.
Qed.

Lemma dput_done p s u s' :
  dput p s = Done u s' ->
  uncounted (cache s') = uncounted (cache s) /\
  inodes (cache s') = inodes (cache s).
Proof.
  unfold dput. destruct p as [q |].
  - intros H. kinv H as d s1 E. apply get_dentry_inv in E as [-> Hd].
    apply set_dentry_inv in H as (d' & Hd' & ->).
    rewrite Hd in Hd'. injection Hd' as <-. simpl.
    split; [apply uncounted_recount; exact Hd | reflexivity].
  - intros H. apply ret_inv in H as [_ <-]. split; reflexivity.
Qed.

(** Putting a request changes nothing but reference counts. *)
Lemma put_request_done req s u s' :
  ceph_mdsc_put_request req s = Done u s' ->
  uncounted (cache s') = uncounted (cache s) /\
  inodes (cache s') = inodes (cache s).
Proof.
  unfold ceph_mdsc_put_request. intros H.
  kinv H as u0 s1 E1. unfold emit in E1. injection E1 as _ <-.
  kinv H as u1 s2 E2. apply dput_done in E2 as [Hu2 Hi2].
  apply dput_done in H as [Hu3 Hi3].
  split; [rewrite Hu3, Hu2 | rewrite Hi3, Hi2]; reflexivity.
Qed.

Lemma d_move_inv old new s u s' :
  old <> new ->
  d_move old new s = Done u s' ->
  exists o n,
    dentries (cache s) !! old = Some o /\
    dentries (cache s) !! new = Some n /\
    inodes (cache s') = inodes (cache s) /\
    dentries (cache s')
    = <[old := with_hashed true (with_place (d_name n) (d_parent n) o)]>
        (<[new := with_hashed false
                    (with_place (d_name o)
                       (if decide (d_parent o = Some old) then Some new
                        else d_parent o) n)]>
           (dentries (cache s))).
Proof.
  intros Hne H. unfold d_move in H.
  kinv H as o s1 E1. apply get_dentry_inv in E1 as [-> Ho].
  kinv H as n s2 E2. apply get_dentry_inv in E2 as [-> Hn].
  kinv H as u1 s3 E3. apply set_dentry_inv in E3 as (n' & Hn' & ->).
  rewrite Hn in Hn'. injection Hn' as <-.
  apply set_dentry_inv in H as (o' & Ho' & ->).
  simpl in Ho'. rewrite list_lookup_insert_ne in Ho' by congruence.
  rewrite Ho in Ho'. injection Ho' as <-.
  exists o, n. repeat split; assumption.
Qed.

(** C6, as the code has it.  Only [ceph_mknod] answers a successful
    reply without trace by looking the dentry up again: its run continues
    with [ceph_do_lookup] on the same dentry.  [ceph_symlink],
    [ceph_mkdir], [ceph_link], [ceph_unlink] and [ceph_rename] never
    create or send a lookup request.  What they do once the reply has
    come, said of the cache as the reply left it and with reference counts
    apart: after a successful reply [ceph_symlink] and [ceph_mkdir] change
    nothing; after a successful reply without trace [ceph_link] raises the
    link count and the reference count of the old name's inode by one and
    binds the new dentry to that inode; after a reply without trace other
    than [-ENOENT], [ceph_unlink] lowers the link count of the dentry's
    inode by one; after a successful reply without trace [ceph_rename]
    moves the old dentry to the name and parent of the new one and leaves
    the new one unhashed under the old name.  Each returns the status of
    the reply with that update in place. *)
Theorem no_trace_replies :
  (forall e fuel dir dn mode rdev s path plen base s1 req s2 u s3 req' s4,
     ceph_build_dentry_path e fuel (Some dn) s
     = Done (PathOk path plen base) s1 ->
     ceph_mdsc_create_request e CEPH_MDS_OP_MKNOD base (c_string path) 0 None
       dn USE_AUTH_MDS s1 = Done (inr req) s2 ->
     ceph_mdsc_lease_release (Some dir) None CEPH_LOCK_ICONTENT s2
     = Done u s3 ->
     ceph_mdsc_do_request e (with_args [Int.u32 mode; Int.u32 rdev] req) s3
     = Done (0, req') s4 ->
     trace_numd req' = 0 ->
     ceph_mknod e fuel dir dn mode rdev s
     = bind (ceph_do_lookup e fuel dn CEPH_STAT_MASK_INODE_ALL false)
         (mknod_after_lookup req' dn) s4) /\
  (forall e fuel s s',
     (forall dir dn dest,
        final (ceph_symlink e fuel dir dn dest s) = Some s' ->
        exists evs, trace s' = trace s ++ evs /\ Forall no_lookup evs) /\
     (forall dir dn mode,
        final (ceph_mkdir e fuel dir dn mode s) = Some s' ->
        exists evs, trace s' = trace s ++ evs /\ Forall no_lookup evs) /\
     (forall old_dentry dir dn,
        final (ceph_link e fuel old_dentry dir dn s) = Some s' ->
        exists evs, trace s' = trace s ++ evs /\ Forall no_lookup evs) /\
     (forall dir dn,
        final (ceph_unlink e fuel dir dn s) = Some s' ->
        exists evs, trace s' = trace s ++ evs /\ Forall no_lookup evs) /\
     (forall old_dir old_dentry new_dir new_dentry,
        final (ceph_rename e fuel old_dir old_dentry new_dir new_dentry s)
        = Some s' ->
        exists evs, trace s' = trace s ++ evs /\ Forall no_lookup evs)) /\
  (forall e fuel dir dn dest s path plen base s1 req s2 u s3 req' s4 rc s',
     ceph_build_dentry_path e fuel (Some dn) s
     = Done (PathOk path plen base) s1 ->
     ceph_mdsc_create_request e CEPH_MDS_OP_SYMLINK base (c_string path) 0
       (Some dest) dn USE_AUTH_MDS s1 = Done (inr req) s2 ->
     ceph_mdsc_lease_release (Some dir) None CEPH_LOCK_ICONTENT s2
     = Done u s3 ->
     ceph_mdsc_do_request e req s3 = Done (0, req') s4 ->
     ceph_symlink e fuel dir dn dest s = Done rc s' ->
     rc = 0 /\ uncounted (cache s') = uncounted (cache s4) /\
     inodes (cache s') = inodes (cache s4)) /\
  (forall e fuel dir dn mode s path plen base s1 req s2 u s3 req' s4 rc s',
     ceph_build_dentry_path e fuel (Some dn) s
     = Done (PathOk path plen base) s1 ->
     ceph_mdsc_create_request e CEPH_MDS_OP_MKDIR base (c_string path) 0
       None dn USE_AUTH_MDS s1 = Done (inr req) s2 ->
     ceph_mdsc_lease_release (Some dir) None CEPH_LOCK_ICONTENT s2
     = Done u s3 ->
     ceph_mdsc_do_request e (with_args [Int.u32 mode] req) s3
     = Done (0, req') s4 ->
     ceph_mkdir e fuel dir dn mode s = Done rc s' ->
     rc = 0 /\ uncounted (cache s') = uncounted (cache s4) /\
     inodes (cache s') = inodes (cache s4)) /\
  (forall e fuel old_dentry dir dn s oldpath oldplen oldbase s1 path plen base
          s2 req s3 u1 s4 u2 s5 req' s6 rc s',
     ceph_build_dentry_path e fuel (Some old_dentry) s
     = Done (PathOk oldpath oldplen oldbase) s1 ->
     ceph_build_dentry_path e fuel (Some dn) s1
     = Done (PathOk path plen base) s2 ->
     ceph_mdsc_create_request e CEPH_MDS_OP_LINK base (c_string path) oldbase
       (c_string oldpath) dn USE_AUTH_MDS s2 = Done (inr req) s3 ->
     dget (Some dn) s3 = Done u1 s4 ->
     ceph_mdsc_lease_release (Some dir) None CEPH_LOCK_ICONTENT s4
     = Done u2 s5 ->
     ceph_mdsc_do_request e (with_last_dentry (Some dn) req) s5
     = Done (0, req') s6 ->
     trace_numd req' = 0 ->
     ceph_link e fuel old_dentry dir dn s = Done rc s' ->
     rc = 0 /\
     exists od i ino d,
       dentries (cache s6) !! old_dentry = Some od /\ d_inode od = Some i /\
       inodes (cache s6) !! i = Some ino /\
       dentries (cache s6) !! dn = Some d /\
       inodes (cache s')
       = <[i := with_icount (i_count ino + 1)
                  (with_nlink (Int.u32 (i_nlink ino + 1)) ino)]>
           (inodes (cache s6)) /\
       uncounted (cache s')
       = <[dn := with_count 0 (with_inode (Some i) d)]>
           (uncounted (cache s6))) /\
  (forall e fuel dir dn s d0 i0 ino0 path plen base s1 req s2 u1 s3 u2 s4
          err req' s5 rc s',
     dentries (cache s) !! dn = Some d0 -> d_inode d0 = Some i0 ->
     inodes (cache s) !! i0 = Some ino0 ->
     ceph_build_dentry_path e fuel (Some dn) s
     = Done (PathOk path plen base) s1 ->
     ceph_mdsc_create_request e
       (if Z.land (i_mode ino0) S_IFMT =? S_IFDIR
        then CEPH_MDS_OP_RMDIR else CEPH_MDS_OP_UNLINK)
       base (c_string path) 0 None dn USE_AUTH_MDS s1 = Done (inr req) s2 ->
     ceph_mdsc_lease_release (Some dir) (Some dn)
       (Z.lor CEPH_LOCK_DN CEPH_LOCK_ICONTENT) s2 = Done u1 s3 ->
     ceph_mdsc_lease_release (Some i0) None CEPH_LOCK_ILINK s3
     = Done u2 s4 ->
     ceph_mdsc_do_request e req s4 = Done (err, req') s5 ->
     trace_numd req' = 0 -> err <> - ENOENT ->
     ceph_unlink e fuel dir dn s = Done rc s' ->
     rc = err /\
     exists d i ino,
       dentries (cache s5) !! dn = Some d /\ d_inode d = Some i /\
       inodes (cache s5) !! i = Some ino /\
       inodes (cache s')
       = <[i := with_nlink (Int.u32 (i_nlink ino - 1)) ino]>
           (inodes (cache s5)) /\
       uncounted (cache s') = uncounted (cache s5)) /\
  (forall e fuel old_dir old_dentry new_dir new_dentry s oldpath oldplen
          oldbase s1 newpath newplen newbase s2 req s3 u1 s4 u2 s5 u3 s6 nd
          u4 s7 req' s8 rc s',
     old_dentry <> new_dentry ->
     ceph_build_dentry_path e fuel (Some old_dentry) s
     = Done (PathOk oldpath oldplen oldbase) s1 ->
     ceph_build_dentry_path e fuel (Some new_dentry) s1
     = Done (PathOk newpath newplen newbase) s2 ->
     ceph_mdsc_create_request e CEPH_MDS_OP_RENAME oldbase (c_string oldpath)
       newbase (c_string newpath) new_dentry USE_AUTH_MDS s2
     = Done (inr req) s3 ->
     dget (Some old_dentry) s3 = Done u1 s4 ->
     dget (Some new_dentry) s4 = Done u2 s5 ->
     ceph_mdsc_lease_release (Some old_dir) (Some old_dentry)
       (Z.lor CEPH_LOCK_DN CEPH_LOCK_ICONTENT) s5 = Done u3 s6 ->
     dentries (cache s6) !! new_dentry = Some nd ->
     match d_inode nd with
     | Some _ => ceph_mdsc_lease_release (d_inode nd) None CEPH_LOCK_ILINK
     | None => ret tt
     end s6 = Done u4 s7 ->
     ceph_mdsc_do_request e
       (with_last_dentry (Some new_dentry)
          (with_old_dentry (Some old_dentry) req)) s7
     = Done (0, req') s8 ->
     trace_numd req' = 0 ->
     ceph_rename e fuel old_dir old_dentry new_dir new_dentry s
     = Done rc s' ->
     rc = 0 /\
     exists o n,
       dentries (cache s8) !! old_dentry = Some o /\
       dentries (cache s8) !! new_dentry = Some n /\
       inodes (cache s') = inodes (cache s8) /\
       uncounted (cache s')
       = <[old_dentry := with_count 0
                           (with_hashed true
                              (with_place (d_name n) (d_parent n) o))]>
           (<[new_dentry := with_count 0
                              (with_hashed false
                                 (with_place (d_name o)
                                    (if decide (d_parent o = Some old_dentry)
                                     then Some new_dentry else d_parent o)
                                    n))]>
              (uncounted (cache s8)))).
Proof.
  split; [| split; [| split; [| split; [| split; [| split]]]]].
  - intros e fuel dir dn mode rdev s path plen base s1 req s2 u s3 req' s4
      H1 H2 H3 H4 Hnt.
    unfold ceph_mknod.
    kstep H1. kstep H2. kstep H3. kstep H4.
    rewrite Hnt. change ((0 =? 0) && (0 =? 0)) with true. cbv iota.
    rewrite bind_assoc. reflexivity.
  - intros e fuel s s'.
    split; [| split; [| split; [| split]]].
    + intros dir dn dest H. eapply logs_final; [| exact H].
      apply logs_symlink;
        [apply quiet_ok_no_lookup | apply accepts_no_lookup; discriminate].
    + intros dir dn mode H. eapply logs_final; [| exact H].
      apply logs_mkdir;
        [apply quiet_ok_no_lookup | apply accepts_no_lookup; discriminate].
    + intros old_dentry dir dn H. eapply logs_final; [| exact H].
      apply logs_link;
        [apply quiet_ok_no_lookup | apply accepts_no_lookup; discriminate].
    + intros dir dn H. eapply logs_final; [| exact H].
      apply logs_unlink_no_lookup.
    + intros old_dir old_dentry new_dir new_dentry H.
      eapply logs_final; [| exact H].
      apply logs_rename;
        [apply quiet_ok_no_lookup | apply accepts_no_lookup; discriminate].
  - intros e fuel dir dn dest s path plen base s1 req s2 u s3 req' s4 rc s'
      H1 H2 H3 H4 H.
    unfold ceph_symlink in H.
    rewrite (bind_done _ _ _ _ _ H1) in H. cbv beta iota in H.
    rewrite (bind_done _ _ _ _ _ H2) in H. cbv beta iota in H.
    rewrite (bind_done _ _ _ _ _ H3) in H. cbv beta iota in H.
    rewrite (bind_done _ _ _ _ _ H4) in H. cbv beta iota in H.
    kinv H as u5 s5 E5. apply put_request_done in E5 as [Hu5 Hi5].
    change (negb (0 =? 0)) with false in H. cbv iota in H.
    apply ret_inv in H as [<- <-]. repeat split; assumption.
  - intros e fuel dir dn mode s path plen base s1 req s2 u s3 req' s4 rc s'
      H1 H2 H3 H4 H.
    unfold ceph_mkdir in H.
    rewrite (bind_done _ _ _ _ _ H1) in H. cbv beta iota in H.
    rewrite (bind_done _ _ _ _ _ H2) in H. cbv beta iota in H.
    rewrite (bind_done _ _ _ _ _ H3) in H. cbv beta iota zeta in H.
    rewrite (bind_done _ _ _ _ _ H4) in H. cbv beta iota in H.
    kinv H as u5 s5 E5. apply put_request_done in E5 as [Hu5 Hi5].
    change (0 <? 0) with false in H. cbv iota in H.
    apply ret_inv in H as [<- <-]. repeat split; assumption.
  - intros e fuel old_dentry dir dn s oldpath oldplen oldbase s1 path plen
      base s2 req s3 u1 s4 u2 s5 req' s6 rc s'
      H1 H2 H3 H4 H5 H6 Hnt H.
    unfold ceph_link in H.
    rewrite (bind_done _ _ _ _ _ H1) in H. cbv beta iota in H.
    rewrite (bind_done _ _ _ _ _ H2) in H. cbv beta iota in H.
    rewrite (bind_done _ _ _ _ _ H3) in H. cbv beta iota in H.
    rewrite (bind_done _ _ _ _ _ H4) in H. cbv beta iota zeta in H.
    rewrite (bind_done _ _ _ _ _ H5) in H. cbv beta iota in H.
    rewrite (bind_done _ _ _ _ _ H6) in H. cbv beta iota in H.
    kinv H as u7 s7 E7. apply put_request_done in E7 as [Hu7 Hi7].
    rewrite Hnt in H. change (negb (0 =? 0)) with false in H.
    change (0 =? 0) with true in H. cbv iota in H.
    kinv H as u8 s8 E8.
    apply ret_inv in H as [<- <-]. split; [reflexivity |].
    kinv E8 as od s9 E9. apply get_dentry_inv in E9 as [-> Hod].
    destruct (d_inode od) as [i |] eqn:Hi.
    2:{ kinv E8 as u9 s9 E9. discriminate. }
    simpl deref in E8.
    kinv E8 as u9 s9 E9. apply inc_nlink_inv in E9 as (ino & Hino & ->).
    kinv E8 as u10 s10 E10.
    apply atomic_inc_inv in E10 as (ino2 & Hino2 & ->).
    simpl in Hino2.
    assert (Hlt : (i < length (inodes (cache s7)))%nat)
      by (apply lookup_lt_is_Some; rewrite Hino; eauto).
    rewrite list_lookup_insert_eq in Hino2 by exact Hlt.
    injection Hino2 as <-.
    kinv E8 as u11 s11 E11. apply dget_done in E11 as [Hu11 Hi11].
    unfold d_instantiate in E8.
    apply set_dentry_inv in E8 as (d11 & Hd11 & ->).
    simpl in Hu11, Hi11.
    destruct (uncounted_lookup _ _ _ _ Hu7 Hod) as (od6 & Hod6 & Eod).
    destruct (uncounted_fields _ _ Eod) as (_ & _ & Hio & _).
    assert (Hu11' : uncounted (cache s11) = uncounted (cache s6))
      by (rewrite Hu11; exact Hu7).
    destruct (uncounted_lookup _ _ _ _ Hu11' Hd11) as (d6 & Hd6 & Ed).
    exists od6, i, ino, d6.
    split; [exact Hod6 |]. split; [congruence |].
    split; [rewrite <- Hi7; exact Hino |]. split; [exact Hd6 |].
    split.
    + simpl. rewrite Hi11. simpl. rewrite list_insert_insert_eq, Hi7.
      reflexivity.
    + cbn [cache]. rewrite uncounted_insert, Hu11'. f_equal.
      destruct d11, d6. unfold with_count, with_inode in *. simpl in *.
      injection Ed as -> -> -> -> -> ->. reflexivity.
  - intros e fuel dir dn s d0 i0 ino0 path plen base s1 req s2 u1 s3 u2 s4
      err req' s5 rc s' Hd0 Hi0 Hino0 H1 H2 H3 H4 H5 Hnt Herr H.
    unfold ceph_unlink in H.
    rewrite (bind_done _ _ _ _ _ (get_dentry_eq _ _ _ Hd0)) in H.
    cbv beta zeta in H. rewrite Hi0 in H. simpl deref in H.
    rewrite (bind_done _ _ _ _ _ (get_inode_eq _ _ _ Hino0)) in H.
    cbv beta zeta in H.
    rewrite (bind_done _ _ _ _ _ H1) in H. cbv beta iota in H.
    rewrite (bind_done _ _ _ _ _ H2) in H. cbv beta iota in H.
    rewrite (bind_done _ _ _ _ _ H3) in H. cbv beta iota in H.
    rewrite (bind_done _ _ _ _ _ H4) in H. cbv beta iota in H.
    rewrite (bind_done _ _ _ _ _ H5) in H. cbv beta iota in H.
    kinv H as u6 s6 E6. apply put_request_done in E6 as [Hu6 Hi6].
    kinv H as u7 s7 E7.
    apply ret_inv in H as [<- <-]. split; [reflexivity |].
    destruct (Z.eqb_spec err (- ENOENT)) as [| _]; [contradiction |].
    rewrite Hnt in E7. change (0 =? 0) with true in E7. cbv iota in E7.
    kinv E7 as d6 s8 E8. apply get_dentry_inv in E8 as [-> Hd6].
    destruct (d_inode d6) as [i |] eqn:Hi.
    2:{ kinv E7 as u9 s9 E9. discriminate. }
    simpl deref in E7.
    kinv E7 as u9 s9 E9. apply drop_nlink_inv in E9 as (ino & Hino & ->).
    apply dput_done in E7 as [Hu10 Hi10]. simpl in Hu10, Hi10.
    destruct (uncounted_lookup _ _ _ _ Hu6 Hd6) as (d5 & Hd5 & Ed).
    destruct (uncounted_fields _ _ Ed) as (_ & _ & Hid & _).
    exists d5, i, ino.
    split; [exact Hd5 |]. split; [congruence |].
    split; [rewrite <- Hi6; exact Hino |].
    split; [rewrite Hi10, Hi6; reflexivity |].
    rewrite Hu10. exact Hu6.
  - intros e fuel old_dir old_dentry new_dir new_dentry s oldpath oldplen
      oldbase s1 newpath newplen newbase s2 req s3 u1 s4 u2 s5 u3 s6 nd
      u4 s7 req' s8 rc s' Hne H1 H2 H3 H4 H5 H6 Hnd H7 H8 Hnt H.
    unfold ceph_rename in H.
    rewrite (bind_done _ _ _ _ _ H1) in H. cbv beta iota in H.
    rewrite (bind_done _ _ _ _ _ H2) in H. cbv beta iota in H.
    rewrite (bind_done _ _ _ _ _ H3) in H. cbv beta iota in H.
    rewrite (bind_done _ _ _ _ _ H4) in H. cbv beta iota zeta in H.
    rewrite (bind_done _ _ _ _ _ H5) in H. cbv beta iota zeta in H.
    rewrite (bind_done _ _ _ _ _ H6) in H. cbv beta iota in H.
    rewrite (bind_done _ _ _ _ _ (get_dentry_eq _ _ _ Hnd)) in H.
    cbv beta iota in H.
    rewrite (bind_done _ _ _ _ _ H7) in H. cbv beta iota in H.
    rewrite (bind_done _ _ _ _ _ H8) in H. cbv beta iota in H.
    rewrite Hnt in H. change ((0 =? 0) && (0 =? 0)) with true in H.
    cbv iota in H.
    kinv H as u9 s9 E9.
    kinv H as u10 s10 E10. apply put_request_done in E10 as [Hu10 Hi10].
    apply ret_inv in H as [<- <-]. split; [reflexivity |].
    kinv E9 as nd8 s11 E11. apply get_dentry_inv in E11 as [-> Hnd8].
    kinv E9 as u12 s12 E12.
    assert (Hput : uncounted (cache s12) = uncounted (cache s8) /\
                   inodes (cache s12) = inodes (cache s8)).
    { destruct (d_inode nd8).
      - apply dput_done in E12. exact E12.
      - apply ret_inv in E12 as [_ <-]. split; reflexivity. }
    destruct Hput as [Hu12 Hi12].
    apply (d_move_inv _ _ _ _ _ Hne) in E9 as (o & n & Ho & Hn & Hi9 & Hd9).
    destruct (uncounted_lookup _ _ _ _ Hu12 Ho) as (o8 & Ho8 & Eo).
    destruct (uncounted_lookup _ _ _ _ Hu12 Hn) as (n8 & Hn8 & En).
    exists o8, n8.
    split; [exact Ho8 |]. split; [exact Hn8 |].
    split; [rewrite Hi10, Hi9, Hi12; reflexivity |].
    rewrite Hu10. unfold uncounted at 1. rewrite Hd9.
    rewrite uncounted_insert2. fold (uncounted (cache s12)). rewrite Hu12.
    destruct o, o8, n, n8.
    unfold with_count, with_hashed, with_place in *. simpl in *.
    injection Eo as -> -> -> -> -> ->.
    injection En as -> -> -> -> -> ->.
    reflexivity.
Qed.

(** Renaming [/file] to [/hard] on [tree_ops], the server answering
    success without trace: the dentry of [file] ends up under the name
    [hard], and the dentry that was [hard] is left unhashed under the name
    [file]. *)
Lemma no_trace_replies_witness :
  exists s8 s',
    ceph_rename mds_no_trace 8 0 3 0 4 (boot tree_ops) = Done 0 s' /\
    map (fun d => (d_name d, d_hashed d)) (dentries (cache s8))
    = [("/", true); ("sub", true); ("disk", true); ("file", true);
       ("hard", false)]%string /\
    map (fun d => (d_name d, d_hashed d)) (dentries (cache s'))
    = [("/", true); ("sub", true); ("disk", true); ("hard", true);
       ("file", false)]%string /\
    exists o n,
      dentries (cache s8) !! 3%nat = Some o /\
      dentries (cache s8) !! 4%nat = Some n /\
      inodes (cache s') = inodes (cache s8) /\
      uncounted (cache s')
      = <[3%nat := with_count 0
                     (with_hashed true (with_place (d_name n) (d_parent n) o))]>
          (<[4%nat := with_count 0
                        (with_hashed false
                           (with_place (d_name o)
                              (if decide (d_parent o = Some 3%nat)
                               then Some 4%nat else d_parent o) n))]>
             (uncounted (cache s8))).
Proof.
  lazymatch eval vm_compute in
    (ceph_build_dentry_path mds_no_trace 8 (Some 3%nat) (boot tree_ops)) with
  | Done (PathOk ?op ?ol ?ob) ?s1 =>
  lazymatch eval vm_compute in
    (ceph_build_dentry_path mds_no_trace 8 (Some 4%nat) s1) with
  | Done (PathOk ?np ?nl ?nb) ?s2 =>
  lazymatch eval vm_compute in
    (ceph_mdsc_create_request mds_no_trace CEPH_MDS_OP_RENAME ob (c_string op)
       nb (c_string np) 4 USE_AUTH_MDS s2) with
  | Done (inr ?req) ?s3 =>
  lazymatch eval vm_compute in (dget (Some 3%nat) s3) with
  | Done _ ?s4 =>
  lazymatch eval vm_compute in (dget (Some 4%nat) s4) with
  | Done _ ?s5 =>
  lazymatch eval vm_compute in
    (ceph_mdsc_lease_release (Some 0%nat) (Some 3%nat)
       (Z.lor CEPH_LOCK_DN CEPH_LOCK_ICONTENT) s5) with
  | Done _ ?s6 =>
  lazymatch eval vm_compute in (dentries (cache s6) !! 4%nat) with
  | Some ?nd =>
  lazymatch eval vm_compute in
    (ceph_mdsc_do_request mds_no_trace
       (with_last_dentry (Some 4%nat) (with_old_dentry (Some 3%nat) req))
       s6) with
  | Done (_, ?req') ?s8 =>
  lazymatch eval vm_compute in
    (ceph_rename mds_no_trace 8 0 3 0 4 (boot tree_ops)) with
  | Done ?rc ?s' =>
    exists s8, s';
    split; [vm_compute; reflexivity |];
    split; [vm_compute; reflexivity |];
    split; [vm_compute; reflexivity |];
    refine (proj2
              (proj2 (proj2 (proj2 (proj2 (proj2 (proj2 no_trace_replies)))))
                 mds_no_trace 8%nat 0%nat 3%nat 0%nat 4%nat (boot tree_ops)
                 op ol ob s1 np nl nb s2 req s3 tt s4 tt s5 tt s6 nd tt s6
                 req' s8 rc s' _ _ _ _ _ _ _ _ _ _ _ _));
    [ discriminate
    | vm_compute; reflexivity | vm_compute; reflexivity
    | vm_compute; reflexivity | vm_compute; reflexivity
    | vm_compute; reflexivity | vm_compute; reflexivity
    | vm_compute; reflexivity | vm_compute; reflexivity
    | vm_compute; reflexivity | vm_compute; reflexivity
    | vm_compute; reflexivity ]
  end end end end end end end end end.
Defined.

(** C6, as stated, fails: on [tree_ops], with a server that answers
    success without trace, [ceph_link] returns 0 after sending its one
    LINK request and no lookup, leaving the link count of [file] raised
    from 1 to 2 and [hard] bound to its inode; [ceph_mknod] in the same
    setting does send a lookup. *)
Lemma link_no_trace_no_lookup :
  result_of (ceph_link mds_no_trace 8 3 0 4 (boot tree_ops)) = Some 0 /\
  dispatched (trace_of (ceph_link mds_no_trace 8 3 0 4 (boot tree_ops)))
  = [CEPH_MDS_OP_LINK] /\
  nlink_of tree_ops 3 = Some 1 /\
  option_map (fun s' => nlink_of (cache s') 3)
    (final (ceph_link mds_no_trace 8 3 0 4 (boot tree_ops)))
  = Some (Some 2) /\
  dispatched (trace_of (ceph_mknod mds_no_trace 8 0 4 (S_IFREG + 420) 0
                          (boot tree_ops)))
  = [CEPH_MDS_OP_MKNOD; CEPH_MDS_OP_LSTAT].
Proof. repeat split; vm_compute; reflexivity. Qed.

(** ** Directory enumeration *)

Lemma filldir_room buf n name len pos ino type :
  room buf = S n ->
  filldir buf name len pos ino type
  = (0, mk_dirbuf n (taken buf ++ [(name, pos, ino, type)])).
Proof. intros H. unfold filldir. rewrite H. reflexivity. Qed.

Lemma u32_succ a b n :
  Int.u32 (a + b) = n -> n + 1 < 2 ^ 32 -> Int.u32 (a + 1 + b) = n + 1.
Proof.
  unfold Int.u32. intros H Hn.
  replace (a + 1 + b) with ((a + b) + 1) by lia.
  rewrite <- Zplus_mod_idemp_l, H.
  pose proof (Z.mod_pos_bound (a + b) (2 ^ 32) ltac:(lia)).
  apply Z.mod_small. lia.
Qed.

(** With room for all of them, the loop hands over every entry from the
    current index on, in order, one offset apart. *)
Lemma readdir_entries_serve : forall rest pre fuel frag skew filp off buf s,
  Int.u32 (off + skew) = Z.of_nat (length pre) ->
  0 <= off -> off + Z.of_nat (length rest) < 2 ^ 32 ->
  Z.of_nat (length (pre ++ rest)) < 2 ^ 32 ->
  (length rest < fuel)%nat -> (length rest <= room buf)%nat ->
  readdir_entries fuel filldir (pre ++ rest) frag skew filp off buf s
  = Done (inr (off + Z.of_nat (length rest),
               with_pos (advance (length rest) (f_pos filp)) filp,
               mk_dirbuf (room buf - length rest)
                 (taken buf ++ serve frag off rest))) s.
Proof.
  induction rest as [| x rest IH];
    intros pre fuel frag skew filp off buf s Hidx Hoff Hend Hlen Hfuel Hroom.
  - destruct fuel as [| fuel]; [simpl in Hfuel; lia |].
    cbn [readdir_entries]. rewrite Hidx, app_nil_r.
    rewrite Z.ltb_irrefl. simpl.
    destruct filp, buf. unfold with_pos. simpl.
    rewrite Z.add_0_r, Nat.sub_0_r, app_nil_r. reflexivity.
  - destruct fuel as [| fuel]; [simpl in Hfuel; lia |].
    simpl in Hfuel, Hroom, Hend.
    cbn [readdir_entries]. rewrite Hidx.
    assert (Hlt : (Z.of_nat (length pre)
                   <? Z.of_nat (length (pre ++ x :: rest))) = true).
    { apply Z.ltb_lt. rewrite length_app. simpl. lia. }
    rewrite Hlt, Nat2Z.id, list_lookup_middle by reflexivity.
    destruct (room buf) as [| n] eqn:Hr; [lia |].
    rewrite (filldir_room buf n _ _ _ _ _ Hr).
    change (0 <? 0) with false. cbv iota.
    rewrite (u32_small (off + 1)) by lia.
    replace (pre ++ x :: rest) with ((pre ++ [x]) ++ rest)
      by (rewrite <- app_assoc; reflexivity).
    rewrite IH.
    + simpl. f_equal. f_equal. f_equal.
      * f_equal. lia.
      * f_equal. rewrite <- app_assoc. reflexivity.
    + rewrite length_app. simpl length.
      rewrite (u32_succ off skew _ Hidx).
      * lia.
      * rewrite length_app in Hlen. simpl in Hlen. lia.
    + lia.
    + lia.
    + rewrite <- app_assoc. exact Hlen.
    + lia.
    + simpl. lia.
Qed.

(** A round on a fragment that is not the leftmost one. *)
Lemma readdir_round_other e fuel inode filp frag off buf s frag' filp' s1 last :
  readdir_fetch e inode filp frag s = Done (inr (frag', filp')) s1 ->
  frag_is_leftmost frag' = false ->
  fi_last_readdir filp' = Some last ->
  0 <= off <= Z.of_nat (length (dir_entries last)) ->
  Z.of_nat (length (dir_entries last)) < 2 ^ 32 ->
  (length (dir_entries last) - Z.to_nat off < fuel)%nat ->
  (length (dir_entries last) - Z.to_nat off <= room buf)%nat ->
  readdir_round e fuel filldir inode filp frag off buf s
  = Done
      (let n := (length (dir_entries last) - Z.to_nat off)%nat in
       let filp_end := with_pos (advance n (f_pos filp')) filp' in
       let buf_end :=
         mk_dirbuf (room buf - n)
           (taken buf
            ++ serve frag' off (drop (Z.to_nat off) (dir_entries last))) in
       if negb (frag_value frag' =? frag_mask frag')
       then inr (frag_next frag',
                 with_pos (make_fpos (frag_next frag') 0) filp_end, buf_end)
       else inl (0, filp_end, buf_end))
      s1.
Proof.
  intros Hfetch Hleft Hlast Hoff Hlen Hfuel Hroom.
  unfold readdir_round.
  kstep Hfetch. rewrite Hleft. kret. rewrite Hlast.
  set (entries := dir_entries last) in *.
  assert (Hdl : length (drop (Z.to_nat off) entries)
                = (length entries - Z.to_nat off)%nat) by apply length_drop.
  assert (Htl : length (take (Z.to_nat off) entries) = Z.to_nat off)
    by (rewrite length_take; lia).
  pose proof (readdir_entries_serve (drop (Z.to_nat off) entries)
                (take (Z.to_nat off) entries) fuel frag' 0 filp' off buf s1)
    as R.
  rewrite take_drop in R. rewrite Hdl in R.
  assert (Hidx : Int.u32 (off + 0)
                 = Z.of_nat (length (take (Z.to_nat off) entries))).
  { rewrite Z.add_0_r, u32_small by lia. lia. }
  specialize (R Hidx ltac:(lia) ltac:(lia) ltac:(lia) ltac:(lia) ltac:(lia)).
  kstep R. cbv zeta.
  destruct (negb (frag_value frag' =? frag_mask frag')); reflexivity.
Qed.

(** A round on the leftmost fragment, entered at offset 0. *)
Lemma readdir_round_leftmost e fuel inode filp frag buf s frag' filp' s1 last
    i fd p pd pi pino :
  readdir_fetch e inode filp frag s = Done (inr (frag', filp')) s1 ->
  frag_is_leftmost frag' = true ->
  fi_last_readdir filp' = Some last ->
  inodes (cache s1) !! inode = Some i ->
  dentries (cache s1) !! f_dentry filp' = Some fd ->
  d_parent fd = Some p ->
  dentries (cache s1) !! p = Some pd ->
  d_inode pd = Some pi ->
  inodes (cache s1) !! pi = Some pino ->
  Z.of_nat (length (dir_entries last)) + 2 < 2 ^ 32 ->
  (length (dir_entries last) < fuel)%nat ->
  (2 + length (dir_entries last) <= room buf)%nat ->
  readdir_round e fuel filldir inode filp frag 0 buf s
  = Done
      (let n := length (dir_entries last) in
       let filp_end := with_pos (advance (2 + n) (f_pos filp')) filp' in
       let buf_end :=
         mk_dirbuf (room buf - (2 + n))
           (taken buf
            ++ [ (".", make_fpos 0 0, i_ino i, Z.shiftr (i_mode i) 12);
                 ("..", make_fpos 0 1, i_ino pino, Z.shiftr (i_mode i) 12) ]
            ++ serve frag' 2 (dir_entries last)) in
       if negb (frag_value frag' =? frag_mask frag')
       then inr (frag_next frag',
                 with_pos (make_fpos (frag_next frag') 0) filp_end, buf_end)
       else inl (0, filp_end, buf_end))
      s1.
Proof.
  intros Hfetch Hleft Hlast Hi Hfd Hp Hpd Hpi Hpino Hlen Hfuel Hroom.
  unfold readdir_round.
  kstep Hfetch. rewrite Hleft.
  unfold readdir_dots.
  kstep (get_inode_eq _ _ _ Hi).
  change (0 =? 0) with true. cbv iota.
  destruct (room buf) as [| [| n]] eqn:Hr; [lia | lia |].
  rewrite (filldir_room buf (S n) _ _ _ _ _ Hr).
  change (0 <? 0) with false. cbv iota.
  kret.
  change (Int.u32 (0 + 1) =? 1) with true. cbv iota.
  assert (Hfd' : dentries (cache s1)
                 !! f_dentry (with_pos (Int.s64 (f_pos filp' + 1)) filp')
                 = Some fd) by exact Hfd.
  kstep (get_dentry_eq _ _ _ Hfd').
  rewrite Hp.
  kstep (get_dentry_eq _ _ _ Hpd).
  rewrite Hpi. simpl deref.
  kstep (get_inode_eq _ _ _ Hpino).
  set (buf1 := mk_dirbuf (S n)
                 (taken buf
                  ++ [(".", make_fpos 0 0, i_ino i, Z.shiftr (i_mode i) 12)]))
    in *.
  rewrite (filldir_room buf1 n _ _ _ _ _ eq_refl).
  change (0 <? 0) with false. cbv iota.
  kret. kret.
  cbn [fi_last_readdir with_pos]. rewrite Hlast.
  change (Int.u32 (Int.u32 (0 + 1) + 1)) with 2.
  pose proof (readdir_entries_serve (dir_entries last) [] fuel frag'
                (Int.u32 (-2))
                (with_pos
                   (Int.s64
                      (f_pos (with_pos (Int.s64 (f_pos filp' + 1)) filp') + 1))
                   (with_pos (Int.s64 (f_pos filp' + 1)) filp'))
                2
                (mk_dirbuf n
                   (taken buf1
                    ++ [("..", make_fpos 0 1, i_ino pino,
                         Z.shiftr (i_mode i) 12)]))
                s1) as R.
  rewrite app_nil_l in R.
  specialize (R eq_refl ltac:(lia) ltac:(lia) ltac:(lia) ltac:(lia)
                ltac:(simpl; lia)).
  kstep R. cbv zeta. unfold buf1.
  cbn [room taken with_pos f_pos f_dentry fi_frag fi_last_readdir advance
       Nat.add].
  replace (S (S n) - S (S (length (dir_entries last))))%nat
    with (n - length (dir_entries last))%nat by lia.
  rewrite <- !app_assoc. cbn [app].
  destruct (negb (frag_value frag' =? frag_mask frag')); reflexivity.
Qed.

(** X24.  One round of the enumeration with room for what is left of
    the fragment.  On a fragment that is not the leftmost one the round
    hands over the entries of the fragment from the current offset on and
    nothing else; on the leftmost fragment, entered at offset 0, it first
    hands over ["."] at offset 0 and [".."] at offset 1.  The position
    advances by one for every entry.  When the entries are exhausted, a
    fragment whose value differs from its mask sends the enumeration on to
    the next fragment at offset 0, and a fragment whose value equals its
    mask ends the call with 0. *)
Theorem readdir_round_contract :
  (forall e fuel inode filp frag off buf s frag' filp' s1 last,
     readdir_fetch e inode filp frag s = Done (inr (frag', filp')) s1 ->
     frag_is_leftmost frag' = false ->
     fi_last_readdir filp' = Some last ->
     0 <= off <= Z.of_nat (length (dir_entries last)) ->
     Z.of_nat (length (dir_entries last)) < 2 ^ 32 ->
     (length (dir_entries last) - Z.to_nat off < fuel)%nat ->
     (length (dir_entries last) - Z.to_nat off <= room buf)%nat ->
     readdir_round e fuel filldir inode filp frag off buf s
     = Done
         (let n := (length (dir_entries last) - Z.to_nat off)%nat in
          let filp_end := with_pos (advance n (f_pos filp')) filp' in
          let buf_end :=
            mk_dirbuf (room buf - n)
              (taken buf
               ++ serve frag' off (drop (Z.to_nat off) (dir_entries last))) in
          if negb (frag_value frag' =? frag_mask frag')
          then inr (frag_next frag',
                    with_pos (make_fpos (frag_next frag') 0) filp_end,
                    buf_end)
          else inl (0, filp_end, buf_end))
         s1) /\
  (forall e fuel inode filp frag buf s frag' filp' s1 last i fd p pd pi pino,
     readdir_fetch e inode filp frag s = Done (inr (frag', filp')) s1 ->
     frag_is_leftmost frag' = true ->
     fi_last_readdir filp' = Some last ->
     inodes (cache s1) !! inode = Some i ->
     dentries (cache s1) !! f_dentry filp' = Some fd ->
     d_parent fd = Some p ->
     dentries (cache s1) !! p = Some pd ->
     d_inode pd = Some pi ->
     inodes (cache s1) !! pi = Some pino ->
     Z.of_nat (length (dir_entries last)) + 2 < 2 ^ 32 ->
     (length (dir_entries last) < fuel)%nat ->
     (2 + length (dir_entries last) <= room buf)%nat ->
     readdir_round e fuel filldir inode filp frag 0 buf s
     = Done
         (let n := length (dir_entries last) in
          let filp_end := with_pos (advance (2 + n) (f_pos filp')) filp' in
          let buf_end :=
            mk_dirbuf (room buf - (2 + n))
              (taken buf
               ++ [ (".", make_fpos 0 0, i_ino i, Z.shiftr (i_mode i) 12);
                    ("..", make_fpos 0 1, i_ino pino,
                     Z.shiftr (i_mode i) 12) ]
               ++ serve frag' 2 (dir_entries last)) in
          if negb (frag_value frag' =? frag_mask frag')
          then inr (frag_next frag',
                    with_pos (make_fpos (frag_next frag') 0) filp_end,
                    buf_end)
          else inl (0, filp_end, buf_end))
         s1).
Proof.
  split.
  - intros. eapply readdir_round_other; eassumption.
  - intros. eapply readdir_round_leftmost; eassumption.
Qed.

(** The two rounds of the directory of three entries in two fragments:
    the lower fragment is the leftmost and not the last, the upper one is
    not the leftmost and is the last. *)
Lemma readdir_round_contract_witness :
  (exists r s1,
     readdir_round mds_d 8 filldir 1 open_d 0 0 (mk_dirbuf 5 [])
       (boot tree_d) = Done r s1 /\
     round_taken r
     = [ (".", make_fpos 0 0, 40, 4); ("..", make_fpos 0 1, 1, 4);
         ("alpha", make_fpos frag_lo 2, 41, 8);
         ("beta", make_fpos frag_lo 3, 42, 8) ]%string /\
     (exists filp2 buf2, r = inr (frag_hi, filp2, buf2))) /\
  (exists r s1,
     readdir_round mds_d 8 filldir 1 (with_pos (make_fpos frag_hi 0) open_d)
       frag_hi 0 (mk_dirbuf 5 []) (boot tree_d) = Done r s1 /\
     round_taken r = [("gamma"%string, make_fpos frag_hi 0, 43, 4)] /\
     (exists result, r = inl result)).
Proof.
  split.
  - lazymatch eval vm_compute in
      (readdir_fetch mds_d 1 open_d 0 (boot tree_d)) with
    | Done (inr (?frag', ?filp')) ?s1 =>
      lazymatch eval vm_compute in (fi_last_readdir filp') with
      | Some ?last =>
        eexists _, _; split; [| split];
        [ eapply (proj2 readdir_round_contract mds_d 8%nat 1%nat open_d 0
                    (mk_dirbuf 5 []) (boot tree_d) frag' filp' s1 last
                    (mk_inode 40 40 S_IFDIR 2 1 0 0 [frag_lo; frag_hi])
                    (mk_dentry "D" (Some 0%nat) (Some 1%nat) 7 false true 1)
                    0%nat
                    (mk_dentry "/" (Some 0%nat) (Some 0%nat) 0 false true 1)
                    0%nat (dir_inode 1 7 CEPH_LOCK_ICONTENT));
          try (vm_compute; reflexivity); vm_compute; lia
        | vm_compute; reflexivity
        | vm_compute; eexists _, _; reflexivity ]
      end
    end.
  - eexists _, _. split; [| split].
    + eapply (proj1 readdir_round_contract mds_d 8%nat 1%nat
                (with_pos (make_fpos frag_hi 0) open_d) frag_hi 0
                (mk_dirbuf 5 []) (boot tree_d)).
      * vm_compute. reflexivity.
      * reflexivity.
      * reflexivity.
      * vm_compute. split; discriminate.
      * vm_compute. reflexivity.
      * vm_compute. lia.
      * vm_compute. lia.
    + vm_compute. reflexivity.
    + vm_compute. eexists. reflexivity.
Defined.

(** C5.  The enumeration loses the fragments after the first one when a
    call stops inside the first fragment.  On the directory of three
    entries in two fragments, read from position 0 one entry per call,
    the calls take ["."], [".."], [alpha] and [beta], and every call after
    that takes nothing and returns 0: [gamma], in the second fragment,
    is never handed over.  The same happens when the first call stops
    after three entries.  The position of a call that stopped in the
    first fragment has 0 in its fragment half, since it was counted up
    from [make_fpos 0 0], and [fi_frag] is 0 and is never assigned: the
    resumed call takes the reply at hand for the reply of fragment 0,
    does not choose the fragment again, and ends because the value of
    fragment 0 equals its mask.  A call that reaches the end of the first
    fragment in one go does cross over: with room for four or for five
    entries in the first call, [gamma] is handed over. *)
Theorem readdir_loses_second_fragment :
  readdir_session mds_d (boot tree_d) open_d [1; 1; 1; 1; 1; 1]%nat
  = [ Some (0, [ (".", make_fpos 0 0, 40, 4) ]);
      Some (0, [ ("..", make_fpos 0 1, 1, 4) ]);
      Some (0, [ ("alpha", make_fpos 0 2, 41, 8) ]);
      Some (0, [ ("beta", make_fpos 0 3, 42, 8) ]);
      Some (0, []);
      Some (0, []) ] /\
  readdir_session mds_d (boot tree_d) open_d [3; 5; 5]%nat
  = [ Some (0, [ (".", make_fpos 0 0, 40, 4);
                 ("..", make_fpos 0 1, 1, 4);
                 ("alpha", make_fpos frag_lo 2, 41, 8) ]);
      Some (0, [ ("beta", make_fpos 0 3, 42, 8) ]);
      Some (0, []) ] /\
  readdir_session mds_d (boot tree_d) open_d [4; 5; 5]%nat
  = [ Some (0, [ (".", make_fpos 0 0, 40, 4);
                 ("..", make_fpos 0 1, 1, 4);
                 ("alpha", make_fpos frag_lo 2, 41, 8);
                 ("beta", make_fpos frag_lo 3, 42, 8) ]);
      Some (0, [ ("gamma", make_fpos frag_hi 0, 43, 4) ]);
      Some (0, []) ] /\
  readdir_session mds_d (boot tree_d) open_d [5; 5]%nat
  = [ Some (0, [ (".", make_fpos 0 0, 40, 4);
                 ("..", make_fpos 0 1, 1, 4);
                 ("alpha", make_fpos frag_lo 2, 41, 8);
                 ("beta", make_fpos frag_lo 3, 42, 8);
                 ("gamma", make_fpos frag_hi 0, 43, 4) ]);
      Some (0, []) ].
Proof. repeat split; vm_compute; reflexivity. Qed.

(** * Part III: further properties *)

(** ** The cursor under [f_pos++] *)

Lemma make_fpos_value frag off :
  0 <= off < 2 ^ 32 -> make_fpos frag off = Int.s64 (frag * 2 ^ 32 + off).
Proof. intros H. unfold make_fpos. rewrite fpos_lor_add by lia. reflexivity. Qed.

Lemma s64_succ z : Int.s64 (Int.s64 z + 1) = Int.s64 (z + 1).
Proof.
  unfold Int.s64.
  replace ((z + 2 ^ 63) mod 2 ^ 64 - 2 ^ 63 + 1 + 2 ^ 63)
    with ((z + 2 ^ 63) mod 2 ^ 64 + 1) by lia.
  rewrite Zplus_mod_idemp_l. f_equal. f_equal. lia.
Qed.

Lemma advance_make_fpos frag : forall n off,
  0 <= off -> off + Z.of_nat n < 2 ^ 32 ->
  advance n (make_fpos frag off) = make_fpos frag (off + Z.of_nat n).
Proof.
  induction n as [| n IH]; intros off Ho Hn.
  - simpl. rewrite Z.add_0_r. reflexivity.
  - cbn [advance]. rewrite (make_fpos_value frag off) by lia.
    rewrite s64_succ.
    replace (frag * 2 ^ 32 + off + 1) with (frag * 2 ^ 32 + (off + 1)) by lia.
    rewrite <- make_fpos_value by lia.
    rewrite IH by lia. f_equal. lia.
Qed.

(** X1.  [f_pos++] keeps the cursor in step with the offset: from the
    position of offset [off] in fragment [frag], [n] increments give the
    position of offset [off + n] in the same fragment, as long as that
    offset fits in 32 bits; one increment at the last offset carries into
    the fragment half and gives offset 0 of the fragment numbered one
    higher. *)
Theorem fpos_increment (frag off : Z) (n : nat) :
  0 <= frag < 2 ^ 32 -> 0 <= off -> off + Z.of_nat n < 2 ^ 32 ->
  advance n (make_fpos frag off) = make_fpos frag (off + Z.of_nat n) /\
  fpos_frag (advance n (make_fpos frag off)) = frag /\
  fpos_off (advance n (make_fpos frag off)) = off + Z.of_nat n /\
  advance 1 (make_fpos frag (2 ^ 32 - 1)) = make_fpos (Int.u32 (frag + 1)) 0.
Proof.
  intros Hf Ho Hn.
  rewrite advance_make_fpos by lia.
  split; [reflexivity |].
  split; [apply fpos_frag_make; lia |].
  split; [apply fpos_off_make; lia |].
  cbn [advance]. rewrite !make_fpos_value by lia. rewrite s64_succ.
  replace (frag * 2 ^ 32 + (2 ^ 32 - 1) + 1) with ((frag + 1) * 2 ^ 32) by lia.
  rewrite Z.add_0_r.
  destruct (Z.eq_dec (frag + 1) (2 ^ 32)) as [E | E].
  - rewrite E. reflexivity.
  - rewrite u32_small by lia. reflexivity.
Qed.

Lemma fpos_increment_witness :
  (0 <= frag_hi < 2 ^ 32 /\ 0 <= 2 /\ 2 + Z.of_nat 3 < 2 ^ 32) /\
  advance 3 (make_fpos frag_hi 2) = make_fpos frag_hi (2 + Z.of_nat 3) /\
  fpos_frag (advance 3 (make_fpos frag_hi 2)) = frag_hi /\
  fpos_off (advance 3 (make_fpos frag_hi 2)) = 2 + Z.of_nat 3 /\
  advance 1 (make_fpos frag_hi (2 ^ 32 - 1))
  = make_fpos (Int.u32 (frag_hi + 1)) 0.
Proof.
  split; [unfold frag_hi; lia |].
  apply (fpos_increment frag_hi 2 3); unfold frag_hi; lia.
Defined.

(** ** What revalidation does to the cache *)

Lemma lookup_unhashed w p d :
  dentries w !! p = Some d ->
  unhashed (mk_world (<[p := with_hashed false d]> (dentries w)) (inodes w)) p.
Proof.
  intros H. exists (with_hashed false d). split; [| reflexivity].
  simpl. apply list_lookup_insert_eq.
  apply lookup_lt_is_Some. rewrite H. eauto.
Qed.

Lemma unhash_only_refl w : unhash_only w w.
Proof.
  split; [reflexivity |].
  apply Forall2_same_length_lookup. split; [reflexivity |].
  intros i x y Hx Hy. left. congruence.
Qed.

Lemma unhash_only_trans w1 w2 w3 :
  unhash_only w1 w2 -> unhash_only w2 w3 -> unhash_only w1 w3.
Proof.
  intros [Hi H] [Hi' H']. split; [congruence |].
  revert H'. generalize (dentries w3). clear Hi Hi'.
  induction H as [| d1 d2 l1 l2 Hd H IH]; intros l3 H'.
  - inversion H'. constructor.
  - inversion H' as [| d2' d3 l2' l3' Hd' H'' E1 E2]; subst.
    constructor; [| apply IH; exact H''].
    destruct Hd as [-> | ->], Hd' as [-> | ->]; auto.
Qed.

Lemma unhash_only_drop w p d :
  dentries w !! p = Some d ->
  unhash_only w
    (mk_world (<[p := with_hashed false d]> (dentries w)) (inodes w)).
Proof.
  intros H. split; [reflexivity |]. simpl.
  apply Forall2_same_length_lookup. split; [rewrite length_insert; reflexivity |].
  intros i x y Hx Hy.
  destruct (decide (i = p)) as [-> | Hne].
  - rewrite list_lookup_insert_eq in Hy
      by (apply lookup_lt_is_Some; rewrite H; eauto).
    right. congruence.
  - rewrite list_lookup_insert_ne in Hy by congruence. left. congruence.
Qed.

Lemma revalidate_none (dn : nat) (s : sys) :
  revalidate_verdict (cache s) dn = None ->
  ceph_dentry_revalidate dn s = Oops s.
Proof.
  intros Hv. unfold revalidate_verdict in Hv. unfold ceph_dentry_revalidate.
  destruct (dentries (cache s) !! dn) as [d |] eqn:Hd.
  2:{ apply bind_oops, get_dentry_none, Hd. }
  rewrite (bind_done _ _ _ _ _ (get_dentry_eq _ _ _ Hd)).
  destruct (d_parent d) as [p |]; [| reflexivity].
  simpl deref.
  destruct (dentries (cache s) !! p) as [parent |] eqn:Hp.
  2:{ apply bind_oops, get_dentry_none, Hp. }
  rewrite (bind_done _ _ _ _ _ (get_dentry_eq _ _ _ Hp)).
  destruct (d_inode parent) as [di |]; [| reflexivity].
  simpl deref.
  destruct (inodes (cache s) !! di) as [dir |] eqn:Hi; [discriminate |].
  apply bind_oops, get_inode_none, Hi.
Qed.

Lemma revalidate_cases (dn : nat) (s : sys) :
  match ceph_dentry_revalidate dn s with
  | Done rc s' =>
    (rc = 1 /\ s' = s) \/
    (rc = 0 /\ exists d, dentries (cache s) !! dn = Some d /\
       s' = mk_sys (mk_world (<[dn := with_hashed false d]>
                                (dentries (cache s)))
                      (inodes (cache s)))
              (trace s) (tick s))
  | Oops s' => s' = s /\ revalidate_verdict (cache s) dn = None
  | Hang => False
  end.
Proof.
  destruct (revalidate_verdict (cache s) dn) as [b |] eqn:Hv.
  - assert (Hd : exists d, dentries (cache s) !! dn = Some d).
    { unfold revalidate_verdict in Hv.
      destruct (dentries (cache s) !! dn) as [d |]; [eauto | discriminate]. }
    destruct Hd as [d Hd].
    rewrite (ceph_dentry_revalidate_eq _ _ _ _ Hd Hv).
    destruct b; [left; split; reflexivity |].
    right. split; [reflexivity |]. exists d. split; [exact Hd | reflexivity].
  - rewrite (revalidate_none dn s Hv). split; reflexivity.
Qed.

Lemma verdict_none_iff w dn :
  revalidate_verdict w dn = None <-> ~ has_directory w dn.
Proof.
  unfold revalidate_verdict, has_directory. split.
  - intros Hv (d & p & parent & di & dir & Hd & Hp & Hpa & Hdi & Hdir).
    rewrite Hd, Hp, Hpa, Hdi, Hdir in Hv. discriminate.
  - intros Hno.
    destruct (dentries w !! dn) as [d |] eqn:Hd; [| reflexivity].
    destruct (d_parent d) as [p |] eqn:Hp; [| reflexivity].
    destruct (dentries w !! p) as [parent |] eqn:Hpa; [| reflexivity].
    destruct (d_inode parent) as [di |] eqn:Hdi; [| reflexivity].
    destruct (inodes w !! di) as [dir |] eqn:Hdir; [| reflexivity].
    exfalso. apply Hno. exists d, p, parent, di, dir. repeat split; assumption.
Qed.

(** X2.  What [ceph_dentry_revalidate] does in every state.  When the
    dentry, its parent and the inode of the parent are all in the cache:
    if the parent's version is the one the dentry recorded and the parent
    holds its content lease, or the dentry holds its own lease, it
    returns 1 and leaves the whole state as it was; otherwise it returns 0
    with the dentry unhashed, and that is the only change.  When one of
    the three is missing it faults before changing anything.  So it
    faults exactly when one is missing, returns 1 exactly when the dentry
    is valid, never adds to the trace and always terminates. *)
Theorem revalidate_unhashes_on_failure (dn : nat) (s : sys) :
  (forall d p parent di dir,
     dentries (cache s) !! dn = Some d -> d_parent d = Some p ->
     dentries (cache s) !! p = Some parent -> d_inode parent = Some di ->
     inodes (cache s) !! di = Some dir ->
     if (i_version dir =? d_time d)
        && ceph_inode_lease_valid dir CEPH_LOCK_ICONTENT
        || ceph_dentry_lease_valid d
     then ceph_dentry_revalidate dn s = Done 1 s
     else exists s',
         ceph_dentry_revalidate dn s = Done 0 s' /\
         unhashed (cache s') dn /\ unhash_only (cache s) (cache s') /\
         trace s' = trace s /\ tick s' = tick s) /\
  (~ has_directory (cache s) dn -> ceph_dentry_revalidate dn s = Oops s).
Proof.
  split.
  - intros d p parent di dir Hd Hp Hpa Hdi Hdir.
    assert (Hv : revalidate_verdict (cache s) dn
                 = Some ((i_version dir =? d_time d)
                         && ceph_inode_lease_valid dir CEPH_LOCK_ICONTENT
                         || ceph_dentry_lease_valid d)).
    { unfold revalidate_verdict. rewrite Hd, Hp, Hpa, Hdi, Hdir. reflexivity. }
    rewrite (ceph_dentry_revalidate_eq _ _ _ _ Hd Hv).
    destruct ((i_version dir =? d_time d)
              && ceph_inode_lease_valid dir CEPH_LOCK_ICONTENT
              || ceph_dentry_lease_valid d); [reflexivity |].
    eexists. split; [reflexivity |].
    split; [apply lookup_unhashed; exact Hd |].
    split; [apply unhash_only_drop; exact Hd |].
    split; reflexivity.
  - intros Hno. apply revalidate_none, verdict_none_iff, Hno.
Qed.

(** In [tree1], [x] records the version of [lib], which holds its content
    lease: the check returns 1.  In [tree_stale_file], [f] records an old
    version of the root and has no lease: the check returns 0 and [f] is
    unhashed.  In [tree_orphan], [a] has no parent: the check faults. *)
Lemma revalidate_unhashes_on_failure_witness :
  ceph_dentry_revalidate 3 (boot tree1) = Done 1 (boot tree1) /\
  (exists s',
     ceph_dentry_revalidate 1 (boot tree_stale_file) = Done 0 s' /\
     unhashed (cache s') 1 /\
     unhash_only (cache (boot tree_stale_file)) (cache s') /\
     trace s' = trace (boot tree_stale_file) /\
     tick s' = tick (boot tree_stale_file)) /\
  ceph_dentry_revalidate 1 (boot tree_orphan) = Oops (boot tree_orphan).
Proof.
  split; [| split].
  - apply (proj1 (revalidate_unhashes_on_failure 3 (boot tree1))
             (mk_dentry "x" (Some 2%nat) (Some 3%nat) 5 false true 1) 2%nat
             (mk_dentry "lib" (Some 1%nat) (Some 2%nat) 3 false true 1) 2%nat
             (dir_inode 200 5 CEPH_LOCK_ICONTENT)); reflexivity.
  - apply (proj1 (revalidate_unhashes_on_failure 1 (boot tree_stale_file))
             (mk_dentry "f" (Some 0%nat) (Some 1%nat) 6 false true 1) 0%nat
             (mk_dentry "/" (Some 0%nat) (Some 0%nat) 0 false true 1) 0%nat
             (dir_inode 1 7 CEPH_LOCK_ICONTENT)); reflexivity.
  - apply (proj2 (revalidate_unhashes_on_failure 1 (boot tree_orphan))).
    intros (d & p & parent & di & dir & Hd & Hp & _).
    simpl in Hd. injection Hd as <-. discriminate.
Defined.

(** ** Properties of the cache that a computation keeps *)

Section Keeps.

Context (P : world -> Prop).

Lemma keeps_bind {A B} (m : K A) (f : A -> K B) :
  keeps (fun s => P (cache s)) m ->
  (forall a, keeps (fun s => P (cache s)) (f a)) ->
  keeps (fun s => P (cache s)) (bind m f).
Proof.
  intros Hm Hf s Hs. specialize (Hm s Hs). unfold bind.
  destruct (m s) as [a s1 | s1 |]; [| exact Hm | exact I].
  apply (Hf a s1 Hm).
Qed.

Lemma keeps_ret {A} (a : A) : keeps (fun s => P (cache s)) (ret a).
Proof. intros s Hs. exact Hs. Qed.

Lemma keeps_oops {A} : keeps (fun s => P (cache s)) (@oops A).
Proof. intros s Hs. exact Hs. Qed.

Lemma keeps_hang {A} : keeps (fun s => P (cache s)) (@hang A).
Proof. intros s Hs. exact I. Qed.

(** A step that leaves the cache alone. *)
Lemma keeps_same {A} (m : K A) :
  (forall s, match m s with
             | Done _ s' => cache s' = cache s
             | Oops s' => cache s' = cache s
             | Hang => True
             end) ->
  keeps (fun s => P (cache s)) m.
Proof.
  intros H s Hs. specialize (H s).
  destruct (m s) as [a s' | s' |]; [| | exact I]; rewrite H; exact Hs.
Qed.

Lemma keeps_get_dentry p : keeps (fun s => P (cache s)) (get_dentry p).
Proof.
  apply keeps_same. intros s. unfold get_dentry, bind, get_cache.
  destruct (dentries (cache s) !! p); reflexivity.
Qed.

Lemma keeps_get_inode p : keeps (fun s => P (cache s)) (get_inode p).
Proof.
  apply keeps_same. intros s. unfold get_inode, bind, get_cache.
  destruct (inodes (cache s) !! p); reflexivity.
Qed.

Lemma keeps_deref {A} (get : nat -> K A) p :
  (forall q, keeps (fun s => P (cache s)) (get q)) ->
  keeps (fun s => P (cache s)) (deref get p).
Proof. intros H. destruct p; [apply H | apply keeps_oops]. Qed.

Lemma keeps_emit ev : keeps (fun s => P (cache s)) (emit ev).
Proof. apply keeps_same. intros s. reflexivity. Qed.

Lemma keeps_next_tick : keeps (fun s => P (cache s)) next_tick.
Proof. apply keeps_same. intros s. reflexivity. Qed.

Lemma keeps_IS_ROOT p : keeps (fun s => P (cache s)) (IS_ROOT p).
Proof.
  unfold IS_ROOT. apply keeps_bind; [apply keeps_get_dentry |].
  intros d. apply keeps_ret.
Qed.

Lemma keeps_kmalloc e n : keeps (fun s => P (cache s)) (kmalloc e n).
Proof.
  apply keeps_same. intros s. unfold kmalloc, bind, next_tick. simpl.
  destruct ((n <? 0) || kmalloc_fails e (tick s)); reflexivity.
Qed.

Lemma keeps_poke path i c : keeps (fun s => P (cache s)) (poke path i c).
Proof.
  unfold poke.
  destruct ((0 <=? i) && (i <? Z.of_nat (length path)));
    [apply keeps_ret | apply keeps_oops].
Qed.

Lemma keeps_write_bytes l : forall path pos,
  keeps (fun s => P (cache s)) (write_bytes path pos l).
Proof.
  induction l as [| c l IH]; intros path pos; cbn [write_bytes].
  - apply keeps_ret.
  - apply keeps_bind; [apply keeps_poke | intros path'; apply IH].
Qed.

Lemma keeps_strncpy path pos src n :
  keeps (fun s => P (cache s)) (strncpy path pos src n).
Proof. unfold strncpy. apply keeps_write_bytes. Qed.

Lemma keeps_create_request e op ino1 path1 ino2 path2 ref mode :
  keeps (fun s => P (cache s))
    (ceph_mdsc_create_request e op ino1 path1 ino2 path2 ref mode).
Proof.
  apply keeps_same. intros s.
  unfold ceph_mdsc_create_request, bind, next_tick. simpl.
  destruct (create_request_fails e (tick s)); reflexivity.
Qed.

(** Path construction keeps what unhashing a dentry and the other tasks
    keep. *)
Context (e : env).
Context (Hdrop : forall w p d,
  dentries w !! p = Some d -> P w ->
  P (mk_world (<[p := with_hashed false d]> (dentries w)) (inodes w))).
Context (Hrace : forall n w, P w -> P (race e n w)).

Lemma keeps_sched : keeps (fun s => P (cache s)) (sched e).
Proof. intros s Hs. rewrite sched_eq. simpl. apply Hrace. exact Hs. Qed.

Lemma keeps_revalidate p :
  keeps (fun s => P (cache s)) (ceph_dentry_revalidate p).
Proof.
  intros s Hs. pose proof (revalidate_cases p s) as H.
  destruct (ceph_dentry_revalidate p s) as [rc s' | s' |]; [| | exact I].
  - destruct H as [[_ ->] | (_ & d & Hd & ->)]; [exact Hs |].
    simpl. apply Hdrop; assumption.
  - destruct H as [-> _]. exact Hs.
Qed.

Lemma keeps_len_loop : forall fuel t len,
  keeps (fun s => P (cache s)) (build_path_len_loop e fuel t len).
Proof.
  induction fuel as [| fuel IH]; intros t len;
    cbn [build_path_len_loop]; [apply keeps_hang |].
  apply keeps_bind; [apply keeps_sched | intros _].
  apply keeps_bind; [apply keeps_IS_ROOT | intros root].
  destruct root; [apply keeps_ret |].
  apply keeps_bind; [apply keeps_get_dentry | intros d].
  apply keeps_bind.
  { destruct (d_inode d); [| apply keeps_ret].
    apply keeps_bind; [apply keeps_revalidate | intros ok; apply keeps_ret]. }
  intros stop. destruct stop; [apply keeps_ret |].
  apply keeps_bind; [apply keeps_get_dentry | intros d'].
  destruct (d_parent d') as [p |]; [apply IH |].
  apply keeps_bind; [apply keeps_emit | intros _; apply keeps_ret].
Qed.

Lemma keeps_fill_loop : forall fuel t pos path,
  keeps (fun s => P (cache s)) (build_path_fill_loop e fuel t pos path).
Proof.
  induction fuel as [| fuel IH]; intros t pos path;
    cbn [build_path_fill_loop]; [apply keeps_hang |].
  apply keeps_bind; [apply keeps_sched | intros _].
  apply keeps_bind; [apply keeps_IS_ROOT | intros root].
  destruct (root || (pos =? 0)); [apply keeps_ret |].
  apply keeps_bind; [apply keeps_sched | intros _].
  apply keeps_bind; [apply keeps_get_dentry | intros d].
  destruct (Int.s32 (pos - d_name_len d) <? 0); [apply keeps_ret |].
  apply keeps_bind; [apply keeps_sched | intros _].
  apply keeps_bind; [apply keeps_get_dentry | intros src].
  apply keeps_bind; [apply keeps_sched | intros _].
  apply keeps_bind; [apply keeps_get_dentry | intros n].
  apply keeps_bind; [apply keeps_strncpy | intros path1].
  apply keeps_bind.
  { destruct (Int.s32 (pos - d_name_len d) =? 0); [apply keeps_ret |].
    apply keeps_bind; [apply keeps_poke | intros path2; apply keeps_ret]. }
  intros [pos' path'].
  apply keeps_bind; [apply keeps_sched | intros _].
  apply keeps_bind; [apply keeps_get_dentry | intros d'].
  destruct (d_parent d') as [p |]; [apply IH |].
  apply keeps_bind; [apply keeps_emit | intros _; apply keeps_ret].
Qed.

Lemma keeps_build_path_retry fuel : forall retries d,
  keeps (fun s => P (cache s)) (build_path_retry e fuel retries d).
Proof.
  induction retries as [| retries IH]; intros d;
    cbn [build_path_retry]; [apply keeps_hang |].
  apply keeps_bind; [apply keeps_len_loop | intros r].
  destruct r as [err | len]; [apply keeps_ret |].
  apply keeps_bind; [apply keeps_kmalloc | intros mem].
  destruct mem as [path |]; [| apply keeps_ret].
  apply keeps_bind; [apply keeps_poke | intros path1].
  apply keeps_bind; [apply keeps_fill_loop | intros r].
  destruct r as [err | [[temp pos] path2]]; [apply keeps_ret |].
  destruct (negb (pos =? 0)).
  - apply keeps_bind; [apply keeps_emit | intros _; apply IH].
  - apply keeps_bind; [apply keeps_get_dentry | intros t].
    apply keeps_bind;
      [apply keeps_deref; intros q; apply keeps_get_inode | intros i].
    apply keeps_ret.
Qed.

Lemma keeps_build_path fuel d :
  keeps (fun s => P (cache s)) (ceph_build_dentry_path e fuel d).
Proof.
  unfold ceph_build_dentry_path.
  destruct d; [apply keeps_build_path_retry | apply keeps_ret].
Qed.

End Keeps.

(** ** Path construction leaves the tree alone *)

Lemma only_derr_derr msg : only_derr (EvDerr msg).
Proof. exists msg. reflexivity. Qed.

Lemma logs_only_derr_build_path e fuel d :
  logs only_derr (ceph_build_dentry_path e fuel d) (fun _ => True).
Proof.
  unfold ceph_build_dentry_path.
  destruct d; [| apply logs_ret; exact I].
  apply logs_build_path_retry. exact only_derr_derr.
Qed.

Lemma unhash_only_build_path e fuel d s :
  (forall n w, race e n w = w) ->
  match ceph_build_dentry_path e fuel d s with
  | Done _ s' | Oops s' => unhash_only (cache s) (cache s')
  | Hang => True
  end.
Proof.
  intros Hr.
  pose proof (keeps_build_path (unhash_only (cache s)) e) as K.
  specialize (K (fun w p d' Hd Hw =>
                   unhash_only_trans _ _ _ Hw (unhash_only_drop w p d' Hd))).
  specialize (K (fun n w Hw => eq_ind_r (unhash_only (cache s)) Hw (Hr n w))).
  apply (K fuel d s (unhash_only_refl _)).
Qed.

(** X3.  When no other task changes the tree meanwhile, a run of
    [ceph_build_dentry_path], whether it returns a path, returns an error
    or faults, leaves every inode as it was and every dentry as it was or
    unhashed, and adds nothing to the trace but error messages: it creates
    and sends no request and releases no lease. *)
Theorem build_dentry_path_only_unhashes (e : env) (fuel : nat)
    (d : option nat) (s : sys) :
  (forall n w, race e n w = w) ->
  match ceph_build_dentry_path e fuel d s with
  | Done _ s' | Oops s' =>
    unhash_only (cache s) (cache s') /\
    exists evs, trace s' = trace s ++ evs /\ Forall only_derr evs
  | Hang => True
  end.
Proof.
  intros Hr.
  pose proof (unhash_only_build_path e fuel d s Hr) as Hc.
  pose proof (logs_only_derr_build_path e fuel d s) as Hl.
  destruct (ceph_build_dentry_path e fuel d s) as [r s' | s' |];
    [| | exact I].
  - split; [exact Hc | apply Hl].
  - split; [exact Hc | exact Hl].
Qed.

(** On [/f], whose lease has run out, the walk stops at once and unhashes
    [f]. *)
Lemma build_dentry_path_only_unhashes_witness :
  (forall n w, race quiet n w = w) /\
  unhashed
    (cache (default (boot tree_stale_file)
              (final (ceph_build_dentry_path quiet 8 (Some 1%nat)
                        (boot tree_stale_file))))) 1 /\
  match ceph_build_dentry_path quiet 8 (Some 1%nat) (boot tree_stale_file) with
  | Done _ s' | Oops s' =>
    unhash_only (cache (boot tree_stale_file)) (cache s') /\
    exists evs, trace s' = trace (boot tree_stale_file) ++ evs /\
                Forall only_derr evs
  | Hang => True
  end.
Proof.
  split; [reflexivity |].
  split; [eexists; split; vm_compute; reflexivity |].
  apply (build_dentry_path_only_unhashes quiet 8 (Some 1%nat)
           (boot tree_stale_file)).
  reflexivity.
Defined.

(** ** Path construction without memory *)

Lemma sched_race_static e s :
  (forall n w, race e n w = w) ->
  sched e s = Done tt (mk_sys (cache s) (trace s) (S (tick s))).
Proof. intros Hr. rewrite sched_eq, Hr. reflexivity. Qed.

(** The first loop on a walk that [climb] completes, with its clock. *)
Lemma len_loop_walk e :
  (forall n w, race e n w = w) ->
  forall fuel t len s names stop,
    climb (cache s) fuel t = Climbed names stop ->
    0 <= len -> len + names_total names < 2 ^ 31 ->
    exists s',
      build_path_len_loop e fuel t len s
      = Done (inr (len + names_total names)) s' /\
      tick s' = (tick s + S (length names))%nat.
Proof.
  intros He. induction fuel as [| fuel IH]; intros t len s names stop Hc Hl Hb.
  - discriminate.
  - simpl in Hc. simpl build_path_len_loop.
    rewrite (bind_done _ _ _ _ _ (sched_race_static e s He)).
    set (s1 := mk_sys (cache s) (trace s) (S (tick s))).
    change (cache s) with (cache s1) in Hc.
    destruct (dentries (cache s1) !! t) as [d |] eqn:Hd; [| discriminate].
    rewrite (bind_done _ _ _ _ _ (IS_ROOT_eq _ _ _ Hd)).
    destruct (bool_decide (d_parent d = Some t)) eqn:Hroot.
    { injection Hc as <- <-. simpl. exists s1.
      rewrite Z.add_0_r. split; [reflexivity | simpl; lia]. }
    rewrite (bind_done _ _ _ _ _ (get_dentry_eq _ _ _ Hd)).
    destruct (d_inode d) as [i |] eqn:Hi.
    + destruct (revalidate_verdict (cache s1) t) as [b |] eqn:Hv;
        [| discriminate].
      unfold bind at 1. unfold bind at 1.
      rewrite (ceph_dentry_revalidate_eq _ _ _ _ Hd Hv).
      destruct b.
      * simpl.
        rewrite (bind_done _ _ _ _ _ (get_dentry_eq _ _ _ Hd)).
        destruct (d_parent d) as [p |] eqn:Hp; [| discriminate].
        destruct (climb (cache s1) fuel p) as [ns st | | |] eqn:Hcl;
          try discriminate.
        injection Hc as <- <-. simpl in Hb.
        pose proof (names_total_nonneg ns) as Hnn.
        assert (Hlen : 0 <= Z.of_nat (String.length (d_name d))) by lia.
        unfold d_name_len.
        rewrite (u32_small (1 + _)) by lia.
        rewrite s32_small by lia.
        destruct (IH p (len + (1 + Z.of_nat (String.length (d_name d))))
                    s1 ns st Hcl) as (s' & E & Htk); [lia | lia |].
        exists s'. rewrite E. split; [f_equal; f_equal; simpl; lia |].
        rewrite Htk. simpl. lia.
      * injection Hc as <- <-. simpl.
        eexists. split; [rewrite Z.add_0_r; reflexivity |]. simpl. lia.
    + kret.
      kstep (get_dentry_eq _ _ _ Hd).
      destruct (d_parent d) as [p |] eqn:Hp; [| discriminate].
      destruct (climb (cache s1) fuel p) as [ns st | | |] eqn:Hcl;
        try discriminate.
      injection Hc as <- <-. simpl in Hb.
      pose proof (names_total_nonneg ns) as Hnn.
      assert (Hlen : 0 <= Z.of_nat (String.length (d_name d))) by lia.
      unfold d_name_len.
      rewrite (u32_small (1 + _)) by lia.
      rewrite s32_small by lia.
      destruct (IH p (len + (1 + Z.of_nat (String.length (d_name d))))
                  s1 ns st Hcl) as (s' & E & Htk); [lia | lia |].
      exists s'. rewrite E. split; [f_equal; f_equal; simpl; lia |].
      rewrite Htk. simpl. lia.
Qed.

(** X4.  When no other task changes the tree, the walk from [d] passes
    the names [names], and the allocator refuses the block asked for after
    the walk, [ceph_build_dentry_path] returns [-ENOMEM]. *)
Theorem build_dentry_path_enomem (e : env) (fuel : nat) (d : nat) (s : sys)
    (names : list string) (stop : nat) :
  (forall n w, race e n w = w) ->
  climb (cache s) fuel d = Climbed names stop ->
  names_total names < 2 ^ 31 ->
  kmalloc_fails e (tick s + S (length names)) = true ->
  exists s',
    ceph_build_dentry_path e fuel (Some d) s = Done (PathErr (- ENOMEM)) s'.
Proof.
  intros Hr Hc Hb Hk.
  pose proof (names_total_nonneg names) as Hnn.
  destruct (len_loop_walk e Hr fuel d 0 s names stop Hc) as (s1 & E1 & Htk);
    [lia | lia |].
  unfold ceph_build_dentry_path.
  destruct fuel as [| fuel']; [discriminate |].
  cbn [build_path_retry]. kstep E1.
  unfold kmalloc. unfold bind at 1. unfold bind at 1. unfold next_tick.
  cbv beta iota. rewrite Htk, Hk, orb_true_r. cbv iota.
  eexists. reflexivity.
Qed.

Lemma build_dentry_path_enomem_witness :
  (forall n w, race env_no_memory n w = w) /\
  climb (cache (boot tree1)) 8 3 = Climbed ["x"; "lib"; "usr"]%string 0 /\
  exists s',
    ceph_build_dentry_path env_no_memory 8 (Some 3%nat) (boot tree1)
    = Done (PathErr (- ENOMEM)) s'.
Proof.
  split; [reflexivity |].
  split; [vm_compute; reflexivity |].
  apply (build_dentry_path_enomem env_no_memory 8 3 (boot tree1)
           ["x"; "lib"; "usr"]%string 0);
    [reflexivity | vm_compute; reflexivity | vm_compute; reflexivity
     | reflexivity].
Defined.

(** ** Lookup completion: the other outcomes *)

(** The first half of [ceph_finish_lookup] when the reply settles the
    name: success, or [-ENOENT] with a trace. *)
Lemma finish_lookup_settled e req dn err s :
  err = 0 \/ (err = - ENOENT /\ trace_numd req <> 0) ->
  ceph_finish_lookup e req dn err s
  = (if negb (bool_decide (r_last_dentry req = Some dn)) then
       dget (r_last_dentry req);; ret (Ptr (r_last_dentry req), req)
     else ret (Ptr None, req)) s.
Proof.
  intros [-> | [-> Hn]]; unfold ceph_finish_lookup.
  - change (0 =? - ENOENT) with false. cbv iota. kret. reflexivity.
  - rewrite Z.eqb_refl.
    destruct (Z.eqb_spec (trace_numd req) 0) as [E | _]; [contradiction |].
    kret. kret. reflexivity.
Qed.

(** X5.  [ceph_finish_lookup] hands an error other than [-ENOENT] back
    as an error pointer and touches nothing.  When the reply settles the
    name (success, or [-ENOENT] with a trace), it returns [NULL] if the
    request still points at the looked-up dentry, and otherwise the dentry
    that was spliced in, with one more reference on it and nothing else
    changed. *)
Theorem finish_lookup_outcomes (e : env) (req : request) (dn : nat) (err : Z)
    (s : sys) :
  (err <> 0 -> err <> - ENOENT ->
   ceph_finish_lookup e req dn err s = Done (ErrPtr err, req) s) /\
  (err = 0 \/ (err = - ENOENT /\ trace_numd req <> 0) ->
   (r_last_dentry req = Some dn ->
    ceph_finish_lookup e req dn err s = Done (Ptr None, req) s) /\
   (forall q qd,
      r_last_dentry req = Some q -> q <> dn ->
      dentries (cache s) !! q = Some qd ->
      ceph_finish_lookup e req dn err s
      = Done (Ptr (Some q), req)
          (mk_sys (mk_world (<[q := with_count (d_count qd + 1) qd]>
                               (dentries (cache s)))
                     (inodes (cache s)))
             (trace s) (tick s)))).
Proof.
  split.
  - intros H0 Hn. unfold ceph_finish_lookup.
    destruct (Z.eqb_spec err (- ENOENT)) as [E | _]; [contradiction |].
    kret. destruct (Z.eqb_spec err 0) as [E | _]; [contradiction |].
    reflexivity.
  - intros Hs. rewrite (finish_lookup_settled e req dn err s Hs). split.
    + intros Hl. rewrite bool_decide_eq_true_2 by exact Hl. reflexivity.
    + intros q qd Hl Hne Hq.
      rewrite bool_decide_eq_false_2 by congruence. cbn [negb].
      rewrite Hl. kstep (dget_eq _ _ _ Hq). reflexivity.
Qed.

(** A lookup of [/none] refused with [-EPERM]; and a lookup that found
    [/gone] spliced in for [/none]. *)
Lemma finish_lookup_outcomes_witness :
  ceph_finish_lookup quiet (lstat_request 2) 2 (- EPERM) (boot tree_lookup)
  = Done (ErrPtr (- EPERM), lstat_request 2) (boot tree_lookup) /\
  option_map d_count
    (dentries
       (cache (default (boot tree_lookup)
                 (final (ceph_finish_lookup quiet (lstat_request 1) 2 0
                           (boot tree_lookup))))) !! 1%nat)
  = Some 2.
Proof.
  split.
  - apply (finish_lookup_outcomes quiet (lstat_request 2) 2 (- EPERM)
             (boot tree_lookup)); discriminate.
  - vm_compute. reflexivity.
Defined.

(** ** Names that are too long *)

Lemma lookup_plain e fuel lo umask dir dn nd s :
  plain_lookup nd ->
  ceph_lookup e fuel lo umask dir dn nd s
  = ceph_do_lookup e fuel dn CEPH_STAT_MASK_INODE_ALL false s.
Proof.
  unfold ceph_lookup, plain_lookup. destruct nd as [n |]; [| reflexivity].
  intros [H | [H | H]].
  - rewrite H. reflexivity.
  - destruct (Z.eqb_spec (Z.land (nd_flags n) LOOKUP_CONTINUE) 0);
      [contradiction |].
    rewrite andb_false_r. reflexivity.
  - destruct (Z.eqb_spec (Z.land (intent_open_flags n) O_CREAT) 0);
      [contradiction |].
    rewrite andb_false_r. reflexivity.
Qed.

(** X6.  A name longer than [NAME_MAX] is refused with [-ENAMETOOLONG]
    before anything else happens: [ceph_do_lookup], and [ceph_lookup] when
    the lookup carries no open intent, return the error pointer with the
    cache, the trace and the clock untouched, so no path is built and no
    request is created. *)
Theorem lookup_name_too_long (e : env) (fuel : nat) (lo : lookup_open_t)
    (umask : Z) (dir dn : nat) (nd : option nameidata) (mask : Z)
    (on_inode : bool) (s : sys) (d : dentry) :
  dentries (cache s) !! dn = Some d ->
  NAME_MAX < d_name_len d ->
  plain_lookup nd ->
  ceph_do_lookup e fuel dn mask on_inode s
  = Done (ErrPtr (- ENAMETOOLONG)) s /\
  ceph_lookup e fuel lo umask dir dn nd s
  = Done (ErrPtr (- ENAMETOOLONG)) s.
Proof.
  intros Hd Hlen Hnd.
  assert (H : forall mask on_inode,
             ceph_do_lookup e fuel dn mask on_inode s
             = Done (ErrPtr (- ENAMETOOLONG)) s).
  { intros m o. unfold ceph_do_lookup.
    kstep (get_dentry_eq _ _ _ Hd).
    destruct (Z.gtb_spec (d_name_len d) NAME_MAX); [reflexivity | lia]. }
  split; [apply H |].
  rewrite lookup_plain by exact Hnd. apply H.
Qed.

Lemma lookup_name_too_long_witness :
  d_name_len (mk_dentry long_name (Some 0%nat) None 0 false false 1) = 256 /\
  ceph_do_lookup quiet 8 1 CEPH_STAT_MASK_INODE_ALL true (boot tree_long)
  = Done (ErrPtr (- ENAMETOOLONG)) (boot tree_long) /\
  ceph_lookup quiet 8 no_lookup_open 18 0 1 None (boot tree_long)
  = Done (ErrPtr (- ENAMETOOLONG)) (boot tree_long).
Proof.
  split; [vm_compute; reflexivity |].
  apply (lookup_name_too_long quiet 8 no_lookup_open 18 0 1 None
           CEPH_STAT_MASK_INODE_ALL true (boot tree_long)
           (mk_dentry long_name (Some 0%nat) None 0 false false 1)).
  - reflexivity.
  - vm_compute. reflexivity.
  - exact I.
Defined.

(** ** What requests carry *)

Lemma logs_create_request_exact ok e op ino1 path1 ino2 path2 ref mode :
  ok (EvCreateRequest op ref mode) ->
  logs ok (ceph_mdsc_create_request e op ino1 path1 ino2 path2 ref mode)
    (fun r => match r with
              | inr req =>
                req = mk_request op ino1 path1 ino2 path2 ref mode [] None
                        None None 0 []
              | inl _ => True
              end).
Proof.
  intros Hc. unfold ceph_mdsc_create_request.
  eapply logs_bind; [apply logs_next_tick | intros n _].
  destruct (create_request_fails e n); [apply logs_ret; exact I |].
  eapply logs_bind; [apply logs_emit, Hc | intros _ _].
  apply logs_ret. reflexivity.
Qed.

Lemma logs_do_request_exact ok e req :
  (forall w, ok (EvDispatch req w)) ->
  logs ok (ceph_mdsc_do_request e req) (fun _ => True).
Proof.
  intros Hd. unfold ceph_mdsc_do_request.
  eapply logs_bind; [apply logs_next_tick | intros n _].
  eapply logs_bind; [apply logs_get_cache | intros w _].
  eapply logs_bind; [apply logs_emit, Hd | intros _ _].
  eapply logs_bind; [apply logs_put_cache | intros _ _].
  apply logs_ret. exact I.
Qed.

Lemma logs_do_request_op ok e req :
  (forall w, ok (EvDispatch req w)) ->
  logs ok (ceph_mdsc_do_request e req) (fun r => r_op (snd r) = r_op req).
Proof.
  intros Hd. unfold ceph_mdsc_do_request.
  eapply logs_bind; [apply logs_next_tick | intros n _].
  eapply logs_bind; [apply logs_get_cache | intros w _].
  eapply logs_bind; [apply logs_emit, Hd | intros _ _].
  eapply logs_bind; [apply logs_put_cache | intros _ _].
  apply logs_ret. reflexivity.
Qed.

(** [ceph_finish_lookup] logs nothing but the initialisation of the
    dentry it was given, and hands back a request of the same opcode. *)
Lemma logs_finish_lookup_op ok e req dn err :
  ok (EvInitDentry dn) ->
  logs ok (ceph_finish_lookup e req dn err)
    (fun r => r_op (snd r) = r_op req).
Proof.
  intros Hi. unfold ceph_finish_lookup.
  eapply logs_bind.
  { instantiate (1 := fun p => r_op (fst p) = r_op req).
    destruct (err =? - ENOENT); [| apply logs_ret; reflexivity].
    eapply logs_bind; [| intros r Hr; apply logs_ret; exact Hr].
    destruct (trace_numd req =? 0); [| apply logs_ret; reflexivity].
    eapply logs_bind; [apply logs_emit, Hi | intros _ _].
    eapply logs_bind; [apply logs_get_dentry | intros d _].
    destruct (d_inode d).
    - eapply logs_bind; [apply logs_d_drop | intros _ _].
      eapply logs_bind; [apply logs_d_alloc | intros fresh _].
      eapply logs_bind; [apply logs_d_rehash | intros _ _].
      apply logs_ret. reflexivity.
    - eapply logs_bind; [apply logs_d_add | intros _ _].
      apply logs_ret. reflexivity. }
  intros [req' err'] Hr. simpl in Hr.
  destruct (negb (err' =? 0)); [apply logs_ret; exact Hr |].
  destruct (negb (bool_decide (r_last_dentry req' = Some dn))).
  - eapply logs_bind; [apply logs_dget | intros _ _].
    apply logs_ret. exact Hr.
  - apply logs_ret. exact Hr.
Qed.

Lemma logs_put_request_op ok req :
  ok (EvPutRequest (r_op req)) ->
  logs ok (ceph_mdsc_put_request req) (fun _ => True).
Proof.
  intros Hp. unfold ceph_mdsc_put_request.
  eapply logs_bind; [apply logs_emit, Hp | intros _ _]. logs_auto.
Qed.

(** X7.  What [ceph_do_lookup] adds to the trace, whether it returns or
    faults.  Every request it creates or sends is an [LSTAT] request that
    refers to the looked-up dentry, carries the mask as its only argument
    and names that dentry as the one to be filled from the reply; with
    [on_inode] it goes to the replica that issued the capability and
    carries no path, otherwise to any replica.  Apart from that it logs
    only error messages, the initialisation of the looked-up dentry and
    the put of an [LSTAT] request: no other request is created, sent or
    put, and no lease is released. *)
Theorem do_lookup_sends_lstat (e : env) (fuel : nat) (dn : nat) (mask : Z)
    (on_inode : bool) :
  logs (lookup_event dn mask on_inode)
    (ceph_do_lookup e fuel dn mask on_inode) (fun _ => True).
Proof.
  unfold ceph_do_lookup.
  eapply logs_bind; [apply logs_get_dentry | intros d _].
  destruct (d_name_len d >? NAME_MAX); [apply logs_ret; exact I |].
  eapply logs_bind.
  { instantiate (1 := fun r =>
       match r with
       | inr (inr req) =>
         r_op req = CEPH_MDS_OP_LSTAT /\ r_ref_dentry req = dn /\
         r_mode req = (if on_inode then USE_CAP_MDS else USE_ANY_MDS) /\
         r_old_dentry req = None /\ r_path2 req = None /\
         (on_inode = true -> r_path1 req = None)
       | _ => True
       end).
    destruct on_inode.
    - eapply logs_bind;
        [apply logs_deref; intros q; apply logs_get_inode | intros i _].
      eapply logs_bind;
        [apply logs_create_request_exact; repeat split | intros r Hr].
      apply logs_ret. destruct r as [err | req]; [exact I |].
      rewrite Hr. repeat split.
    - eapply logs_bind.
      { instantiate (1 := fun _ => True).
        unfold ceph_build_dentry_path.
        apply logs_build_path_retry. intros msg. exact I. }
      intros p _.
      destruct p as [err | path plen base]; [apply logs_ret; exact I |].
      eapply logs_bind;
        [apply logs_create_request_exact; repeat split | intros r Hr].
      apply logs_ret. destruct r as [err | req]; [exact I |].
      rewrite Hr. repeat split. discriminate. }
  intros [err | [err | req]] Hr; try (apply logs_ret; exact I).
  destruct Hr as (Hop & Href & Hmode & Hold & Hp2 & Hp1).
  eapply logs_bind; [apply logs_dget | intros _ _].
  eapply logs_bind.
  { apply logs_do_request_op. intros w. simpl. auto 10. }
  intros [err req'] Hop'. simpl in Hop'.
  eapply logs_bind.
  { apply logs_finish_lookup_op. reflexivity. }
  intros [res req''] Hop''. simpl in Hop''.
  eapply logs_bind.
  { apply logs_put_request_op. simpl. congruence. }
  intros _ _. apply logs_ret. exact I.
Qed.

(** ** Creating a regular file *)

Lemma testbit_u32 x n :
  0 <= n -> Z.testbit (Int.u32 x) n = (n <? 32) && Z.testbit x n.
Proof.
  intros Hn. unfold Int.u32.
  destruct (Z.ltb_spec n 32).
  - rewrite Z.mod_pow2_bits_low by lia. reflexivity.
  - rewrite Z.mod_pow2_bits_high by lia. reflexivity.
Qed.

Lemma testbit_S_IFMT n :
  0 <= n -> Z.testbit S_IFMT n = (12 <=? n) && (n <? 16).
Proof.
  intros Hn. change S_IFMT with (Z.shiftl (Z.ones 4) 12).
  rewrite Z.shiftl_spec by lia.
  destruct (Z.leb_spec 12 n).
  - rewrite Z.testbit_ones by lia.
    destruct (Z.leb_spec 0 (n - 12)), (Z.ltb_spec (n - 12) 4),
      (Z.ltb_spec n 16); simpl; try reflexivity; lia.
  - rewrite Z.testbit_neg_r by lia. reflexivity.
Qed.

Lemma testbit_S_IFREG n : 0 <= n -> Z.testbit S_IFREG n = (n =? 15).
Proof.
  intros Hn. change S_IFREG with (2 ^ 15).
  rewrite Z.pow2_bits_eqb by lia. apply Z.eqb_sym.
Qed.

(** [(mode & ~S_IFMT) | S_IFREG] as it goes on the wire. *)
Lemma regular_mode mode :
  Z.land (Int.u32 (Z.lor (Z.land mode (Z.lnot S_IFMT)) S_IFREG)) S_IFMT
  = S_IFREG /\
  Z.land (Int.u32 (Z.lor (Z.land mode (Z.lnot S_IFMT)) S_IFREG))
    (Z.lnot S_IFMT)
  = Z.land (Int.u32 mode) (Z.lnot S_IFMT).
Proof.
  split; apply Z.bits_inj'; intros n Hn;
    rewrite ?Z.land_spec, ?Z.lnot_spec, ?testbit_u32, ?Z.lor_spec,
      ?Z.land_spec, ?Z.lnot_spec, ?testbit_S_IFMT, ?testbit_S_IFREG by lia;
    destruct (Z.ltb_spec n 32), (Z.leb_spec 12 n), (Z.ltb_spec n 16),
      (Z.eqb_spec n 15), (Z.testbit mode n); simpl; try reflexivity; lia.
Qed.

Lemma quiet_ok_mknod_event mode rdev : quiet_ok (mknod_event mode rdev).
Proof. repeat split. Qed.

Lemma accepts_mknod_event_lstat mode rdev :
  accepts (mknod_event mode rdev) CEPH_MDS_OP_LSTAT.
Proof.
  split; [intros; exact I |]. intros r w H. simpl. rewrite H. discriminate.
Qed.

(** Every [MKNOD] request that [ceph_mknod] sends carries its [mode] and
    [rdev], cut to 32 bits. *)
Lemma logs_mknod_args e fuel dir dn mode rdev :
  logs (mknod_event mode rdev) (ceph_mknod e fuel dir dn mode rdev)
    (fun _ => True).
Proof.
  pose proof (quiet_ok_mknod_event mode rdev) as Hq.
  unfold ceph_mknod.
  eapply logs_bind; [apply logs_build_path, Hq | intros p _].
  destruct p as [err | path plen base]; [apply logs_ret; exact I |].
  eapply logs_bind; [apply logs_create_request_exact; exact I | intros r Hr].
  destruct r as [err | req]; [logs_auto |].
  eapply logs_bind; [apply logs_lease_release, Hq | intros _ _].
  eapply logs_bind.
  { apply logs_do_request_exact. intros w _. reflexivity. }
  intros [err req'] _.
  eapply logs_bind.
  { instantiate (1 := fun _ => True).
    destruct ((err =? 0) && (trace_numd req' =? 0));
      [| apply logs_ret; exact I].
    eapply logs_bind;
      [apply logs_do_lookup; [exact Hq | apply accepts_mknod_event_lstat]
      | intros d _].
    destruct d as [errno | [q |]]; logs_auto. }
  intros [err' dn'] _.
  eapply logs_bind; [apply logs_put_request, Hq | intros _ _].
  eapply logs_bind.
  { instantiate (1 := fun _ => True). destruct (negb (err' =? 0)); logs_auto. }
  intros _ _. apply logs_ret. exact I.
Qed.

(** X8.  Without a nameidata [ceph_create] falls back to [ceph_mknod],
    and every [MKNOD] request it sends asks for a regular file: the type
    bits of the mode on the wire are [S_IFREG] whatever type bits the
    caller passed, the other bits are the caller's, and the device number
    is 0.  With a nameidata that lacks [LOOKUP_OPEN] it hits its [BUG_ON]
    before doing anything. *)
Theorem create_asks_for_regular_file (e : env) (fuel : nat)
    (lo : lookup_open_t) (dir dn : nat) (mode : Z) :
  logs (regular_file_event mode) (ceph_create e fuel lo dir dn mode None)
    (fun _ => True) /\
  (forall n s,
     Z.land (nd_flags n) LOOKUP_OPEN = 0 ->
     ceph_create e fuel lo dir dn mode (Some n) s = Oops s).
Proof.
  split.
  - unfold ceph_create.
    eapply logs_weaken; [| intros a H; exact H | apply logs_mknod_args].
    intros [| | | | r w |] H; try exact I.
    simpl in *. intros Hop. specialize (H Hop).
    exists (Int.u32 (Z.lor (Z.land mode (Z.lnot S_IFMT)) S_IFREG)).
    split; [exact H | apply regular_mode].
  - intros n s H. unfold ceph_create, BUG_ON. rewrite H. reflexivity.
Qed.

(** [create] of [/hard] with the mode of a directory: what goes out is a
    regular file with the same permission bits. *)
Lemma create_asks_for_regular_file_witness :
  omap (fun ev => match ev with
                  | EvDispatch r _ => Some (r_op r, r_args r)
                  | _ => None
                  end)
    (trace_of (ceph_create quiet 8 no_lookup_open 0 4 (S_IFDIR + 493) None
                 (boot tree_ops)))
  = [(CEPH_MDS_OP_MKNOD, [S_IFREG + 493; 0])] /\
  ceph_create quiet 8 no_lookup_open 0 4 420
    (Some (mk_nameidata 0 0 420)) (boot tree_ops)
  = Oops (boot tree_ops).
Proof.
  split; [vm_compute; reflexivity |].
  apply (create_asks_for_regular_file quiet 8 no_lookup_open 0 4 420).
  reflexivity.
Defined.

(** ** A failed creation unhashes the name *)

Lemma d_drop_inv p s u s' :
  d_drop p s = Done u s' ->
  exists q, p = Some q /\ unhashed (cache s') q.
Proof.
  unfold d_drop. intros H. kinv H as d s1 E.
  destruct p as [q |]; [| discriminate].
  simpl in E. apply get_dentry_inv in E as [-> Hd].
  apply set_dentry_inv in H as (d' & Hd' & ->).
  exists q. split; [reflexivity |]. apply lookup_unhashed. exact Hd'.
Qed.

Lemma d_drop_some_inv q s u s' :
  d_drop (Some q) s = Done u s' -> unhashed (cache s') q.
Proof.
  intros H. apply d_drop_inv in H as (q' & E & Hu).
  injection E as <-. exact Hu.
Qed.

(** X9.  Once the path of the new name has been built, a creating
    operation that returns an error leaves the dentry of that name
    unhashed, whether the request could not be created or the server
    refused it: [ceph_mknod], [ceph_symlink] and [ceph_link] for every
    non-zero result, [ceph_mkdir] for every negative one. *)
Theorem failed_creation_unhashes_name (e : env) (fuel : nat) (dir dn : nat)
    (s s' : sys) (rc : Z) :
  (forall mode rdev path plen base s1,
     ceph_build_dentry_path e fuel (Some dn) s
     = Done (PathOk path plen base) s1 ->
     ceph_mknod e fuel dir dn mode rdev s = Done rc s' ->
     rc <> 0 -> unhashed (cache s') dn) /\
  (forall dest path plen base s1,
     ceph_build_dentry_path e fuel (Some dn) s
     = Done (PathOk path plen base) s1 ->
     ceph_symlink e fuel dir dn dest s = Done rc s' ->
     rc <> 0 -> unhashed (cache s') dn) /\
  (forall mode path plen base s1,
     ceph_build_dentry_path e fuel (Some dn) s
     = Done (PathOk path plen base) s1 ->
     ceph_mkdir e fuel dir dn mode s = Done rc s' ->
     rc < 0 -> unhashed (cache s') dn) /\
  (forall old_dentry oldpath oldplen oldbase s1 path plen base s2,
     ceph_build_dentry_path e fuel (Some old_dentry) s
     = Done (PathOk oldpath oldplen oldbase) s1 ->
     ceph_build_dentry_path e fuel (Some dn) s1
     = Done (PathOk path plen base) s2 ->
     ceph_link e fuel old_dentry dir dn s = Done rc s' ->
     rc <> 0 -> unhashed (cache s') dn).
Proof.
  split; [| split; [| split]].
  - intros mode rdev path plen base s1 H1 H Hrc.
    unfold ceph_mknod in H.
    rewrite (bind_done _ _ _ _ _ H1) in H. cbv beta iota in H.
    kinv H as r s2 E2. destruct r as [err | req].
    { kinv H as u s3 E3. apply ret_inv in H as [_ <-].
      apply (d_drop_some_inv _ _ _ _ E3). }
    kinv H as u s3 E3. kinv H as p s4 E4. destruct p as [err req'].
    kinv H as p s5 E5. destruct p as [err' dn'].
    kinv H as u' s6 E6. kinv H as u'' s7 E7.
    apply ret_inv in H as [<- <-].
    destruct (Z.eqb_spec err' 0) as [E | _]; [contradiction |].
    simpl in E7. apply d_drop_inv in E7 as (q & -> & Hu).
    assert (Hq : q = dn); [| rewrite <- Hq; exact Hu].
    destruct ((err =? 0) && (trace_numd req' =? 0)).
    + kinv E5 as d s8 E8. destruct d as [errno | [q' |]].
      * discriminate.
      * kinv E5 as u3 s9 E9. apply ret_inv in E5 as [E5 _]. discriminate.
      * apply ret_inv in E5 as [E5 _]. congruence.
    + apply ret_inv in E5 as [E5 _]. congruence.
  - intros dest path plen base s1 H1 H Hrc.
    unfold ceph_symlink in H.
    rewrite (bind_done _ _ _ _ _ H1) in H. cbv beta iota in H.
    kinv H as r s2 E2. destruct r as [err | req].
    { kinv H as u s3 E3. apply ret_inv in H as [_ <-].
      apply (d_drop_some_inv _ _ _ _ E3). }
    kinv H as u s3 E3. kinv H as p s4 E4. destruct p as [err req'].
    kinv H as u' s5 E5. kinv H as u'' s6 E6.
    apply ret_inv in H as [<- <-].
    destruct (Z.eqb_spec err 0) as [E | _]; [contradiction |].
    simpl in E6. apply (d_drop_some_inv _ _ _ _ E6).
  - intros mode path plen base s1 H1 H Hrc.
    unfold ceph_mkdir in H.
    rewrite (bind_done _ _ _ _ _ H1) in H. cbv beta iota in H.
    kinv H as r s2 E2. destruct r as [err | req].
    { kinv H as u s3 E3. apply ret_inv in H as [_ <-].
      apply (d_drop_some_inv _ _ _ _ E3). }
    kinv H as u s3 E3. kinv H as p s4 E4. destruct p as [err req'].
    kinv H as u' s5 E5. kinv H as u'' s6 E6.
    apply ret_inv in H as [<- <-].
    destruct (Z.ltb_spec err 0) as [_ | E]; [| lia].
    apply (d_drop_some_inv _ _ _ _ E6).
  - intros old_dentry oldpath oldplen oldbase s1 path plen base s2 H1 H2 H Hrc.
    unfold ceph_link in H.
    rewrite (bind_done _ _ _ _ _ H1) in H. cbv beta iota in H.
    rewrite (bind_done _ _ _ _ _ H2) in H. cbv beta iota in H.
    kinv H as r s3 E3. destruct r as [err | req].
    { kinv H as u s4 E4. apply ret_inv in H as [_ <-].
      apply (d_drop_some_inv _ _ _ _ E4). }
    kinv H as u s4 E4. kinv H as u0 s5 E5.
    kinv H as p s6 E6. destruct p as [err req'].
    kinv H as u' s7 E7. kinv H as u'' s8 E8.
    apply ret_inv in H as [<- <-].
    destruct (Z.eqb_spec err 0) as [E | _]; [contradiction |].
    simpl in E8. apply (d_drop_some_inv _ _ _ _ E8).
Qed.

(** In [tree_named] the dentry of [/new] is hashed.  A mknod whose
    request cannot be created, and a symlink, a mkdir and a link that the
    server refuses with [-EPERM], each return the error and leave that
    dentry unhashed. *)
Lemma failed_creation_unhashes_name_witness :
  option_map d_hashed (dentries tree_named !! 2%nat) = Some true /\
  (result_of (ceph_mknod env_no_request 8 0 2 (S_IFREG + 420) 0
                (boot tree_named)) = Some (- ENOMEM) /\
   unhashed
     (cache (default (boot tree_named)
               (final (ceph_mknod env_no_request 8 0 2 (S_IFREG + 420) 0
                         (boot tree_named))))) 2) /\
  (result_of (ceph_symlink mds_eperm 8 0 2 "target" (boot tree_named))
   = Some (- EPERM) /\
   unhashed
     (cache (default (boot tree_named)
               (final (ceph_symlink mds_eperm 8 0 2 "target"
                         (boot tree_named))))) 2) /\
  (result_of (ceph_mkdir mds_eperm 8 0 2 493 (boot tree_named))
   = Some (- EPERM) /\
   unhashed
     (cache (default (boot tree_named)
               (final (ceph_mkdir mds_eperm 8 0 2 493 (boot tree_named)))))
     2) /\
  (result_of (ceph_link mds_eperm 8 1 0 2 (boot tree_named))
   = Some (- EPERM) /\
   unhashed
     (cache (default (boot tree_named)
               (final (ceph_link mds_eperm 8 1 0 2 (boot tree_named))))) 2).
Proof.
  split; [reflexivity |].
  split; [| split; [| split]]; (split; [vm_compute; reflexivity |]).
  - lazymatch eval vm_compute in
      (ceph_mknod env_no_request 8 0 2 (S_IFREG + 420) 0 (boot tree_named))
    with
    | Done ?rc ?s' =>
      lazymatch eval vm_compute in
        (ceph_build_dentry_path env_no_request 8 (Some 2%nat)
           (boot tree_named)) with
      | Done (PathOk ?p ?l ?b) ?s1 =>
        change (unhashed (cache s') 2);
        apply (proj1 (failed_creation_unhashes_name env_no_request 8 0 2
                        (boot tree_named) s' rc)
                 (S_IFREG + 420) 0 p l b s1);
        [vm_compute; reflexivity | vm_compute; reflexivity | discriminate]
      end
    end.
  - lazymatch eval vm_compute in
      (ceph_symlink mds_eperm 8 0 2 "target" (boot tree_named)) with
    | Done ?rc ?s' =>
      lazymatch eval vm_compute in
        (ceph_build_dentry_path mds_eperm 8 (Some 2%nat) (boot tree_named))
      with
      | Done (PathOk ?p ?l ?b) ?s1 =>
        change (unhashed (cache s') 2);
        apply (proj1 (proj2 (failed_creation_unhashes_name mds_eperm 8 0 2
                               (boot tree_named) s' rc))
                 "target"%string p l b s1);
        [vm_compute; reflexivity | vm_compute; reflexivity | discriminate]
      end
    end.
  - lazymatch eval vm_compute in
      (ceph_mkdir mds_eperm 8 0 2 493 (boot tree_named)) with
    | Done ?rc ?s' =>
      lazymatch eval vm_compute in
        (ceph_build_dentry_path mds_eperm 8 (Some 2%nat) (boot tree_named))
      with
      | Done (PathOk ?p ?l ?b) ?s1 =>
        change (unhashed (cache s') 2);
        apply (proj1 (proj2 (proj2
                               (failed_creation_unhashes_name mds_eperm 8 0 2
                                  (boot tree_named) s' rc)))
                 493 p l b s1);
        [vm_compute; reflexivity | vm_compute; reflexivity
        | vm_compute; reflexivity]
      end
    end.
  - lazymatch eval vm_compute in
      (ceph_link mds_eperm 8 1 0 2 (boot tree_named)) with
    | Done ?rc ?s' =>
      lazymatch eval vm_compute in
        (ceph_build_dentry_path mds_eperm 8 (Some 1%nat) (boot tree_named))
      with
      | Done (PathOk ?op ?ol ?ob) ?s1 =>
        lazymatch eval vm_compute in
          (ceph_build_dentry_path mds_eperm 8 (Some 2%nat) s1) with
        | Done (PathOk ?p ?l ?b) ?s2 =>
          change (unhashed (cache s') 2);
          apply (proj2 (proj2 (proj2
                                 (failed_creation_unhashes_name mds_eperm 8 0
                                    2 (boot tree_named) s' rc)))
                   1%nat op ol ob s1 p l b s2);
          [vm_compute; reflexivity | vm_compute; reflexivity
          | vm_compute; reflexivity | discriminate]
        end
      end
    end.
Defined.

(** ** The recovery branch of [ceph_mknod] *)

Lemma create_request_inv e op ino1 path1 ino2 path2 ref mode s r s' :
  ceph_mdsc_create_request e op ino1 path1 ino2 path2 ref mode s = Done r s' ->
  cache s' = cache s /\
  match r with
  | inl err =>
    create_request_fails e (tick s) = Some err /\ trace s' = trace s
  | inr req =>
    req = mk_request op ino1 path1 ino2 path2 ref mode [] None None None 0 []
    /\ trace s' = trace s ++ [EvCreateRequest op ref mode]
  end.
Proof.
  unfold ceph_mdsc_create_request, bind, next_tick. simpl.
  destruct (create_request_fails e (tick s)) as [err |]; intros H.
  - apply ret_inv in H as [<- <-]. repeat split.
  - unfold emit, ret in H. injection H as <- <-. repeat split.
Qed.

Lemma do_request_inv e req s err req' s' :
  ceph_mdsc_do_request e req s = Done (err, req') s' ->
  let rp := mds e (tick s) req (cache s) in
  err = rp_err rp /\ req' = with_reply rp req /\
  cache s' = rp_fill rp (cache s) /\
  trace s' = trace s ++ [EvDispatch req (cache s)].
Proof.
  unfold ceph_mdsc_do_request, bind, next_tick, get_cache, emit, put_cache,
    ret. simpl.
  intros H. injection H as <- <- <-. repeat split.
Qed.

Lemma build_path_err e fuel d s err s' :
  ceph_build_dentry_path e fuel d s = Done (PathErr err) s' ->
  err = - EINVAL \/ err = - ENOMEM.
Proof.
  unfold ceph_build_dentry_path. destruct d as [dn |].
  - apply build_path_retry_err.
  - intros H. apply ret_inv in H as [H _]. injection H as <-.
    left. reflexivity.
Qed.

(** X10.  [ceph_mknod] never reports [-ESTALE] by itself: when neither
    request creation nor the server produce that error, no run returns
    it.  The branch that sets it, taken when the follow-up lookup hands
    back a dentry, clears [dentry] and then reaches [d_drop(dentry)], so a
    run through it faults instead of returning. *)
Theorem mknod_never_returns_estale (e : env) (fuel : nat) (dir dn : nat)
    (mode rdev : Z) (s s' : sys) (rc : Z) :
  (forall n r w, rp_err (mds e n r w) <> - ESTALE) ->
  (forall n, create_request_fails e n <> Some (- ESTALE)) ->
  ceph_mknod e fuel dir dn mode rdev s = Done rc s' ->
  rc <> - ESTALE.
Proof.
  intros Hmds Hcr H. unfold ceph_mknod in H.
  kinv H as p s1 E1. destruct p as [err | path plen base].
  { apply ret_inv in H as [<- _].
    apply build_path_err in E1 as [-> | ->]; discriminate. }
  kinv H as r s2 E2. destruct r as [err | req].
  { kinv H as u s3 E3. apply ret_inv in H as [<- _].
    apply create_request_inv in E2 as (_ & Hf & _).
    intros ->. apply (Hcr _ Hf). }
  kinv H as u s3 E3. kinv H as p s4 E4. destruct p as [err req'].
  apply do_request_inv in E4 as (Herr & _).
  kinv H as p s5 E5. destruct p as [err' dn'].
  kinv H as u' s6 E6. kinv H as u'' s7 E7.
  apply ret_inv in H as [<- _].
  destruct ((err =? 0) && (trace_numd req' =? 0)).
  - kinv E5 as d s8 E8. destruct d as [errno | [q |]].
    + discriminate.
    + kinv E5 as u3 s9 E9. apply ret_inv in E5 as [E5 _].
      injection E5 as <- <-. simpl in E7. discriminate.
    + apply ret_inv in E5 as [E5 _]. injection E5 as <- _.
      rewrite Herr. apply Hmds.
  - apply ret_inv in E5 as [E5 _]. injection E5 as <- _.
    rewrite Herr. apply Hmds.
Qed.

(** [mknod] of [/hard]: with a server that sends no trace the follow-up
    lookup finds nothing new and the call returns 0; when the lookup comes
    back with another dentry the call faults. *)
Lemma mknod_never_returns_estale_witness :
  result_of (ceph_mknod mds_no_trace 8 0 4 (S_IFREG + 420) 0 (boot tree_ops))
  = Some 0 /\
  0 <> - ESTALE /\
  faulted (ceph_mknod mds_splices 8 0 4 (S_IFREG + 420) 0 (boot tree_ops))
  = true.
Proof.
  split; [vm_compute; reflexivity |].
  split; [| vm_compute; reflexivity].
  lazymatch eval vm_compute in
    (ceph_mknod mds_no_trace 8 0 4 (S_IFREG + 420) 0 (boot tree_ops)) with
  | Done ?rc ?s' =>
    apply (mknod_never_returns_estale mds_no_trace 8 0 4 (S_IFREG + 420) 0
             (boot tree_ops) s' rc);
    [intros; discriminate | intros; discriminate | vm_compute; reflexivity]
  end.
Defined.

(** ** The link count after [ceph_unlink] *)

Lemma keeps_done {A} (inv : sys -> Prop) (m : K A) s a s' :
  keeps inv m -> inv s -> m s = Done a s' -> inv s'.
Proof. intros Hk Hs E. specialize (Hk s Hs). rewrite E in Hk. exact Hk. Qed.

Lemma keeps_set_dentry (P : world -> Prop) p f :
  (forall w d, dentries w !! p = Some d -> P w ->
     P (mk_world (<[p := f d]> (dentries w)) (inodes w))) ->
  keeps (fun s => P (cache s)) (set_dentry p f).
Proof.
  intros Hf s Hs. unfold set_dentry, get_dentry, bind, get_cache, put_cache.
  destruct (dentries (cache s) !! p) as [d |] eqn:Hd; simpl; [| exact Hs].
  apply Hf; assumption.
Qed.

Lemma keeps_set_inode (P : world -> Prop) p f :
  (forall w i, inodes w !! p = Some i -> P w ->
     P (mk_world (dentries w) (<[p := f i]> (inodes w)))) ->
  keeps (fun s => P (cache s)) (set_inode p f).
Proof.
  intros Hf s Hs. unfold set_inode, get_inode, bind, get_cache, put_cache.
  destruct (inodes (cache s) !! p) as [i |] eqn:Hi; simpl; [| exact Hs].
  apply Hf; assumption.
Qed.

(** Rewriting a dentry without touching its inode pointer, or an inode
    without touching its link count, keeps [links_to]. *)
Lemma links_to_dentry i dn n w p d f :
  (forall x, d_inode (f x) = d_inode x) ->
  dentries w !! p = Some d -> links_to i dn n w ->
  links_to i dn n (mk_world (<[p := f d]> (dentries w)) (inodes w)).
Proof.
  intros Hf Hd [Hn (d0 & Hd0 & Hi0)]. split; [exact Hn |]. simpl.
  destruct (decide (dn = p)) as [-> | Hne].
  - exists (f d). rewrite list_lookup_insert_eq
      by (apply lookup_lt_is_Some; rewrite Hd; eauto).
    split; [reflexivity |]. rewrite Hf. congruence.
  - exists d0. rewrite list_lookup_insert_ne by congruence.
    split; assumption.
Qed.

Lemma links_to_inode i dn n w p x f :
  (forall y, i_nlink (f y) = i_nlink y) ->
  inodes w !! p = Some x -> links_to i dn n w ->
  links_to i dn n (mk_world (dentries w) (<[p := f x]> (inodes w))).
Proof.
  intros Hf Hx [Hn Hd]. split; [| exact Hd].
  unfold nlink_of in *. simpl.
  destruct (decide (i = p)) as [-> | Hne].
  - rewrite list_lookup_insert_eq
      by (apply lookup_lt_is_Some; rewrite Hx; eauto).
    rewrite Hx in Hn. simpl in *. rewrite Hf. exact Hn.
  - rewrite list_lookup_insert_ne by congruence. exact Hn.
Qed.

Lemma keeps_links_dput i dn n p :
  keeps (fun s => links_to i dn n (cache s)) (dput p).
Proof.
  unfold dput. destruct p as [q |]; [| apply keeps_ret].
  apply keeps_bind; [apply keeps_get_dentry | intros d].
  apply keeps_set_dentry. intros w d0 Hd0.
  apply links_to_dentry; [reflexivity | exact Hd0].
Qed.

Lemma keeps_links_put_request i dn n req :
  keeps (fun s => links_to i dn n (cache s)) (ceph_mdsc_put_request req).
Proof.
  unfold ceph_mdsc_put_request.
  apply keeps_bind; [apply keeps_emit | intros _].
  apply keeps_bind; [apply keeps_links_dput | intros _].
  apply keeps_links_dput.
Qed.

Lemma keeps_links_lease_release i dn n ino d mask :
  keeps (fun s => links_to i dn n (cache s))
    (ceph_mdsc_lease_release ino d mask).
Proof.
  unfold ceph_mdsc_lease_release.
  apply keeps_bind; [apply keeps_emit | intros _].
  apply keeps_bind;
    [apply keeps_deref; intros q; apply keeps_get_inode | intros x].
  apply keeps_bind.
  { destruct ino as [q |]; [| apply keeps_oops].
    apply keeps_set_inode. intros w x0 Hx0.
    apply links_to_inode; [reflexivity | exact Hx0]. }
  intros _. destruct d as [q |]; [| apply keeps_ret].
  destruct (Z.land mask CEPH_LOCK_DN =? 0); [apply keeps_ret |].
  apply keeps_set_dentry. intros w d0 Hd0.
  apply links_to_dentry; [reflexivity | exact Hd0].
Qed.

Lemma keeps_links_build_path e i dn n fuel d :
  (forall k w, race e k w = w) ->
  keeps (fun s => links_to i dn n (cache s)) (ceph_build_dentry_path e fuel d).
Proof.
  intros Hr. apply keeps_build_path.
  - intros w p d0 Hd0. apply links_to_dentry; [reflexivity | exact Hd0].
  - intros k w Hw. rewrite Hr. exact Hw.
Qed.

Lemma drop_nlink_links i dn n s u s' :
  links_to i dn n (cache s) ->
  drop_nlink i s = Done u s' ->
  links_to i dn (Int.u32 (n - 1)) (cache s').
Proof.
  intros [Hn Hd] H. unfold drop_nlink in H.
  kinv H as x s1 E. apply get_inode_inv in E as [-> Hx].
  apply set_inode_inv in H as (x' & Hx' & ->).
  rewrite Hx in Hx'. injection Hx' as <-.
  split; [| exact Hd]. unfold nlink_of in *. simpl.
  rewrite list_lookup_insert_eq
    by (apply lookup_lt_is_Some; rewrite Hx; eauto).
  rewrite Hx in Hn. simpl in *. injection Hn as <-. reflexivity.
Qed.

(** X11.  When no other task changes the tree and the server's replies
    carry no trace and leave the cache alone, a run of [ceph_unlink] that
    got its request created returns the server's result and, unless that
    result is [-ENOENT], has lowered the link count of the inode by
    exactly one, also when the server refused the removal with another
    error.  The count is an [unsigned int]: from 0 it wraps around to
    [2^32 - 1]. *)
Theorem unlink_lowers_link_count (e : env) (fuel : nat) (dir dn : nat)
    (s s1 s' : sys) (d : dentry) (i : nat) (ino : inode) (path : buffer)
    (plen base rc : Z) :
  (forall n w, race e n w = w) ->
  mds_silent e ->
  dentries (cache s) !! dn = Some d ->
  d_inode d = Some i ->
  inodes (cache s) !! i = Some ino ->
  ceph_build_dentry_path e fuel (Some dn) s = Done (PathOk path plen base) s1 ->
  create_request_fails e (tick s1) = None ->
  ceph_unlink e fuel dir dn s = Done rc s' ->
  nlink_of (cache s') i
  = Some (if rc =? - ENOENT then i_nlink ino
          else Int.u32 (i_nlink ino - 1)).
Proof.
  intros Hr Hmds Hd Hi Hino H1 Hcr H.
  assert (L0 : links_to i dn (i_nlink ino) (cache s)).
  { split; [unfold nlink_of; rewrite Hino; reflexivity | eauto]. }
  pose proof (keeps_done _ _ _ _ _
                (keeps_links_build_path e i dn (i_nlink ino) fuel (Some dn) Hr)
                L0 H1) as L1.
  unfold ceph_unlink in H.
  rewrite (bind_done _ _ _ _ _ (get_dentry_eq _ _ _ Hd)) in H.
  cbv beta zeta in H. rewrite Hi in H. simpl deref in H.
  rewrite (bind_done _ _ _ _ _ (get_inode_eq _ _ _ Hino)) in H.
  cbv beta zeta in H.
  rewrite (bind_done _ _ _ _ _ H1) in H. cbv beta iota in H.
  kinv H as r s2 E2.
  pose proof (create_request_inv _ _ _ _ _ _ _ _ _ _ _ E2) as [Hc2 Hr2].
  destruct r as [err | req].
  { destruct Hr2 as [Hf _]. congruence. }
  assert (L2 : links_to i dn (i_nlink ino) (cache s2))
    by (rewrite Hc2; exact L1).
  kinv H as u3 s3 E3.
  pose proof (keeps_done _ _ _ _ _
                (keeps_links_lease_release i dn (i_nlink ino) _ _ _) L2 E3)
    as L3.
  kinv H as u4 s4 E4.
  pose proof (keeps_done _ _ _ _ _
                (keeps_links_lease_release i dn (i_nlink ino) _ _ _) L3 E4)
    as L4.
  kinv H as p s5 E5. destruct p as [err req'].
  apply do_request_inv in E5 as (Herr & Hreq & Hc5 & _).
  destruct (Hmds (tick s4) req (cache s4)) as [Hnt Hfill].
  rewrite Hfill in Hc5.
  assert (L5 : links_to i dn (i_nlink ino) (cache s5))
    by (rewrite Hc5; exact L4).
  kinv H as u6 s6 E6.
  pose proof (keeps_done _ _ _ _ _
                (keeps_links_put_request i dn (i_nlink ino) _) L5 E6) as L6.
  kinv H as u7 s7 E7.
  apply ret_inv in H as [<- <-].
  destruct (err =? - ENOENT).
  { apply ret_inv in E7 as [_ <-]. apply L6. }
  assert (Hz : trace_numd req' = 0) by (rewrite Hreq; exact Hnt).
  rewrite Hz in E7. change (0 =? 0) with true in E7. cbv iota in E7.
  kinv E7 as d6 s8 E8. apply get_dentry_inv in E8 as [-> Hd6].
  destruct L6 as [Hn6 (d6' & Hd6' & Hi6)].
  rewrite Hd6 in Hd6'. injection Hd6' as <-.
  rewrite Hi6 in E7. simpl deref in E7.
  kinv E7 as u9 s9 E9.
  pose proof (drop_nlink_links i dn (i_nlink ino) s6 u9 s9
                (conj Hn6 (ex_intro _ d6 (conj Hd6 Hi6))) E9) as L9.
  pose proof (keeps_done _ _ _ _ _
                (keeps_links_dput i dn (Int.u32 (i_nlink ino - 1)) (Some dn))
                L9 E7)
    as L10.
  apply L10.
Qed.

(** Removing [/file], which the server refuses with [-EPERM]: the link
    count of its inode goes from 1 to 0; refused once more, it goes from
    0 to [2^32 - 1]. *)
Lemma unlink_lowers_link_count_witness :
  result_of (ceph_unlink mds_eperm 8 0 3 (boot tree_ops)) = Some (- EPERM) /\
  nlink_of (cache (boot tree_ops)) 3 = Some 1 /\
  option_map (fun s1 => nlink_of (cache (default s1
                          (final (ceph_unlink mds_eperm 8 0 3 s1)))) 3)
    (final (ceph_unlink mds_eperm 8 0 3 (boot tree_ops)))
  = Some (Some (2 ^ 32 - 1)) /\
  nlink_of
    (cache (default (boot tree_ops)
              (final (ceph_unlink mds_eperm 8 0 3 (boot tree_ops))))) 3
  = Some 0.
Proof.
  split; [vm_compute; reflexivity |].
  split; [vm_compute; reflexivity |].
  split; [vm_compute; reflexivity |].
  lazymatch eval vm_compute in
    (ceph_unlink mds_eperm 8 0 3 (boot tree_ops)) with
  | Done ?rc ?s' =>
    lazymatch eval vm_compute in
      (ceph_build_dentry_path mds_eperm 8 (Some 3%nat) (boot tree_ops)) with
    | Done (PathOk ?p ?l ?b) ?s1 =>
      change (nlink_of (cache s') 3
              = Some (if rc =? - ENOENT
                      then i_nlink (mk_inode 30 30 (S_IFREG + 420) 1 1 0 0 [])
                      else Int.u32
                             (i_nlink
                                (mk_inode 30 30 (S_IFREG + 420) 1 1 0 0 [])
                              - 1)));
      apply (unlink_lowers_link_count mds_eperm 8 0 3 (boot tree_ops) s1 s'
               (mk_dentry "file" (Some 0%nat) (Some 3%nat) 7 false true 1)
               3 (mk_inode 30 30 (S_IFREG + 420) 1 1 0 0 []) p l b rc);
      [ intros; reflexivity | intros n r w; split; reflexivity
      | reflexivity | reflexivity | reflexivity
      | vm_compute; reflexivity | reflexivity | vm_compute; reflexivity ]
    end
  end.
Defined.

(** ** Every request created is put *)

Lemma held_app tr evs : held (tr ++ evs) = held tr + held evs.
Proof.
  induction tr as [| ev tr IH]; [reflexivity |].
  destruct ev; simpl; rewrite IH; lia.
Qed.

Lemma held_neutral evs : Forall neutral evs -> held evs = 0.
Proof.
  induction 1 as [| ev evs Hev _ IH]; [reflexivity |].
  destruct ev; simpl in *; try contradiction; exact IH.
Qed.

Lemma triple_neutral {A} h (m : K A) (post : A -> Prop) :
  logs neutral m post ->
  triple (holds h) m (fun _ => holds h) (fun _ => True).
Proof.
  intros H s Hs. specialize (H s). unfold holds in *.
  destruct (m s) as [a s' | s' |]; [| exact I | exact I].
  destruct H as (_ & evs & Ht & Hf).
  rewrite Ht, held_app, (held_neutral _ Hf). lia.
Qed.

Lemma triple_create h e op ino1 path1 ino2 path2 ref mode :
  triple (holds h)
    (ceph_mdsc_create_request e op ino1 path1 ino2 path2 ref mode)
    (fun r => match r with
              | inl _ => holds h
              | inr _ => holds (h + 1)
              end)
    (fun _ => True).
Proof.
  intros s Hs.
  destruct (ceph_mdsc_create_request e op ino1 path1 ino2 path2 ref mode s)
    as [r s' | s' |] eqn:E; [| exact I | exact I].
  apply create_request_inv in E as (_ & Hr). unfold holds in *.
  destruct r as [err | req].
  - destruct Hr as [_ ->]. exact Hs.
  - destruct Hr as [_ ->]. rewrite held_app. simpl. lia.
Qed.

Lemma logs_neutral_dput p : logs neutral (dput p) (fun _ => True).
Proof. apply logs_dput. Qed.

Lemma triple_put h req :
  triple (holds (h + 1)) (ceph_mdsc_put_request req) (fun _ => holds h)
    (fun _ => True).
Proof.
  unfold ceph_mdsc_put_request.
  eapply triple_bind.
  { instantiate (1 := fun _ => holds h). intros s Hs.
    unfold emit, holds in *. simpl. rewrite held_app. simpl. lia. }
  intros ?. eapply triple_neutral. instantiate (1 := fun _ => True).
  logs_auto.
Qed.

Lemma logs_lease_release_only ok ino dn mask :
  (forall i d m, ok (EvLeaseRelease i d m)) ->
  logs ok (ceph_mdsc_lease_release ino dn mask) (fun _ => True).
Proof.
  intros Hl. unfold ceph_mdsc_lease_release.
  eapply logs_bind; [apply logs_emit, Hl | intros _ _].
  eapply logs_bind;
    [apply logs_deref; intros q; apply logs_get_inode | intros i _].
  eapply logs_bind.
  { instantiate (1 := fun _ => True). destruct ino; logs_auto. }
  intros _ _. destruct dn; [| logs_auto].
  destruct (Z.land mask CEPH_LOCK_DN =? 0); logs_auto.
Qed.

Lemma logs_finish_lookup_only ok e req dn err :
  (forall d, ok (EvInitDentry d)) ->
  logs ok (ceph_finish_lookup e req dn err) (fun _ => True).
Proof.
  intros Hi. unfold ceph_finish_lookup.
  eapply logs_bind.
  { instantiate (1 := fun _ => True).
    destruct (err =? - ENOENT); [| apply logs_ret; exact I].
    eapply logs_bind; [| intros ? _; apply logs_ret; exact I].
    instantiate (1 := fun _ => True).
    destruct (trace_numd req =? 0); [| apply logs_ret; exact I].
    eapply logs_bind; [apply logs_emit, Hi | intros _ _].
    eapply logs_bind; [apply logs_get_dentry | intros d _].
    destruct (d_inode d); logs_auto. }
  intros [req' err'] _.
  destruct (negb (err' =? 0)); [apply logs_ret; exact I |].
  destruct (negb (bool_decide (r_last_dentry req' = Some dn))); logs_auto.
Qed.

Lemma logs_neutral_build_path e fuel d :
  logs neutral (ceph_build_dentry_path e fuel d) (fun _ => True).
Proof.
  unfold ceph_build_dentry_path.
  destruct d; [| apply logs_ret; exact I].
  apply logs_build_path_retry. intros msg. exact I.
Qed.

Lemma logs_neutral_do_request e req :
  logs neutral (ceph_mdsc_do_request e req) (fun _ => True).
Proof. apply logs_do_request_exact. intros w. exact I. Qed.

Lemma logs_neutral_lease_release ino dn mask :
  logs neutral (ceph_mdsc_lease_release ino dn mask) (fun _ => True).
Proof. apply logs_lease_release_only. intros i d m. exact I. Qed.

Lemma logs_neutral_finish_lookup e req dn err :
  logs neutral (ceph_finish_lookup e req dn err) (fun _ => True).
Proof. apply logs_finish_lookup_only. intros d. exact I. Qed.

Ltac neutral_step lem :=
  eapply triple_bind; [eapply triple_neutral; lem | intros ?].

Ltac neutral_rest :=
  eapply triple_neutral; instantiate (1 := fun _ => True); logs_auto.

Ltac neutral_if :=
  eapply triple_neutral; instantiate (1 := fun _ => True);
  eapply logs_bind;
  [ instantiate (1 := fun _ => True);
    match goal with
    | |- logs _ (if ?c then _ else _) _ => destruct c
    end; logs_auto
  | intros ? _; apply logs_ret; exact I ].

Lemma held_do_lookup h e fuel dn mask on_inode :
  triple (holds h) (ceph_do_lookup e fuel dn mask on_inode)
    (fun _ => holds h) (fun _ => True).
Proof.
  unfold ceph_do_lookup.
  eapply triple_bind;
    [eapply triple_neutral; apply logs_get_dentry | intros d].
  destruct (d_name_len d >? NAME_MAX); [apply triple_ret; auto |].
  eapply triple_bind.
  { instantiate (1 := fun r => match r with
                               | inr (inr _) => holds (h + 1)
                               | _ => holds h
                               end).
    destruct on_inode.
    - neutral_step ltac:(apply logs_deref; intros q; apply logs_get_inode).
      eapply triple_bind; [apply triple_create | intros r].
      apply triple_ret. intros s Hs. destruct r; exact Hs.
    - eapply triple_bind;
        [eapply triple_neutral; apply logs_neutral_build_path | intros p].
      destruct p as [err | path plen base]; [apply triple_ret; auto |].
      eapply triple_bind; [apply triple_create | intros r].
      apply triple_ret. intros s Hs. destruct r; exact Hs. }
  intros [err | [err | req]]; try (apply triple_ret; auto).
  neutral_step ltac:(apply logs_dget).
  eapply triple_bind;
    [eapply triple_neutral; apply logs_neutral_do_request
    | intros [err req']].
  eapply triple_bind;
    [eapply triple_neutral; apply logs_neutral_finish_lookup
    | intros [res req'']].
  eapply triple_bind; [apply triple_put | intros ?].
  apply triple_ret. auto.
Qed.

Lemma held_mknod h e fuel dir dn mode rdev :
  triple (holds h) (ceph_mknod e fuel dir dn mode rdev)
    (fun _ => holds h) (fun _ => True).
Proof.
  unfold ceph_mknod.
  eapply triple_bind;
    [eapply triple_neutral; apply logs_neutral_build_path | intros p].
  destruct p as [err | path plen base]; [apply triple_ret; auto |].
  eapply triple_bind; [apply triple_create | intros r].
  destruct r as [err | req]; [neutral_rest |].
  neutral_step ltac:(apply logs_neutral_lease_release).
  eapply triple_bind;
    [eapply triple_neutral; apply logs_neutral_do_request
    | intros [err req']].
  eapply triple_bind.
  { instantiate (1 := fun _ => holds (h + 1)).
    destruct ((err =? 0) && (trace_numd req' =? 0));
      [| apply triple_ret; auto].
    eapply triple_bind; [apply held_do_lookup | intros d].
    destruct d as [errno | [q |]]; neutral_rest. }
  intros [err' dn'].
  eapply triple_bind; [apply triple_put | intros ?].
  neutral_if.
Qed.

Lemma held_symlink h e fuel dir dn dest :
  triple (holds h) (ceph_symlink e fuel dir dn dest)
    (fun _ => holds h) (fun _ => True).
Proof.
  unfold ceph_symlink.
  eapply triple_bind;
    [eapply triple_neutral; apply logs_neutral_build_path | intros p].
  destruct p as [err | path plen base]; [apply triple_ret; auto |].
  eapply triple_bind; [apply triple_create | intros r].
  destruct r as [err | req]; [neutral_rest |].
  neutral_step ltac:(apply logs_neutral_lease_release).
  eapply triple_bind;
    [eapply triple_neutral; apply logs_neutral_do_request
    | intros [err req']].
  eapply triple_bind; [apply triple_put | intros ?].
  neutral_if.
Qed.

Lemma held_mkdir h e fuel dir dn mode :
  triple (holds h) (ceph_mkdir e fuel dir dn mode)
    (fun _ => holds h) (fun _ => True).
Proof.
  unfold ceph_mkdir.
  eapply triple_bind;
    [eapply triple_neutral; apply logs_neutral_build_path | intros p].
  destruct p as [err | path plen base]; [apply triple_ret; auto |].
  eapply triple_bind; [apply triple_create | intros r].
  destruct r as [err | req]; [neutral_rest |].
  neutral_step ltac:(apply logs_neutral_lease_release).
  eapply triple_bind;
    [eapply triple_neutral; apply logs_neutral_do_request
    | intros [err req']].
  eapply triple_bind; [apply triple_put | intros ?].
  neutral_if.
Qed.

Lemma held_link h e fuel old_dentry dir dn :
  triple (holds h) (ceph_link e fuel old_dentry dir dn)
    (fun _ => holds h) (fun _ => True).
Proof.
  unfold ceph_link.
  eapply triple_bind;
    [eapply triple_neutral; apply logs_neutral_build_path | intros p].
  destruct p as [err | oldpath oldplen oldbase]; [apply triple_ret; auto |].
  eapply triple_bind;
    [eapply triple_neutral; apply logs_neutral_build_path | intros p].
  destruct p as [err | path plen base]; [apply triple_ret; auto |].
  eapply triple_bind; [apply triple_create | intros r].
  destruct r as [err | req]; [neutral_rest |].
  neutral_step ltac:(apply logs_dget).
  neutral_step ltac:(apply logs_neutral_lease_release).
  eapply triple_bind;
    [eapply triple_neutral; apply logs_neutral_do_request
    | intros [err req']].
  eapply triple_bind; [apply triple_put | intros ?].
  eapply triple_neutral. instantiate (1 := fun _ => True).
  eapply logs_bind; [| intros _ _; apply logs_ret; exact I].
  instantiate (1 := fun _ => True).
  destruct (negb (err =? 0)); [logs_auto |].
  destruct (trace_numd req' =? 0); [| logs_auto].
  eapply logs_bind; [apply logs_get_dentry | intros od _].
  eapply logs_bind;
    [apply logs_deref; intros q; apply logs_inc_nlink | intros _ _].
  eapply logs_bind;
    [apply logs_deref; intros q; apply logs_atomic_inc | intros _ _].
  logs_auto.
Qed.

Lemma held_unlink h e fuel dir dn :
  triple (holds h) (ceph_unlink e fuel dir dn)
    (fun _ => holds h) (fun _ => True).
Proof.
  unfold ceph_unlink.
  neutral_step ltac:(apply logs_get_dentry).
  neutral_step ltac:(apply logs_deref; intros q; apply logs_get_inode).
  eapply triple_bind;
    [eapply triple_neutral; apply logs_neutral_build_path | intros p].
  destruct p as [err | path plen base]; [apply triple_ret; auto |].
  eapply triple_bind; [apply triple_create | intros r].
  destruct r as [err | req]; [apply triple_ret; auto |].
  neutral_step ltac:(apply logs_neutral_lease_release).
  neutral_step ltac:(apply logs_neutral_lease_release).
  eapply triple_bind;
    [eapply triple_neutral; apply logs_neutral_do_request
    | intros [err req']].
  eapply triple_bind; [apply triple_put | intros ?].
  eapply triple_neutral. instantiate (1 := fun _ => True).
  eapply logs_bind; [| intros _ _; apply logs_ret; exact I].
  instantiate (1 := fun _ => True).
  destruct (err =? - ENOENT); [logs_auto |].
  destruct (trace_numd req' =? 0); [| logs_auto].
  eapply logs_bind; [apply logs_get_dentry | intros d' _].
  eapply logs_bind;
    [apply logs_deref; intros q; apply logs_drop_nlink | intros _ _].
  logs_auto.
Qed.

Lemma held_rename h e fuel old_dir old_dentry new_dir new_dentry :
  triple (holds h) (ceph_rename e fuel old_dir old_dentry new_dir new_dentry)
    (fun _ => holds h) (fun _ => True).
Proof.
  unfold ceph_rename.
  eapply triple_bind;
    [eapply triple_neutral; apply logs_neutral_build_path | intros p].
  destruct p as [err | oldpath oldplen oldbase]; [apply triple_ret; auto |].
  eapply triple_bind;
    [eapply triple_neutral; apply logs_neutral_build_path | intros p].
  destruct p as [err | path plen base]; [apply triple_ret; auto |].
  eapply triple_bind; [apply triple_create | intros r].
  destruct r as [err | req]; [apply triple_ret; auto |].
  neutral_step ltac:(apply logs_dget).
  neutral_step ltac:(apply logs_dget).
  neutral_step ltac:(apply logs_neutral_lease_release).
  eapply triple_bind;
    [eapply triple_neutral; apply logs_get_dentry | intros nd0].
  eapply triple_bind.
  { eapply triple_neutral. instantiate (1 := fun _ => True).
    destruct (d_inode nd0); [apply logs_neutral_lease_release | logs_auto]. }
  intros ?.
  eapply triple_bind;
    [eapply triple_neutral; apply logs_neutral_do_request
    | intros [err req']].
  eapply triple_bind.
  { eapply triple_neutral. instantiate (1 := fun _ => True).
    destruct ((err =? 0) && (trace_numd req' =? 0)); [| logs_auto].
    eapply logs_bind; [apply logs_get_dentry | intros nd _].
    eapply logs_bind.
    { instantiate (1 := fun _ => True). destruct (d_inode nd); logs_auto. }
    intros _ _. logs_auto. }
  intros ?.
  eapply triple_bind; [apply triple_put | intros ?].
  apply triple_ret. auto.
Qed.

Lemma triple_balanced {A} (m : K A) s :
  (forall h, triple (holds h) m (fun _ => holds h) (fun _ => True)) ->
  balanced m s.
Proof.
  intros H. specialize (H (held (trace s)) s eq_refl). unfold balanced.
  destruct (m s); [exact H | exact I | exact I].
Qed.

(** X12.  A run of [ceph_do_lookup] or of one of the six mutating
    operations that returns has put every request it created: over the
    trace of the run, creations and puts of requests are equal in number,
    on the paths through errors as on the others. *)
Theorem returning_runs_put_their_requests (e : env) (fuel : nat) (s : sys) :
  (forall dn mask on_inode,
     balanced (ceph_do_lookup e fuel dn mask on_inode) s) /\
  (forall dir dn mode rdev, balanced (ceph_mknod e fuel dir dn mode rdev) s) /\
  (forall dir dn dest, balanced (ceph_symlink e fuel dir dn dest) s) /\
  (forall dir dn mode, balanced (ceph_mkdir e fuel dir dn mode) s) /\
  (forall old_dentry dir dn,
     balanced (ceph_link e fuel old_dentry dir dn) s) /\
  (forall dir dn, balanced (ceph_unlink e fuel dir dn) s) /\
  (forall old_dir old_dentry new_dir new_dentry,
     balanced (ceph_rename e fuel old_dir old_dentry new_dir new_dentry) s).
Proof.
  repeat split; intros; apply triple_balanced; intros h.
  - apply held_do_lookup.
  - apply held_mknod.
  - apply held_symlink.
  - apply held_mkdir.
  - apply held_link.
  - apply held_unlink.
  - apply held_rename.
Qed.

(** ** What a listing sends *)

Lemma logs_put_request_only ok req :
  (forall op, ok (EvPutRequest op)) ->
  logs ok (ceph_mdsc_put_request req) (fun _ => True).
Proof.
  intros Hp. unfold ceph_mdsc_put_request.
  eapply logs_bind; [apply logs_emit, Hp | intros _ _]. logs_auto.
Qed.

Lemma logs_readdir_fetch e inode filp frag :
  logs (readdir_event (f_dentry filp)) (readdir_fetch e inode filp frag)
    (fun r => match r with
              | inr (_, filp') => f_dentry filp' = f_dentry filp
              | inl _ => True
              end).
Proof.
  unfold readdir_fetch.
  destruct (negb (fi_frag filp =? frag)
            || negb (bool_decide (is_Some (fi_last_readdir filp))));
    [| apply logs_ret; reflexivity].
  eapply logs_bind; [apply logs_get_inode | intros i _].
  eapply logs_bind;
    [apply logs_create_request_exact; repeat split | intros r Hr].
  destruct r as [err | req]; [apply logs_ret; exact I |].
  eapply logs_bind.
  { apply logs_do_request_exact. intros w. rewrite Hr. simpl.
    repeat split. eexists. split; reflexivity. }
  intros [err req'] _.
  destruct (err <? 0).
  - eapply logs_bind;
      [apply logs_put_request_only; intros op; exact I | intros _ _].
    apply logs_ret. exact I.
  - eapply logs_bind.
    { instantiate (1 := fun _ => True).
      destruct (fi_last_readdir filp);
        [apply logs_put_request_only; intros op; exact I
        | apply logs_ret; exact I]. }
    intros _ _. apply logs_ret. reflexivity.
Qed.

Lemma logs_readdir_dots {D} ok (filldir : filldir_t D) inode filp off dirent :
  logs ok (readdir_dots filldir inode filp off dirent)
    (fun r => match r with
              | inl (filp', _) | inr (_, filp', _) =>
                f_dentry filp' = f_dentry filp /\
                fi_last_readdir filp' = fi_last_readdir filp
              end).
Proof.
  unfold readdir_dots.
  eapply logs_bind; [apply logs_get_inode | intros i _].
  eapply logs_bind.
  { instantiate (1 := fun r =>
       match r with
       | inl (filp', _) | inr (_, filp', _) =>
         f_dentry filp' = f_dentry filp /\
         fi_last_readdir filp' = fi_last_readdir filp
       end).
    destruct (off =? 0); [| apply logs_ret; split; reflexivity].
    destruct (filldir dirent "."%string 1 (make_fpos 0 0) (i_ino i)
                (Z.shiftr (i_mode i) 12)) as [rc dirent'].
    destruct (rc <? 0); apply logs_ret; split; reflexivity. }
  intros [[filp1 dirent1] | [[off1 filp1] dirent1]] [Hd Hl];
    [apply logs_ret; split; assumption |].
  destruct (off1 =? 1); [| apply logs_ret; split; assumption].
  eapply logs_bind; [apply logs_get_dentry | intros fd _].
  destruct (d_parent fd) as [parent |]; [| apply logs_ret; split; assumption].
  eapply logs_bind; [apply logs_get_dentry | intros pd _].
  eapply logs_bind;
    [apply logs_deref; intros q; apply logs_get_inode | intros pi _].
  destruct (filldir dirent1 ".."%string 2 (make_fpos 0 1) (i_ino pi)
              (Z.shiftr (i_mode i) 12)) as [rc dirent'].
  destruct (rc <? 0); apply logs_ret; split; assumption.
Qed.

Lemma logs_readdir_entries {D} ok (filldir : filldir_t D) rinfo frag skew :
  forall fuel filp off dirent,
    logs ok (readdir_entries fuel filldir rinfo frag skew filp off dirent)
      (fun r => match r with
                | inl (filp', _) | inr (_, filp', _) =>
                  f_dentry filp' = f_dentry filp /\
                  fi_last_readdir filp' = fi_last_readdir filp
                end).
Proof.
  induction fuel as [| fuel IH]; intros filp off dirent;
    cbn [readdir_entries]; [apply logs_hang |].
  destruct (Int.u32 (off + skew) <? Z.of_nat (length rinfo));
    [| apply logs_ret; split; reflexivity].
  destruct (rinfo !! Z.to_nat (Int.u32 (off + skew))) as [entry |];
    [| apply logs_oops].
  destruct (filldir dirent (dn_name entry)
              (Z.of_nat (String.length (dn_name entry))) (make_fpos frag off)
              (dn_ino entry) (Int.u32 (Z.shiftr (dn_mode entry) 12)))
    as [rc dirent'].
  destruct (rc <? 0); [apply logs_ret; split; reflexivity |].
  eapply logs_weaken; [intros ev H; exact H | | apply IH].
  intros [[filp' d'] | [[off' filp'] d']] H; exact H.
Qed.

Lemma logs_readdir_round {D} e fuel (filldir : filldir_t D) inode filp frag
    off dirent :
  logs (readdir_event (f_dentry filp))
    (readdir_round e fuel filldir inode filp frag off dirent)
    (fun r => f_dentry (round_file r) = f_dentry filp).
Proof.
  unfold readdir_round.
  eapply logs_bind; [apply logs_readdir_fetch | intros r Hr].
  destruct r as [err | [frag' filp']]; [apply logs_ret; reflexivity |].
  eapply logs_bind.
  { instantiate (1 := fun r =>
       match r with
       | inl (filp1, _) | inr (_, filp1, _, _) =>
         f_dentry filp1 = f_dentry filp /\
         fi_last_readdir filp1 = fi_last_readdir filp'
       end).
    destruct (frag_is_leftmost frag');
      [| apply logs_ret; split; [exact Hr | reflexivity]].
    eapply logs_bind; [apply logs_readdir_dots | intros r1 H1].
    destruct r1 as [[filp1 d1] | [[off1 filp1] d1]]; apply logs_ret;
      destruct H1 as [Hd Hl]; split; congruence. }
  intros [[filp1 d1] | [[[off1 filp1] d1] skew]] [Hd Hl];
    [apply logs_ret; exact Hd |].
  destruct (fi_last_readdir filp1) as [last |]; [| apply logs_oops].
  eapply logs_bind; [apply logs_readdir_entries | intros r2 H2].
  destruct r2 as [[filp2 d2] | [[off2 filp2] d2]]; destruct H2 as [Hd2 _].
  - apply logs_ret. simpl. congruence.
  - destruct (negb (frag_value frag' =? frag_mask frag'));
      apply logs_ret; simpl; congruence.
Qed.

Lemma logs_readdir_frags {D} e fuel (filldir : filldir_t D) inode dn :
  forall frags filp frag off dirent,
    f_dentry filp = dn ->
    logs (readdir_event dn)
      (readdir_frags e fuel frags filldir inode filp frag off dirent)
      (fun _ => True).
Proof.
  induction frags as [| frags IH]; intros filp frag off dirent Hdn;
    cbn [readdir_frags]; [apply logs_hang |].
  eapply logs_bind.
  { rewrite <- Hdn. apply logs_readdir_round. }
  intros r Hr.
  destruct r as [result | [[frag' filp'] dirent']];
    [apply logs_ret; exact I |].
  apply IH. simpl in Hr. congruence.
Qed.

(** X13.  Whatever [ceph_readdir] creates or sends is a [READDIR]
    request on the opened dentry, addressed to the authoritative server,
    with the empty path, one fragment as its argument and the hash value
    of that same fragment as routing hint; apart from such requests and
    the puts of requests it adds nothing to the trace: no lookup, no
    mutating request and no lease release. *)
Theorem readdir_sends_readdir_only {D : Type} (e : env) (fuel : nat)
    (filp : file) (dirent : D) (filldir : filldir_t D) :
  logs (readdir_event (f_dentry filp))
    (ceph_readdir e fuel filp dirent filldir) (fun _ => True).
Proof.
  unfold ceph_readdir.
  eapply logs_bind; [apply logs_get_dentry | intros fd _].
  eapply logs_bind.
  { instantiate (1 := fun _ => True).
    destruct (d_inode fd); [apply logs_ret; exact I | apply logs_oops]. }
  intros inode _. apply logs_readdir_frags. reflexivity.
Qed.

(** ** The request an open directory keeps *)

Lemma triple_neutral_post {A} h (m : K A) (post : A -> Prop) :
  logs neutral m post ->
  triple (holds h) m (fun a s => post a /\ holds h s) (fun _ => True).
Proof.
  intros H s Hs. specialize (H s). unfold holds in *.
  destruct (m s) as [a s' | s' |]; [| exact I | exact I].
  destruct H as (Hp & evs & Ht & Hf). split; [exact Hp |].
  rewrite Ht, held_app, (held_neutral _ Hf). lia.
Qed.

Lemma triple_post {A} (pre : sys -> Prop) (m : K A)
    (post post' : A -> sys -> Prop) fault :
  (forall a s, post a s -> post' a s) ->
  triple pre m post fault -> triple pre m post' fault.
Proof.
  intros H Ht s Hs. specialize (Ht s Hs).
  destruct (m s); [apply H; exact Ht | exact Ht | exact I].
Qed.

Lemma held_readdir_fetch h e inode filp frag :
  triple (holds h) (readdir_fetch e inode filp frag)
    (fun r => match r with
              | inl _ => holds h
              | inr (_, filp') => holds (h + cached filp' - cached filp)
              end)
    (fun _ => True).
Proof.
  unfold readdir_fetch.
  destruct (negb (fi_frag filp =? frag)
            || negb (bool_decide (is_Some (fi_last_readdir filp)))).
  2:{ apply triple_ret. intros s Hs. unfold holds in *. lia. }
  eapply triple_bind;
    [eapply triple_neutral; apply logs_get_inode | intros i].
  eapply triple_bind; [apply triple_create | intros r].
  destruct r as [err | req]; [apply triple_ret; auto |].
  eapply triple_bind;
    [eapply triple_neutral; apply logs_neutral_do_request
    | intros [err req']].
  destruct (err <? 0).
  - eapply triple_bind; [apply triple_put | intros ?].
    apply triple_ret. auto.
  - unfold cached at 2. destruct (fi_last_readdir filp) as [old |].
    + eapply triple_bind; [apply triple_put | intros ?].
      apply triple_ret. intros s Hs. unfold holds, cached in *. simpl. lia.
    + eapply triple_bind.
      { instantiate (1 := fun _ => holds (h + 1)).
        apply triple_ret. intros s Hs. exact Hs. }
      intros ?.
      apply triple_ret. intros s Hs. unfold holds, cached in *. simpl. lia.
Qed.

Lemma held_readdir_round {D} h e fuel (filldir : filldir_t D) inode filp frag
    off dirent :
  triple (holds h) (readdir_round e fuel filldir inode filp frag off dirent)
    (fun r => holds (h + cached (round_file r) - cached filp))
    (fun _ => True).
Proof.
  unfold readdir_round.
  eapply triple_bind; [apply held_readdir_fetch | intros r].
  destruct r as [err | [frag' filp']].
  { apply triple_ret. intros s Hs. unfold holds in *. simpl. lia. }
  set (h' := h + cached filp' - cached filp).
  eapply triple_bind.
  { instantiate (1 := fun r s =>
       match r with
       | inl (filp1, _) | inr (_, filp1, _, _) =>
         fi_last_readdir filp1 = fi_last_readdir filp'
       end /\ holds h' s).
    destruct (frag_is_leftmost frag');
      [| apply triple_ret; intros s Hs; split; [reflexivity | exact Hs]].
    eapply triple_bind;
      [apply triple_neutral_post; apply logs_readdir_dots | intros r1].
    destruct r1 as [[filp1 d1] | [[off1 filp1] d1]]; apply triple_ret;
      intros s [[_ Hl] Hs]; split; assumption. }
  intros [[filp1 d1] | [[[off1 filp1] d1] skew]].
  { apply triple_ret. intros s [Hl Hs]. unfold holds, cached in *. simpl.
    rewrite Hl. subst h'. unfold cached in Hs. lia. }
  destruct (fi_last_readdir filp1) as [last |] eqn:Hlast.
  2:{ intros s _. exact I. }
  eapply triple_bind.
  { instantiate (1 := fun r s =>
       match r with
       | inl (filp2, _) | inr (_, filp2, _) =>
         fi_last_readdir filp2 = fi_last_readdir filp'
       end /\ holds h' s).
    intros s [Hl Hs].
    pose proof (triple_neutral_post h' _ _
                  (logs_readdir_entries neutral filldir (dir_entries last)
                     frag' skew fuel filp1 off1 d1) s Hs) as T.
    destruct (readdir_entries fuel filldir (dir_entries last) frag' skew
                filp1 off1 d1 s) as [r2 s2 | s2 |]; [| exact I | exact I].
    destruct T as [T Hs2]. split; [| exact Hs2].
    destruct r2 as [[filp2 d2] | [[off2 filp2] d2]]; destruct T as [_ T];
      congruence. }
  intros [[filp2 d2] | [[off2 filp2] d2]].
  - apply triple_ret. intros s [Hl Hs]. unfold holds, cached in *. simpl.
    rewrite Hl. subst h'. unfold cached in Hs. lia.
  - destruct (negb (frag_value frag' =? frag_mask frag')); apply triple_ret;
      intros s [Hl Hs]; unfold holds, cached in *; simpl; rewrite Hl;
      subst h'; unfold cached in Hs; lia.
Qed.

Lemma held_readdir_frags {D} e fuel (filldir : filldir_t D) inode :
  forall frags h filp frag off dirent,
    triple (holds h)
      (readdir_frags e fuel frags filldir inode filp frag off dirent)
      (fun r => holds (h + cached (snd (fst r)) - cached filp))
      (fun _ => True).
Proof.
  induction frags as [| frags IH]; intros h filp frag off dirent;
    cbn [readdir_frags]; [intros s _; exact I |].
  eapply triple_bind; [apply held_readdir_round | intros r].
  destruct r as [[[rc filp1] d1] | [[frag1 filp1] d1]]; simpl round_file.
  - apply triple_ret. intros s Hs. exact Hs.
  - eapply triple_post; [| apply IH].
    intros [[rc filp2] d2] s Hs. unfold holds in *. simpl in *. lia.
Qed.

(** X14.  An open directory keeps at most one request, the one whose
    reply it serves entries from, and [ceph_readdir] accounts for it: over
    a call that returns, the number of requests created and not put
    changes exactly as the number of requests kept in the file does, so
    a request that failed, or that was replaced by the fetch of another
    fragment, has been put.  [ceph_dir_llseek] keeps the same account, and
    a successful seek to position 0 leaves no request in the file. *)
Theorem open_directory_keeps_one_request {D : Type} (e : env) (fuel : nat)
    (filp : file) (dirent : D) (filldir : filldir_t D) (i_size s_maxbytes : Z)
    (f_version offset origin : Z) (s : sys) :
  match ceph_readdir e fuel filp dirent filldir s with
  | Done (_, filp', _) s' =>
    held (trace s') - cached filp' = held (trace s) - cached filp
  | _ => True
  end /\
  match ceph_dir_llseek i_size s_maxbytes filp f_version offset origin s with
  | Done (rc, filp', _) s' =>
    held (trace s') - cached filp' = held (trace s) - cached filp /\
    (rc = 0 -> cached filp' = 0)
  | _ => True
  end.
Proof.
  split.
  - assert (T : triple (holds (held (trace s)))
                  (ceph_readdir e fuel filp dirent filldir)
                  (fun r => holds (held (trace s) + cached (snd (fst r))
                                   - cached filp))
                  (fun _ => True)).
    { unfold ceph_readdir.
      eapply triple_bind;
        [eapply triple_neutral; apply logs_get_dentry | intros fd].
      eapply triple_bind.
      { eapply triple_neutral. instantiate (1 := fun _ => True).
        destruct (d_inode fd); [apply logs_ret; exact I | apply logs_oops]. }
      intros inode. apply held_readdir_frags. }
    specialize (T s eq_refl).
    destruct (ceph_readdir e fuel filp dirent filldir s)
      as [[[rc filp'] d'] s' | s' |]; [| exact I | exact I].
    unfold holds in T. simpl in T. lia.
  - unfold ceph_dir_llseek.
    set (off := if origin =? SEEK_END then Int.s64 (offset + i_size)
                else if origin =? SEEK_CUR then Int.s64 (offset + f_pos filp)
                else offset).
    destruct ((0 <=? off) && (off <=? s_maxbytes));
      [| simpl; split; [lia | intros H; discriminate]].
    set (p := if negb (off =? f_pos filp) then (with_pos off filp, 0)
              else (filp, f_version)).
    assert (Hp : fi_last_readdir (fst p) = fi_last_readdir filp).
    { subst p. destruct (negb (off =? f_pos filp)); reflexivity. }
    destruct p as [filp1 v1]. simpl in Hp.
    destruct (Z.eqb_spec off 0) as [E0 | N0].
    + unfold cached. rewrite <- Hp.
      destruct (fi_last_readdir filp1) as [last |] eqn:Hl.
      * pose proof (triple_put (held (trace s) - 1) last s) as T.
        unfold holds in T. specialize (T ltac:(lia)).
        unfold bind at 1. unfold bind at 1.
        destruct (ceph_mdsc_put_request last s) as [u s1 | s1 |];
          [| exact I | exact I].
        simpl. split; [lia | reflexivity].
      * simpl. rewrite Hl. split; [lia | reflexivity].
    + simpl. unfold cached. rewrite Hp. split; [lia | intros H; contradiction].
Qed.

(** ** What [ceph_readdir] returns *)

Lemma readdir_fetch_err e inode filp frag s err s' :
  readdir_fetch e inode filp frag s = Done (inl err) s' -> fetch_error e err.
Proof.
  unfold readdir_fetch. intros H.
  destruct (negb (fi_frag filp =? frag)
            || negb (bool_decide (is_Some (fi_last_readdir filp)))).
  2:{ apply ret_inv in H as [H _]. discriminate. }
  kinv H as i s1 E1. kinv H as r s2 E2.
  destruct r as [err' | req].
  { apply ret_inv in H as [H _]. injection H as ->.
    apply create_request_inv in E2 as (_ & Hf & _). left. eauto. }
  kinv H as p s3 E3. destruct p as [err' req'].
  apply do_request_inv in E3 as (Herr & _).
  destruct (Z.ltb_spec err' 0) as [Hneg | _].
  - kinv H as u s4 E4. apply ret_inv in H as [H _]. injection H as <-.
    right. split; [exact Hneg |]. eauto.
  - kinv H as u s4 E4. apply ret_inv in H as [H _]. discriminate.
Qed.

Lemma readdir_round_rc {D} e fuel (filldir : filldir_t D) inode filp frag off
    dirent s rc filp' dirent' s' :
  readdir_round e fuel filldir inode filp frag off dirent s
  = Done (inl (rc, filp', dirent')) s' ->
  rc = 0 \/ fetch_error e rc.
Proof.
  unfold readdir_round. intros H.
  kinv H as r s1 E1. destruct r as [err | [frag1 filp1]].
  { apply ret_inv in H as [H _]. injection H as <- _ _.
    right. apply (readdir_fetch_err _ _ _ _ _ _ _ E1). }
  kinv H as r s2 E2.
  destruct r as [[filp2 d2] | [[[off2 filp2] d2] skew]].
  { apply ret_inv in H as [H _]. injection H as <- _ _. left. reflexivity. }
  destruct (fi_last_readdir filp2) as [last |]; [| discriminate].
  kinv H as r s3 E3.
  destruct r as [[filp3 d3] | [[off3 filp3] d3]].
  { apply ret_inv in H as [H _]. injection H as <- _ _. left. reflexivity. }
  destruct (negb (frag_value frag1 =? frag_mask frag1));
    apply ret_inv in H as [H _]; [discriminate |].
  injection H as <- _ _. left. reflexivity.
Qed.

Lemma readdir_frags_rc {D} e fuel (filldir : filldir_t D) inode :
  forall frags filp frag off dirent s rc filp' dirent' s',
    readdir_frags e fuel frags filldir inode filp frag off dirent s
    = Done (rc, filp', dirent') s' ->
    rc = 0 \/ fetch_error e rc.
Proof.
  induction frags as [| frags IH];
    intros filp frag off dirent s rc filp' dirent' s' H; [discriminate |].
  cbn [readdir_frags] in H.
  kinv H as r s1 E1.
  destruct r as [[[rc1 filp1] d1] | [[frag1 filp1] d1]].
  - apply ret_inv in H as [H _]. injection H as <- _ _.
    apply (readdir_round_rc _ _ _ _ _ _ _ _ _ _ _ _ _ E1).
  - apply (IH _ _ _ _ _ _ _ _ _ H).
Qed.

(** X15.  [ceph_readdir] returns 0, or the error of a fetch that failed:
    one that request creation reported, or a negative status from the
    server.  A buffer that takes no more entries ends the call with 0,
    whatever negative value [filldir] answered, and a positive status from
    the server is not passed on. *)
Theorem readdir_returns_zero_or_fetch_error {D : Type} (e : env) (fuel : nat)
    (filp filp' : file) (dirent dirent' : D) (filldir : filldir_t D)
    (s s' : sys) (rc : Z) :
  ceph_readdir e fuel filp dirent filldir s = Done (rc, filp', dirent') s' ->
  rc = 0 \/ fetch_error e rc.
Proof.
  unfold ceph_readdir. intros H.
  kinv H as fd s1 E1. kinv H as inode s2 E2.
  apply (readdir_frags_rc _ _ _ _ _ _ _ _ _ _ _ _ _ _ H).
Qed.

(** Listing [/D] into a full buffer returns 0 and leaves the position;
    when no request can be created the call returns that error with the
    file as it was. *)
Lemma readdir_returns_zero_or_fetch_error_witness :
  readdir_run mds_d (boot tree_d) open_d 0 = Some (0, 0, []) /\
  ceph_readdir env_no_request 8 open_d full_buf filldir (boot tree_d)
  = Done (- ENOMEM, open_d, full_buf) (mk_sys tree_d [] 1) /\
  (- ENOMEM = 0 \/ fetch_error env_no_request (- ENOMEM)).
Proof.
  split; [vm_compute; reflexivity |].
  split; [vm_compute; reflexivity |].
  apply (readdir_returns_zero_or_fetch_error env_no_request 8 open_d open_d
           full_buf full_buf filldir (boot tree_d) (mk_sys tree_d [] 1)).
  vm_compute. reflexivity.
Defined.

(** ** Resuming a listing *)

Lemma fpos_small p :
  0 <= p < 2 ^ 32 -> fpos_frag p = 0 /\ fpos_off p = p.
Proof.
  intros H. unfold fpos_frag, fpos_off. split.
  - rewrite Z.shiftr_div_pow2 by lia. rewrite Z.div_small by lia. reflexivity.
  - change 4294967295 with (Z.ones 32). rewrite Z.land_ones by lia.
    rewrite Z.mod_small by lia. apply u32_small. lia.
Qed.

Lemma advance_small : forall m p,
  0 <= p -> p + Z.of_nat m < 2 ^ 63 -> advance m p = p + Z.of_nat m.
Proof.
  induction m as [| m IH]; intros p Hp Hm.
  - simpl. lia.
  - cbn [advance]. rewrite s64_small by lia. rewrite IH by lia. lia.
Qed.

Lemma serve_drop frag : forall n off l,
  drop n (serve frag off l) = serve frag (off + Z.of_nat n) (drop n l).
Proof.
  induction n as [| n IH]; intros off l.
  - simpl. rewrite Z.add_0_r. reflexivity.
  - destruct l as [| x l]; [reflexivity |].
    cbn [serve drop]. rewrite IH. f_equal. lia.
Qed.

Lemma length_serve frag : forall l off, length (serve frag off l) = length l.
Proof.
  induction l as [| x l IH]; intros off; [reflexivity |].
  simpl. rewrite IH. reflexivity.
Qed.

Lemma filldir_full buf name len pos ino type :
  room buf = 0%nat -> filldir buf name len pos ino type = (- EINVAL, buf).
Proof. intros H. unfold filldir. rewrite H. reflexivity. Qed.

(** The loop over the entries with a buffer of any size. *)
Lemma readdir_entries_room : forall rest pre fuel frag skew filp off buf s,
  Int.u32 (off + skew) = Z.of_nat (length pre) ->
  0 <= off -> off + Z.of_nat (length rest) < 2 ^ 32 ->
  Z.of_nat (length (pre ++ rest)) < 2 ^ 32 ->
  (length rest < fuel)%nat ->
  readdir_entries fuel filldir (pre ++ rest) frag skew filp off buf s
  = Done
      (let m := Nat.min (room buf) (length rest) in
       let filp' := with_pos (advance m (f_pos filp)) filp in
       let buf' := mk_dirbuf (room buf - m)
                     (taken buf ++ take m (serve frag off rest)) in
       if (room buf <? length rest)%nat then inl (filp', buf')
       else inr (off + Z.of_nat (length rest), filp', buf'))
      s.
Proof.
  induction rest as [| x rest IH];
    intros pre fuel frag skew filp off buf s Hidx Hoff Hend Hlen Hfuel.
  - destruct fuel as [| fuel]; [simpl in Hfuel; lia |].
    cbn [readdir_entries]. rewrite Hidx, app_nil_r.
    rewrite Z.ltb_irrefl. simpl.
    rewrite Nat.min_0_r. destruct filp, buf. unfold with_pos. simpl.
    rewrite Z.add_0_r, Nat.sub_0_r, app_nil_r. reflexivity.
  - destruct fuel as [| fuel]; [simpl in Hfuel; lia |].
    simpl in Hfuel, Hend.
    cbn [readdir_entries]. rewrite Hidx.
    assert (Hlt : (Z.of_nat (length pre)
                   <? Z.of_nat (length (pre ++ x :: rest))) = true).
    { apply Z.ltb_lt. rewrite length_app. simpl. lia. }
    rewrite Hlt, Nat2Z.id, list_lookup_middle by reflexivity.
    destruct (room buf) as [| n] eqn:Hr.
    + rewrite (filldir_full buf _ _ _ _ _ Hr).
      change (- EINVAL <? 0) with true. cbv iota.
      destruct filp, buf. unfold with_pos. simpl in *. subst.
      rewrite app_nil_r. reflexivity.
    + rewrite (filldir_room buf n _ _ _ _ _ Hr).
      change (0 <? 0) with false. cbv iota.
      rewrite (u32_small (off + 1)) by lia.
      replace (pre ++ x :: rest) with ((pre ++ [x]) ++ rest)
        by (rewrite <- app_assoc; reflexivity).
      rewrite IH.
      * cbn [room taken length Nat.min advance with_pos f_pos f_dentry
             fi_frag fi_last_readdir take serve].
        change (S n <? S (length rest))%nat with (n <? length rest)%nat.
        change (S n - S (Nat.min n (length rest)))%nat
          with (n - Nat.min n (length rest))%nat.
        rewrite <- !app_assoc. cbn [app].
        destruct (n <? length rest)%nat; [reflexivity |].
        f_equal. f_equal. f_equal. f_equal. lia.
      * rewrite length_app. simpl length.
        rewrite (u32_succ off skew _ Hidx).
        -- lia.
        -- rewrite length_app in Hlen. simpl in Hlen. lia.
      * lia.
      * lia.
      * rewrite <- app_assoc. exact Hlen.
      * lia.
Qed.

Lemma with_pos_same filp : with_pos (f_pos filp) filp = filp.
Proof. destruct filp. reflexivity. Qed.

Lemma hand_over_full stream k filp buf :
  room buf = 0%nat -> f_pos filp = Z.of_nat k ->
  hand_over stream k filp buf = (0, filp, buf).
Proof.
  intros Hr Hp. unfold hand_over. rewrite Hr. cbn [Nat.min Nat.sub take].
  rewrite Nat.add_0_r, <- Hp, with_pos_same, app_nil_r.
  destruct buf. simpl in Hr. subst. reflexivity.
Qed.

Lemma hand_over_step stream k filp buf n x q :
  room buf = S n -> stream !! k = Some x ->
  hand_over stream k filp buf
  = hand_over stream (S k) (with_pos q filp)
      (mk_dirbuf n (taken buf ++ [x])).
Proof.
  intros Hr Hx. unfold hand_over. rewrite Hr. cbn [room taken].
  pose proof (lookup_lt_Some _ _ _ Hx) as Hk.
  replace (length stream - k)%nat with (S (length stream - S k)) by lia.
  cbn [Nat.min Nat.sub].
  rewrite (drop_S _ _ _ Hx). cbn [take].
  rewrite <- app_assoc. cbn [app].
  replace (k + S (Nat.min n (length stream - S k)))%nat
    with (S k + Nat.min n (length stream - S k))%nat by lia.
  reflexivity.
Qed.

Section Resume.

Context (e : env) (fuel : nat) (s : sys) (dn : nat) (fd : dentry) (i : nat)
  (ino : inode) (p : nat) (pd : dentry) (pi : nat) (pino : inode)
  (last : request).
Context (Hfd : dentries (cache s) !! dn = Some fd).
Context (Hi : d_inode fd = Some i).
Context (Hino : inodes (cache s) !! i = Some ino).
Context (Hp : d_parent fd = Some p).
Context (Hpd : dentries (cache s) !! p = Some pd).
Context (Hpi : d_inode pd = Some pi).
Context (Hpino : inodes (cache s) !! pi = Some pino).
Context (Hlen : Z.of_nat (length (dir_entries last)) + 2 < 2 ^ 32).
Context (Hfuel : (length (dir_entries last) < fuel)%nat).

Lemma length_dir_stream :
  length (dir_stream ino pino (dir_entries last))
  = S (S (length (dir_entries last))).
Proof. unfold dir_stream. simpl. rewrite length_serve. reflexivity. Qed.

(** From the entries on. *)
Lemma tail_hand_over filp buf k :
  (2 <= k <= length (dir_stream ino pino (dir_entries last)))%nat ->
  f_pos filp = Z.of_nat k ->
  bind (readdir_entries fuel filldir (dir_entries last) 0 (Int.u32 (-2))
          filp (Z.of_nat k) buf)
    (round_end 0) s
  = Done (inl (hand_over (dir_stream ino pino (dir_entries last)) k filp buf))
      s.
Proof.
  intros Hk Hpos. rewrite length_dir_stream in Hk.
  pose proof length_dir_stream as Hls.
  set (entries := dir_entries last) in *.
  assert (Hdl : length (drop (k - 2) entries) = (length entries - (k - 2))%nat)
    by apply length_drop.
  assert (Htl : length (take (k - 2) entries) = (k - 2)%nat)
    by (rewrite length_take; lia).
  pose proof (readdir_entries_room (drop (k - 2) entries)
                (take (k - 2) entries) fuel 0 (Int.u32 (-2)) filp
                (Z.of_nat k) buf s) as R.
  rewrite take_drop in R.
  assert (Hidx : Int.u32 (Z.of_nat k + Int.u32 (-2))
                 = Z.of_nat (length (take (k - 2) entries))).
  { rewrite Htl. change (Int.u32 (-2)) with (2 ^ 32 - 2). unfold Int.u32.
    replace (Z.of_nat k + (2 ^ 32 - 2))
      with (Z.of_nat (k - 2) + 1 * 2 ^ 32) by lia.
    rewrite Z.mod_add by lia. apply Z.mod_small. lia. }
  specialize (R Hidx ltac:(lia) ltac:(lia) ltac:(lia) ltac:(lia)).
  rewrite (bind_done _ _ _ _ _ R). cbv zeta.
  rewrite Hdl, Hpos.
  unfold hand_over. rewrite Hls.
  replace (S (S (length entries)) - k)%nat
    with (length entries - (k - 2))%nat by lia.
  set (m := Nat.min (room buf) (length entries - (k - 2))).
  assert (Hm : (m <= length entries - (k - 2))%nat) by (unfold m; lia).
  rewrite advance_small by lia.
  rewrite <- Nat2Z.inj_add.
  assert (Hdrop : drop k (dir_stream ino pino entries)
                  = serve 0 (Z.of_nat k) (drop (k - 2) entries)).
  { destruct k as [| [| k']]; [lia | lia |].
    unfold dir_stream. cbn [drop]. rewrite serve_drop.
    replace (S (S k') - 2)%nat with k' by lia.
    f_equal. lia. }
  rewrite Hdrop.
  destruct (room buf <? length entries - (k - 2))%nat; [reflexivity |].
  unfold round_end.
  change (negb (frag_value 0 =? frag_mask 0)) with false. reflexivity.
Qed.

End Resume.

(** X16.  In a directory that is a single fragment, a call of
    [ceph_readdir] that finds the reply of an earlier call in the file and
    the position at entry [k] of the listing (["."], [".."], then the
    entries of the reply) hands over the entries from [k] on, in order, as
    many as the buffer has room for, sends nothing, and leaves the position
    behind the last entry taken: successive calls continue where the one
    before stopped, with no entry lost or repeated. *)
Theorem readdir_resumes_where_it_stopped (e : env) (fuel : nat) (filp : file)
    (buf : dirbuf) (s : sys) (fd : dentry) (i : nat) (ino : inode) (p : nat)
    (pd : dentry) (pi : nat) (pino : inode) (last : request) (k : nat) :
  dentries (cache s) !! f_dentry filp = Some fd ->
  d_inode fd = Some i ->
  inodes (cache s) !! i = Some ino ->
  d_parent fd = Some p ->
  dentries (cache s) !! p = Some pd ->
  d_inode pd = Some pi ->
  inodes (cache s) !! pi = Some pino ->
  fi_frag filp = 0 ->
  fi_last_readdir filp = Some last ->
  f_pos filp = Z.of_nat k ->
  (k <= length (dir_stream ino pino (dir_entries last)))%nat ->
  Z.of_nat (length (dir_entries last)) + 2 < 2 ^ 32 ->
  (length (dir_entries last) < fuel)%nat ->
  ceph_readdir e fuel filp buf filldir s
  = Done (hand_over (dir_stream ino pino (dir_entries last)) k filp buf) s.
Proof.
  intros Hfd Hi Hino Hp Hpd Hpi Hpino Hfrag Hlast Hpos Hk Hlen Hfuel.
  pose proof (length_dir_stream ino pino last) as Hls.
  set (stream := dir_stream ino pino (dir_entries last)) in *.
  assert (Hs0 : stream !! 0%nat
                = Some (".", make_fpos 0 0, i_ino ino,
                        Z.shiftr (i_mode ino) 12)) by reflexivity.
  assert (Hs1 : stream !! 1%nat
                = Some ("..", make_fpos 0 1, i_ino pino,
                        Z.shiftr (i_mode ino) 12)) by reflexivity.
  unfold ceph_readdir.
  kstep (get_dentry_eq _ _ _ Hfd). rewrite Hi. simpl deref. kret.
  rewrite Hpos.
  destruct (fpos_small (Z.of_nat k) ltac:(lia)) as [-> ->].
  destruct fuel as [| fuel']; [lia |]. cbn [readdir_frags].
  assert (Round : readdir_round e (S fuel') filldir i filp 0 (Z.of_nat k) buf s
                  = Done (inl (hand_over stream k filp buf)) s).
  2:{ kstep Round. reflexivity. }
  unfold readdir_round, readdir_fetch.
  rewrite Hfrag, Hlast.
  rewrite bool_decide_eq_true_2 by eauto.
  change (negb (0 =? 0) || negb true) with false. cbv iota. kret.
  change (frag_is_leftmost 0) with true. cbv iota.
  unfold readdir_dots.
  kstep (get_inode_eq _ _ _ Hino).
  destruct k as [| [| k']].
  - (* at ["."] *)
    change (Z.of_nat 0 =? 0) with true. cbv iota.
    destruct (room buf) as [| n] eqn:Hr.
    { rewrite (filldir_full buf _ _ _ _ _ Hr).
      change (- EINVAL <? 0) with true. cbv iota. kret. kret.
      rewrite hand_over_full by assumption. reflexivity. }
    rewrite (filldir_room buf n _ _ _ _ _ Hr).
    change (0 <? 0) with false. cbv iota. kret.
    change (Int.u32 (Z.of_nat 0 + 1) =? 1) with true. cbv iota.
    rewrite Hpos. change (Int.s64 (Z.of_nat 0 + 1)) with 1.
    rewrite (hand_over_step stream 0 filp buf n _ 1 Hr Hs0).
    set (filp1 := with_pos 1 filp).
    set (buf1 := mk_dirbuf n _).
    assert (Hfd1 : dentries (cache s) !! f_dentry filp1 = Some fd)
      by exact Hfd.
    kstep (get_dentry_eq _ _ _ Hfd1). rewrite Hp.
    kstep (get_dentry_eq _ _ _ Hpd). rewrite Hpi. simpl deref.
    kstep (get_inode_eq _ _ _ Hpino).
    destruct n as [| n'].
    { rewrite (filldir_full buf1 _ _ _ _ _ eq_refl).
      change (- EINVAL <? 0) with true. cbv iota. kret.
      rewrite hand_over_full by reflexivity. reflexivity. }
    rewrite (filldir_room buf1 n' _ _ _ _ _ eq_refl).
    change (0 <? 0) with false. cbv iota. kret. kret.
    change (Int.u32 (Int.u32 (Z.of_nat 0 + 1) + 1)) with (Z.of_nat 2).
    change (Int.s64 (f_pos filp1 + 1)) with 2.
    rewrite (hand_over_step stream 1 filp1 buf1 n' _ 2 eq_refl Hs1).
    cbn [fi_last_readdir with_pos filp1]. rewrite Hlast.
    apply (tail_hand_over (S fuel') s ino pino last Hlen Hfuel);
      [fold stream; lia | reflexivity].
  - (* at [".."] *)
    change (Z.of_nat 1 =? 0) with false. cbv iota. kret.
    change (Z.of_nat 1 =? 1) with true. cbv iota.
    kstep (get_dentry_eq _ _ _ Hfd). rewrite Hp.
    kstep (get_dentry_eq _ _ _ Hpd). rewrite Hpi. simpl deref.
    kstep (get_inode_eq _ _ _ Hpino).
    destruct (room buf) as [| n] eqn:Hr.
    { rewrite (filldir_full buf _ _ _ _ _ Hr).
      change (- EINVAL <? 0) with true. cbv iota. kret.
      rewrite hand_over_full by assumption. reflexivity. }
    rewrite (filldir_room buf n _ _ _ _ _ Hr).
    change (0 <? 0) with false. cbv iota. kret. kret.
    change (Int.u32 (Z.of_nat 1 + 1)) with (Z.of_nat 2).
    rewrite Hpos. change (Int.s64 (Z.of_nat 1 + 1)) with 2.
    rewrite (hand_over_step stream 1 filp buf n _ 2 Hr Hs1).
    cbn [fi_last_readdir with_pos]. rewrite Hlast.
    apply (tail_hand_over (S fuel') s ino pino last Hlen Hfuel);
      [fold stream; lia | reflexivity].
  - (* among the entries *)
    destruct (Z.eqb_spec (Z.of_nat (S (S k'))) 0) as [E | _]; [lia |].
    kret.
    destruct (Z.eqb_spec (Z.of_nat (S (S k'))) 1) as [E | _]; [lia |].
    kret. kret. rewrite Hlast.
    apply (tail_hand_over (S fuel') s ino pino last Hlen Hfuel);
      [fold stream; lia | exact Hpos].
Qed.

(** [/D] holds [alpha], [beta] and [gamma] in one fragment.  A call that
    finds the position at entry 1 and a buffer for two entries takes [..]
    and [alpha] and leaves the position at 3. *)
Lemma readdir_resumes_where_it_stopped_witness :
  ceph_readdir quiet 8 (open_d1 1) (mk_dirbuf 2 []) filldir (boot tree_d1)
  = Done (hand_over
            (dir_stream (dir_inode 40 0 0) (dir_inode 1 7 CEPH_LOCK_ICONTENT)
               listing1)
            1 (open_d1 1) (mk_dirbuf 2 []))
      (boot tree_d1) /\
  readdir_run quiet (boot tree_d1) (open_d1 1) 2
  = Some (0, 3, [ ("..", make_fpos 0 1, 1, 4);
                  ("alpha", make_fpos 0 2, 41, 8) ]%string).
Proof.
  split; [| vm_compute; reflexivity].
  apply (readdir_resumes_where_it_stopped quiet 8 (open_d1 1)
           (mk_dirbuf 2 []) (boot tree_d1)
           (mk_dentry "D" (Some 0%nat) (Some 1%nat) 7 false true 1)
           1 (dir_inode 40 0 0) 0
           (mk_dentry "/" (Some 0%nat) (Some 0%nat) 0 false true 1)
           0 (dir_inode 1 7 CEPH_LOCK_ICONTENT) reply1 1);
    try reflexivity; simpl; lia.
Defined.

(** ** Seeking in an open directory *)

Lemma dput_no_hang p s : dput p s <> Hang.
Proof.
  unfold dput. destruct p as [q |]; [| discriminate].
  destruct (dentries (cache s) !! q) as [d |] eqn:Hd.
  - rewrite (bind_done _ _ _ _ _ (get_dentry_eq _ _ _ Hd)).
    rewrite (set_dentry_eq _ _ _ _ Hd). discriminate.
  - rewrite (bind_oops _ _ _ _ (get_dentry_none _ _ Hd)). discriminate.
Qed.

Lemma put_request_no_hang req s : ceph_mdsc_put_request req s <> Hang.
Proof.
  unfold ceph_mdsc_put_request. unfold bind at 1. unfold emit.
  unfold bind.
  destruct (dput (r_last_dentry req) _) as [u s1 | s1 |] eqn:E1;
    [apply dput_no_hang | discriminate |].
  exfalso. apply (dput_no_hang _ _ E1).
Qed.

(** X17.  [ceph_dir_llseek] either refuses with [-EINVAL], when the
    offset it aims at is negative or beyond [s_maxbytes], and then changes
    nothing at all; or it returns that offset, which is then the position
    of the file.  The reply kept for [ceph_readdir] is dropped exactly when
    the new position is 0, also when the position was 0 already;
    everywhere else it is kept and nothing is put.  [f_version] is reset
    exactly when the position changes.  A fault can only come from putting
    the kept request. *)
Theorem llseek_contract (i_size s_maxbytes : Z) (filp : file)
    (f_version offset origin : Z) (s : sys) :
  let target := seek_target i_size filp offset origin in
  match ceph_dir_llseek i_size s_maxbytes filp f_version offset origin s with
  | Done (rc, filp', v') s' =>
    (rc = - EINVAL /\ ~ (0 <= target <= s_maxbytes) /\
     filp' = filp /\ v' = f_version /\ s' = s) \/
    (rc = target /\ 0 <= target <= s_maxbytes /\
     f_pos filp' = target /\ f_dentry filp' = f_dentry filp /\
     fi_frag filp' = fi_frag filp /\
     v' = (if target =? f_pos filp then f_version else 0) /\
     (target = 0 -> fi_last_readdir filp' = None) /\
     (target <> 0 ->
      fi_last_readdir filp' = fi_last_readdir filp /\ s' = s))
  | Oops _ => target = 0 /\ fi_last_readdir filp <> None
  | Hang => False
  end.
Proof.
  intros target. unfold ceph_dir_llseek.
  fold (seek_target i_size filp offset origin). fold target.
  destruct (Z.leb_spec 0 target) as [H0 | H0];
    [destruct (Z.leb_spec target s_maxbytes) as [H1 | H1] |]; cbn [andb].
  2:{ left. repeat split; try reflexivity. lia. }
  2:{ left. repeat split; try reflexivity. lia. }
  set (p := if negb (target =? f_pos filp) then (with_pos target filp, 0)
            else (filp, f_version)).
  assert (Hp : f_pos (fst p) = target /\ f_dentry (fst p) = f_dentry filp /\
               fi_frag (fst p) = fi_frag filp /\
               fi_last_readdir (fst p) = fi_last_readdir filp /\
               snd p = (if target =? f_pos filp then f_version else 0)).
  { subst p. destruct (Z.eqb_spec target (f_pos filp)) as [E | N]; simpl;
      repeat split; congruence. }
  destruct p as [filp1 v1]. simpl in Hp.
  destruct Hp as (Hpos & Hdn & Hfrag & Hlast & Hv).
  destruct (Z.eqb_spec target 0) as [E0 | N0].
  - destruct (fi_last_readdir filp1) as [last |] eqn:Hl.
    + unfold bind at 1. unfold bind at 1.
      destruct (ceph_mdsc_put_request last s) as [u s1 | s1 |] eqn:Ep.
      * right. simpl.
        repeat split; try assumption; try reflexivity; try lia;
          intros; contradiction.
      * split; [exact E0 | congruence].
      * apply (put_request_no_hang _ _ Ep).
    + right. simpl.
      repeat split; try assumption; try reflexivity; try lia;
        try congruence; intros; contradiction.
  - right. simpl.
    repeat split; try assumption; try reflexivity; try lia;
      try congruence; intros; contradiction.
Qed.

(** ** A rewound directory is fetched again *)

Lemma dispatched_app tr evs :
  dispatched (tr ++ evs) = dispatched tr ++ dispatched evs.
Proof. unfold dispatched. apply omap_app. Qed.

Lemma triple_asked {A} n ok (m : K A) (post : A -> Prop) :
  logs ok m post -> triple (asked n) m (fun _ => asked n) (asked n).
Proof.
  intros H s Hs. specialize (H s). unfold asked in *.
  destruct (m s) as [a s' | s' |]; [| | exact I].
  - destruct H as (_ & evs & -> & _).
    rewrite dispatched_app, length_app. lia.
  - destruct H as (evs & -> & _).
    rewrite dispatched_app, length_app. lia.
Qed.

Lemma llseek_to_zero i_size s_maxbytes filp f_version offset origin s filp'
    v' s' :
  ceph_dir_llseek i_size s_maxbytes filp f_version offset origin s
  = Done (0, filp', v') s' ->
  f_pos filp' = 0 /\ fi_last_readdir filp' = None /\
  f_dentry filp' = f_dentry filp.
Proof.
  unfold ceph_dir_llseek.
  fold (seek_target i_size filp offset origin).
  set (target := seek_target i_size filp offset origin).
  destruct ((0 <=? target) && (target <=? s_maxbytes)).
  2:{ intros H. apply ret_inv in H as [H _]. discriminate. }
  set (p := if negb (target =? f_pos filp) then (with_pos target filp, 0)
            else (filp, f_version)).
  assert (Hp : f_pos (fst p) = target /\ f_dentry (fst p) = f_dentry filp).
  { subst p. destruct (Z.eqb_spec target (f_pos filp)) as [E | N]; simpl;
      split; congruence. }
  destruct p as [filp1 v1]. simpl in Hp. destruct Hp as [Hpos Hdn].
  intros H. kinv H as filp2 s1 E1. apply ret_inv in H as [H _].
  injection H as Ht <- _.
  rewrite Ht in E1. change (0 =? 0) with true in E1. cbv iota in E1.
  destruct (fi_last_readdir filp1) as [last |] eqn:Hl.
  - kinv E1 as u s2 E2. apply ret_inv in E1 as [<- _].
    simpl. repeat split; congruence.
  - apply ret_inv in E1 as [<- _]. repeat split; congruence.
Qed.

(** The first fetch of a file that keeps no reply sends a request. *)
Lemma fetch_asks e inode ino filp frag s0 :
  fi_last_readdir filp = None ->
  inodes (cache s0) !! inode = Some ino ->
  create_request_fails e (tick s0) = None ->
  triple (fun s => s = s0) (readdir_fetch e inode filp frag)
    (fun _ => asked (S (length (dispatched (trace s0)))))
    (asked (S (length (dispatched (trace s0))))).
Proof.
  intros Hlast Hino Hcr s ->. unfold readdir_fetch.
  rewrite Hlast.
  rewrite (bool_decide_eq_false_2 (is_Some None))
    by (intros [x Hx]; discriminate).
  rewrite orb_true_r.
  rewrite (bind_done _ _ _ _ _ (get_inode_eq _ _ _ Hino)).
  unfold ceph_mdsc_create_request.
  unfold bind at 1. unfold bind at 1. unfold next_tick. cbv beta iota.
  rewrite Hcr.
  unfold bind at 1. unfold bind at 1. unfold emit. cbv beta iota. unfold ret at 1.
  cbv beta iota.
  unfold ceph_mdsc_do_request.
  unfold bind at 1. unfold bind at 1. unfold bind at 1. unfold next_tick.
  cbv beta iota. unfold bind at 1. unfold get_cache. cbv beta iota.
  unfold bind at 1. unfold emit. cbv beta iota. unfold bind at 1.
  unfold put_cache. cbv beta iota. unfold ret at 1. cbv beta iota.
  match goal with
  | |- match ?m ?st with _ => _ end =>
    apply (triple_asked (S (length (dispatched (trace s0)))) (fun _ => True)
             m (fun _ => True))
  end.
  - destruct (_ <? 0).
    + eapply logs_bind;
        [apply logs_put_request_only; intros op; exact I | intros _ _].
      apply logs_ret. exact I.
    + eapply logs_bind;
        [instantiate (1 := fun _ => True); apply logs_ret; exact I
        | intros _ _].
      apply logs_ret. exact I.
  - unfold asked. simpl. rewrite !dispatched_app, !length_app. simpl. lia.
Qed.

Lemma round_asks {D} e fuel (filldir : filldir_t D) inode ino filp frag off
    dirent s0 :
  fi_last_readdir filp = None ->
  inodes (cache s0) !! inode = Some ino ->
  create_request_fails e (tick s0) = None ->
  triple (fun s => s = s0)
    (readdir_round e fuel filldir inode filp frag off dirent)
    (fun _ => asked (S (length (dispatched (trace s0)))))
    (asked (S (length (dispatched (trace s0))))).
Proof.
  intros Hlast Hino Hcr. unfold readdir_round.
  eapply triple_bind; [apply (fetch_asks e inode ino); assumption | intros r].
  destruct r as [err | [frag' filp']]; [apply triple_ret; auto |].
  eapply (triple_asked _ (fun _ => True)). instantiate (1 := fun _ => True).
  eapply logs_bind.
  { instantiate (1 := fun _ => True).
    destruct (frag_is_leftmost frag'); [| apply logs_ret; exact I].
    eapply logs_bind; [apply logs_readdir_dots | intros r1 _].
    destruct r1 as [[filp1 d1] | [[off1 filp1] d1]]; apply logs_ret; exact I. }
  intros [[filp1 d1] | [[[off1 filp1] d1] skew]] _;
    [apply logs_ret; exact I |].
  destruct (fi_last_readdir filp1) as [last |]; [| apply logs_oops].
  eapply logs_bind; [apply logs_readdir_entries | intros r2 _].
  destruct r2 as [[filp2 d2] | [[off2 filp2] d2]]; [apply logs_ret; exact I |].
  destruct (negb (frag_value frag' =? frag_mask frag')); apply logs_ret;
    exact I.
Qed.

(** X18.  After a seek that ends at position 0 the file keeps no reply,
    and the next [ceph_readdir], if its request can be created, asks the
    server again before it hands anything over: whether that call returns
    or faults, at least one more request has been sent than before it. *)
Theorem rewind_forces_refetch {D : Type} (e : env) (fuel : nat)
    (i_size s_maxbytes : Z) (filp filp' : file)
    (f_version v' offset origin : Z) (s s' : sys) (dirent : D)
    (filldir : filldir_t D) (fd : dentry) (i : nat) (ino : inode) :
  ceph_dir_llseek i_size s_maxbytes filp f_version offset origin s
  = Done (0, filp', v') s' ->
  dentries (cache s') !! f_dentry filp = Some fd ->
  d_inode fd = Some i ->
  inodes (cache s') !! i = Some ino ->
  create_request_fails e (tick s') = None ->
  f_pos filp' = 0 /\ fi_last_readdir filp' = None /\
  match ceph_readdir e (S fuel) filp' dirent filldir s' with
  | Done _ s'' | Oops s'' =>
    (length (dispatched (trace s')) < length (dispatched (trace s'')))%nat
  | Hang => True
  end.
Proof.
  intros Hseek Hfd Hi Hino Hcr.
  apply llseek_to_zero in Hseek as (Hpos & Hlast & Hdn).
  split; [exact Hpos |]. split; [exact Hlast |].
  assert (T : triple (fun s0 => s0 = s')
                (ceph_readdir e (S fuel) filp' dirent filldir)
                (fun _ => asked (S (length (dispatched (trace s')))))
                (asked (S (length (dispatched (trace s')))))).
  { unfold ceph_readdir. intros s0 ->.
    rewrite Hdn.
    rewrite (bind_done _ _ _ _ _ (get_dentry_eq _ _ _ Hfd)).
    rewrite Hi. simpl deref. rewrite bind_ret.
    cbn [readdir_frags].
    revert s' Hfd Hino Hcr. intros s' Hfd Hino Hcr.
    apply (triple_bind (fun s0 => s0 = s') _ _
             (fun _ => asked (S (length (dispatched (trace s')))))
             _ (asked (S (length (dispatched (trace s'))))));
      [apply (round_asks e (S fuel) filldir i ino); assumption
      | | reflexivity].
    intros r.
    destruct r as [result | [[frag' filp1] d1]]; [apply triple_ret; auto |].
    eapply triple_asked. apply logs_readdir_frags. reflexivity. }
  specialize (T s' eq_refl). unfold asked in T.
  destruct (ceph_readdir e (S fuel) filp' dirent filldir s')
    as [r s'' | s'' |]; [| | exact I]; lia.
Qed.

(** After a first listing of [/D], a seek to 0 drops the reply; the next
    listing sends its request to the server again. *)
Lemma rewind_forces_refetch_witness :
  ceph_dir_llseek 0 (2 ^ 40) (open_d1 5) 0 0 0 (boot tree_d1)
  = Done (0, mk_file 0 1 0 None, 0)
      (mk_sys tree_d1 [EvPutRequest CEPH_MDS_OP_READDIR] 0) /\
  dispatched
    (trace_of (ceph_readdir quiet 8 (mk_file 0 1 0 None) (mk_dirbuf 9 [])
                 filldir
                 (mk_sys tree_d1 [EvPutRequest CEPH_MDS_OP_READDIR] 0)))
  = [CEPH_MDS_OP_READDIR] /\
  f_pos (mk_file 0 1 0 None) = 0 /\
  fi_last_readdir (mk_file 0 1 0 None) = None /\
  match ceph_readdir quiet 8 (mk_file 0 1 0 None) (mk_dirbuf 9 []) filldir
          (mk_sys tree_d1 [EvPutRequest CEPH_MDS_OP_READDIR] 0) with
  | Done _ s'' | Oops s'' =>
    (length (dispatched
               (trace (mk_sys tree_d1 [EvPutRequest CEPH_MDS_OP_READDIR] 0)))
     < length (dispatched (trace s'')))%nat
  | Hang => True
  end.
Proof.
  split; [vm_compute; reflexivity |].
  split; [vm_compute; reflexivity |].
  apply (rewind_forces_refetch quiet 7 0 (2 ^ 40) (open_d1 5)
           (mk_file 0 1 0 None) 0 0 0 0 (boot tree_d1)
           (mk_sys tree_d1 [EvPutRequest CEPH_MDS_OP_READDIR] 0)
           (mk_dirbuf 9 []) filldir
           (mk_dentry "D" (Some 0%nat) (Some 1%nat) 7 false true 1)
           1 (dir_inode 40 0 0));
    reflexivity.
Defined.

(** ** The text behind a directory read *)

Lemma digits_rev_length : forall fuel k n,
  0 <= n < 10 ^ Z.of_nat k -> (k <= fuel)%nat ->
  (length (digits_rev fuel n) <= k)%nat.
Proof.
  induction fuel as [| fuel IH]; intros k n Hn Hk; [simpl; lia |].
  cbn [digits_rev]. destruct (Z.eqb_spec n 0) as [E | N]; [simpl; lia |].
  destruct k as [| k]; [simpl in Hn; lia |].
  cbn [length]. apply le_n_S. apply IH; [| lia].
  rewrite Nat2Z.inj_succ, Z.pow_succ_r in Hn by lia.
  split; [apply Z.div_pos; lia |].
  apply Z.div_lt_upper_bound; lia.
Qed.

Lemma digits_rev_nonempty fuel n :
  0 < n -> (0 < fuel)%nat -> (0 < length (digits_rev fuel n))%nat.
Proof.
  intros Hn Hf. destruct fuel as [| fuel]; [lia |].
  cbn [digits_rev]. destruct (Z.eqb_spec n 0); [lia | simpl; lia].
Qed.

Lemma number_digits_length n k :
  0 <= n < 10 ^ Z.of_nat k -> (1 <= k <= 20)%nat ->
  (1 <= length (number_digits n) <= k)%nat.
Proof.
  intros Hn Hk. unfold number_digits.
  destruct (Z.eqb_spec n 0) as [E | N]; [simpl; lia |].
  rewrite length_rev. split.
  - apply digits_rev_nonempty; lia.
  - apply digits_rev_length; lia.
Qed.

Lemma s64_range z : - 2 ^ 63 <= Int.s64 z < 2 ^ 63.
Proof.
  unfold Int.s64. pose proof (Z.mod_pos_bound (z + 2 ^ 63) (2 ^ 64)). lia.
Qed.

Lemma length_number v w z :
  length (number v w z)
  = Nat.max w ((if v <? 0 then 1 else 0) + length (number_digits (Z.abs v))).
Proof.
  unfold number. destruct (v <? 0), z;
    rewrite ?length_app, ?length_replicate; simpl length; lia.
Qed.

(** A 64-bit value printed with [%20lld] fills exactly its field. *)
Lemma length_number_20 v :
  length (number (Int.s64 v) 20 false) = 20%nat.
Proof.
  rewrite length_number. pose proof (s64_range v) as Hr.
  pose proof (number_digits_length (Z.abs (Int.s64 v)) 19) as Hd.
  change (10 ^ Z.of_nat 19) with 10000000000000000000 in Hd.
  specialize (Hd ltac:(lia) ltac:(lia)).
  destruct (Int.s64 v <? 0); lia.
Qed.

Lemma length_number_long v w z :
  (w <= 20)%nat ->
  (w <= length (number (Int.s64 v) w z) <= 20)%nat.
Proof.
  intros Hw. rewrite length_number. pose proof (s64_range v) as Hr.
  pose proof (number_digits_length (Z.abs (Int.s64 v)) 19) as Hd.
  change (10 ^ Z.of_nat 19) with 10000000000000000000 in Hd.
  specialize (Hd ltac:(lia) ltac:(lia)).
  destruct (Int.s64 v <? 0); lia.
Qed.

Lemma length_stat_line label v :
  length (stat_line label v) = (String.length label + 21)%nat.
Proof.
  unfold stat_line. rewrite !length_app, length_number_20, length_chars.
  simpl. lia.
Qed.

Lemma dir_info_text_length ci :
  (256 <= length (dir_info_text ci) <= 277)%nat.
Proof.
  unfold dir_info_text.
  rewrite !length_app, !length_stat_line, length_chars.
  pose proof (length_number_long (i_rctime_sec ci) 10 false ltac:(lia)) as Ha.
  pose proof (length_number_long (i_rctime_nsec ci) 9 true ltac:(lia)) as Hb.
  set (a := length (number (Int.s64 (i_rctime_sec ci)) 10 false)) in *.
  set (b := length (number (Int.s64 (i_rctime_nsec ci)) 9 true)) in *.
  simpl. lia.
Qed.

Lemma peek_bytes_at (l : list ascii) (rest : buffer) s : forall n pos,
  (pos + n <= length l)%nat ->
  peek_bytes (map Some l ++ rest) (Z.of_nat pos) n s
  = Done (take n (drop pos l)) s.
Proof.
  induction n as [| n IH]; intros pos H; [reflexivity |].
  cbn [peek_bytes].
  assert (E : (0 <=? Z.of_nat pos)
              && (Z.of_nat pos <? Z.of_nat (length (map Some l ++ rest)))
              = true).
  { rewrite length_app, length_map.
    apply andb_true_iff. split; [apply Z.leb_le | apply Z.ltb_lt]; lia. }
  rewrite E, Nat2Z.id.
  destruct (l !! pos) as [c |] eqn:Hc.
  2:{ apply lookup_ge_None in Hc. lia. }
  rewrite lookup_app_l by (rewrite length_map; lia).
  rewrite list_lookup_fmap, Hc. cbn [fmap option_fmap option_map].
  replace (Z.of_nat pos + 1) with (Z.of_nat (S pos)) by lia.
  rewrite (bind_done _ _ _ _ _ (IH (S pos) ltac:(lia))).
  rewrite (drop_S _ _ _ Hc). reflexivity.
Qed.

Lemma kmalloc_ok e size s :
  kmalloc_fails e (tick s) = false -> 0 <= size ->
  kmalloc e size s
  = Done (Some (replicate (Z.to_nat size) None))
      (mk_sys (cache s) (trace s) (S (tick s))).
Proof.
  intros Hk Hs. unfold kmalloc, bind, next_tick. simpl.
  rewrite Hk. destruct (Z.ltb_spec size 0); [lia |]. reflexivity.
Qed.

Lemma kmalloc_none e size s :
  kmalloc_fails e (tick s) = true ->
  kmalloc e size s = Done None (mk_sys (cache s) (trace s) (S (tick s))).
Proof.
  intros Hk. unfold kmalloc, bind, next_tick. simpl.
  rewrite Hk, orb_true_r. reflexivity.
Qed.

(** The allocation and the [sprintf]. *)
Lemma make_dir_info e ci s :
  kmalloc_fails e (tick s) = false ->
  bind (kmalloc e 1024)
    (fun mem =>
       match mem with
       | None => ret (inl (- ENOMEM))
       | Some blk =>
         bind (write_bytes blk 0 (dir_info_text ci ++ [NUL]))
           (fun blk =>
              ret (inr (mk_dir_info_file (Some blk)
                          (Int.s32 (Z.of_nat (length (dir_info_text ci)))))))
       end) s
  = Done (inr (opened_info ci)) (mk_sys (cache s) (trace s) (S (tick s))).
Proof.
  intros Hk. rewrite (bind_done _ _ _ _ _ (kmalloc_ok e 1024 s Hk ltac:(lia))).
  pose proof (dir_info_text_length ci) as Hl.
  set (text := dir_info_text ci) in *.
  assert (Hm : length (replicate (S (length text)) (@None ascii))
               = length (text ++ [NUL])).
  { rewrite length_replicate, length_app. cbn [length]. lia. }
  pose proof (write_bytes_at (text ++ [NUL]) []
                (replicate (S (length text)) None)
                (replicate (1024 - S (length text)) None)
                (mk_sys (cache s) (trace s) (S (tick s))) Hm) as W.
  cbn [app length Z.of_nat] in W.
  replace (replicate (Z.to_nat 1024) (@None ascii))
    with (replicate (S (length text)) (@None ascii)
          ++ replicate (1024 - S (length text)) None).
  2:{ rewrite <- replicate_add. f_equal. lia. }
  rewrite (bind_done _ _ _ _ _ W).
  rewrite s32_small by lia. reflexivity.
Qed.

(** The first call makes the text: from then on the file info holds
    it. *)
Lemma read_dir_first e ci mapped size ppos s :
  kmalloc_fails e (tick s) = false ->
  ceph_read_dir e true ci closed_info mapped size ppos s
  = ceph_read_dir e true ci (opened_info ci) mapped size ppos
      (mk_sys (cache s) (trace s) (S (tick s))).
Proof.
  intros Hk. unfold ceph_read_dir.
  cbn [negb closed_info opened_info dir_info].
  rewrite (bind_done _ _ _ _ _ (make_dir_info e ci s Hk)).
  rewrite bind_ret. reflexivity.
Qed.

(** A call on a file info that holds the text. *)
Lemma read_dir_open e ci ci' mapped size ppos s :
  0 <= ppos ->
  ceph_read_dir e true ci' (opened_info ci) mapped size ppos s
  = Done (let '(rc, ppos', out) :=
            read_result (dir_info_text ci) mapped size ppos in
          (rc, opened_info ci, ppos', out)) s.
Proof.
  intros Hp. pose proof (dir_info_text_length ci) as Hl.
  unfold ceph_read_dir, read_result. cbn [negb].
  change (dir_info (opened_info ci)) with (Some (dir_info_block ci)).
  cbv iota. rewrite bind_ret.
  change (dir_info (opened_info ci)) with (Some (dir_info_block ci)).
  change (dir_info_len (opened_info ci))
    with (Z.of_nat (length (dir_info_text ci))).
  set (len := Z.of_nat (length (dir_info_text ci))).
  destruct (Z.geb_spec ppos len) as [Hge | Hlt]; [reflexivity |].
  rewrite bind_ret.
  rewrite (u32_small (len - ppos)) by lia.
  pose proof (u32_range size) as Hsz.
  set (n := Z.min (Int.u32 size) (len - ppos)).
  assert (Hn : 0 <= n <= len - ppos) by (unfold n; lia).
  pose proof (peek_bytes_at (dir_info_text ci ++ [NUL])
                (replicate (1024 - S (length (dir_info_text ci))) None) s
                (Z.to_nat n) (Z.to_nat ppos)) as P.
  rewrite Z2Nat.id in P by lia.
  assert (Hfit : (Z.to_nat ppos + Z.to_nat n
                  <= length (dir_info_text ci ++ [NUL]))%nat).
  { rewrite length_app. cbn [length]. unfold len in *. lia. }
  specialize (P Hfit).
  unfold dir_info_block.
  rewrite (bind_done _ _ _ _ _ P).
  unfold copy_to_user.
  set (k := Z.max 0 (Z.min n mapped)).
  assert (Hk : 0 <= k <= n) by (unfold k; lia).
  destruct (Z.eqb_spec (n - k) n) as [E | N].
  - assert (k = 0) as -> by lia. reflexivity.
  - destruct (Z.eqb_spec k 0) as [E0 | _]; [lia |].
    replace (n - (n - k)) with k by lia.
    rewrite s64_small by lia.
    unfold ret. f_equal. f_equal.
    rewrite take_take. rewrite Nat.min_l by lia.
    rewrite drop_app_le by lia.
    rewrite take_app_le; [reflexivity |].
    rewrite length_drop. lia.
Qed.

Lemma length_number_exact v w z :
  0 <= v < 10 ^ Z.of_nat w -> (1 <= w <= 20)%nat ->
  length (number v w z) = w.
Proof.
  intros Hv Hw. rewrite length_number.
  pose proof (number_digits_length (Z.abs v) w) as Hd.
  rewrite Z.abs_eq in Hd by lia. specialize (Hd Hv Hw).
  rewrite Z.abs_eq by lia.
  destruct (Z.ltb_spec v 0); lia.
Qed.

(** X19.  The text that [ceph_read_dir] prints always fits its block of
    1024 bytes: whatever the seven statistics are, it is between 256 and
    277 characters long, and exactly 256 (eight lines of 32) when the
    change time has at most ten digits of seconds and nine of nanoseconds.
    So the [sprintf] never writes outside the block: the first read, given
    memory, leaves the block holding the text and its terminating [NUL] in
    front of cells never written, with the length of the text recorded. *)
Theorem dir_info_fits_block (e : env) (ci : ceph_inode_info) (s : sys) :
  (256 <= length (dir_info_text ci) <= 277)%nat /\
  length (dir_info_block ci) = 1024%nat /\
  (0 <= i_rctime_sec ci < 10 ^ 10 -> 0 <= i_rctime_nsec ci < 10 ^ 9 ->
   length (dir_info_text ci) = 256%nat) /\
  (kmalloc_fails e (tick s) = false ->
   forall mapped size ppos,
     0 <= ppos ->
     exists rc ppos' out,
       ceph_read_dir e true ci closed_info mapped size ppos s
       = Done (rc, opened_info ci, ppos', out)
           (mk_sys (cache s) (trace s) (S (tick s)))).
Proof.
  pose proof (dir_info_text_length ci) as Hl.
  split; [exact Hl |]. split; [| split].
  - unfold dir_info_block.
    rewrite length_app, length_map, length_app, length_replicate.
    cbn [length]. lia.
  - intros Hsec Hnsec. unfold dir_info_text.
    rewrite !length_app, !length_stat_line, length_chars.
    rewrite (s64_small (i_rctime_sec ci)) by lia.
    rewrite (s64_small (i_rctime_nsec ci)) by lia.
    rewrite (length_number_exact _ 10) by (simpl; lia).
    rewrite (length_number_exact _ 9) by (simpl; lia).
    reflexivity.
  - intros Hk mapped size ppos Hp.
    rewrite (read_dir_first e ci mapped size ppos s Hk).
    rewrite (read_dir_open e ci ci mapped size ppos _ Hp).
    destruct (read_result (dir_info_text ci) mapped size ppos)
      as [[rc ppos'] out].
    eauto.
Qed.

Lemma dir_info_fits_block_witness :
  length (dir_info_text stats1) = 256%nat /\
  exists rc ppos' out,
    ceph_read_dir quiet true stats1 closed_info 100 100 0 (boot tree1)
    = Done (rc, opened_info stats1, ppos', out)
        (mk_sys (cache (boot tree1)) (trace (boot tree1))
           (S (tick (boot tree1)))).
Proof.
  split.
  - apply (dir_info_fits_block quiet stats1 (boot tree1)); vm_compute;
      split; congruence.
  - apply (dir_info_fits_block quiet stats1 (boot tree1));
      [reflexivity | lia].
Defined.

(** X20.  What a read of the directory returns.  Without the [dirstat]
    mount option it is [-EISDIR]; when the text cannot be allocated it is
    [-ENOMEM] and the file info stays without text.  Otherwise, for a
    position that is not negative: at or behind the end of the text the
    read returns 0; before the end it copies the bytes of the text from
    the position on, as many as the size cut to 32 bits, the rest of the
    text and the user buffer allow, returns their number and advances
    the position by it; and when that number is 0 (a size of zero, or of
    a multiple of [2^32], or a user buffer that takes nothing) it returns
    [-EFAULT].  The text is the one made by the first read, whatever the
    statistics are at later reads. *)
Theorem read_dir_contract (e : env) (ci ci' : ceph_inode_info)
    (cf : dir_info_file) (mapped size ppos : Z) (s : sys) :
  ceph_read_dir e false ci cf mapped size ppos s
  = Done (- EISDIR, cf, ppos, []) s /\
  (kmalloc_fails e (tick s) = true ->
   ceph_read_dir e true ci closed_info mapped size ppos s
   = Done (- ENOMEM, closed_info, ppos, [])
       (mk_sys (cache s) (trace s) (S (tick s)))) /\
  (0 <= ppos ->
   ceph_read_dir e true ci' (opened_info ci) mapped size ppos s
   = Done (let '(rc, ppos', out) :=
             read_result (dir_info_text ci) mapped size ppos in
           (rc, opened_info ci, ppos', out)) s) /\
  (0 <= ppos < Z.of_nat (length (dir_info_text ci)) ->
   Int.u32 size = 0 \/ mapped <= 0 ->
   ceph_read_dir e true ci' (opened_info ci) mapped size ppos s
   = Done (- EFAULT, opened_info ci, ppos, []) s).
Proof.
  split; [reflexivity |]. split; [| split].
  - intros Hk. unfold ceph_read_dir.
    cbn [negb closed_info dir_info].
    kstep (kmalloc_none e 1024 s Hk). reflexivity.
  - apply read_dir_open.
  - intros Hp Hz. rewrite read_dir_open by lia.
    unfold read_result.
    destruct (Z.geb_spec ppos (Z.of_nat (length (dir_info_text ci))));
      [lia |].
    pose proof (u32_range size) as Hsz.
    destruct (Z.eqb_spec
                (Z.max 0 (Z.min (Z.min (Int.u32 size)
                                   (Z.of_nat (length (dir_info_text ci))
                                    - ppos)) mapped)) 0) as [_ | N];
      [reflexivity | lia].
Qed.

(** A read of ten bytes at position 250 of a text of 256 returns the
    last six; a read of no bytes at the start returns [-EFAULT]. *)
Lemma read_dir_contract_witness :
  ceph_read_dir quiet true stats1 (opened_info stats1) 10 10 250 (boot tree1)
  = Done (6, opened_info stats1, 256,
          list_ascii_of_string "00500" ++ [LF])
      (boot tree1) /\
  ceph_read_dir quiet true stats1 (opened_info stats1) 10 0 0 (boot tree1)
  = Done (- EFAULT, opened_info stats1, 0, []) (boot tree1).
Proof.
  split.
  - rewrite (proj1 (proj2 (proj2 (read_dir_contract quiet stats1 stats1
                                    closed_info 10 10 250 (boot tree1))))
               ltac:(lia)).
    vm_compute. reflexivity.
  - apply (read_dir_contract quiet stats1 stats1 closed_info 10 0 0
             (boot tree1)); [vm_compute; split; congruence | left; reflexivity].
Defined.

(** ** Reading the text in chunks *)

Lemma read_all_open e ci ci' chunk :
  0 < chunk < 2 ^ 32 ->
  forall fuel ppos s,
    0 <= ppos <= Z.of_nat (length (dir_info_text ci)) ->
    (Z.to_nat (Z.of_nat (length (dir_info_text ci)) - ppos) < fuel)%nat ->
    read_all e fuel ci' (opened_info ci) chunk ppos s
    = Done (0, drop (Z.to_nat ppos) (dir_info_text ci)) s.
Proof.
  intros Hc. set (text := dir_info_text ci).
  induction fuel as [| fuel IH]; intros ppos s Hp Hf; [lia |].
  cbn [read_all].
  rewrite (bind_done _ _ _ _ _
             (read_dir_open e ci ci' chunk chunk ppos s ltac:(lia))).
  fold text. unfold read_result.
  destruct (Z.geb_spec ppos (Z.of_nat (length text))) as [Hge | Hlt].
  - change (0 <=? 0) with true. cbv iota.
    rewrite drop_ge by lia. reflexivity.
  - rewrite (u32_small chunk) by lia.
    set (n := Z.min chunk (Z.of_nat (length text) - ppos)).
    assert (Hn : 0 < n <= chunk) by (unfold n; lia).
    replace (Z.max 0 (Z.min n chunk)) with n by lia.
    destruct (Z.eqb_spec n 0) as [E | _]; [lia |].
    destruct (Z.leb_spec n 0) as [E | _]; [lia |].
    rewrite (bind_done _ _ _ _ _
               (IH (ppos + n) s ltac:(unfold n; lia) ltac:(unfold n; lia))).
    unfold ret. f_equal. f_equal.
    rewrite <- (take_drop (Z.to_nat n) (drop (Z.to_nat ppos) text)) at 2.
    rewrite drop_drop. f_equal. f_equal. lia.
Qed.

(** X21.  Reading the directory from position 0 in chunks of any size
    from 1 byte up, into a buffer that takes them, until a read returns 0,
    yields the text made at the first read, whole and in order, and ends
    with 0. *)
Theorem read_all_yields_text (e : env) (ci : ceph_inode_info) (chunk : Z)
    (fuel : nat) (s : sys) :
  0 < chunk < 2 ^ 32 ->
  kmalloc_fails e (tick s) = false ->
  (277 < fuel)%nat ->
  read_all e fuel ci closed_info chunk 0 s
  = Done (0, dir_info_text ci) (mk_sys (cache s) (trace s) (S (tick s))).
Proof.
  intros Hc Hk Hf. pose proof (dir_info_text_length ci) as Hl.
  pose proof (read_all_open e ci ci chunk Hc fuel 0
                (mk_sys (cache s) (trace s) (S (tick s)))
                ltac:(lia) ltac:(lia)) as R.
  change (drop (Z.to_nat 0) (dir_info_text ci)) with (dir_info_text ci) in R.
  rewrite <- R.
  destruct fuel as [| fuel]; [lia |].
  cbn [read_all]. unfold bind at 1.
  rewrite (read_dir_first e ci chunk chunk 0 s Hk).
  reflexivity.
Qed.

Lemma read_all_yields_text_witness :
  read_all quiet 300 stats1 closed_info 100 0 (boot tree1)
  = Done (0, dir_info_text stats1)
      (mk_sys (cache (boot tree1)) (trace (boot tree1))
         (S (tick (boot tree1)))).
Proof.
  apply (read_all_yields_text quiet stats1 100 300 (boot tree1));
    [lia | reflexivity | lia].
Defined.

(** ** The link-count lease at the moment of sending *)














